(** * Repulsive surfaces: BVH6D, block cluster tree and line search

    A shallow embedding of
      - src/src/spatial/bvh_6d.cpp       (the 6-D bounding volume hierarchy),
      - src/src/block_cluster_tree.cpp   (the block cluster tree and its products),
      - src/src/surface_flow.cpp         (the backtracking line search),
      - src/include/helpers.h, src/src/energy/all_pairs_tpe.cpp and
        src/src/remeshing/remeshing.cpp  (what these call, and the remesher),
    together with the properties of these functions that the specification
    states.

    Numbers.  A C++ [double] is modelled twice.  In the first part it is an
    exact rational ([Q]): sums, products and quotients are exact and every
    comparison is the one of a total order; [INFINITY] is the one non-finite
    value the code writes down and it is [None] there (see
    [AxisSplittingPlane]).  Equality of doubles is [==] on [Q], and a value
    that the code only copies is equal ([=]) to its source.  This is the
    arithmetic of the formulas: which sums and products the code forms, over
    which faces and pairs.  In the module [Binary64] a [double] is a binary64
    float, with rounding, overflow to infinity and NaN: there the
    constructor of the tree and the line search are evaluated on the inputs
    on which rounding, overflow or a NaN decides what the code does.  A
    [size_t] is a [Z] with its wrap-around at 2^64 written out. *)

From Stdlib Require Import List ZArith QArith Qminmax Qabs Qround Lia Lqa Bool Arith.
From Stdlib Require Import Permutation Sorted.
From Stdlib Require Import Floats.
Import ListNotations.

Set Implicit Arguments.
Set Default Proof Using "Type".
Set Warnings "-register-all,-inexact-float".

Open Scope Q_scope.

(** ** Results of calls

    [Returns a]: the call returns [a].  [Aborts]: the call leaves the program
    ([exit(1)]) or reads a vector outside its bounds.  [OutOfFuel]: the
    recursion was cut by the model's fuel; a call that has this result for
    every fuel does not terminate. *)

Inductive outcome (A : Type) : Type :=
| Returns (a : A)
| Aborts
| OutOfFuel.

Arguments Aborts {A}.
Arguments OutOfFuel {A}.

Definition bind {A B : Type} (m : outcome A) (k : A -> outcome B) : outcome B :=
  match m with
  | Returns a => k a
  | Aborts => Aborts
  | OutOfFuel => OutOfFuel
  end.

Definition of_option {A : Type} (o : option A) : outcome A :=
  match o with
  | Some a => Returns a
  | None => Aborts
  end.

(** ** Machine integers *)

Definition size_t_wrap (z : Z) : Z := (z mod 2 ^ 64)%Z.

(** [(size_t) -1], the value the code gives to an index or an element id that
    has not been set. *)
Definition size_t_minus_one : Z := size_t_wrap (-1).

(** ** Vectors of three doubles (geometry-central's [Vector3]) *)

Record Vector3 : Type := mkVector3 { vx : Q; vy : Q; vz : Q }.

Definition vzero : Vector3 := mkVector3 0 0 0.

Definition vadd (a b : Vector3) : Vector3 :=
  mkVector3 (vx a + vx b) (vy a + vy b) (vz a + vz b).

Definition vsub (a b : Vector3) : Vector3 :=
  mkVector3 (vx a - vx b) (vy a - vy b) (vz a - vz b).

(** [c * v] *)
Definition vscale (c : Q) (v : Vector3) : Vector3 :=
  mkVector3 (c * vx v) (c * vy v) (c * vz v).

(** [v / c] *)
Definition vdiv (v : Vector3) (c : Q) : Vector3 :=
  mkVector3 (vx v / c) (vy v / c) (vz v / c).

(** Equality of two vectors as triples of doubles. *)
Definition veq (a b : Vector3) : Prop :=
  vx a == vx b /\ vy a == vy b /\ vz a == vz b.

Definition veqb (a b : Vector3) : bool :=
  Qeq_bool (vx a) (vx b) && Qeq_bool (vy a) (vy b) && Qeq_bool (vz a) (vz b).

(** helpers.h: [vectorMin], [vectorMax] ([fmin], [fmax] on each coordinate). *)
Definition vectorMin (v1 v2 : Vector3) : Vector3 :=
  mkVector3 (Qmin (vx v1) (vx v2)) (Qmin (vy v1) (vy v2)) (Qmin (vz v1) (vz v2)).

Definition vectorMax (v1 v2 : Vector3) : Vector3 :=
  mkVector3 (Qmax (vx v1) (vx v2)) (Qmax (vy v1) (vy v2)) (Qmax (vz v1) (vz v2)).

(** [a < b] on doubles. *)
Definition Qltb (a b : Q) : bool := negb (Qle_bool b a).

(** ** Face bodies *)

Module Body.

Record MassNormalPoint : Type := mk {
  mass : Q;
  normal : Vector3;
  point : Vector3;
  elementID : Z
}.

End Body.

Abbreviation MassNormalPoint := Body.MassNormalPoint.

(** ** bvh_6d.cpp: axes and coordinates *)

Definition NextAxis (axis : Z) : Z :=
  match axis with
  | 0%Z => 1%Z
  | 1%Z => 2%Z
  | 2%Z => 0%Z
  | _ => 0%Z
  end.

(** [None]: the axis is not one of 0..5 and the code calls [exit(1)]. *)
Definition GetCoordFromBody (mp : MassNormalPoint) (axis : Z) : option Q :=
  match axis with
  | 0%Z => Some (vx (Body.point mp))
  | 1%Z => Some (vy (Body.point mp))
  | 2%Z => Some (vz (Body.point mp))
  | 3%Z => Some (vx (Body.normal mp))
  | 4%Z => Some (vy (Body.normal mp))
  | 5%Z => Some (vz (Body.normal mp))
  | _ => None
  end.

(** The coordinates of all bodies on one axis, in the order of the bodies
    (the loop that fills [coords]); [None] as soon as one call exits. *)
Fixpoint all_coords (points : list MassNormalPoint) (axis : Z) : option (list Q) :=
  match points with
  | [] => Some []
  | p :: rest =>
      match GetCoordFromBody p axis, all_coords rest axis with
      | Some c, Some cs => Some (c :: cs)
      | _, _ => None
      end
  end.

(** ** [std::sort] on doubles

    Any sorting algorithm returns the same sequence of values; insertion sort
    stands for it. *)

Fixpoint sort_insert (c : Q) (l : list Q) : list Q :=
  match l with
  | [] => [c]
  | h :: t => if Qle_bool c h then c :: l else h :: sort_insert c t
  end.

Fixpoint sort (l : list Q) : list Q :=
  match l with
  | [] => []
  | h :: t => sort_insert h (sort t)
  end.

(** ** [BVHNode6D::AxisSplittingPlane] *)

(** [sumSquares < minWidths], where [minWidths = None] is [INFINITY]: a
    rational [sumSquares] is below it.  On doubles [sumSquares] can be
    [INFINITY] itself, and is then not below: [Binary64.split_step]. *)
Definition below_min (sumSquares : Q) (minWidths : option Q) : bool :=
  match minWidths with
  | None => true
  | Some m => Qltb sumSquares m
  end.

(** [coords[i]] for an index the loop keeps inside the vector. *)
Definition at_index (coords : list Q) (i : nat) : Q := nth i coords 0.

Definition sumSquares_at (coords : list Q) (nPoints i : nat) : Q :=
  let width1 := at_index coords i - at_index coords 0 in
  let width2 :=
    if Nat.eqb i (nPoints - 1) then 0
    else at_index coords (nPoints - 1) - at_index coords (i + 1) in
  width1 * width1 + width2 * width2.

(** The state of the selection loop: [minWidths] and [splitIndex]. *)
Definition split_state : Type := (option Q * Z)%type.

Definition split_init : split_state := (None, size_t_minus_one).

Definition split_step (coords : list Q) (nPoints : nat)
    (st : split_state) (i : nat) : split_state :=
  let sumSquares := sumSquares_at coords nPoints i in
  if below_min sumSquares (fst st) then (Some sumSquares, Z.of_nat i) else st.

(** The loop [for (i = 0; i < nPoints; i++)] over the sorted coordinates;
    its result is the final [splitIndex]. *)
Definition select_splitIndex (coords : list Q) : Z :=
  let nPoints := length coords in
  snd (fold_left (split_step coords nPoints) (seq 0 nPoints) split_init).

(** [coords[i]] for a [size_t] index: [None] outside the vector. *)
Definition coord_at (coords : list Q) (i : Z) : option Q :=
  if ((0 <=? i) && (i <? Z.of_nat (length coords)))%Z
  then nth_error coords (Z.to_nat i)
  else None.

(** [(coords[splitIndex] + coords[splitIndex + 1]) / 2], the exact midpoint;
    [Binary64.splitPoint_of] is the rounded one. *)
Definition splitPoint_of (coords : list Q) (splitIndex : Z) : option Q :=
  match coord_at coords splitIndex, coord_at coords (size_t_wrap (splitIndex + 1)) with
  | Some a, Some b => Some ((a + b) / 2)
  | _, _ => None
  end.

Definition AxisSplittingPlane (points : list MassNormalPoint) (axis : Z) : option Q :=
  match all_coords points axis with
  | None => None
  | Some coords =>
      let sorted := sort coords in
      splitPoint_of sorted (select_splitIndex sorted)
  end.


(** Splitting the bodies over the plane: [coord <= splitPoint] goes to
    [lesserPoints], the rest to [greaterPoints], each in the order of
    [points].  The loop of the code counts to [int nPoints = points.size()],
    which is the length of the list below 2^31 bodies. *)
Fixpoint split_points (points : list MassNormalPoint) (axis : Z) (splitPoint : Q)
  : option (list MassNormalPoint * list MassNormalPoint) :=
  match points with
  | [] => Some ([], [])
  | p :: rest =>
      match GetCoordFromBody p axis, split_points rest axis splitPoint with
      | Some coord, Some (lesserPoints, greaterPoints) =>
          if Qle_bool coord splitPoint
          then Some (p :: lesserPoints, greaterPoints)
          else Some (lesserPoints, p :: greaterPoints)
      | _, _ => None
      end
  end.

(** ** BVH nodes *)

Inductive BVHNodeType : Type := Empty | Leaf | Interior.

(** The fields of [BVHNode6D] that bvh_6d.cpp writes.  [bvhRoot], the pointer
    every node keeps to the root, is left out: a node is a value here and the
    root is the tree it is part of.  [children] is the vector of child
    pointers; the constructor fills it with two nodes or leaves it empty. *)
Inductive BVHNode6D : Type := mkBVHNode6D {
  nodeType : BVHNodeType;
  totalMass : Q;
  centerOfMass : Vector3;
  averageNormal : Vector3;
  minCoords : Vector3;
  maxCoords : Vector3;
  elementID : Z;
  nodeID : nat;
  numNodesInBranch : nat;
  splitAxis : Z;
  splitPoint : Q;
  thresholdTheta : Q;
  children : list BVHNode6D
}.

Section BVH.

(** [Vector3::normalize] divides by a square root, which no rational
    operation gives: it is a parameter. *)
Variable normalize : Vector3 -> Vector3.

(** What a read finds in a field that was never written ([minCoords] and
    [maxCoords] of an empty node, [splitPoint] outside interior nodes).
    [nodeID] is not written by the constructor either; it is 0 until
    [assignIDsRecursively] sets it. *)
Variable indeterminate_vec : Vector3.
Variable indeterminate : Q.

(** The loop of [averageDataFromChildren] over the children. *)
Definition average_step (acc : Q * Vector3 * Vector3 * Vector3 * Vector3) (child : BVHNode6D)
  : Q * Vector3 * Vector3 * Vector3 * Vector3 :=
  let '(tm, com, an, mn, mx) := acc in
  (tm + totalMass child,
   vadd com (vscale (totalMass child) (centerOfMass child)),
   vadd an (vscale (totalMass child) (averageNormal child)),
   vectorMin mn (minCoords child),
   vectorMax mx (maxCoords child)).

(** [None]: the node has no child and [children[0]] is outside the vector.
    [centerOfMass /= totalMass] is the exact quotient, and 0 for a
    [totalMass] of 0, where the quotient of doubles is a NaN:
    [Binary64.averageDataFromChildren]. *)
Definition averageDataFromChildren (n : BVHNode6D) : option BVHNode6D :=
  match children n with
  | [] => None
  | child0 :: _ =>
      let '(tm, com, an, mn, mx) :=
        fold_left average_step (children n)
          (0, vzero, vzero, minCoords child0, maxCoords child0) in
      Some (mkBVHNode6D (nodeType n) tm (vdiv com tm) (normalize an) mn mx
              (elementID n) (nodeID n) (numNodesInBranch n)
              (splitAxis n) (splitPoint n) (thresholdTheta n) (children n))
  end.

Definition empty_node (axis : Z) : BVHNode6D :=
  mkBVHNode6D Empty 0 vzero vzero indeterminate_vec indeterminate_vec
    size_t_minus_one 0 1 axis indeterminate (1 # 4) [].

Definition leaf_node (axis : Z) (mp : MassNormalPoint) : BVHNode6D :=
  mkBVHNode6D Leaf (Body.mass mp) (Body.point mp) (Body.normal mp)
    (Body.point mp) (Body.point mp)
    (Body.elementID mp) 0 1 axis indeterminate (1 # 4) [].

(** The interior node once both children are built and before
    [averageDataFromChildren] runs. *)
Definition interior_node (axis : Z) (splitPoint : Q) (lesserNode greaterNode : BVHNode6D)
  : BVHNode6D :=
  mkBVHNode6D Interior 0 vzero vzero indeterminate_vec indeterminate_vec
    size_t_minus_one 0
    (numNodesInBranch lesserNode + numNodesInBranch greaterNode + 1)
    axis splitPoint (1 # 4) [lesserNode; greaterNode].

(** The node [averageDataFromChildren] makes of an interior node with the
    two children [l] and [g]. *)
Definition averaged (axis : Z) (sp : Q) (l g : BVHNode6D) : BVHNode6D :=
  mkBVHNode6D Interior
    (0 + totalMass l + totalMass g)
    (vdiv (vadd (vadd vzero (vscale (totalMass l) (centerOfMass l)))
                (vscale (totalMass g) (centerOfMass g)))
          (0 + totalMass l + totalMass g))
    (normalize (vadd (vadd vzero (vscale (totalMass l) (averageNormal l)))
                     (vscale (totalMass g) (averageNormal g))))
    (vectorMin (vectorMin (minCoords l) (minCoords l)) (minCoords g))
    (vectorMax (vectorMax (maxCoords l) (maxCoords l)) (maxCoords g))
    size_t_minus_one 0
    (numNodesInBranch l + numNodesInBranch g + 1)
    axis sp (1 # 4) [l; g].

(** [BVHNode6D::BVHNode6D(points, axis, root)].  The recursion of the code is
    on the two halves of [points], which need not be shorter than [points];
    [fuel] bounds its depth. *)
Fixpoint BVHNode6D_new (fuel : nat) (points : list MassNormalPoint) (axis : Z)
  : outcome BVHNode6D :=
  match fuel with
  | O => OutOfFuel
  | S fuel' =>
      match points with
      | [] => Returns (empty_node axis)
      | [mp] => Returns (leaf_node axis mp)
      | _ =>
          match AxisSplittingPlane points axis with
          | None => Aborts
          | Some splitPoint =>
              match split_points points axis splitPoint with
              | None => Aborts
              | Some (lesserPoints, greaterPoints) =>
                  let nextAxis := NextAxis axis in
                  bind (BVHNode6D_new fuel' lesserPoints nextAxis) (fun lesserNode =>
                  bind (BVHNode6D_new fuel' greaterPoints nextAxis) (fun greaterNode =>
                  of_option (averageDataFromChildren
                               (interior_node axis splitPoint lesserNode greaterNode))))
              end
          end
      end
  end.

(** The constructor returns. *)
Definition terminates (points : list MassNormalPoint) (axis : Z) : Prop :=
  exists fuel t, BVHNode6D_new fuel points axis = Returns t.

(** The node [n] with another [nodeID] and other children. *)
Definition with_id_children (n : BVHNode6D) (id : nat) (cs : list BVHNode6D) : BVHNode6D :=
  mkBVHNode6D (nodeType n) (totalMass n) (centerOfMass n) (averageNormal n)
    (minCoords n) (maxCoords n) (elementID n) id (numNodesInBranch n)
    (splitAxis n) (splitPoint n) (thresholdTheta n) cs.

(** [BVHNode6D::assignIDsRecursively]: the node with its ids set, and the
    next free id. *)
Fixpoint assignIDsRecursively (n : BVHNode6D) (startID : nat) : BVHNode6D * nat :=
  let assign_children :=
    fix assign_children (cs : list BVHNode6D) (nextID : nat) : list BVHNode6D * nat :=
      match cs with
      | [] => ([], nextID)
      | c :: rest =>
          let (c', nextID') := assignIDsRecursively c nextID in
          let (rest', nextID'') := assign_children rest nextID' in
          (c' :: rest', nextID'')
      end in
  let (children', nextID) :=
    match nodeType n with
    | Interior => assign_children (children n) (startID + 1)%nat
    | _ => (children n, (startID + 1)%nat)
    end in
  (with_id_children n startID children', nextID).

(** [Create6DBVHFromMesh] once the bodies of the faces are gathered in
    [verts]: build from axis 0, then number the nodes from 0. *)
Definition Create6DBVH (fuel : nat) (verts : list MassNormalPoint) : outcome BVHNode6D :=
  bind (BVHNode6D_new fuel verts 0%Z) (fun tree =>
  Returns (fst (assignIDsRecursively tree 0))).

End BVH.

(** The barycenters of the bodies are pairwise distinct. *)
Fixpoint pairwise_distinct (points : list MassNormalPoint) : Prop :=
  match points with
  | [] => True
  | p :: rest =>
      Forall (fun q => ~ veq (Body.point p) (Body.point q)) rest /\ pairwise_distinct rest
  end.

(** All values of a vector are equal to its first. *)
Definition all_equal (coords : list Q) : bool :=
  match coords with
  | [] => true
  | c :: rest => forallb (Qeq_bool c) rest
  end.

(** All bodies have the same coordinate on the axis. *)
Definition degenerate (points : list MassNormalPoint) (axis : Z) : Prop :=
  exists coords, all_coords points axis = Some coords /\ all_equal coords = true.


(** ** Walking a tree *)

(** Every node of the tree, the root first, each with its depth. *)
Fixpoint nodes_with_depth (d : nat) (n : BVHNode6D) : list (nat * BVHNode6D) :=
  (d, n) :: flat_map (nodes_with_depth (S d)) (children n).

Definition subnodes (n : BVHNode6D) : list BVHNode6D :=
  map snd (nodes_with_depth 0 n).

(** The leaves below a node (the node itself when it is a leaf), from left
    to right. *)
Fixpoint leaves (n : BVHNode6D) : list BVHNode6D :=
  match nodeType n with
  | Leaf => [n]
  | _ => flat_map leaves (children n)
  end.

(** The node reached from [n] by taking, in turn, the children with the
    indices of [path]. *)
Fixpoint descend (path : list nat) (n : BVHNode6D) : option BVHNode6D :=
  match path with
  | [] => Some n
  | i :: rest =>
      match nth_error (children n) i with
      | Some c => descend rest c
      | None => None
      end
  end.

Fixpoint height (n : BVHNode6D) : nat :=
  S (fold_right Nat.max 0%nat (map height (children n))).

(** Every interior node of the tree has exactly two children, as the
    constructor makes them. *)
Definition binary_tree (n : BVHNode6D) : Prop :=
  forall N, In N (subnodes n) -> nodeType N = Interior -> length (children N) = 2%nat.

(** The shape of a tree after [assignIDsRecursively] from [s]: binary, no
    children below a leaf or an empty node, the node ids in walking order
    are [s, s + 1, ...], and [numNodesInBranch] of the root counts the
    nodes. *)
Definition well_numbered (s : nat) (t : BVHNode6D) : Prop :=
  binary_tree t /\
  (forall N, In N (subnodes t) -> nodeType N <> Interior -> children N = []) /\
  map nodeID (subnodes t) = seq s (length (subnodes t)) /\
  numNodesInBranch t = length (subnodes t).

(** Sums of doubles and of vectors, from the left as a loop adds them. *)
Definition Qsum (l : list Q) : Q := fold_left Qplus l 0.

Definition vsum (l : list Vector3) : Vector3 := fold_left vadd l vzero.

(** The mass of the leaves below a node and their mass-weighted barycenter
    sum; a leaf keeps the mass of its body in [totalMass] and its barycenter
    in [centerOfMass]. *)
Definition leaf_mass (n : BVHNode6D) : Q := Qsum (map totalMass (leaves n)).

Definition leaf_moment (n : BVHNode6D) : Vector3 :=
  vsum (map (fun l => vscale (totalMass l) (centerOfMass l)) (leaves n)).

(** The two invariants of a node the specification states on masses: the
    total mass is the mass of the leaves below, and the center of mass is
    their mass-weighted mean (a quotient; for a node without leaves it is
    0 / 0, which is 0 on [Q]). *)
Definition mass_center_ok (n : BVHNode6D) : Prop :=
  totalMass n == leaf_mass n /\
  veq (centerOfMass n) (vdiv (leaf_moment n) (leaf_mass n)).

(** What the proof carries from the children to their parent. *)
Definition mass_inv (n : BVHNode6D) : Prop :=
  totalMass n == leaf_mass n /\
  veq (vscale (totalMass n) (centerOfMass n)) (leaf_moment n) /\
  0 <= leaf_mass n /\
  (leaf_mass n == 0 -> veq (leaf_moment n) vzero) /\
  forall N, In N (subnodes n) -> mass_center_ok N.

(** ** block_cluster_tree.cpp *)

(** Modelled from the spec: bvh_6d.h is not among the sources and the
    constructor in bvh_6d.cpp does not write [clusterIndices] or [nElements],
    which block_cluster_tree.cpp reads.  The spec's data model has them as
    the ids of all leaf faces a node contains: none for an empty node, the
    one [elementID] for a leaf, those of the children for an interior
    node. *)
Fixpoint clusterIndices (n : BVHNode6D) : list Z :=
  match nodeType n with
  | Empty => []
  | Leaf => [elementID n]
  | Interior => flat_map clusterIndices (children n)
  end.

Definition nElements (n : BVHNode6D) : nat := length (clusterIndices n).

(** Modelled from the spec: [BVH_N_CHILDREN] is declared in bvh_6d.h; the
    spec expands a pair into 2 x 2 child pairs. *)
Definition BVH_N_CHILDREN : nat := 2.

(** A pair of clusters.  The code keeps two node pointers; a node is
    identified by its [nodeID], which [assignIDsRecursively] makes different
    for different nodes of one tree. *)
Record ClusterPair : Type := mkClusterPair {
  cluster1 : BVHNode6D;
  cluster2 : BVHNode6D
}.

(** All clusters of the pairs are binary trees, and none is higher than
    [h]. *)
Definition binary_pairs (l : list ClusterPair) : Prop :=
  forall p, In p l -> binary_tree (cluster1 p) /\ binary_tree (cluster2 p).

Definition heights_le (h : nat) (l : list ClusterPair) : Prop :=
  forall p, In p l -> (height (cluster1 p) <= h)%nat /\ (height (cluster2 p) <= h)%nat.

(** The pair [(I, J)] covers the pair of faces [(f1, f2)]: [f1] is a face
    of [I] and [f2] a face of [J]. *)
Definition covers (f1 f2 : Z) (pair : ClusterPair) : bool :=
  existsb (Z.eqb f1) (clusterIndices (cluster1 pair))
  && existsb (Z.eqb f2) (clusterIndices (cluster2 pair)).

(** How often the pair covers [(f1, f2)], counting repeated faces. *)
Definition cover_weight (f1 f2 : Z) (pair : ClusterPair) : nat :=
  count_occ Z.eq_dec (clusterIndices (cluster1 pair)) f1
  * count_occ Z.eq_dec (clusterIndices (cluster2 pair)) f2.

Definition total_weight (f1 f2 : Z) (l : list ClusterPair) : nat :=
  list_sum (map (cover_weight f1 f2) l).

(** [pair.cluster1 == pair.cluster2] on node pointers. *)
Definition same_node (a b : BVHNode6D) : bool := Nat.eqb (nodeID a) (nodeID b).

(** A vector of doubles ([Eigen::VectorXd]) read and written at a [size_t]
    index; outside the vector the call aborts. *)
Definition vec_get (v : list Q) (i : Z) : outcome Q := of_option (coord_at v i).

Fixpoint list_set {A : Type} (l : list A) (i : nat) (a : A) : option (list A) :=
  match l, i with
  | [], _ => None
  | _ :: t, O => Some (a :: t)
  | h :: t, S i' =>
      match list_set t i' a with
      | Some t' => Some (h :: t')
      | None => None
      end
  end.

Definition vec_set (v : list Q) (i : Z) (a : Q) : outcome (list Q) :=
  if (i <? 0)%Z then Aborts else of_option (list_set v (Z.to_nat i) a).

(** The entry [i] of a vector, for an index inside it. *)
Definition vec_at (v : list Q) (i : Z) : Q := nth (Z.to_nat i) v 0.

(** The sum of [g j] over the elements [j] of a list. *)
Fixpoint sum_over {A : Type} (l : list A) (g : A -> Q) : Q :=
  match l with
  | [] => 0
  | j :: rest => g j + sum_over rest g
  end.

(** The index [i] is inside the vector. *)
Definition in_vector (v : list Q) (i : Z) : Prop := (0 <= i < Z.of_nat (length v))%Z.

(** A loop over a list whose body may abort. *)
Fixpoint foldM {A S : Type} (body : S -> A -> outcome S) (l : list A) (s : S) : outcome S :=
  match l with
  | [] => Returns s
  | a :: rest => bind (body s a) (foldM body rest)
  end.

Section BCT.

(** The Euclidean norm of a vector, a square root. *)
Variable norm : Vector3 -> Q.

(** [BVHNode6D::boxContainsPoint], declared in bvh_6d.h: whether the bounding
    box of a node contains a point. *)
Variable boxContainsPoint : BVHNode6D -> Vector3 -> bool.

(** [Hs::MetricDistanceTermFrac (s, x, y)], the metric distance term
    [1 / |x - y|^(2 + 2 s)] of hs_operators.h. *)
Variable MetricDistanceTermFrac : Q -> Vector3 -> Vector3 -> Q.

(** The mesh and its geometry, by face index: [geom->faceAreas[mesh->face(i)]]
    and [faceBarycenters[mesh->face(i)]]. *)
Variable faceAreas : Z -> Q.
Variable faceBarycenters : Z -> Vector3.

(** The members [exp_s] and [separationCoeff]. *)
Variable exp_s : Q.
Variable separationCoeff : Q.

(** Modelled from the spec: [BVHNode6D::nodeRatio] is declared in bvh_6d.h;
    the spec gives [diag(box).norm() / d], as [BVHNode3D::nodeRatio] of
    bvh_3d.h has it. *)
Definition nodeRatio (n : BVHNode6D) (d : Q) : Q :=
  norm (vsub (maxCoords n) (minCoords n)) / d.

Definition isPairSmallEnough (pair : ClusterPair) : bool :=
  let s1 := nElements (cluster1 pair) in
  let s2 := nElements (cluster2 pair) in
  (s1 <=? 1)%nat || (s2 <=? 1)%nat || (s1 + s2 <=? 8)%nat.

Definition isPairAdmissible (pair : ClusterPair) (theta : Q) : bool :=
  if same_node (cluster1 pair) (cluster2 pair) then false
  else if boxContainsPoint (cluster1 pair) (centerOfMass (cluster2 pair))
          || boxContainsPoint (cluster2 pair) (centerOfMass (cluster1 pair))
  then false
  else
    let distance := norm (vsub (centerOfMass (cluster1 pair)) (centerOfMass (cluster2 pair))) in
    let ratio1 := nodeRatio (cluster1 pair) distance in
    let ratio2 := nodeRatio (cluster2 pair) distance in
    Qltb (Qmax ratio1 ratio2) theta.

(** The three pair lists the build loop works on. *)
Record PairLists : Type := mkPairLists {
  admissiblePairs : list ClusterPair;
  inadmissiblePairs : list ClusterPair;
  unresolvedPairs : list ClusterPair
}.

(** [children[i]]; outside the vector the call aborts. *)
Definition child_at (n : BVHNode6D) (i : nat) : outcome BVHNode6D :=
  of_option (nth_error (children n) i).

(** The two nested loops that push the child pairs of [pair] on [nextPairs]. *)
Definition push_child_pairs (pair : ClusterPair) (nextPairs : list ClusterPair)
  : outcome (list ClusterPair) :=
  foldM (fun acc i =>
    foldM (fun acc' j =>
      bind (child_at (cluster1 pair) i) (fun ci =>
      bind (child_at (cluster2 pair) j) (fun cj =>
      Returns (acc' ++ [mkClusterPair ci cj]))))
      (seq 0 BVH_N_CHILDREN) acc)
    (seq 0 BVH_N_CHILDREN) nextPairs.

(** The body of the loop of [splitInadmissibleNodes] for one unresolved pair;
    the state is the admissible list, the inadmissible list and
    [nextPairs]. *)
Definition split_pair (st : list ClusterPair * list ClusterPair * list ClusterPair)
    (pair : ClusterPair)
  : outcome (list ClusterPair * list ClusterPair * list ClusterPair) :=
  let '(adm, inadm, nextPairs) := st in
  if (nElements (cluster1 pair) =? 0)%nat || (nElements (cluster2 pair) =? 0)%nat
  then Returns st
  else if (nElements (cluster1 pair) =? 1)%nat && (nElements (cluster2 pair) =? 1)%nat
  then Returns (adm, inadm ++ [pair], nextPairs)
  else if isPairAdmissible pair separationCoeff
  then Returns (adm ++ [pair], inadm, nextPairs)
  else if isPairSmallEnough pair
  then Returns (adm, inadm ++ [pair], nextPairs)
  else bind (push_child_pairs pair nextPairs) (fun nextPairs' =>
       Returns (adm, inadm, nextPairs')).

Definition splitInadmissibleNodes (l : PairLists) : outcome PairLists :=
  bind (foldM split_pair (unresolvedPairs l)
          (admissiblePairs l, inadmissiblePairs l, []))
       (fun '(adm, inadm, nextPairs) => Returns (mkPairLists adm inadm nextPairs)).

(** [while (unresolvedPairs.size() > 0) splitInadmissibleNodes();] *)
Fixpoint split_loop (fuel : nat) (l : PairLists) : outcome PairLists :=
  match unresolvedPairs l with
  | [] => Returns l
  | _ :: _ =>
      match fuel with
      | O => OutOfFuel
      | S fuel' => bind (splitInadmissibleNodes l) (split_loop fuel')
      end
  end.

(** The pair lists when the loop of the constructor has ended, from the
    one unresolved pair [(root, root)]. *)
Definition build_pairs (fuel : nat) (tree_root : BVHNode6D) : outcome PairLists :=
  split_loop fuel (mkPairLists [] [] [mkClusterPair tree_root tree_root]).

(** All pairs of the three lists. *)
Definition all_pairs (l : PairLists) : list ClusterPair :=
  admissiblePairs l ++ inadmissiblePairs l ++ unresolvedPairs l.

(** *** The build rules in the words of the specification (4.2 and 4.5)

    What follows is written from the specification, to be compared with
    [isPairAdmissible], [splitInadmissibleNodes] and [split_loop] above. *)

Inductive verdict : Type := Dropped | MadeInadmissible | MadeAdmissible | Expanded.

Definition verdict_eqb (a b : verdict) : bool :=
  match a, b with
  | Dropped, Dropped => true
  | MadeInadmissible, MadeInadmissible => true
  | MadeAdmissible, MadeAdmissible => true
  | Expanded, Expanded => true
  | _, _ => false
  end.

(** 4.2: I and J differ, neither box contains the center of mass of the
    other, and with [d] the distance of the centers the larger of
    [diag(box).norm() / d] is below theta. *)
Definition spec_pairwise_admissible (I J : BVHNode6D) (theta : Q) : bool :=
  let d := norm (vsub (centerOfMass I) (centerOfMass J)) in
  let r_i := norm (vsub (maxCoords I) (minCoords I)) / d in
  let r_j := norm (vsub (maxCoords J) (minCoords J)) / d in
  negb (nodeID I =? nodeID J)%nat
  && negb (boxContainsPoint I (centerOfMass J))
  && negb (boxContainsPoint J (centerOfMass I))
  && Qltb (Qmax r_i r_j) theta.

(** 4.5: the rules in their order. *)
Definition spec_classify (pair : ClusterPair) : verdict :=
  let I := cluster1 pair in
  let J := cluster2 pair in
  if (nElements I =? 0)%nat || (nElements J =? 0)%nat then Dropped
  else if (nElements I =? 1)%nat && (nElements J =? 1)%nat then MadeInadmissible
  else if spec_pairwise_admissible I J separationCoeff then MadeAdmissible
  else if (nElements I <=? 1)%nat || (nElements J <=? 1)%nat
          || (nElements I + nElements J <=? 8)%nat then MadeInadmissible
  else Expanded.

(** The 2 x 2 child pairs of a pair: the first two children of I with the
    first two of J, I's child outermost. *)
Definition spec_child_pairs (pair : ClusterPair) : list ClusterPair :=
  map (fun ab => mkClusterPair (fst ab) (snd ab))
    (list_prod (firstn 2 (children (cluster1 pair))) (firstn 2 (children (cluster2 pair)))).

Definition has_verdict (v : verdict) (pair : ClusterPair) : bool :=
  verdict_eqb (spec_classify pair) v.

(** One round over the unresolved pairs. *)
Definition spec_round (l : PairLists) : PairLists :=
  mkPairLists
    (admissiblePairs l ++ filter (has_verdict MadeAdmissible) (unresolvedPairs l))
    (inadmissiblePairs l ++ filter (has_verdict MadeInadmissible) (unresolvedPairs l))
    (flat_map spec_child_pairs (filter (has_verdict Expanded) (unresolvedPairs l))).

(** [OrganizePairsByFirst]: one bucket for each node id, each pair pushed on
    the bucket of its first cluster. *)
Fixpoint push_bucket (buckets : list (list ClusterPair)) (i : nat) (pair : ClusterPair)
  : option (list (list ClusterPair)) :=
  match buckets, i with
  | [], _ => None
  | b :: rest, O => Some ((b ++ [pair]) :: rest)
  | b :: rest, S i' =>
      match push_bucket rest i' pair with
      | Some rest' => Some (b :: rest')
      | None => None
      end
  end.

Definition OrganizePairsByFirst (tree_root : BVHNode6D) (adm : list ClusterPair)
  : outcome (list (list ClusterPair)) :=
  foldM (fun buckets pair => of_option (push_bucket buckets (nodeID (cluster1 pair)) pair))
    adm (repeat [] (numNodesInBranch tree_root)).

(** *** The percolated product

    Modelled from the spec: [DataTree], [PercolationData] and
    [CreateDataTree] are declared in headers that are not among the sources.
    The data tree has one [PercolationData] (the doubles [wtDot] and [B],
    both 0 at first) for each node of the BVH, found from the node while the
    tree is walked and through [byIndex[nodeID]]; here the two tables
    [wtDot] and [B] are indexed by [nodeID]. *)

Definition table : Type := nat -> Q.

Definition table_zero : table := fun _ => 0.

Definition table_set (t : table) (k : nat) (a : Q) : table :=
  fun j => if Nat.eqb j k then a else t j.

(** [percolateWtDot]: the [wtDot] table once the node and all below it are
    done, and the [wtDot] of the node. *)
Fixpoint percolateWtDot (n : BVHNode6D) (v : list Q) (wtDot : table) : outcome (table * Q) :=
  let over_children :=
    fix over_children (cs : list BVHNode6D) (wtDot : table) (rootSum : Q)
      : outcome (table * Q) :=
      match cs with
      | [] => Returns (wtDot, rootSum)
      | child :: rest =>
          bind (percolateWtDot child v wtDot) (fun '(wtDot', childWtDot) =>
          over_children rest wtDot' (rootSum + childWtDot))
      end in
  bind (match nodeType n with
        | Leaf =>
            bind (vec_get v (elementID n)) (fun v_i =>
            Returns (wtDot, totalMass n * v_i))
        | _ => over_children (children n) wtDot 0
        end)
       (fun '(wtDot', rootSum) => Returns (table_set wtDot' (nodeID n) rootSum, rootSum)).

(** [percolateJ]: the [B] table and the vector [b] once the node and all
    below it are done. *)
Fixpoint percolateJ (n : BVHNode6D) (parentB : Q) (b : list Q) (B : table)
  : outcome (table * list Q) :=
  let over_children :=
    fix over_children (cs : list BVHNode6D) (nodeB : Q) (b : list Q) (B : table)
      : outcome (table * list Q) :=
      match cs with
      | [] => Returns (B, b)
      | child :: rest =>
          bind (percolateJ child nodeB b B) (fun '(B', b') =>
          over_children rest nodeB b' B')
      end in
  let nodeB := B (nodeID n) + parentB in
  let B1 := table_set B (nodeID n) nodeB in
  bind (match nodeType n with
        | Leaf => vec_set b (elementID n) (totalMass n * nodeB)
        | _ => Returns b
        end)
       (fun b1 => over_children (children n) nodeB b1 B1).

(** The loop over the buckets of [admissibleByCluster] and the pairs of each
    bucket. *)
Definition add_pair_term (wtDot : table) (B : table) (pair : ClusterPair) : table :=
  let a_IJ := MetricDistanceTermFrac exp_s (centerOfMass (cluster1 pair))
                (centerOfMass (cluster2 pair)) in
  table_set B (nodeID (cluster1 pair))
    (B (nodeID (cluster1 pair)) + a_IJ * wtDot (nodeID (cluster2 pair))).

Definition cluster_terms (admissibleByCluster : list (list ClusterPair)) (wtDot : table)
  : table :=
  fold_left (fun B bucket => fold_left (add_pair_term wtDot) bucket B)
    admissibleByCluster table_zero.

(** [MultiplyAfPercolated (v, b)]: the new value of [b].  [v] is read only
    by [percolateWtDot], before [b] is first written, so the call of
    [PremultiplyAf1] with the same vector for both is covered. *)
Definition MultiplyAfPercolated (tree_root : BVHNode6D)
    (admissibleByCluster : list (list ClusterPair)) (v b : list Q) : outcome (list Q) :=
  bind (percolateWtDot tree_root v table_zero) (fun '(wtDot, _) =>
  let B := cluster_terms admissibleByCluster wtDot in
  bind (percolateJ tree_root 0 b B) (fun '(_, b') => Returns b')).

(** [PremultiplyAf1]: [Af_1.setOnes(nElements)], then the percolated product
    of [Af_1] into itself. *)
Definition PremultiplyAf1 (tree_root : BVHNode6D)
    (admissibleByCluster : list (list ClusterPair)) : outcome (list Q) :=
  let ones := repeat 1 (nElements tree_root) in
  MultiplyAfPercolated tree_root admissibleByCluster ones ones.

(** What the constructor leaves in the object. *)
Record BlockClusterTree : Type := mkBlockClusterTree {
  tree_root : BVHNode6D;
  pairs : PairLists;
  admissibleByCluster : list (list ClusterPair);
  Af_1 : list Q
}.

Definition BlockClusterTree_new (fuel : nat) (root : BVHNode6D) : outcome BlockClusterTree :=
  bind (build_pairs fuel root) (fun l =>
  bind (OrganizePairsByFirst root (admissiblePairs l)) (fun buckets =>
  bind (PremultiplyAf1 root buckets) (fun af1 =>
  Returns (mkBlockClusterTree root l buckets af1)))).

(** *** [AfFullProduct] *)

(** The inner loop over the faces of [cluster2] for the face [f1_ind]:
    [a_times_one_i] and [a_times_v_i]. *)
Definition full_inner (v_mid : list Q) (f1_ind : Z) (acc : Q * Q) (f2_ind : Z)
  : outcome (Q * Q) :=
  let '(a_times_one_i, a_times_v_i) := acc in
  let isSame := (f1_ind =? f2_ind)%Z in
  let mid1 := faceBarycenters f1_ind in
  let mid2 := faceBarycenters f2_ind in
  let l2 := faceAreas f2_ind in
  let af_ij := if isSame then 0 else l2 * MetricDistanceTermFrac exp_s mid1 mid2 in
  bind (vec_get v_mid f2_ind) (fun v2 =>
  Returns (a_times_one_i + af_ij, a_times_v_i + af_ij * v2)).

(** The body of the outer loop for one face of [cluster1]. *)
Definition full_outer (pair : ClusterPair) (v_mid : list Q) (result : list Q) (f1_ind : Z)
  : outcome (list Q) :=
  let l1 := faceAreas f1_ind in
  bind (foldM (full_inner v_mid f1_ind) (clusterIndices (cluster2 pair)) (0, 0))
    (fun '(a_times_one_i, a_times_v_i) =>
  let a_times_one_i := a_times_one_i * l1 in
  let a_times_v_i := a_times_v_i * l1 in
  bind (vec_get v_mid f1_ind) (fun v1 =>
  let toAdd := 2 * (a_times_one_i * v1 - a_times_v_i) in
  bind (vec_get result f1_ind) (fun r =>
  vec_set result f1_ind (r + toAdd)))).

Definition AfFullProduct (pair : ClusterPair) (v_mid : list Q) (result : list Q)
  : outcome (list Q) :=
  foldM (full_outer pair v_mid) (clusterIndices (cluster1 pair)) result.

(** [af_ij], the kernel times the second mass, 0 for the same face. *)
Definition af (i j : Z) : Q :=
  if (i =? j)%Z then 0
  else faceAreas j * MetricDistanceTermFrac exp_s (faceBarycenters i) (faceBarycenters j).

(** *** The operator of the specification (4.5), in its words

    [(A v)_i = 2 area_i sum_(j <> i) area_j k_s(x_i, x_j) (v_i - v_j)], the
    sum over the faces [j] of a list [J]; a face [j = i] adds 0. *)

Definition spec_pair_term (v : list Q) (i j : Z) : Q :=
  if (i =? j)%Z then 0
  else faceAreas j * MetricDistanceTermFrac exp_s (faceBarycenters i) (faceBarycenters j)
       * (vec_at v i - vec_at v j).

Definition spec_row (v : list Q) (J : list Z) (i : Z) : Q :=
  2 * faceAreas i * sum_over J (spec_pair_term v i).

(** The operator on all faces [F]: the entry of face [i]. *)
Definition spec_A (F : list Z) (v : list Q) (i : Z) : Q := spec_row v F i.

End BCT.

(** *** What the percolated product leaves

    The loops over the children, named, and the sums the tables and the
    vector [b] are compared with. *)

(** The loops over the children in [percolateWtDot] and [percolateJ]. *)
Definition percolateWtDot_children (v : list Q) :=
  fix over_children (cs : list BVHNode6D) (wtDot : table) (rootSum : Q)
    : outcome (table * Q) :=
    match cs with
    | [] => Returns (wtDot, rootSum)
    | child :: rest =>
        bind (percolateWtDot child v wtDot) (fun '(wtDot', childWtDot) =>
        over_children rest wtDot' (rootSum + childWtDot))
    end.

Definition percolateJ_children :=
  fix over_children (cs : list BVHNode6D) (nodeB : Q) (b : list Q) (B : table)
    : outcome (table * list Q) :=
    match cs with
    | [] => Returns (B, b)
    | child :: rest =>
        bind (percolateJ child nodeB b B) (fun '(B', b') =>
        over_children rest nodeB b' B')
    end.

(** No node other than an interior one has children. *)
Definition childless_leaves (t : BVHNode6D) : Prop :=
  forall N, In N (subnodes t) -> nodeType N <> Interior -> children N = [].

(** The sum of [mass * v] over the leaves below a node. *)
Definition leaf_dot (v : list Q) (n : BVHNode6D) : Q :=
  sum_over (leaves n) (fun L => totalMass L * vec_at v (elementID L)).

(** The [B] of a node counts for the face [f] when [f] is a face of the
    node. *)
Definition B_for (B : table) (f : Z) (M : BVHNode6D) : Q :=
  if existsb (Z.eqb f) (clusterIndices M) then B (nodeID M) else 0.

(** The term of an admissible pair in the [B] of the node with the id [k]. *)
Definition pair_term (MetricDistanceTermFrac : Q -> Vector3 -> Vector3 -> Q) (exp_s : Q)
    (wtDot : table) (k : nat) (pair : ClusterPair) : Q :=
  if (nodeID (cluster1 pair) =? k)%nat
  then MetricDistanceTermFrac exp_s (centerOfMass (cluster1 pair)) (centerOfMass (cluster2 pair))
       * wtDot (nodeID (cluster2 pair))
  else 0.

(** Both clusters of every pair of the list are nodes of the tree. *)
Definition pairs_below (root : BVHNode6D) (l : list ClusterPair) : Prop :=
  forall p, In p l -> In (cluster1 p) (subnodes root) /\ In (cluster2 p) (subnodes root).

(** ** surface_flow.cpp *)

(** A vertex of the mesh, and the positions [geom->inputVertexPositions] of
    all vertices. *)
Definition GCVertex : Type := nat.

Definition VertexPositions : Type := GCVertex -> Vector3.

Definition set_position (p : VertexPositions) (v : GCVertex) (x : Vector3) : VertexPositions :=
  fun u => if Nat.eqb u v then x else p u.

(** A matrix with three columns ([Eigen::MatrixXd]), one [Vector3] for each
    row.  [GetRow] and a write to a row abort outside the matrix. *)
Definition Matrix3 : Type := list Vector3.

Definition GetRow (A : Matrix3) (i : nat) : outcome Vector3 := of_option (nth_error A i).

Definition set_row (A : Matrix3) (i : nat) (x : Vector3) : outcome Matrix3 :=
  of_option (list_set A i x).

Definition LS_STEP_THRESHOLD : Q := 1 # 10000000000.

Section Flow.

(** The mesh: its vertices in the order [mesh->vertices()] gives them, and
    the index [mesh->getVertexIndices()] gives to each. *)
Variable vertices : list GCVertex.
Variable indices : GCVertex -> nat.

(** [energy->Value()] and [energy->Differential(..)], which read the current
    vertex positions, and [Eigen]'s [norm()] of a matrix (a square root). *)
Variable Value : VertexPositions -> Q.
Variable Differential : VertexPositions -> Matrix3.
Variable matrix_norm : Matrix3 -> Q.

Definition SaveCurrentPositions (positions : VertexPositions) : outcome Matrix3 :=
  foldM (fun origPositions v => set_row origPositions (indices v) (positions v))
    vertices (repeat vzero (length vertices)).

Definition RestorePositions (origPositions : Matrix3) (positions : VertexPositions)
  : outcome VertexPositions :=
  foldM (fun positions v =>
    bind (GetRow origPositions (indices v)) (fun pos_v =>
    Returns (set_position positions v pos_v)))
    vertices positions.

Definition SetGradientStep (gradient : Matrix3) (delta : Q) (origPositions : Matrix3)
    (positions : VertexPositions) : outcome VertexPositions :=
  foldM (fun positions v =>
    bind (GetRow origPositions (indices v)) (fun pos_v =>
    bind (GetRow gradient (indices v)) (fun grad_v =>
    Returns (set_position positions v (vsub pos_v (vscale delta grad_v))))))
    vertices positions.

(** The value [SetGradientStep] writes for the vertex [v]. *)
Definition stepped (gradient : Matrix3) (delta : Q) (origPositions : Matrix3) (v : GCVertex)
  : outcome Vector3 :=
  bind (GetRow origPositions (indices v)) (fun pos_v =>
  bind (GetRow gradient (indices v)) (fun grad_v =>
  Returns (vsub pos_v (vscale delta grad_v)))).

(** The [while (delta > LS_STEP_THRESHOLD)] loop of [LineSearchStep]: the
    final [delta], the positions it leaves and [numBacktracks].  Of two
    rational numbers one is below the other or not; an energy that is a NaN
    is below nothing, and the loop on doubles is [Binary64.backtrack]. *)
Fixpoint backtrack (fuel : nat) (gradient : Matrix3) (gradDot : Q) (origPositions : Matrix3)
    (initialEnergy gradNorm : Q) (delta : Q) (positions : VertexPositions)
    (numBacktracks : nat) : outcome (Q * VertexPositions * nat) :=
  if Qltb LS_STEP_THRESHOLD delta then
    match fuel with
    | O => OutOfFuel
    | S fuel' =>
        bind (SetGradientStep gradient delta origPositions positions) (fun positions' =>
        let nextEnergy := Value positions' in
        let decrease := initialEnergy - nextEnergy in
        let sigma := 1 # 100 in
        let targetDecrease := sigma * delta * gradNorm * gradDot in
        if Qltb decrease targetDecrease
        then backtrack fuel' gradient gradDot origPositions initialEnergy gradNorm
               (delta / 2) positions' (S numBacktracks)
        else Returns (delta, positions', numBacktracks))
    end
  else Returns (delta, positions, numBacktracks).

(** [LineSearchStep]: the returned step and the positions it leaves. *)
Definition LineSearchStep (fuel : nat) (gradient : Matrix3) (initGuess gradDot : Q)
    (positions : VertexPositions) : outcome (Q * VertexPositions) :=
  let delta := initGuess in
  bind (SaveCurrentPositions positions) (fun origPositions =>
  let initialEnergy := Value positions in
  let gradNorm := matrix_norm gradient in
  if Qltb gradNorm (1 # 10000000000) then Returns (0, positions)
  else
    bind (backtrack fuel gradient gradDot origPositions initialEnergy gradNorm
            delta positions 0)
      (fun '(delta, positions', _) =>
    if Qle_bool delta LS_STEP_THRESHOLD
    then bind (RestorePositions origPositions positions') (fun restored =>
         Returns (0, restored))
    else Returns (delta, positions'))).

(** [StepLineSearch]: the step [LineSearchStep] returns (the code prints the
    energies and drops it) and the positions. *)
Definition StepLineSearch (fuel : nat) (positions : VertexPositions)
  : outcome (Q * VertexPositions) :=
  let gradient := Differential positions in
  let initGuess := 1 / matrix_norm gradient in
  LineSearchStep fuel gradient initGuess 1 positions.

End Flow.

(** ** block_cluster_tree.cpp: the products over the pair lists *)

Section BCT_products.

Variable MetricDistanceTermFrac : Q -> Vector3 -> Vector3 -> Q.
Variable faceAreas : Z -> Q.
Variable faceBarycenters : Z -> Vector3.
Variable exp_s : Q.

(** [fillClusterMasses]: the areas of the faces of a cluster, in the order
    of [clusterIndices]. *)
Definition fillClusterMasses (cluster : BVHNode6D) : list Q :=
  map faceAreas (clusterIndices cluster).

(** The loop of [AfApproxProduct] that dots [wf_j] with [v_mid] on the faces
    of the second cluster; an element is [(wf_j(j), clusterIndices[j])]. *)
Definition approx_dot (v_mid : list Q) (a_wf_J : Q) (wj : Q * Z) : outcome Q :=
  bind (vec_get v_mid (snd wj)) (fun v_j => Returns (a_wf_J + fst wj * v_j)).

(** The loop of [AfApproxProduct] that adds in the results; an element is
    [(wf_i[i], clusterIndices[i])]. *)
Definition approx_add (v_mid : list Q) (a_wf_1 a_wf_J : Q) (result : list Q) (wi : Q * Z)
  : outcome (list Q) :=
  bind (vec_get v_mid (snd wi)) (fun v_i =>
  let toAdd := fst wi * 2 * (a_wf_1 * v_i - a_wf_J) in
  bind (vec_get result (snd wi)) (fun r =>
  vec_set result (snd wi) (r + toAdd))).

Definition AfApproxProduct (pair : ClusterPair) (v_mid : list Q) (result : list Q)
  : outcome (list Q) :=
  let wf_i := fillClusterMasses (cluster1 pair) in
  let wf_j := fillClusterMasses (cluster2 pair) in
  let a_IJ := MetricDistanceTermFrac exp_s (centerOfMass (cluster1 pair))
                (centerOfMass (cluster2 pair)) in
  let a_wf_1 := a_IJ * Qsum wf_j in
  bind (foldM (approx_dot v_mid) (combine wf_j (clusterIndices (cluster2 pair))) 0)
    (fun a_wf_J =>
  let a_wf_J := a_wf_J * a_IJ in
  foldM (approx_add v_mid a_wf_1 a_wf_J) (combine wf_i (clusterIndices (cluster1 pair)))
    result).

(** [MultiplyAdmissible] and [MultiplyAdmissibleExact]: one product for each
    admissible pair, all into [b_hat]. *)
Definition MultiplyAdmissible (bct : BlockClusterTree) (v_hat b_hat : list Q)
  : outcome (list Q) :=
  foldM (fun b pair => AfApproxProduct pair v_hat b) (admissiblePairs (pairs bct)) b_hat.

Definition MultiplyAdmissibleExact (bct : BlockClusterTree) (v_hat b_hat : list Q)
  : outcome (list Q) :=
  foldM (fun b pair =>
           AfFullProduct MetricDistanceTermFrac faceAreas faceBarycenters exp_s pair v_hat b)
    (admissiblePairs (pairs bct)) b_hat.

(** [a += b] on vectors; Eigen wants the two of one size. *)
Definition vec_add (a b : list Q) : outcome (list Q) :=
  if (length a =? length b)%nat
  then Returns (map (fun ab => fst ab + snd ab) (combine a b))
  else Aborts.

(** [MultiplyInadmissible], run by one thread: the products of the
    inadmissible pairs go into a zero vector [result] of the size of
    [b_hat], which is then added to [b_hat]. *)
Definition MultiplyInadmissible (bct : BlockClusterTree) (v_hat b_hat : list Q)
  : outcome (list Q) :=
  bind (foldM (fun result pair =>
                 AfFullProduct MetricDistanceTermFrac faceAreas faceBarycenters exp_s
                   pair v_hat result)
          (inadmissiblePairs (pairs bct)) (repeat 0 (length b_hat)))
    (fun result => vec_add b_hat result).

(** [MultiplyAdmissiblePercolated]: the percolated product, then
    [b = 2 * (Af_1.asDiagonal() * v - b)], three vectors of one size. *)
Definition MultiplyAdmissiblePercolated (bct : BlockClusterTree) (v b : list Q)
  : outcome (list Q) :=
  bind (MultiplyAfPercolated MetricDistanceTermFrac exp_s (tree_root bct)
          (admissibleByCluster bct) v b) (fun b1 =>
  if ((length (Af_1 bct) =? length v) && (length v =? length b1))%nat
  then Returns (map (fun avb => 2 * (fst avb * fst (snd avb) - snd (snd avb)))
                  (combine (Af_1 bct) (combine v b1)))
  else Aborts).

End BCT_products.

(** The product with the kernel taken at the centers of mass of the two
    clusters: the term of the faces [i] and [j]. *)
Definition approx_pair_term (faceAreas : Z -> Q) (a_IJ : Q) (v : list Q) (i j : Z) : Q :=
  faceAreas j * a_IJ * (vec_at v i - vec_at v j).

(** All faces of the tree are indices of the vector. *)
Definition faces_inside (root : BVHNode6D) (v : list Q) : Prop :=
  forall f, In f (clusterIndices root) -> in_vector v f.

(** The leaves of the tree carry the areas of their faces as masses. *)
Definition masses_are_areas (faceAreas : Z -> Q) (root : BVHNode6D) : Prop :=
  forall L, In L (leaves root) -> totalMass L == faceAreas (elementID L).

(** ** bvh_6d.cpp: other members of [BVHNode6D] *)

Definition GetMassNormalPoint (n : BVHNode6D) : MassNormalPoint :=
  Body.mk (totalMass n) (averageNormal n) (centerOfMass n) (elementID n).

(** [getSingleFace]: the face [mesh->face(elementID)], a face being known
    by its index; on a node that is not a leaf the code calls [exit(1)]. *)
Definition getSingleFace (n : BVHNode6D) : outcome Z :=
  match nodeType n with
  | Leaf => Returns (elementID n)
  | _ => Aborts
  end.

(** [addAllFaces]: the vector [faces] with the faces of the leaves below the
    node pushed on it. *)
Fixpoint addAllFaces (n : BVHNode6D) (faces : list Z) : outcome (list Z) :=
  match nodeType n with
  | Empty => Returns faces
  | Leaf => bind (getSingleFace n) (fun f => Returns (faces ++ [f]))
  | Interior =>
      (fix over_children (cs : list BVHNode6D) (faces : list Z) : outcome (list Z) :=
         match cs with
         | [] => Returns faces
         | child :: rest => bind (addAllFaces child faces) (over_children rest)
         end) (children n) faces
  end.

(** The point [p] is in the box from [minCoords] to [maxCoords] of the
    node, the bounds included. *)
Definition inside_box (n : BVHNode6D) (p : Vector3) : Prop :=
  (vx (minCoords n) <= vx p /\ vx p <= vx (maxCoords n)) /\
  (vy (minCoords n) <= vy p /\ vy p <= vy (maxCoords n)) /\
  (vz (minCoords n) <= vz p /\ vz p <= vz (maxCoords n)).

(** *** [recomputeCentersOfMass] *)

Section Recompute.

Variable normalize : Vector3 -> Vector3.

(** The geometry by face index: [geom->faceArea(mesh->face(i))] and
    [faceBarycenter(geom, mesh->face(i))] of helpers.h. *)
Variable faceArea : Z -> Q.
Variable faceBarycenter : Z -> Vector3.

(** What the call writes to an empty node and to a leaf. *)
Definition recomputed_empty (n : BVHNode6D) : BVHNode6D :=
  mkBVHNode6D (nodeType n) 0 vzero (averageNormal n) (minCoords n) (maxCoords n)
    (elementID n) (nodeID n) (numNodesInBranch n) (splitAxis n) (splitPoint n)
    (thresholdTheta n) (children n).

Definition recomputed_leaf (n : BVHNode6D) : BVHNode6D :=
  let c := faceBarycenter (elementID n) in
  mkBVHNode6D (nodeType n) (faceArea (elementID n)) c (averageNormal n) c c
    (elementID n) (nodeID n) (numNodesInBranch n) (splitAxis n) (splitPoint n)
    (thresholdTheta n) (children n).

(** The node after the call; the children of an interior node are the
    children after their own calls. *)
Fixpoint recomputeCentersOfMass (n : BVHNode6D) : outcome BVHNode6D :=
  match nodeType n with
  | Empty => Returns (recomputed_empty n)
  | Leaf => Returns (recomputed_leaf n)
  | Interior =>
      bind ((fix over_children (cs : list BVHNode6D) : outcome (list BVHNode6D) :=
               match cs with
               | [] => Returns []
               | child :: rest =>
                   bind (recomputeCentersOfMass child) (fun child' =>
                   bind (over_children rest) (fun rest' =>
                   Returns (child' :: rest')))
               end) (children n))
        (fun children' =>
           of_option (averageDataFromChildren normalize
                        (with_id_children n (nodeID n) children')))
  end.

(** The loop over the children, named. *)
Definition recompute_children :=
  fix over_children (cs : list BVHNode6D) : outcome (list BVHNode6D) :=
    match cs with
    | [] => Returns []
    | child :: rest =>
        bind (recomputeCentersOfMass child) (fun child' =>
        bind (over_children rest) (fun rest' =>
        Returns (child' :: rest')))
    end.

End Recompute.

(** What a node keeps through [recomputeCentersOfMass]. *)
Definition node_kind (n : BVHNode6D) : BVHNodeType * nat * Z * nat * Z * nat :=
  (nodeType n, nodeID n, elementID n, numNodesInBranch n, splitAxis n,
   length (children n)).

(** What holds for a node after [recomputeCentersOfMass]: its mass is the
    sum of the areas of its faces, and every leaf below it has the area and
    the barycenter of its face, inside the box of the node. *)
Definition recomputed (faceArea : Z -> Q) (faceBarycenter : Z -> Vector3) (N : BVHNode6D)
  : Prop :=
  totalMass N == sum_over (clusterIndices N) faceArea /\
  forall L, In L (leaves N) ->
    totalMass L = faceArea (elementID L) /\
    centerOfMass L = faceBarycenter (elementID L) /\
    inside_box N (centerOfMass L).

(** ** surface_flow.cpp: [StepNaive] *)

(** [v * t], a vector times a double. *)
Definition vtimes (v : Vector3) (t : Q) : Vector3 :=
  mkVector3 (vx v * t) (vy v * t) (vz v * t).

(** [StepNaive (t)]: the positions it leaves (the code prints the energy
    before and after).  The gradient is filled once, before the first vertex
    moves. *)
Definition StepNaive (vertices : list GCVertex) (indices : GCVertex -> nat)
    (Differential : VertexPositions -> Matrix3) (t : Q) (positions : VertexPositions)
  : outcome VertexPositions :=
  let gradient := Differential positions in
  foldM (fun positions v =>
    bind (GetRow gradient (indices v)) (fun grad_v =>
    Returns (set_position positions v (vsub (positions v) (vtimes grad_v t)))))
    vertices positions.

(** ** bvh_6d.cpp: [Create6DBVHFromMesh] from the faces *)

(** A face of the mesh ([GCFace]), known by a handle. *)
Definition GCFace : Type := nat.

Section From_mesh.

Variable normalize : Vector3 -> Vector3.
Variable indeterminate_vec : Vector3.
Variable indeterminate : Q.

(** The mesh and its geometry: [mesh->faces()], [mesh->getFaceIndices()],
    [geom->faceArea], [geom->faceNormal] and [faceBarycenter] of
    helpers.h. *)
Variable faces : list GCFace.
Variable faceIndices : GCFace -> Z.
Variable faceArea : GCFace -> Q.
Variable faceNormal : GCFace -> Vector3.
Variable faceBarycenter : GCFace -> Vector3.

Definition meshFaceToBody (f : GCFace) : MassNormalPoint :=
  Body.mk (faceArea f) (faceNormal f) (faceBarycenter f) (faceIndices f).

(** [verts[i] = body] on a vector of bodies; outside the vector the call
    aborts. *)
Definition body_set (verts : list MassNormalPoint) (i : Z) (b : MassNormalPoint)
  : outcome (list MassNormalPoint) :=
  if (i <? 0)%Z then Aborts else of_option (list_set verts (Z.to_nat i) b).

(** The vector [verts] of [nFaces] value-initialised bodies after the loop
    over the faces. *)
Definition gather_bodies : outcome (list MassNormalPoint) :=
  foldM (fun verts f =>
           let curBody := meshFaceToBody f in
           body_set verts (Body.elementID curBody) curBody)
    faces (repeat (Body.mk 0 vzero vzero 0) (length faces)).

Definition Create6DBVHFromMesh (fuel : nat) : outcome BVHNode6D :=
  bind gather_bodies (Create6DBVH normalize indeterminate_vec indeterminate fuel).

End From_mesh.

(** ** helpers.h: [GetVerticesWithoutDuplicates]; all_pairs_tpe.cpp *)

(** [vertInds.count(v)] on the [std::unordered_set] of the vertices met so
    far, kept as the list of its elements. *)
Definition set_count (vertInds : list GCVertex) (v : GCVertex) : nat :=
  if existsb (Nat.eqb v) vertInds then 1 else 0.

(** One turn of either loop: [verts] and [vertInds] after the vertex [v]. *)
Definition push_unseen (state : list GCVertex * list GCVertex) (v : GCVertex)
  : list GCVertex * list GCVertex :=
  let '(verts, vertInds) := state in
  if (set_count vertInds v =? 0)%nat then (verts ++ [v], v :: vertInds) else (verts, vertInds).

(** [output(r, 0) += sum.x; output(r, 1) += sum.y; output(r, 2) += sum.z]: the
    row [r] of the matrix plus [sum]; outside the matrix the access aborts. *)
Definition add_to_row (output : Matrix3) (r : nat) (sum : Vector3) : outcome Matrix3 :=
  bind (GetRow output r) (fun row => set_row output r (vadd row sum)).

Section All_pairs.

(** The faces in the order [kernel->mesh->faces()] gives them, the vertices
    [f.adjacentVertices()] of each, the indices of the vertices and the
    kernel's [tpe_gradient_pair]. *)
Variable faces : list GCFace.
Variable adjacentVertices : GCFace -> list GCVertex.
Variable indices : GCVertex -> nat.
Variable tpe_gradient_pair : GCFace -> GCFace -> GCVertex -> Vector3.

(** [GetVerticesWithoutDuplicates (f1, f2, verts)]: [verts] afterwards. *)
Definition GetVerticesWithoutDuplicates (f1 f2 : GCFace) (verts : list GCVertex)
  : list GCVertex :=
  let vertInds : list GCVertex := [] in
  let after_f1 := fold_left push_unseen (adjacentVertices f1) (verts, vertInds) in
  fst (fold_left push_unseen (adjacentVertices f2) after_f1).

(** [AllPairsTPEnergy::Differential (output)]: [output] afterwards. *)
Definition AllPairs_Differential (output : Matrix3) : outcome Matrix3 :=
  foldM (fun output f1 =>
    foldM (fun output f2 =>
      if (f1 =? f2)%nat then Returns output
      else
        let verts := GetVerticesWithoutDuplicates f1 f2 [] in
        foldM (fun output v =>
          let deriv1 := tpe_gradient_pair f1 f2 v in
          let sum := deriv1 in
          let r := indices v in
          add_to_row output r sum) verts output)
      faces output)
    faces output.

(** What the pairs of distinct faces that touch the vertex [u] give in all,
    in one coordinate and as a vector: each ordered pair once. *)
Definition coordinate_sum (c : Vector3 -> Q) (u : GCVertex) : Q :=
  sum_over faces (fun f1 => sum_over faces (fun f2 =>
    if (f1 =? f2)%nat then 0
    else if existsb (Nat.eqb u) (adjacentVertices f1 ++ adjacentVertices f2)
         then c (tpe_gradient_pair f1 f2 u) else 0)).

Definition gradient_sum (u : GCVertex) : Vector3 :=
  mkVector3 (coordinate_sum vx u) (coordinate_sum vy u) (coordinate_sum vz u).

(** What one pair of faces adds to the row [r], in one coordinate. *)
Definition pair_adds (c : Vector3 -> Q) (r : nat) (f1 f2 : GCFace) : Q :=
  if (f1 =? f2)%nat then 0
  else sum_over (GetVerticesWithoutDuplicates f1 f2 [])
         (fun v => if (r =? indices v)%nat then c (tpe_gradient_pair f1 f2 v) else 0).

End All_pairs.

(** ** remeshing.cpp: [fixDelaunay] *)

(** An edge of the mesh ([Edge]), known by a handle, and an [EdgeData<bool>],
    [false] where nothing was written. *)
Definition Edge : Type := nat.

Definition set_flag (data : Edge -> bool) (e : Edge) (b : bool) : Edge -> bool :=
  fun e' => if Nat.eqb e' e then b else data e'.

(** A [size_t] stored in an [int]. *)
Definition int_of_size_t (z : Z) : Z :=
  let r := (size_t_wrap z mod 2 ^ 32)%Z in
  if (r <? 2 ^ 31)%Z then r else (r - 2 ^ 32)%Z.

(** [if (!inQueue[e]) { toCheck.push (e); inQueue[e] = true; }] *)
Definition push_unqueued (state : list Edge * (Edge -> bool)) (e : Edge)
  : list Edge * (Edge -> bool) :=
  let '(toCheck, inQueue) := state in
  if negb (inQueue e) then (toCheck ++ [e], set_flag inQueue e true) else (toCheck, inQueue).

Section Delaunay.

(** The mesh with its geometry, and what the loop asks of it: the edges, the
    number of vertices, [e.isBoundary ()], [isDelaunay (geometry, e)], the
    edges of [he1], [he2], [he3] and [he4] around the edge, and
    [mesh->flip (e)]. *)
Variable Mesh : Type.
Variable edges : Mesh -> list Edge.
Variable nVertices : Mesh -> Z.
Variable isBoundary : Mesh -> Edge -> bool.
Variable isDelaunay : Mesh -> Edge -> bool.
Variable diamond : Mesh -> Edge -> Edge * Edge * Edge * Edge.
Variable flip : Mesh -> Edge -> Mesh.

(** The [while (!toCheck.empty() && flipCnt < flipMax)] loop: the mesh, the
    queue and [flipCnt] it ends with.  [flipCnt] stays below [flipMax], an
    [int], before each [flipCnt++]. *)
Fixpoint fixDelaunay_loop (fuel : nat) (flipMax : Z) (mesh : Mesh) (toCheck : list Edge)
    (inQueue : Edge -> bool) (flipCnt : Z) : outcome (Mesh * list Edge * Z) :=
  match toCheck with
  | [] => Returns (mesh, toCheck, flipCnt)
  | e :: rest =>
      if (flipCnt <? flipMax)%Z then
        match fuel with
        | O => OutOfFuel
        | S fuel' =>
            let inQueue := set_flag inQueue e false in
            if negb (isBoundary mesh e) && negb (isDelaunay mesh e) then
              let flipCnt := (flipCnt + 1)%Z in
              let '(e1, e2, e3, e4) := diamond mesh e in
              let '(toCheck', inQueue') :=
                fold_left push_unqueued [e1; e2; e3; e4] (rest, inQueue) in
              fixDelaunay_loop fuel' flipMax (flip mesh e) toCheck' inQueue' flipCnt
            else fixDelaunay_loop fuel' flipMax mesh rest inQueue flipCnt
        end
      else Returns (mesh, toCheck, flipCnt)
  end.

(** The edges of [he1], [he2], [he3] and [he4], in this order. *)
Definition diamond_edges (mesh : Mesh) (e : Edge) : list Edge :=
  let '(e1, e2, e3, e4) := diamond mesh e in [e1; e2; e3; e4].

(** [int flipMax = 100 * mesh->nVertices ()] *)
Definition flipMax_of (mesh : Mesh) : Z := int_of_size_t (100 * nVertices mesh).

Definition fixDelaunay (fuel : nat) (mesh : Mesh) : outcome (Mesh * list Edge * Z) :=
  let '(toCheck, inQueue) :=
    fold_left (fun '(toCheck, inQueue) e => (toCheck ++ [e], set_flag inQueue e true))
      (edges mesh) ([], fun _ => false) in
  let flipMax := flipMax_of mesh in
  let flipCnt := 0%Z in
  fixDelaunay_loop fuel flipMax mesh toCheck inQueue flipCnt.

(** What the loop keeps: every edge with its flag up is in the queue, and
    every edge of the mesh with its flag down is on the boundary or
    Delaunay. *)
Definition queue_invariant (mesh : Mesh) (toCheck : list Edge) (inQueue : Edge -> bool)
  : Prop :=
  (forall e, inQueue e = true -> In e toCheck) /\
  (forall e, In e (edges mesh) -> inQueue e = false ->
     isBoundary mesh e = true \/ isDelaunay mesh e = true).

End Delaunay.

(** ** remeshing.cpp: [degreeDifference] and [shouldFlip] *)

(** An [int]: the result of an operation, brought back to 32 bits. *)
Definition int_wrap (z : Z) : Z := ((z + 2 ^ 31) mod 2 ^ 32 - 2 ^ 31)%Z.

Definition int_sub (a b : Z) : Z := int_wrap (a - b).
Definition int_add (a b : Z) : Z := int_wrap (a + b).
Definition int_mul (a b : Z) : Z := int_wrap (a * b).
Definition int_abs (a : Z) : Z := int_wrap (Z.abs a).

Definition degreeDifference (d1 d2 d3 d4 : Z) : Z :=
  int_add
    (int_add
       (int_add (int_mul (int_abs (int_sub d1 6)) (int_abs (int_sub d1 6)))
                (int_mul (int_abs (int_sub d2 6)) (int_abs (int_sub d2 6))))
       (int_mul (int_abs (int_sub d3 6)) (int_abs (int_sub d3 6))))
    (int_mul (int_abs (int_sub d4 6)) (int_abs (int_sub d4 6))).

(** [shouldFlip (mesh, geometry, e)], from what it reads of the mesh: whether
    [diamondAngle (d, c, a, b) < PI / 2], and the degrees of the two ends
    [v1], [v2] of the edge and of the two vertices [v3], [v4] across. *)
Definition shouldFlip (diamondAngle_below_half_pi : bool) (d1 d2 d3 d4 : Z) : bool :=
  if diamondAngle_below_half_pi then false
  else (degreeDifference d1 d2 d3 d4
        >? degreeDifference (int_sub d1 1) (int_sub d2 1) (int_add d3 1) (int_add d4 1))%Z.

(** ** remeshing.cpp: [projectToPlane] and [smoothByLaplacian] *)

(** geometry-central's [dot]. *)
Definition dot (u v : Vector3) : Q := vx u * vx v + vy u * vy v + vz u * vz v.

Definition projectToPlane (v norm : Vector3) : Vector3 :=
  vsub v (vtimes norm (dot norm v)).

Section Smoothing.

(** The mesh: its vertices, [v.isBoundary ()], [v.adjacentVertices ()] and
    [v.degree ()], and [geometry->vertexNormals]. *)
Variable vertices : list GCVertex.
Variable isBoundary : GCVertex -> bool.
Variable adjacentVertices : GCVertex -> list GCVertex.
Variable degree : GCVertex -> Z.
Variable vertexNormals : GCVertex -> Vector3.

(** What the first loop writes to [newVertexPosition[v]]. *)
Definition smoothed (positions : VertexPositions) (v : GCVertex) : Vector3 :=
  if isBoundary v then positions v
  else
    let average :=
      vdiv (fold_left (fun sum j => vadd sum (positions j)) (adjacentVertices v) vzero)
           (inject_Z (degree v)) in
    let updateDirection := vsub average (positions v) in
    let updateDirection := projectToPlane updateDirection (vertexNormals v) in
    vadd (positions v) (vscale 1 updateDirection).

(** [smoothByLaplacian]: the positions after the two loops.  The first fills
    [newVertexPosition], a [VertexData<Vector3>], from the positions as they
    are; the second copies it to the positions. *)
Definition smoothByLaplacian (positions : VertexPositions) : VertexPositions :=
  let newVertexPosition :=
    fold_left (fun newVertexPosition v =>
                 set_position newVertexPosition v (smoothed positions v))
      vertices (fun _ => vzero) in
  fold_left (fun positions v => set_position positions v (newVertexPosition v))
    vertices positions.

End Smoothing.

(** * The same code on binary64 doubles

    Above, a [double] is a rational number: sums, products and quotients are
    exact, and there is no infinity and no NaN.  That is the arithmetic the
    formulas of the specification are written in.  The code runs on IEEE
    binary64, where a result is rounded, overflows to infinity, and where
    every comparison with a NaN is false.  This module is the same code once
    more, function by function, on Rocq's primitive binary64 floats, for the
    places where the two differ in what the code does next: which branch is
    taken, which index is read, whether the recursion ends. *)

Module Binary64.

Local Open Scope float_scope.
Local Set Warnings "-inexact-float".

(** ** geometry-central's [Vector3] *)

Record Vector3 : Type := mkVector3 { vx : float; vy : float; vz : float }.

Definition vzero : Vector3 := mkVector3 0 0 0.

Definition vadd (a b : Vector3) : Vector3 :=
  mkVector3 (vx a + vx b) (vy a + vy b) (vz a + vz b).

Definition vsub (a b : Vector3) : Vector3 :=
  mkVector3 (vx a - vx b) (vy a - vy b) (vz a - vz b).

Definition vscale (c : float) (v : Vector3) : Vector3 :=
  mkVector3 (c * vx v) (c * vy v) (c * vz v).

Definition vdiv (v : Vector3) (c : float) : Vector3 :=
  mkVector3 (vx v / c) (vy v / c) (vz v / c).

(** [fmin] and [fmax]: the other argument when one is a NaN. *)
Definition fmin (a b : float) : float :=
  if PrimFloat.is_nan a then b
  else if PrimFloat.is_nan b then a
  else if a <? b then a else b.

Definition fmax (a b : float) : float :=
  if PrimFloat.is_nan a then b
  else if PrimFloat.is_nan b then a
  else if a <? b then b else a.

Definition vectorMin (v1 v2 : Vector3) : Vector3 :=
  mkVector3 (fmin (vx v1) (vx v2)) (fmin (vy v1) (vy v2)) (fmin (vz v1) (vz v2)).

Definition vectorMax (v1 v2 : Vector3) : Vector3 :=
  mkVector3 (fmax (vx v1) (vx v2)) (fmax (vy v1) (vy v2)) (fmax (vz v1) (vz v2)).

(** The value of a double as a rational number; [None] for an infinity or a
    NaN. *)
Definition exact (x : float) : option Q :=
  match Prim2SF x with
  | S754_zero _ => Some 0%Q
  | S754_finite s m e =>
      let n := if s then Z.neg m else Z.pos m in
      Some (if (0 <=? e)%Z then inject_Z (n * 2 ^ e)
            else Qmake n (Z.to_pos (2 ^ (- e))))
  | _ => None
  end.

(** ** Face bodies *)

Module Body.

Record MassNormalPoint : Type := mk {
  mass : float;
  normal : Vector3;
  point : Vector3;
  elementID : Z
}.

End Body.

Abbreviation MassNormalPoint := Body.MassNormalPoint.

(** ** bvh_6d.cpp *)

Definition GetCoordFromBody (mp : MassNormalPoint) (axis : Z) : option float :=
  match axis with
  | 0%Z => Some (vx (Body.point mp))
  | 1%Z => Some (vy (Body.point mp))
  | 2%Z => Some (vz (Body.point mp))
  | 3%Z => Some (vx (Body.normal mp))
  | 4%Z => Some (vy (Body.normal mp))
  | 5%Z => Some (vz (Body.normal mp))
  | _ => None
  end.

Fixpoint all_coords (points : list MassNormalPoint) (axis : Z) : option (list float) :=
  match points with
  | [] => Some []
  | p :: rest =>
      match GetCoordFromBody p axis, all_coords rest axis with
      | Some c, Some cs => Some (c :: cs)
      | _, _ => None
      end
  end.

(** [std::sort], as insertion sort. *)
Fixpoint sort_insert (c : float) (l : list float) : list float :=
  match l with
  | [] => [c]
  | h :: t => if c <=? h then c :: l else h :: sort_insert c t
  end.

Fixpoint sort (l : list float) : list float :=
  match l with
  | [] => []
  | h :: t => sort_insert h (sort t)
  end.

Definition at_index (coords : list float) (i : nat) : float := nth i coords 0.

Definition sumSquares_at (coords : list float) (nPoints i : nat) : float :=
  let width1 := at_index coords i - at_index coords 0 in
  let width2 :=
    if Nat.eqb i (nPoints - 1) then 0
    else at_index coords (nPoints - 1) - at_index coords (i + 1) in
  width1 * width1 + width2 * width2.

(** [minWidths] and [splitIndex]: [INFINITY] and [(size_t) -1] at first. *)
Definition split_state : Type := (float * Z)%type.

Definition split_init : split_state := (infinity, size_t_minus_one).

Definition split_step (coords : list float) (nPoints : nat)
    (st : split_state) (i : nat) : split_state :=
  let sumSquares := sumSquares_at coords nPoints i in
  if sumSquares <? fst st then (sumSquares, Z.of_nat i) else st.

Definition select_splitIndex (coords : list float) : Z :=
  let nPoints := length coords in
  snd (fold_left (split_step coords nPoints) (seq 0 nPoints) split_init).

(** [coords[i]] for a [size_t] index: [None] outside the vector. *)
Definition coord_at (coords : list float) (i : Z) : option float :=
  if ((0 <=? i) && (i <? Z.of_nat (length coords)))%Z
  then nth_error coords (Z.to_nat i)
  else None.

Definition splitPoint_of (coords : list float) (splitIndex : Z) : option float :=
  match coord_at coords splitIndex, coord_at coords (size_t_wrap (splitIndex + 1)) with
  | Some a, Some b => Some ((a + b) / 2)
  | _, _ => None
  end.

(** [None]: [exit(1)] in [GetCoordFromBody], or a read outside [coords]. *)
Definition AxisSplittingPlane (points : list MassNormalPoint) (axis : Z) : option float :=
  match all_coords points axis with
  | None => None
  | Some coords =>
      let sorted := sort coords in
      splitPoint_of sorted (select_splitIndex sorted)
  end.

Fixpoint split_points (points : list MassNormalPoint) (axis : Z) (splitPoint : float)
  : option (list MassNormalPoint * list MassNormalPoint) :=
  match points with
  | [] => Some ([], [])
  | p :: rest =>
      match GetCoordFromBody p axis, split_points rest axis splitPoint with
      | Some coord, Some (lesserPoints, greaterPoints) =>
          if coord <=? splitPoint
          then Some (p :: lesserPoints, greaterPoints)
          else Some (lesserPoints, p :: greaterPoints)
      | _, _ => None
      end
  end.

(** The fields the constructor writes; [nodeID], which it leaves to
    [assignIDsRecursively], is not among them. *)
Inductive BVHNode6D : Type := mkBVHNode6D {
  nodeType : BVHNodeType;
  totalMass : float;
  centerOfMass : Vector3;
  averageNormal : Vector3;
  minCoords : Vector3;
  maxCoords : Vector3;
  elementID : Z;
  numNodesInBranch : nat;
  splitAxis : Z;
  splitPoint : float;
  thresholdTheta : float;
  children : list BVHNode6D
}.

Section BVH.

(** [Vector3::normalize] of geometry-central, and what a read finds in a
    field that was never written. *)
Variable normalize : Vector3 -> Vector3.
Variable indeterminate_vec : Vector3.
Variable indeterminate : float.

Definition average_step
    (acc : float * Vector3 * Vector3 * Vector3 * Vector3) (child : BVHNode6D)
  : float * Vector3 * Vector3 * Vector3 * Vector3 :=
  let '(tm, com, an, mn, mx) := acc in
  (tm + totalMass child,
   vadd com (vscale (totalMass child) (centerOfMass child)),
   vadd an (vscale (totalMass child) (averageNormal child)),
   vectorMin mn (minCoords child),
   vectorMax mx (maxCoords child)).

Definition averageDataFromChildren (n : BVHNode6D) : option BVHNode6D :=
  match children n with
  | [] => None
  | child0 :: _ =>
      let '(tm, com, an, mn, mx) :=
        fold_left average_step (children n)
          (0, vzero, vzero, minCoords child0, maxCoords child0) in
      Some (mkBVHNode6D (nodeType n) tm (vdiv com tm) (normalize an) mn mx
              (elementID n) (numNodesInBranch n)
              (splitAxis n) (splitPoint n) (thresholdTheta n) (children n))
  end.

Definition empty_node (axis : Z) : BVHNode6D :=
  mkBVHNode6D Empty 0 vzero vzero indeterminate_vec indeterminate_vec
    size_t_minus_one 1 axis indeterminate 0.25 [].

Definition leaf_node (axis : Z) (mp : MassNormalPoint) : BVHNode6D :=
  mkBVHNode6D Leaf (Body.mass mp) (Body.point mp) (Body.normal mp) (Body.point mp) (Body.point mp)
    (Body.elementID mp) 1 axis indeterminate 0.25 [].

Definition interior_node (axis : Z) (splitPoint : float) (lesserNode greaterNode : BVHNode6D)
  : BVHNode6D :=
  mkBVHNode6D Interior 0 vzero vzero indeterminate_vec indeterminate_vec
    size_t_minus_one
    (numNodesInBranch lesserNode + numNodesInBranch greaterNode + 1)
    axis splitPoint 0.25 [lesserNode; greaterNode].

(** [BVHNode6D::BVHNode6D (points, axis, root)]; [fuel] bounds the depth of
    the recursion. *)
Fixpoint BVHNode6D_new (fuel : nat) (points : list MassNormalPoint) (axis : Z)
  : outcome BVHNode6D :=
  match fuel with
  | O => OutOfFuel
  | S fuel' =>
      match points with
      | [] => Returns (empty_node axis)
      | [mp] => Returns (leaf_node axis mp)
      | _ =>
          match AxisSplittingPlane points axis with
          | None => Aborts
          | Some splitPoint =>
              match split_points points axis splitPoint with
              | None => Aborts
              | Some (lesserPoints, greaterPoints) =>
                  let nextAxis := NextAxis axis in
                  bind (BVHNode6D_new fuel' lesserPoints nextAxis) (fun lesserNode =>
                  bind (BVHNode6D_new fuel' greaterPoints nextAxis) (fun greaterNode =>
                  of_option (averageDataFromChildren
                               (interior_node axis splitPoint lesserNode greaterNode))))
              end
          end
      end
  end.

End BVH.

(** The leaves below a node, from left to right. *)
Fixpoint leaves (n : BVHNode6D) : list BVHNode6D :=
  match nodeType n with
  | Leaf => [n]
  | _ => flat_map leaves (children n)
  end.

(** ** surface_flow.cpp *)

Definition VertexPositions : Type := GCVertex -> Vector3.

Definition set_position (p : VertexPositions) (v : GCVertex) (x : Vector3) : VertexPositions :=
  fun u => if Nat.eqb u v then x else p u.

Definition Matrix3 : Type := list Vector3.

Definition GetRow (A : Matrix3) (i : nat) : outcome Vector3 := of_option (nth_error A i).

Definition set_row (A : Matrix3) (i : nat) (x : Vector3) : outcome Matrix3 :=
  of_option (list_set A i x).

Definition LS_STEP_THRESHOLD : float := 1e-10.

Section Flow.

Variable vertices : list GCVertex.
Variable indices : GCVertex -> nat.
Variable Value : VertexPositions -> float.
Variable matrix_norm : Matrix3 -> float.

Definition SaveCurrentPositions (positions : VertexPositions) : outcome Matrix3 :=
  foldM (fun origPositions v => set_row origPositions (indices v) (positions v))
    vertices (repeat vzero (length vertices)).

Definition RestorePositions (origPositions : Matrix3) (positions : VertexPositions)
  : outcome VertexPositions :=
  foldM (fun positions v =>
    bind (GetRow origPositions (indices v)) (fun pos_v =>
    Returns (set_position positions v pos_v)))
    vertices positions.

Definition SetGradientStep (gradient : Matrix3) (delta : float) (origPositions : Matrix3)
    (positions : VertexPositions) : outcome VertexPositions :=
  foldM (fun positions v =>
    bind (GetRow origPositions (indices v)) (fun pos_v =>
    bind (GetRow gradient (indices v)) (fun grad_v =>
    Returns (set_position positions v (vsub pos_v (vscale delta grad_v))))))
    vertices positions.

(** The loop of [LineSearchStep].  [delta > LS_STEP_THRESHOLD] is
    [LS_STEP_THRESHOLD < delta]; the step is accepted in the [else] branch
    of [decrease < targetDecrease]. *)
Fixpoint backtrack (fuel : nat) (gradient : Matrix3) (gradDot : float)
    (origPositions : Matrix3) (initialEnergy gradNorm : float) (delta : float)
    (positions : VertexPositions) (numBacktracks : nat)
  : outcome (float * VertexPositions * nat) :=
  if LS_STEP_THRESHOLD <? delta then
    match fuel with
    | O => OutOfFuel
    | S fuel' =>
        bind (SetGradientStep gradient delta origPositions positions) (fun positions' =>
        let nextEnergy := Value positions' in
        let decrease := initialEnergy - nextEnergy in
        let sigma := 0.01 in
        let targetDecrease := sigma * delta * gradNorm * gradDot in
        if decrease <? targetDecrease
        then backtrack fuel' gradient gradDot origPositions initialEnergy gradNorm
               (delta / 2) positions' (S numBacktracks)
        else Returns (delta, positions', numBacktracks))
    end
  else Returns (delta, positions, numBacktracks).

Definition LineSearchStep (fuel : nat) (gradient : Matrix3) (initGuess gradDot : float)
    (positions : VertexPositions) : outcome (float * VertexPositions) :=
  let delta := initGuess in
  bind (SaveCurrentPositions positions) (fun origPositions =>
  let initialEnergy := Value positions in
  let gradNorm := matrix_norm gradient in
  if gradNorm <? 1e-10 then Returns (0, positions)
  else
    bind (backtrack fuel gradient gradDot origPositions initialEnergy gradNorm
            delta positions 0)
      (fun '(delta, positions', _) =>
    if delta <=? LS_STEP_THRESHOLD
    then bind (RestorePositions origPositions positions') (fun restored =>
         Returns (0, restored))
    else Returns (delta, positions'))).

End Flow.

(** [StepLineSearch]: the step [LineSearchStep] returns and the positions. *)
Definition StepLineSearch (vertices : list GCVertex) (indices : GCVertex -> nat)
    (Value : VertexPositions -> float) (Differential : VertexPositions -> Matrix3)
    (matrix_norm : Matrix3 -> float) (fuel : nat) (positions : VertexPositions)
  : outcome (float * VertexPositions) :=
  let gradient := Differential positions in
  let initGuess := 1 / matrix_norm gradient in
  LineSearchStep vertices indices Value matrix_norm fuel gradient initGuess 1 positions.

End Binary64.

(** ** Example inputs *)

(** A face body of mass 1 with normal [(0, 0, 1)]. *)
Definition body (x y z : Q) (id : Z) : MassNormalPoint :=
  Body.mk 1 (mkVector3 0 0 1) (mkVector3 x y z) id.

(** Three faces with barycenters on the x axis. *)
Definition three_bodies : list MassNormalPoint :=
  [body 0 0 0 0; body 1 0 0 1; body 5 0 0 2].

(** A mesh of two vertices, numbered as they come.  The energy is the
    square of the first coordinate of vertex 0; its differential has the
    row [(2 x, 0, 0)] for vertex 0; the norm of a matrix is taken as the
    absolute value of the first entry, which it is for these matrices. *)
Definition two_vertices : list GCVertex := [0; 1]%nat.

Definition same_index (v : GCVertex) : nat := v.

Definition square_energy (p : VertexPositions) : Q := vx (p 0%nat) * vx (p 0%nat).

Definition square_differential (p : VertexPositions) : Matrix3 :=
  [mkVector3 (2 * vx (p 0%nat)) 0 0; vzero].

Definition first_entry_norm (A : Matrix3) : Q :=
  match A with
  | [] => 0
  | r :: _ => Qabs.Qabs (vx r)
  end.

Definition start_positions : VertexPositions :=
  fun v => if Nat.eqb v 0 then mkVector3 1 0 0 else mkVector3 3 0 0.

(** A direction along which the energy grows. *)
Definition ascent_direction : Matrix3 := [mkVector3 (-2) 0 0; vzero].

(** Six faces in two groups of three, the second the first moved by 100
    along x, with the ids 0..5.  In each group all coordinates differ, and
    the bounding box of a group has the diagonal (2, 3, 6), of length 7. *)
Definition six_bodies : list MassNormalPoint :=
  [body 0 0 0 0; body 1 1 1 1; body 2 3 6 2;
   body 100 0 0 3; body 101 1 1 4; body 102 3 6 5].

(** The tree [Create6DBVHFromMesh] builds for them. *)
Definition six_tree : BVHNode6D :=
  match Create6DBVH (fun v => v) vzero 0 4 six_bodies with
  | Returns t => t
  | _ => empty_node vzero 0 0
  end.

(** The two children of the root of that tree, the faces 0, 1, 2 and the
    faces 3, 4, 5. *)
Definition six_left : BVHNode6D :=
  match descend [0%nat] six_tree with Some n => n | None => six_tree end.

Definition six_right : BVHNode6D :=
  match descend [1%nat] six_tree with Some n => n | None => six_tree end.

(** The barycenters and the areas of the six faces, by face index. *)
Definition six_barycenters (f : Z) : Vector3 :=
  Body.point (nth (Z.to_nat f) six_bodies (body 0 0 0 0)).

Definition unit_areas (f : Z) : Q := 1.

(** The Euclidean norm where it is rational: the square root of the sum of
    squares when numerator and denominator of the sum are perfect squares
    (the integer square roots otherwise). *)
Definition rational_norm (v : Vector3) : Q :=
  let s := Qred (vx v * vx v + vy v * vy v + vz v * vz v) in
  Z.sqrt (Qnum s) # Pos.sqrt (Qden s).

(** A point is in the closed bounding box of a node. *)
Definition closed_box_contains (n : BVHNode6D) (p : Vector3) : bool :=
  Qle_bool (vx (minCoords n)) (vx p) && Qle_bool (vx p) (vx (maxCoords n))
  && Qle_bool (vy (minCoords n)) (vy p) && Qle_bool (vy p) (vy (maxCoords n))
  && Qle_bool (vz (minCoords n)) (vz p) && Qle_bool (vz p) (vz (maxCoords n)).

(** The metric distance term for [s = 1]: [1 / |x - y|^4], the inverse of
    the square of the squared distance. *)
Definition metric_term_s1 (s : Q) (x y : Vector3) : Q :=
  let d := vsub x y in
  let d2 := vx d * vx d + vy d * vy d + vz d * vz d in
  1 / (d2 * d2).

(** The block cluster tree over the six faces, with theta = 1/4 and
    s = 1, and the leaf of face 0. *)
Definition six_bct : BlockClusterTree :=
  match BlockClusterTree_new rational_norm closed_box_contains metric_term_s1 1 (1 # 4)
          4 six_tree with
  | Returns bct => bct
  | _ => mkBlockClusterTree six_tree (mkPairLists [] [] []) [] []
  end.

Definition six_first_leaf : BVHNode6D :=
  match descend [0%nat; 0%nat; 0%nat] six_tree with Some n => n | None => six_tree end.

(** A vector with one entry for each of the six faces. *)
Definition six_values : list Q := [1; 2; 3; 4; 5; 6].

(** The six faces after the mesh has moved: areas 2 and barycenters on the
    x axis. *)
Definition moved_areas (f : Z) : Q := 2.

Definition moved_barycenters (f : Z) : Vector3 := mkVector3 (inject_Z f) 0 0.

(** A gradient with no entry but zeros, for the mesh of two vertices. *)
Definition zero_gradient : Matrix3 := [vzero; vzero].

(** A mesh of six faces whose loop visits them against their indices: the
    face met first has index 5.  Its bodies are [six_bodies]. *)
Definition six_mesh_faces : list GCFace := seq 0 6.

Definition six_mesh_index (f : GCFace) : Z := Z.of_nat (5 - f).

Definition six_mesh_barycenter (f : GCFace) : Vector3 :=
  Body.point (nth (5 - f) six_bodies (body 0 0 0 0)).

(** Two triangles with a common edge: the faces 0 and 1 on the vertices
    0, 1, 2 and 2, 1, 3, and a derivative that tells its arguments apart. *)
Definition two_triangles : list GCFace := [0; 1]%nat.

Definition triangle_vertices (f : GCFace) : list GCVertex :=
  match f with
  | O => [0; 1; 2]%nat
  | _ => [2; 1; 3]%nat
  end.

Definition labelled_gradient (f1 f2 : GCFace) (v : GCVertex) : Vector3 :=
  mkVector3 (inject_Z (Z.of_nat (S f1))) (inject_Z (Z.of_nat (S f2)))
            (inject_Z (Z.of_nat (S v))).

(** The two triangles as a mesh for [fixDelaunay]: the edge 0 between them
    and the edges 1 to 4 around, on the boundary.  The state of the mesh is
    the list of the flips made; an edge is Delaunay once it was flipped. *)
Definition quad_edges (m : list Edge) : list Edge := [0; 1; 2; 3; 4]%nat.

Definition quad_boundary (m : list Edge) (e : Edge) : bool := negb (e =? 0)%nat.

Definition quad_delaunay (m : list Edge) (e : Edge) : bool := existsb (Nat.eqb e) m.

Definition quad_diamond (m : list Edge) (e : Edge) : Edge * Edge * Edge * Edge :=
  (1, 2, 3, 4)%nat.

Definition quad_flip (m : list Edge) (e : Edge) : list Edge := e :: m.

(** A fan of four vertices around the vertex 0, which alone is inside, lifted
    off the plane of the others; all normals point up. *)
Definition fan_vertices : list GCVertex := [0; 1; 2; 3; 4]%nat.

Definition fan_boundary (v : GCVertex) : bool := negb (v =? 0)%nat.

Definition fan_neighbours (v : GCVertex) : list GCVertex :=
  match v with
  | O => [1; 2; 3; 4]%nat
  | _ => [0%nat]
  end.

Definition fan_positions (v : GCVertex) : Vector3 :=
  match v with
  | 0%nat => mkVector3 (1 # 2) 0 1
  | 1%nat => mkVector3 1 0 0
  | 2%nat => mkVector3 0 1 0
  | 3%nat => mkVector3 (-1) 0 0
  | _ => mkVector3 0 (-1) 0
  end.

(** ** Inputs on binary64 doubles *)

(** A face body of mass 1 with normal [(0, 0, 1)], on doubles. *)
Definition body64 (m x y z : float) (id : Z) : Binary64.MassNormalPoint :=
  Binary64.Body.mk m (Binary64.mkVector3 0 0 1) (Binary64.mkVector3 x y z) id.

(** Two faces whose barycenters differ in [x] alone, by one unit in the last
    place: [1 + 2^-52] and [1 + 2^-51]. *)
Definition adjacent_bodies : list Binary64.MassNormalPoint :=
  [body64 1 0x1.0000000000001p+0 0 0 0; body64 1 0x1.0000000000002p+0 0 0 1].

(** Three faces with the barycenters [1e200], [2e200] and [4e200] on the x
    axis. *)
Definition far_bodies : list Binary64.MassNormalPoint :=
  [body64 1 1e200 0 0 0; body64 1 2e200 0 0 1; body64 1 4e200 0 0 2].

(** Three faces of area [10000000.1], and two faces of area 0. *)
Definition large_bodies : list Binary64.MassNormalPoint :=
  [body64 10000000.1 0 0 0 0; body64 10000000.1 10 0 0 1; body64 10000000.1 11 1 0 2].

Definition flat_bodies : list Binary64.MassNormalPoint :=
  [body64 0 0 0 0 0; body64 0 1 0 0 1].

(** A face of area 1 and, away from it, two faces of area 0. *)
Definition mixed_bodies : list Binary64.MassNormalPoint :=
  [body64 1 0 0 0 0; body64 0 10 0 0 1; body64 0 11 1 0 2].

(** The tree the constructor builds for a list of bodies. *)
Definition tree64 (fuel : nat) (points : list Binary64.MassNormalPoint) : Binary64.BVHNode6D :=
  match Binary64.BVHNode6D_new (fun v => v) Binary64.vzero 0%float fuel points 0 with
  | Returns t => t
  | _ => Binary64.empty_node Binary64.vzero 0%float 0
  end.

(** The sum of the masses of the leaves below a node, as a rational
    number. *)
Definition exact_leaf_mass (n : Binary64.BVHNode6D) : option Q :=
  fold_left (fun acc L =>
               match acc, Binary64.exact (Binary64.totalMass L) with
               | Some a, Some m => Some (a + m)
               | _, _ => None
               end)
    (Binary64.leaves n) (Some 0).

(** An energy that is the first coordinate of vertex 0, written as
    [x * x / x]: 1 at [x = 1], and [0 / 0] at [x = 0]. *)
Definition ratio_energy (p : Binary64.VertexPositions) : float :=
  (Binary64.vx (p 0%nat) * Binary64.vx (p 0%nat) / Binary64.vx (p 0%nat))%float.

Definition ratio_start : Binary64.VertexPositions :=
  fun v => if Nat.eqb v 0 then Binary64.mkVector3 1 0 0 else Binary64.mkVector3 3 0 0.

Definition ratio_gradient : Binary64.Matrix3 :=
  [Binary64.mkVector3 1 0 0; Binary64.vzero].

(** The norm of a matrix whose first row alone is not zero. *)
Definition first_row_norm (A : Binary64.Matrix3) : float :=
  match A with
  | [] => 0%float
  | r :: _ =>
      PrimFloat.sqrt (Binary64.vx r * Binary64.vx r + Binary64.vy r * Binary64.vy r
                      + Binary64.vz r * Binary64.vz r)%float
  end.

(** * Properties *)

(** ** Comparisons of doubles *)

Lemma Qltb_true (a b : Q) : Qltb a b = true <-> a < b.
Proof.
  unfold Qltb. rewrite negb_true_iff.
  split; intro H.
  - apply Qnot_le_lt. intro Hle. apply Qle_bool_iff in Hle. congruence.
  - destruct (Qle_bool b a) eqn:E; [|reflexivity].
    apply Qle_bool_iff in E. exfalso. apply (Qlt_not_le _ _ H E).
Qed.

Lemma Qltb_false (a b : Q) : Qltb a b = false <-> b <= a.
Proof.
  unfold Qltb. rewrite negb_false_iff. apply Qle_bool_iff.
Qed.

Lemma Qle_bool_false (a b : Q) : Qle_bool a b = false <-> b < a.
Proof.
  rewrite <- Qltb_true. unfold Qltb. rewrite negb_true_iff. reflexivity.
Qed.

(** ** Sorting *)

Lemma sort_insert_perm (c : Q) (l : list Q) : Permutation (c :: l) (sort_insert c l).
Proof.
  induction l as [|h t IH]; simpl.
  - apply Permutation_refl.
  - destruct (Qle_bool c h).
    + apply Permutation_refl.
    + eapply perm_trans; [apply perm_swap|]. apply perm_skip, IH.
Qed.

Lemma sort_perm (l : list Q) : Permutation l (sort l).
Proof.
  induction l as [|h t IH]; simpl.
  - apply perm_nil.
  - eapply perm_trans; [apply perm_skip, IH|]. apply sort_insert_perm.
Qed.

Lemma sort_length (l : list Q) : length (sort l) = length l.
Proof. symmetry. apply Permutation_length, sort_perm. Qed.

Lemma sort_insert_sorted (c : Q) (l : list Q) :
  StronglySorted Qle l -> StronglySorted Qle (sort_insert c l).
Proof.
  induction l as [|h t IH]; simpl; intro Hs.
  - constructor; [constructor|constructor].
  - inversion Hs as [|? ? Ht Hall]; subst.
    destruct (Qle_bool c h) eqn:E.
    + apply Qle_bool_iff in E.
      constructor; [exact Hs|].
      constructor; [exact E|].
      eapply Forall_impl; [|exact Hall].
      intros x Hx. eapply Qle_trans; eassumption.
    + apply Qle_bool_false in E.
      constructor; [apply IH, Ht|].
      eapply Permutation_Forall; [apply sort_insert_perm|].
      constructor; [apply Qlt_le_weak, E|exact Hall].
Qed.

Lemma sort_sorted (l : list Q) : StronglySorted Qle (sort l).
Proof.
  induction l as [|h t IH]; simpl.
  - constructor.
  - apply sort_insert_sorted, IH.
Qed.

(** In a sorted vector the values grow with the index. *)
Lemma sorted_at_index (l : list Q) :
  StronglySorted Qle l ->
  forall i j, (i <= j)%nat -> (j < length l)%nat -> at_index l i <= at_index l j.
Proof.
  unfold at_index.
  induction 1 as [|h t Hs IH Hall]; intros i j Hij Hj; simpl in *.
  - lia.
  - destruct i as [|i], j as [|j]; try lia.
    + apply Qle_refl.
    + rewrite Forall_forall in Hall. apply Hall, nth_In. lia.
    + apply IH; lia.
Qed.

(** ** The selection loop of [AxisSplittingPlane] *)

(** After [m >= 1] rounds the loop holds the first index among [0 .. m-1]
    at which the sum of squares is least. *)
Lemma select_loop_inv (coords : list Q) (n m : nat) :
  (0 < m)%nat ->
  exists k,
    (k < m)%nat /\
    fold_left (split_step coords n) (seq 0 m) split_init
      = (Some (sumSquares_at coords n k), Z.of_nat k) /\
    (forall j, (j < k)%nat -> sumSquares_at coords n k < sumSquares_at coords n j) /\
    (forall j, (j < m)%nat -> sumSquares_at coords n k <= sumSquares_at coords n j).
Proof.
  induction m as [|m IH]; intro Hm; [lia|].
  rewrite seq_S, fold_left_app. simpl.
  destruct m as [|m'].
  - exists 0%nat. simpl. unfold split_step. simpl.
    repeat split; try lia.
    intros j Hj. assert (j = 0)%nat by lia. subst. apply Qle_refl.
  - destruct IH as [k [Hk [Hfold [Hlt Hle]]]]; [lia|].
    rewrite Hfold. unfold split_step at 1. simpl fst. unfold below_min.
    destruct (Qltb (sumSquares_at coords n (S m')) (sumSquares_at coords n k)) eqn:E.
    + apply Qltb_true in E.
      exists (S m'). repeat split; try lia.
      * intros j Hj. eapply Qlt_le_trans; [exact E|]. apply Hle. lia.
      * intros j Hj. destruct (Nat.eq_dec j (S m')) as [->|Hne]; [apply Qle_refl|].
        apply Qlt_le_weak. eapply Qlt_le_trans; [exact E|]. apply Hle. lia.
    + apply Qltb_false in E.
      exists k. repeat split; try lia; try assumption.
      intros j Hj. destruct (Nat.eq_dec j (S m')) as [->|Hne]; [exact E|].
      apply Hle. lia.
Qed.

Lemma select_splitIndex_spec (coords : list Q) :
  (0 < length coords)%nat ->
  exists k,
    (k < length coords)%nat /\
    select_splitIndex coords = Z.of_nat k /\
    (forall j, (j < k)%nat ->
       sumSquares_at coords (length coords) k < sumSquares_at coords (length coords) j).
Proof.
  intro Hn. unfold select_splitIndex.
  destruct (select_loop_inv coords (length coords) Hn) as [k [Hk [Hfold [Hlt _]]]].
  exists k. rewrite Hfold. simpl. auto.
Qed.

(** On sorted coordinates the sum of squares at index 0 is at most the one
    at the last index. *)
Lemma sumSquares_first_le_last (coords : list Q) :
  StronglySorted Qle coords ->
  (2 <= length coords)%nat ->
  sumSquares_at coords (length coords) 0
    <= sumSquares_at coords (length coords) (length coords - 1).
Proof.
  intros Hs Hn. unfold sumSquares_at.
  rewrite Nat.eqb_refl.
  replace (0 =? length coords - 1)%nat with false
    by (symmetry; apply Nat.eqb_neq; lia).
  simpl (0 + 1)%nat.
  set (c0 := at_index coords 0).
  set (c1 := at_index coords 1).
  set (cn := at_index coords (length coords - 1)).
  assert (H01 : c0 <= c1) by (apply sorted_at_index; [assumption|lia|lia]).
  assert (H1n : c1 <= cn) by (apply sorted_at_index; [assumption|lia|lia]).
  nra.
Qed.

Lemma select_splitIndex_bound (coords : list Q) :
  StronglySorted Qle coords ->
  (2 <= length coords)%nat ->
  exists k, select_splitIndex coords = Z.of_nat k /\ (k + 2 <= length coords)%nat /\
    (forall j, (j < k)%nat ->
       sumSquares_at coords (length coords) k < sumSquares_at coords (length coords) j).
Proof.
  intros Hs Hn.
  destruct (@select_splitIndex_spec coords) as [k [Hk [Hsel Hlt]]]; [lia|].
  exists k. split; [exact Hsel|]. split; [|exact Hlt].
  destruct (Nat.eq_dec k (length coords - 1)) as [->|Hne]; [|lia].
  exfalso.
  assert (H0 : (0 < length coords - 1)%nat) by lia.
  specialize (Hlt 0%nat H0).
  pose proof (sumSquares_first_le_last Hs Hn) as Hle.
  apply (Qlt_not_le _ _ Hlt Hle).
Qed.

Lemma all_coords_length (points : list MassNormalPoint) (axis : Z) (coords : list Q) :
  all_coords points axis = Some coords -> length coords = length points.
Proof.
  revert coords. induction points as [|p rest IH]; simpl; intros coords H.
  - inversion H. reflexivity.
  - destruct (GetCoordFromBody p axis); [|discriminate].
    destruct (all_coords rest axis) as [cs|]; [|discriminate].
    inversion H. simpl. f_equal. apply IH. reflexivity.
Qed.

Lemma coord_at_in_range (coords : list Q) (k : nat) :
  (k < length coords)%nat -> coord_at coords (Z.of_nat k) = Some (at_index coords k).
Proof.
  intro Hk. unfold coord_at, at_index.
  replace ((0 <=? Z.of_nat k)%Z && (Z.of_nat k <? Z.of_nat (length coords))%Z) with true.
  - rewrite Nat2Z.id. apply nth_error_nth'. exact Hk.
  - symmetry. apply andb_true_iff. split; [apply Z.leb_le|apply Z.ltb_lt]; lia.
Qed.

Lemma all_coords_valid_axis (points : list MassNormalPoint) (axis : Z) :
  (0 <= axis <= 5)%Z -> exists coords, all_coords points axis = Some coords.
Proof.
  intro Hax.
  assert (Hc : forall p, exists c, GetCoordFromBody p axis = Some c).
  { intro p.
    assert (H : (axis = 0 \/ axis = 1 \/ axis = 2 \/ axis = 3 \/ axis = 4 \/ axis = 5)%Z)
      by lia.
    destruct H as [-> | [-> | [-> | [-> | [-> | ->]]]]]; eexists; reflexivity. }
  induction points as [|p rest [cs IH]]; simpl.
  - eexists; reflexivity.
  - destruct (Hc p) as [c ->]. rewrite IH. eexists; reflexivity.
Qed.

(** In exact arithmetic, where no sum of squares is infinite: for at least
    two bodies and an axis among 0..5, the split index
    that [AxisSplittingPlane] selects on the sorted coordinates lies in
    [0 .. nPoints - 2]: the last index never has a strictly smaller sum of
    squares than index 0.  So [coords[splitIndex]] and
    [coords[splitIndex + 1]] are both inside the vector and the function
    returns their midpoint. *)
Theorem AxisSplittingPlane_splitIndex_in_bounds
    (points : list MassNormalPoint) (axis : Z) :
  (0 <= axis <= 5)%Z ->
  (2 <= length points)%nat ->
  (Z.of_nat (length points) < 2 ^ 64)%Z ->
  exists coords,
    all_coords points axis = Some coords /\
    let sorted := sort coords in
    let splitIndex := select_splitIndex sorted in
    (0 <= splitIndex <= Z.of_nat (length points) - 2)%Z /\
    exists a b,
      coord_at sorted splitIndex = Some a /\
      coord_at sorted (size_t_wrap (splitIndex + 1)) = Some b /\
      AxisSplittingPlane points axis = Some ((a + b) / 2).
Proof.
  intros Hax Hn Hsize.
  destruct (all_coords_valid_axis points Hax) as [coords Hc].
  exists coords. split; [exact Hc|].
  pose proof (all_coords_length _ _ Hc) as Hlen.
  assert (Hsl : length (sort coords) = length points)
    by (rewrite sort_length; exact Hlen).
  destruct (@select_splitIndex_bound (sort coords)) as [k [Hsel [Hk _]]].
  { apply sort_sorted. }
  { lia. }
  cbv zeta. rewrite Hsel.
  split; [lia|].
  assert (Hwrap : size_t_wrap (Z.of_nat k + 1) = Z.of_nat (k + 1)).
  { unfold size_t_wrap. rewrite Z.mod_small; lia. }
  exists (at_index (sort coords) k), (at_index (sort coords) (k + 1)).
  assert (H1 : coord_at (sort coords) (Z.of_nat k) = Some (at_index (sort coords) k))
    by (apply coord_at_in_range; lia).
  assert (H2 : coord_at (sort coords) (size_t_wrap (Z.of_nat k + 1))
               = Some (at_index (sort coords) (k + 1)))
    by (rewrite Hwrap; apply coord_at_in_range; lia).
  repeat split; try assumption.
  unfold AxisSplittingPlane. rewrite Hc. cbv zeta. rewrite Hsel.
  unfold splitPoint_of. rewrite H1, H2. reflexivity.
Qed.

Lemma AxisSplittingPlane_splitIndex_in_bounds_witness :
  exists coords,
    all_coords three_bodies 0 = Some coords /\
    let sorted := sort coords in
    let splitIndex := select_splitIndex sorted in
    (0 <= splitIndex <= Z.of_nat (length three_bodies) - 2)%Z /\
    exists a b,
      coord_at sorted splitIndex = Some a /\
      coord_at sorted (size_t_wrap (splitIndex + 1)) = Some b /\
      AxisSplittingPlane three_bodies 0 = Some ((a + b) / 2).
Proof.
  apply (@AxisSplittingPlane_splitIndex_in_bounds three_bodies 0%Z).
  - lia.
  - simpl. lia.
  - simpl. lia.
Defined.

(** ** Trees *)

Lemma BVHNode6D_tree_ind (P : BVHNode6D -> Prop) :
  (forall n, Forall P (children n) -> P n) -> forall n, P n.
Proof.
  intro H. fix IH 1.
  intros [t m c a mn mx e id nn sa sp th cs].
  apply H. simpl.
  induction cs as [|c' r IHr]; constructor; [apply IH|apply IHr].
Qed.

Lemma nodes_with_depth_eq (d : nat) (n : BVHNode6D) :
  nodes_with_depth d n = (d, n) :: flat_map (nodes_with_depth (S d)) (children n).
Proof. destruct n; reflexivity. Qed.

(** ** The constructor of [BVHNode6D] *)

Section BVH_properties.

Variable normalize : Vector3 -> Vector3.
Variable indeterminate_vec : Vector3.
Variable indeterminate : Q.

Local Abbreviation BVH_new := (BVHNode6D_new normalize indeterminate_vec indeterminate).
Local Abbreviation interior := (interior_node indeterminate_vec).

Lemma averageDataFromChildren_interior (axis : Z) (sp : Q) (l g : BVHNode6D) :
  averageDataFromChildren normalize (interior axis sp l g) = Some (averaged normalize axis sp l g).
Proof. reflexivity. Qed.

(** The three ways the constructor returns. *)
Lemma BVHNode6D_new_inv (fuel : nat) (points : list MassNormalPoint) (axis : Z)
    (t : BVHNode6D) :
  BVH_new fuel points axis = Returns t ->
  (points = [] /\ t = empty_node indeterminate_vec indeterminate axis) \/
  (exists mp, points = [mp] /\ t = leaf_node indeterminate axis mp) \/
  (exists fuel' sp lesserPoints greaterPoints l g,
      fuel = S fuel' /\ (2 <= length points)%nat /\
      AxisSplittingPlane points axis = Some sp /\
      split_points points axis sp = Some (lesserPoints, greaterPoints) /\
      BVH_new fuel' lesserPoints (NextAxis axis) = Returns l /\
      BVH_new fuel' greaterPoints (NextAxis axis) = Returns g /\
      t = averaged normalize axis sp l g).
Proof.
  destruct fuel as [|fuel']; [discriminate|].
  destruct points as [|p [|q rest]].
  - simpl. intro H. inversion H. left. auto.
  - simpl. intro H. inversion H. right. left. eauto.
  - intro H. right. right.
    cbn [BVHNode6D_new] in H.
    destruct (AxisSplittingPlane (p :: q :: rest) axis) as [sp|] eqn:Esp; [|discriminate].
    destruct (split_points (p :: q :: rest) axis sp) as [[lp gp]|] eqn:Espl; [|discriminate].
    destruct (BVH_new fuel' lp (NextAxis axis)) as [l| |] eqn:El; try discriminate.
    destruct (BVH_new fuel' gp (NextAxis axis)) as [g| |] eqn:Eg; try discriminate.
    cbn [bind] in H. rewrite averageDataFromChildren_interior in H.
    cbn [of_option] in H. inversion H.
    exists fuel', sp, lp, gp, l, g.
    repeat split; auto. simpl. lia.
Qed.

Lemma BVHNode6D_new_splitAxis (fuel : nat) (points : list MassNormalPoint) (axis : Z)
    (t : BVHNode6D) :
  BVH_new fuel points axis = Returns t -> splitAxis t = axis.
Proof.
  intro H. apply BVHNode6D_new_inv in H.
  destruct H as [[_ ->] | [[mp [_ ->]] | [f [sp [lp [gp [l [g H]]]]]]]]; try reflexivity.
  destruct H as [_ [_ [_ [_ [_ [_ ->]]]]]]. reflexivity.
Qed.

(** A node [k] levels below the root splits along the axis [NextAxis] gives
    after [k] steps, and the axis of a child is [NextAxis] of the axis of its
    parent. *)
Lemma BVHNode6D_new_axes (fuel : nat) :
  forall points axis t d0,
    BVH_new fuel points axis = Returns t ->
    forall d n, In (d, n) (nodes_with_depth d0 t) ->
      (d0 <= d)%nat /\
      splitAxis n = Nat.iter (d - d0) NextAxis axis /\
      forall c, In c (children n) -> splitAxis c = NextAxis (splitAxis n).
Proof.
  induction fuel as [|fuel IH]; intros points axis t d0 H d n Hin; [discriminate|].
  pose proof (BVHNode6D_new_inv _ _ _ H) as Hinv.
  destruct Hinv as [[_ ->] | [[mp [_ ->]] | [f [sp [lp [gp [l [g Hi]]]]]]]].
  - simpl in Hin. destruct Hin as [Heq|[]]. inversion Heq; subst.
    rewrite Nat.sub_diag. simpl. repeat split; auto. intros c [].
  - simpl in Hin. destruct Hin as [Heq|[]]. inversion Heq; subst.
    rewrite Nat.sub_diag. simpl. repeat split; auto. intros c [].
  - destruct Hi as [Hf [_ [_ [_ [Hl [Hg ->]]]]]]. inversion Hf; subst f.
    rewrite nodes_with_depth_eq in Hin. simpl in Hin.
    rewrite app_nil_r in Hin.
    destruct Hin as [Heq|Hin].
    + inversion Heq; subst. rewrite Nat.sub_diag. simpl.
      repeat split; auto.
      intros c [<-|[<-|[]]]; eapply BVHNode6D_new_splitAxis; eassumption.
    + apply in_app_or in Hin.
      assert (Hsub : exists pts' c', BVH_new fuel pts' (NextAxis axis) = Returns c' /\
                                     In (d, n) (nodes_with_depth (S d0) c')).
      { destruct Hin as [Hin|Hin]; eauto. }
      destruct Hsub as [pts' [c' [Hc' Hin']]].
      destruct (IH _ _ _ _ Hc' _ _ Hin') as [Hd [Hax Hch]].
      split; [lia|]. split; [|exact Hch].
      rewrite Hax. replace (d - d0)%nat with (S (d - S d0)) by lia.
      rewrite Nat.iter_succ_r. reflexivity.
Qed.

Lemma NextAxis_iter_mod3 (axis : Z) (k : nat) :
  (0 <= axis <= 2)%Z ->
  Nat.iter k NextAxis axis = ((axis + Z.of_nat k) mod 3)%Z.
Proof.
  intro Hax. induction k as [|k IH].
  - simpl. rewrite Z.add_0_r, Z.mod_small; lia.
  - rewrite Nat.iter_succ, IH.
    replace (axis + Z.of_nat (S k))%Z with ((axis + Z.of_nat k) + 1)%Z by lia.
    pose proof (Z.mod_pos_bound (axis + Z.of_nat k) 3 ltac:(lia)) as Hb.
    rewrite <- (Z.add_mod_idemp_l (axis + Z.of_nat k) 1 3) by lia.
    set (m := ((axis + Z.of_nat k) mod 3)%Z) in *.
    assert (Hm : (m = 0 \/ m = 1 \/ m = 2)%Z) by lia.
    destruct Hm as [-> | [-> | ->]]; reflexivity.
Qed.

Lemma NextAxis_mod3 (a : Z) :
  (0 <= a <= 2)%Z -> NextAxis a = ((a + 1) mod 3)%Z.
Proof.
  intro Ha. assert (H : (a = 0 \/ a = 1 \/ a = 2)%Z) by lia.
  destruct H as [-> | [-> | ->]]; reflexivity.
Qed.

(** C1, as the code has it.  The constructor advances the split axis by
    [NextAxis], which steps 0, 1, 2, 0, ...: started on a position axis, the
    node at depth [d] splits along axis [(axis + d) mod 3], every child
    along [(splitAxis + 1) mod 3] of its parent, and no node splits along a
    normal axis (3, 4 or 5). *)
Theorem BVHNode6D_split_axis_cycles_mod_3
    (fuel : nat) (points : list MassNormalPoint) (axis : Z) (t : BVHNode6D) :
  BVH_new fuel points axis = Returns t ->
  (0 <= axis <= 2)%Z ->
  forall d n, In (d, n) (nodes_with_depth 0 t) ->
    splitAxis n = ((axis + Z.of_nat d) mod 3)%Z /\
    (0 <= splitAxis n <= 2)%Z /\
    forall c, In c (children n) ->
      splitAxis c = NextAxis (splitAxis n) /\
      splitAxis c = ((splitAxis n + 1) mod 3)%Z.
Proof.
  intros H Hax d n Hin.
  destruct (@BVHNode6D_new_axes _ _ _ _ 0%nat H _ _ Hin) as [_ [Hn Hch]].
  rewrite Nat.sub_0_r, NextAxis_iter_mod3 in Hn by exact Hax.
  pose proof (Z.mod_pos_bound (axis + Z.of_nat d) 3 ltac:(lia)) as Hb.
  split; [exact Hn|]. split; [lia|].
  intros c Hc. split; [apply Hch, Hc|].
  rewrite (Hch c Hc). apply NextAxis_mod3. lia.
Qed.

End BVH_properties.

Lemma BVHNode6D_split_axis_cycles_mod_3_witness :
  let t := averaged (fun v => v) 0 (1 # 2) (leaf_node 0 1 (body 0 0 0 0))
             (leaf_node 0 1 (body 1 0 0 1)) in
  BVHNode6D_new (fun v => v) vzero 0 2 [body 0 0 0 0; body 1 0 0 1] 0 = Returns t /\
  splitAxis t = ((0 + Z.of_nat 0) mod 3)%Z /\
  (0 <= splitAxis t <= 2)%Z /\
  forall c, In c (children t) ->
    splitAxis c = NextAxis (splitAxis t) /\
    splitAxis c = ((splitAxis t + 1) mod 3)%Z.
Proof.
  cbv zeta. split; [vm_compute; reflexivity|].
  apply (@BVHNode6D_split_axis_cycles_mod_3 (fun v => v) vzero 0 2
           [body 0 0 0 0; body 1 0 0 1] 0%Z
           (averaged (fun v => v) 0 (1 # 2) (leaf_node 0 1 (body 0 0 0 0))
              (leaf_node 0 1 (body 1 0 0 1)))).
  - vm_compute. reflexivity.
  - lia.
  - simpl. left. reflexivity.
Defined.

(** C1, as the claim has it, fails: in the tree built from [three_bodies]
    the node reached by the path [0; 0] splits along axis 2 and its first
    child along axis 0, which is not [(2 + 1) mod 6 = 3]. *)
Lemma BVHNode6D_split_axis_not_mod_6 :
  exists t n c,
    BVHNode6D_new (fun v => v) vzero 0 5 three_bodies 0 = Returns t /\
    descend [0; 0]%nat t = Some n /\
    descend [0]%nat n = Some c /\
    splitAxis n = 2%Z /\
    splitAxis c = 0%Z /\
    splitAxis c <> ((splitAxis n + 1) mod 6)%Z.
Proof.
  eexists. eexists. eexists.
  split; [vm_compute; reflexivity|].
  split; [vm_compute; reflexivity|].
  split; [vm_compute; reflexivity|].
  split; [reflexivity|].
  split; [reflexivity|].
  vm_compute. discriminate.
Qed.

(** ** Vectors and sums *)

Lemma veq_refl (a : Vector3) : veq a a.
Proof. unfold veq. repeat split; reflexivity. Qed.

Lemma veq_sym (a b : Vector3) : veq a b -> veq b a.
Proof. unfold veq. intros [H1 [H2 H3]]. repeat split; symmetry; assumption. Qed.

Lemma veq_trans (a b c : Vector3) : veq a b -> veq b c -> veq a c.
Proof.
  unfold veq. intros [H1 [H2 H3]] [K1 [K2 K3]].
  repeat split; etransitivity; eassumption.
Qed.

Lemma Qsum_from (l : list Q) (a : Q) : fold_left Qplus l a == a + Qsum l.
Proof.
  unfold Qsum. revert a. induction l as [|h t IH]; intro a; simpl.
  - lra.
  - rewrite IH, (IH (0 + h)). lra.
Qed.

Lemma Qsum_app (l1 l2 : list Q) : Qsum (l1 ++ l2) == Qsum l1 + Qsum l2.
Proof.
  unfold Qsum at 1. rewrite fold_left_app, Qsum_from. reflexivity.
Qed.

Lemma vsum_from (l : list Vector3) (a : Vector3) :
  veq (fold_left vadd l a) (vadd a (vsum l)).
Proof.
  unfold vsum. revert a. induction l as [|h t IH]; intro a; simpl.
  - unfold veq; simpl. repeat split; lra.
  - pose proof (IH (vadd a h)) as H1. pose proof (IH (vadd vzero h)) as H2.
    unfold veq in *; simpl in *.
    destruct H1 as [H1x [H1y H1z]], H2 as [H2x [H2y H2z]].
    repeat split; lra.
Qed.

Lemma vsum_app (l1 l2 : list Vector3) : veq (vsum (l1 ++ l2)) (vadd (vsum l1) (vsum l2)).
Proof.
  unfold vsum at 1. rewrite fold_left_app. apply vsum_from.
Qed.

(** ** Leaves of the nodes the constructor makes *)

Lemma leaves_eq (n : BVHNode6D) :
  leaves n = match nodeType n with
             | Leaf => [n]
             | _ => flat_map leaves (children n)
             end.
Proof. destruct n; reflexivity. Qed.

Lemma nodes_with_depth_snd (n : BVHNode6D) :
  forall d d', map snd (nodes_with_depth d n) = map snd (nodes_with_depth d' n).
Proof.
  induction n as [n IH] using BVHNode6D_tree_ind. intros d d'.
  rewrite !nodes_with_depth_eq. simpl. f_equal.
  rewrite !flat_map_concat_map, !concat_map, !map_map. f_equal.
  induction IH as [|c cs Hc _ IHcs]; simpl; [reflexivity|].
  f_equal; [apply Hc|apply IHcs].
Qed.

Lemma subnodes_eq (n : BVHNode6D) :
  subnodes n = n :: flat_map subnodes (children n).
Proof.
  unfold subnodes. rewrite nodes_with_depth_eq. simpl. f_equal.
  rewrite !flat_map_concat_map, concat_map, map_map. f_equal.
  apply map_ext. intro c. apply nodes_with_depth_snd.
Qed.

(** ** [assignIDsRecursively] on the nodes the constructor makes *)

Lemma assignIDs_childless (n : BVHNode6D) (s : nat) :
  children n = [] ->
  assignIDsRecursively n s = (with_id_children n s [], (s + 1)%nat).
Proof.
  destruct n as [ty m c a mn mx e id nn sa sp th cs]. simpl. intros ->.
  destruct ty; reflexivity.
Qed.

Lemma assignIDs_two (n l g : BVHNode6D) (s : nat) :
  nodeType n = Interior ->
  children n = [l; g] ->
  assignIDsRecursively n s =
    (with_id_children n s
       [fst (assignIDsRecursively l (s + 1));
        fst (assignIDsRecursively g (snd (assignIDsRecursively l (s + 1))))],
     snd (assignIDsRecursively g (snd (assignIDsRecursively l (s + 1))))).
Proof.
  destruct n as [ty m c a mn mx e id nn sa sp th cs]. simpl. intros -> ->.
  destruct (assignIDsRecursively l (s + 1)) as [l' s1]. simpl.
  destruct (assignIDsRecursively g s1) as [g' s2]. reflexivity.
Qed.

Lemma assignIDs_fields (n : BVHNode6D) (s : nat) :
  exists cs, fst (assignIDsRecursively n s) = with_id_children n s cs.
Proof.
  destruct n as [ty m c a mn mx e id nn sa sp th cs]. simpl.
  match goal with |- context [let (_, _) := ?X in _] => destruct X as [cs' nx] end.
  exists cs'. reflexivity.
Qed.

Lemma split_points_In (points : list MassNormalPoint) (axis : Z) (sp : Q)
    (lp gp : list MassNormalPoint) :
  split_points points axis sp = Some (lp, gp) ->
  forall p, In p lp \/ In p gp -> In p points.
Proof.
  revert lp gp. induction points as [|q rest IH]; simpl; intros lp gp H p Hp.
  - inversion H; subst. destruct Hp as [[]|[]].
  - destruct (GetCoordFromBody q axis) as [c|]; [|discriminate].
    destruct (split_points rest axis sp) as [[l g]|]; [|discriminate].
    specialize (IH l g eq_refl p).
    destruct (Qle_bool c sp); inversion H; subst; simpl in Hp; tauto.
Qed.

Section Mass.

Variable normalize : Vector3 -> Vector3.
Variable indeterminate_vec : Vector3.
Variable indeterminate : Q.

Local Abbreviation BVH_new := (BVHNode6D_new normalize indeterminate_vec indeterminate).

Ltac mass_base :=
  unfold mass_inv;
  repeat match goal with |- _ /\ _ => split end;
  try (intros N [<-|[]]);
  unfold mass_center_ok, leaf_mass, leaf_moment, veq, Qsum, vsum; simpl;
  intros; repeat split; try lra; try (field; lra).

Lemma mass_inv_numbered (fuel : nat) :
  forall points axis t s,
    BVH_new fuel points axis = Returns t ->
    (forall p, In p points -> 0 < Body.mass p) ->
    mass_inv (fst (assignIDsRecursively t s)).
Proof.
  induction fuel as [|fuel IH]; intros points axis t s H Hpos; [discriminate|].
  pose proof (@BVHNode6D_new_inv _ _ _ _ _ _ _ H) as Hinv.
  destruct Hinv as [[_ ->] | [[mp [-> ->]] | [f [sp [lp [gp [l [g Hi]]]]]]]].
  - rewrite assignIDs_childless by reflexivity.
    mass_base.
  - rewrite assignIDs_childless by reflexivity.
    assert (Hm : 0 < Body.mass mp) by (apply Hpos; left; reflexivity).
    mass_base.
  - destruct Hi as [Hf [_ [_ [Hsplit [Hl [Hg ->]]]]]]. inversion Hf; subst f.
    rewrite (@assignIDs_two _ l g) by reflexivity.
    set (l' := fst (assignIDsRecursively l (s + 1))).
    set (g' := fst (assignIDsRecursively g (snd (assignIDsRecursively l (s + 1))))).
    assert (Il : mass_inv l').
    { apply (IH lp (NextAxis axis)); [exact Hl|].
      intros p Hp. apply Hpos. eapply split_points_In; eauto. }
    assert (Ig : mass_inv g').
    { apply (IH gp (NextAxis axis)); [exact Hg|].
      intros p Hp. apply Hpos. eapply split_points_In; eauto. }
    destruct (assignIDs_fields l (s + 1)) as [csl Hl'].
    destruct (assignIDs_fields g (snd (assignIDsRecursively l (s + 1)))) as [csg Hg'].
    fold l' in Hl'. fold g' in Hg'.
    assert (Hml : totalMass l' = totalMass l) by (rewrite Hl'; reflexivity).
    assert (Hmg : totalMass g' = totalMass g) by (rewrite Hg'; reflexivity).
    assert (Hcl : centerOfMass l' = centerOfMass l) by (rewrite Hl'; reflexivity).
    assert (Hcg : centerOfMass g' = centerOfMass g) by (rewrite Hg'; reflexivity).
    clearbody l' g'. clear Hl' Hg' H IH Hl Hg Hsplit Hpos Hf.
    destruct Il as [Il1 [Il2 [Il3 [Il4 Il5]]]].
    destruct Ig as [Ig1 [Ig2 [Ig3 [Ig4 Ig5]]]].
    set (t' := with_id_children (averaged normalize axis sp l g) s [l'; g']).
    assert (Hmass : leaf_mass t' == leaf_mass l' + leaf_mass g').
    { unfold leaf_mass at 1. rewrite (leaves_eq t'). simpl.
      rewrite app_nil_r, map_app, Qsum_app. reflexivity. }
    assert (Hmom : veq (leaf_moment t') (vadd (leaf_moment l') (leaf_moment g'))).
    { unfold leaf_moment at 1. rewrite (leaves_eq t'). simpl.
      rewrite app_nil_r, map_app. apply vsum_app. }
    rewrite Hml in Il1, Il2. rewrite Hmg in Ig1, Ig2.
    rewrite Hcl in Il2. rewrite Hcg in Ig2.
    assert (Htm : totalMass t' == leaf_mass t').
    { simpl. rewrite Hmass. lra. }
    assert (Hzero : leaf_mass t' == 0 -> veq (leaf_moment t') vzero).
    { intro Hz. rewrite Hmass in Hz.
      assert (Hzl : leaf_mass l' == 0) by lra.
      assert (Hzg : leaf_mass g' == 0) by lra.
      specialize (Il4 Hzl). specialize (Ig4 Hzg).
      unfold veq in *. simpl in *.
      destruct Hmom as [Hx [Hy Hz']], Il4 as [? [? ?]], Ig4 as [? [? ?]].
      repeat split; lra. }
    assert (Hcenter : veq (centerOfMass t') (vdiv (leaf_moment t') (leaf_mass t'))).
    { simpl. unfold veq in *. simpl in *.
      destruct Hmom as [Hx [Hy Hz]], Il2 as [? [? ?]], Ig2 as [? [? ?]].
      rewrite Hx, Hy, Hz, Hmass, <- Il1, <- Ig1.
      unfold Qdiv.
      repeat split; (apply Qmult_comp; [lra|apply Qinv_comp; lra]). }
    unfold mass_inv. split; [exact Htm|]. split; [|split; [|split; [exact Hzero|]]].
    + destruct (Qeq_dec (leaf_mass t') 0) as [Hz|Hnz].
      * specialize (Hzero Hz).
        assert (Hz' : totalMass t' == 0) by (rewrite Htm; exact Hz).
        unfold veq in *. simpl in *.
        destruct Hzero as [? [? ?]].
        repeat split; nra.
      * unfold veq in *. simpl in *.
        destruct Hcenter as [Hx [Hy Hz]].
        assert (Hnz' : ~ 0 + totalMass l + totalMass g == 0)
          by (intro K; apply Hnz; rewrite <- Htm; exact K).
        rewrite Hx, Hy, Hz.
        rewrite <- !Htm.
        repeat split; field; lra.
    + rewrite Hmass. lra.
    + intros N HN. rewrite subnodes_eq in HN. simpl in HN.
      rewrite app_nil_r in HN.
      destruct HN as [<-|HN]; [split; assumption|].
      apply in_app_or in HN. destruct HN; auto.
Qed.


(** Every leaf below a node of the tree is one of the bodies: a leaf node
    with the mass, the barycenter and the id of the body. *)
Lemma leaves_are_bodies_numbered (fuel : nat) :
  forall points axis t s,
    BVH_new fuel points axis = Returns t ->
    forall N, In N (subnodes (fst (assignIDsRecursively t s))) ->
    forall L, In L (leaves N) ->
      nodeType L = Leaf /\
      exists p, In p points /\ totalMass L = Body.mass p /\
                centerOfMass L = Body.point p /\ elementID L = Body.elementID p.
Proof.
  induction fuel as [|fuel IH]; intros points axis t s H N HN L HL; [discriminate|].
  pose proof (@BVHNode6D_new_inv _ _ _ _ _ _ _ H) as Hinv.
  destruct Hinv as [[_ ->] | [[mp [-> ->]] | [f [sp [lp [gp [l [g Hi]]]]]]]].
  - rewrite assignIDs_childless in HN by reflexivity.
    destruct HN as [<-|[]]. destruct HL.
  - rewrite assignIDs_childless in HN by reflexivity.
    destruct HN as [<-|[]]. destruct HL as [<-|[]].
    split; [reflexivity|]. exists mp. simpl. auto.
  - destruct Hi as [Hf [_ [_ [Hsplit [Hl [Hg ->]]]]]]. inversion Hf; subst f.
    rewrite (@assignIDs_two _ l g) in HN by reflexivity.
    simpl fst in HN.
    set (l' := fst (assignIDsRecursively l (s + 1))) in *.
    set (g' := fst (assignIDsRecursively g (snd (assignIDsRecursively l (s + 1))))) in *.
    assert (Hsub : exists pts' c s', BVH_new fuel pts' (NextAxis axis) = Returns c /\
                     (forall p, In p pts' -> In p points) /\
                     exists N', In N' (subnodes (fst (assignIDsRecursively c s'))) /\
                                In L (leaves N')).
    { rewrite subnodes_eq in HN. simpl in HN. rewrite app_nil_r in HN.
      destruct HN as [<-|HN].
      - rewrite leaves_eq in HL. simpl in HL. rewrite app_nil_r in HL.
        apply in_app_or in HL. destruct HL as [HL|HL].
        + exists lp, l, (s + 1)%nat. split; [exact Hl|]. split.
          * intros p Hp. eapply split_points_In; eauto.
          * exists l'. split; [|exact HL]. rewrite subnodes_eq. left. reflexivity.
        + exists gp, g, (snd (assignIDsRecursively l (s + 1))). split; [exact Hg|]. split.
          * intros p Hp. eapply split_points_In; eauto.
          * exists g'. split; [|exact HL]. rewrite subnodes_eq. left. reflexivity.
      - apply in_app_or in HN. destruct HN as [HN|HN].
        + exists lp, l, (s + 1)%nat. split; [exact Hl|]. split.
          * intros p Hp. eapply split_points_In; eauto.
          * exists N. split; assumption.
        + exists gp, g, (snd (assignIDsRecursively l (s + 1))). split; [exact Hg|]. split.
          * intros p Hp. eapply split_points_In; eauto.
          * exists N. split; assumption. }
    destruct Hsub as [pts' [c [s' [Hc [Hincl [N' [HN' HL']]]]]]].
    destruct (IH _ _ _ _ Hc _ HN' _ HL') as [Hty [p [Hp Hrest]]].
    split; [exact Hty|]. exists p. split; [apply Hincl, Hp|exact Hrest].
Qed.

(** C6, as the code has it.  In the tree [Create6DBVHFromMesh] returns for
    bodies of positive mass, every node [N] (interior, leaf or empty) has
    as [totalMass] the sum of the masses of the leaves below it and as
    [centerOfMass] the mass-weighted mean of their barycenters, in exact
    arithmetic; these leaves are the bodies, each with its own mass and
    barycenter.  (For a node without leaves, an empty node, the code sets
    the mass 0 and the center [(0, 0, 0)], and the mean is read as that.)
    On doubles the sums are rounded as the code adds them, child by child,
    and are not within a fixed [1e-10] of the exact ones. *)
Theorem Create6DBVH_total_mass_and_center
    (fuel : nat) (verts : list MassNormalPoint) (t : BVHNode6D) :
  Create6DBVH normalize indeterminate_vec indeterminate fuel verts = Returns t ->
  (forall p, In p verts -> 0 < Body.mass p) ->
  forall N, In N (subnodes t) ->
    totalMass N == Qsum (map totalMass (leaves N)) /\
    veq (centerOfMass N)
        (vdiv (vsum (map (fun L => vscale (totalMass L) (centerOfMass L)) (leaves N)))
              (Qsum (map totalMass (leaves N)))) /\
    forall L, In L (leaves N) ->
      nodeType L = Leaf /\
      exists p, In p verts /\ totalMass L = Body.mass p /\
                centerOfMass L = Body.point p /\ elementID L = Body.elementID p.
Proof.
  unfold Create6DBVH. intros H Hpos N HN.
  destruct (BVH_new fuel verts 0) as [t0| |] eqn:E; try discriminate.
  simpl in H. inversion H; subst t. clear H.
  destruct (@mass_inv_numbered fuel verts 0%Z t0 0%nat E Hpos) as [_ [_ [_ [_ Hall]]]].
  destruct (Hall N HN) as [H1 H2].
  split; [exact H1|]. split; [exact H2|].
  intros L HL. eapply leaves_are_bodies_numbered; eassumption.
Qed.

End Mass.

Lemma Create6DBVH_total_mass_and_center_witness :
  exists t,
    Create6DBVH (fun v => v) vzero 0 5 three_bodies = Returns t /\
    (totalMass t == Qsum (map totalMass (leaves t)) /\
     veq (centerOfMass t)
         (vdiv (vsum (map (fun L => vscale (totalMass L) (centerOfMass L)) (leaves t)))
               (Qsum (map totalMass (leaves t)))) /\
     forall L, In L (leaves t) ->
       nodeType L = Leaf /\
       exists p, In p three_bodies /\ totalMass L = Body.mass p /\
                 centerOfMass L = Body.point p /\ elementID L = Body.elementID p).
Proof.
  eexists. split; [vm_compute; reflexivity|].
  eapply (@Create6DBVH_total_mass_and_center (fun v => v) vzero 0 5%nat three_bodies).
  - vm_compute. reflexivity.
  - intros p [<-|[<-|[<-|[]]]]; reflexivity.
  - rewrite subnodes_eq. left. reflexivity.
Defined.

(** ** Termination of the constructor *)

Lemma all_coords_In (points : list MassNormalPoint) (axis : Z) (coords : list Q) :
  all_coords points axis = Some coords ->
  forall c, In c coords <-> exists p, In p points /\ GetCoordFromBody p axis = Some c.
Proof.
  revert coords. induction points as [|q rest IH]; simpl; intros coords H c.
  - inversion H; subst. simpl. split; [tauto|]. intros [p [[] _]].
  - destruct (GetCoordFromBody q axis) as [cq|] eqn:Eq; [|discriminate].
    destruct (all_coords rest axis) as [cs|]; [|discriminate].
    inversion H; subst. simpl. rewrite (IH cs eq_refl c). split.
    + intros [<-|[p [Hp Hc]]]; eauto.
    + intros [p [[<-|Hp] Hc]]; [left; congruence|right; eauto].
Qed.

Lemma split_points_total (points : list MassNormalPoint) (axis : Z) (sp : Q)
    (coords : list Q) :
  all_coords points axis = Some coords ->
  exists lp gp, split_points points axis sp = Some (lp, gp) /\
                (length lp + length gp = length points)%nat.
Proof.
  revert coords. induction points as [|q rest IH]; simpl; intros coords H.
  - exists [], []. auto.
  - destruct (GetCoordFromBody q axis) as [cq|]; [|discriminate].
    destruct (all_coords rest axis) as [cs|]; [|discriminate].
    destruct (IH cs eq_refl) as [lp [gp [-> Hlen]]].
    destruct (Qle_bool cq sp); eexists; eexists; (split; [reflexivity|simpl; lia]).
Qed.

Lemma split_points_all_lesser (points : list MassNormalPoint) (axis : Z) (sp : Q)
    (coords : list Q) :
  all_coords points axis = Some coords ->
  (forall c, In c coords -> c <= sp) ->
  split_points points axis sp = Some (points, []).
Proof.
  revert coords. induction points as [|q rest IH]; simpl; intros coords H Hle.
  - reflexivity.
  - destruct (GetCoordFromBody q axis) as [cq|]; [|discriminate].
    destruct (all_coords rest axis) as [cs|]; [|discriminate].
    inversion H; subst.
    rewrite (IH cs eq_refl) by (intros c Hc; apply Hle; right; exact Hc).
    replace (Qle_bool cq sp) with true; [reflexivity|].
    symmetry. apply Qle_bool_iff, Hle. left. reflexivity.
Qed.

Lemma split_points_lesser_nonempty (points : list MassNormalPoint) (axis : Z) (sp : Q)
    (lp gp : list MassNormalPoint) :
  split_points points axis sp = Some (lp, gp) ->
  (exists p c, In p points /\ GetCoordFromBody p axis = Some c /\ c <= sp) ->
  lp <> [].
Proof.
  revert lp gp. induction points as [|q rest IH]; simpl; intros lp gp H [p [c [Hp [Hc Hle]]]].
  - destruct Hp.
  - destruct (GetCoordFromBody q axis) as [cq|] eqn:Eq; [|discriminate].
    destruct (split_points rest axis sp) as [[l g]|]; [|discriminate].
    destruct (Qle_bool cq sp) eqn:E; inversion H; subst; [discriminate|].
    destruct Hp as [<-|Hp].
    + rewrite Eq in Hc. inversion Hc; subst. apply Qle_bool_iff in Hle. congruence.
    + eapply IH; [reflexivity|]. eauto.
Qed.

Lemma split_points_greater_nonempty (points : list MassNormalPoint) (axis : Z) (sp : Q)
    (lp gp : list MassNormalPoint) :
  split_points points axis sp = Some (lp, gp) ->
  (exists p c, In p points /\ GetCoordFromBody p axis = Some c /\ sp < c) ->
  gp <> [].
Proof.
  revert lp gp. induction points as [|q rest IH]; simpl; intros lp gp H [p [c [Hp [Hc Hlt]]]].
  - destruct Hp.
  - destruct (GetCoordFromBody q axis) as [cq|] eqn:Eq; [|discriminate].
    destruct (split_points rest axis sp) as [[l g]|]; [|discriminate].
    destruct (Qle_bool cq sp) eqn:E; inversion H; subst; [|discriminate].
    destruct Hp as [<-|Hp].
    + rewrite Eq in Hc. inversion Hc; subst. apply Qle_bool_iff in E.
      exfalso. apply (Qlt_not_le _ _ Hlt E).
    + eapply IH; [reflexivity|]. eauto.
Qed.

Lemma split_points_distinct (points : list MassNormalPoint) (axis : Z) (sp : Q)
    (lp gp : list MassNormalPoint) :
  split_points points axis sp = Some (lp, gp) ->
  pairwise_distinct points -> pairwise_distinct lp /\ pairwise_distinct gp.
Proof.
  revert lp gp. induction points as [|q rest IH]; simpl; intros lp gp H Hd.
  - inversion H; subst. simpl. auto.
  - destruct (GetCoordFromBody q axis) as [cq|]; [|discriminate].
    destruct (split_points rest axis sp) as [[l g]|] eqn:E; [|discriminate].
    destruct Hd as [Hq Hrest].
    destruct (IH l g eq_refl Hrest) as [Hl Hg].
    assert (Hin : forall p, In p l \/ In p g -> In p rest)
      by (apply (split_points_In _ _ _ E)).
    rewrite Forall_forall in Hq.
    destruct (Qle_bool cq sp); inversion H; subst; simpl.
    + split; [split|]; try assumption.
      apply Forall_forall. intros p Hp. apply Hq, Hin. auto.
    + split; [|split]; try assumption.
      apply Forall_forall. intros p Hp. apply Hq, Hin. auto.
Qed.

Lemma all_equal_true (coords : list Q) :
  all_equal coords = true -> forall c c', In c coords -> In c' coords -> c == c'.
Proof.
  destruct coords as [|h rest]; simpl; intros H c c' Hc Hc'; [destruct Hc|].
  rewrite forallb_forall in H.
  assert (Hh : forall x, h = x \/ In x rest -> h == x).
  { intros x [<-|Hx]; [reflexivity|]. apply Qeq_bool_iff, H, Hx. }
  rewrite <- (Hh c Hc), <- (Hh c' Hc'). reflexivity.
Qed.

Lemma all_equal_false (coords : list Q) :
  all_equal coords = false -> exists c c', In c coords /\ In c' coords /\ ~ c == c'.
Proof.
  destruct coords as [|h rest]; simpl; intro H; [discriminate|].
  assert (Hex : existsb (fun x => negb (Qeq_bool h x)) rest = true).
  { clear -H. induction rest as [|x r IH]; simpl in *; [discriminate|].
    destruct (Qeq_bool h x); simpl in *; auto. }
  apply existsb_exists in Hex. destruct Hex as [x [Hx Hneq]].
  exists h, x. repeat split; auto.
  intro Heq. apply Qeq_bool_iff in Heq. rewrite Heq in Hneq. discriminate.
Qed.

(** Every coordinate lies between the first and the last sorted one. *)
Lemma sorted_bounds (coords : list Q) (c : Q) :
  In c coords ->
  at_index (sort coords) 0 <= c /\ c <= at_index (sort coords) (length coords - 1).
Proof.
  intro Hc.
  assert (Hin : In c (sort coords)) by (eapply Permutation_in; [apply sort_perm|exact Hc]).
  destruct (In_nth _ _ 0 Hin) as [i [Hi Hnth]].
  rewrite sort_length in Hi.
  pose proof (sort_sorted coords) as Hs.
  split; rewrite <- Hnth.
  - apply (sorted_at_index Hs); [lia|rewrite sort_length; lia].
  - apply (sorted_at_index Hs); [lia|rewrite sort_length; lia].
Qed.

Lemma at_index_sort_In (coords : list Q) (i : nat) :
  (i < length coords)%nat -> In (at_index (sort coords) i) coords.
Proof.
  intro Hi. eapply Permutation_in; [apply Permutation_sym, sort_perm|].
  apply nth_In. rewrite sort_length. exact Hi.
Qed.

(** What [AxisSplittingPlane] returns for two bodies or more: the midpoint
    of the sorted coordinates at [k] and [k + 1], for the first index [k]
    with the least sum of squares. *)
Lemma AxisSplittingPlane_spec (points : list MassNormalPoint) (axis : Z) (coords : list Q) :
  all_coords points axis = Some coords ->
  (2 <= length points)%nat ->
  (Z.of_nat (length points) < 2 ^ 64)%Z ->
  exists k,
    (k + 2 <= length points)%nat /\
    AxisSplittingPlane points axis
      = Some ((at_index (sort coords) k + at_index (sort coords) (k + 1)) / 2) /\
    forall j, (j < k)%nat ->
      sumSquares_at (sort coords) (length points) k
        < sumSquares_at (sort coords) (length points) j.
Proof.
  intros Hc Hn Hsize.
  pose proof (@all_coords_length points axis coords Hc) as Hlen.
  assert (Hsl : length (sort coords) = length points)
    by (rewrite sort_length; exact Hlen).
  destruct (@select_splitIndex_bound (sort coords)) as [k [Hsel [Hk Hlt]]].
  { apply sort_sorted. }
  { lia. }
  rewrite Hsl in Hk, Hlt.
  exists k. split; [exact Hk|]. split; [|exact Hlt].
  unfold AxisSplittingPlane. rewrite Hc. cbv zeta. rewrite Hsel.
  unfold splitPoint_of.
  replace (size_t_wrap (Z.of_nat k + 1)) with (Z.of_nat (k + 1))
    by (unfold size_t_wrap; rewrite Z.mod_small; lia).
  rewrite !coord_at_in_range by lia. reflexivity.
Qed.

(** All coordinates equal: every body goes to the lesser side. *)
Lemma split_degenerate (points : list MassNormalPoint) (axis : Z) (coords : list Q) :
  all_coords points axis = Some coords ->
  (2 <= length points)%nat ->
  (Z.of_nat (length points) < 2 ^ 64)%Z ->
  all_equal coords = true ->
  exists sp, AxisSplittingPlane points axis = Some sp /\
             split_points points axis sp = Some (points, []).
Proof.
  intros Hc Hn Hsize Heq.
  pose proof (@all_coords_length points axis coords Hc) as Hlen.
  destruct (@AxisSplittingPlane_spec points axis coords Hc Hn Hsize) as [k [Hk [Hsp _]]].
  eexists. split; [exact Hsp|].
  eapply split_points_all_lesser; [exact Hc|].
  intros c Hin.
  pose proof (@all_equal_true coords Heq) as Hall.
  assert (H1 : c == at_index (sort coords) k)
    by (apply Hall; [exact Hin|apply at_index_sort_In; lia]).
  assert (H2 : c == at_index (sort coords) (k + 1))
    by (apply Hall; [exact Hin|apply at_index_sort_In; lia]).
  rewrite <- H1, <- H2.
  apply Qle_shift_div_l; lra.
Qed.

(** Two different coordinates: both sides get a body. *)
Lemma split_progress (points : list MassNormalPoint) (axis : Z) (coords : list Q) :
  all_coords points axis = Some coords ->
  (2 <= length points)%nat ->
  (Z.of_nat (length points) < 2 ^ 64)%Z ->
  all_equal coords = false ->
  exists sp lp gp,
    AxisSplittingPlane points axis = Some sp /\
    split_points points axis sp = Some (lp, gp) /\
    lp <> [] /\ gp <> [] /\
    (length lp + length gp = length points)%nat.
Proof.
  intros Hc Hn Hsize Hneq.
  pose proof (@all_coords_length points axis coords Hc) as Hlen.
  destruct (@AxisSplittingPlane_spec points axis coords Hc Hn Hsize) as [k [Hk [Hsp Hlt]]].
  set (s := sort coords) in *.
  set (sp := (at_index s k + at_index s (k + 1)) / 2) in *.
  destruct (@split_points_total points axis sp coords Hc) as [lp [gp [Hsplit Hsum]]].
  exists sp, lp, gp.
  split; [exact Hsp|]. split; [exact Hsplit|].
  pose proof (sort_sorted coords) as Hs. fold s in Hs.
  assert (Hsl : length s = length points)
    by (unfold s; rewrite sort_length; exact Hlen).
  assert (H0k : at_index s 0 <= at_index s k)
    by (apply (sorted_at_index Hs); lia).
  assert (Hkk : at_index s k <= at_index s (k + 1))
    by (apply (sorted_at_index Hs); lia).
  assert (Hkn : at_index s (k + 1) <= at_index s (length points - 1))
    by (apply (sorted_at_index Hs); lia).
  assert (H01 : at_index s 0 <= at_index s 1)
    by (apply (sorted_at_index Hs); lia).
  assert (H1n : at_index s 1 <= at_index s (length points - 1))
    by (apply (sorted_at_index Hs); lia).
  assert (H0n : at_index s 0 < at_index s (length points - 1)).
  { destruct (@all_equal_false coords Hneq) as [x [y [Hx [Hy Hxy]]]].
    destruct (@sorted_bounds coords x Hx) as [Hx1 Hx2].
    destruct (@sorted_bounds coords y Hy) as [Hy1 Hy2].
    fold s in Hx1, Hx2, Hy1, Hy2. rewrite Hlen in Hx2, Hy2.
    apply Qnot_le_lt. intro Hle. apply Hxy. lra. }
  assert (Hsp2 : sp * 2 == at_index s k + at_index s (k + 1)) by (unfold sp; field).
  assert (Hlow : at_index s 0 <= sp) by lra.
  assert (Hhigh : sp < at_index s (length points - 1)).
  { apply Qnot_le_lt. intro Hle.
    assert (E1 : at_index s k == at_index s (length points - 1)) by lra.
    assert (E2 : at_index s (k + 1) == at_index s (length points - 1)) by lra.
    destruct k as [|k'].
    - lra.
    - assert (Hpos : (0 < S k')%nat) by lia.
      specialize (Hlt 0%nat Hpos).
      unfold sumSquares_at in Hlt.
      replace (S k' =? length points - 1)%nat with false in Hlt
        by (symmetry; apply Nat.eqb_neq; lia).
      replace (0 =? length points - 1)%nat with false in Hlt
        by (symmetry; apply Nat.eqb_neq; lia).
      simpl (0 + 1)%nat in Hlt. cbv zeta in Hlt.
      nra. }
  split; [|split; [|exact Hsum]].
  - eapply split_points_lesser_nonempty; [exact Hsplit|].
    assert (Hin : In (at_index s 0) coords) by (apply at_index_sort_In; lia).
    apply (@all_coords_In points axis coords Hc) in Hin. destruct Hin as [p [Hp Hcp]].
    exists p, (at_index s 0). auto.
  - eapply split_points_greater_nonempty; [exact Hsplit|].
    assert (Hin : In (at_index s (length points - 1)) coords)
      by (apply at_index_sort_In; lia).
    apply (@all_coords_In points axis coords Hc) in Hin. destruct Hin as [p [Hp Hcp]].
    exists p, (at_index s (length points - 1)). auto.
Qed.

Section Termination.

Variable normalize : Vector3 -> Vector3.
Variable indeterminate_vec : Vector3.
Variable indeterminate : Q.

Local Abbreviation BVH_new := (BVHNode6D_new normalize indeterminate_vec indeterminate).
Local Abbreviation halts := (terminates normalize indeterminate_vec indeterminate).

(** More fuel does not change what the constructor returns. *)
Lemma BVHNode6D_new_fuel_mono (fuel : nat) :
  forall points axis t,
    BVH_new fuel points axis = Returns t ->
    forall fuel', (fuel <= fuel')%nat -> BVH_new fuel' points axis = Returns t.
Proof.
  induction fuel as [|fuel IH]; intros points axis t H fuel' Hle; [discriminate|].
  destruct fuel' as [|fuel']; [lia|].
  destruct points as [|p [|q rest]]; [exact H|exact H|].
  cbn [BVHNode6D_new] in *.
  destruct (AxisSplittingPlane (p :: q :: rest) axis) as [sp|]; [|discriminate].
  destruct (split_points (p :: q :: rest) axis sp) as [[lp gp]|]; [|discriminate].
  destruct (BVH_new fuel lp (NextAxis axis)) as [l| |] eqn:El; try discriminate.
  destruct (BVH_new fuel gp (NextAxis axis)) as [g| |] eqn:Eg; try discriminate.
  rewrite (IH _ _ _ El fuel') by lia.
  rewrite (IH _ _ _ Eg fuel') by lia.
  exact H.
Qed.

Lemma terminates_node (points lp gp : list MassNormalPoint) (axis : Z) (sp : Q) :
  (2 <= length points)%nat ->
  AxisSplittingPlane points axis = Some sp ->
  split_points points axis sp = Some (lp, gp) ->
  halts lp (NextAxis axis) ->
  halts gp (NextAxis axis) ->
  halts points axis.
Proof.
  intros Hn Hsp Hsplit [f1 [l Hl]] [f2 [g Hg]].
  exists (S (Nat.max f1 f2)), (averaged normalize axis sp l g).
  destruct points as [|p [|q rest]]; simpl in Hn; try lia.
  cbn [BVHNode6D_new]. rewrite Hsp, Hsplit.
  rewrite (@BVHNode6D_new_fuel_mono f1 _ _ _ Hl (Nat.max f1 f2)) by lia.
  rewrite (@BVHNode6D_new_fuel_mono f2 _ _ _ Hg (Nat.max f1 f2)) by lia.
  reflexivity.
Qed.

Lemma terminates_small (points : list MassNormalPoint) (axis : Z) :
  (length points <= 1)%nat -> halts points axis.
Proof.
  intro Hn. destruct points as [|p [|q rest]]; simpl in Hn; try lia.
  - exists 1%nat. eexists. reflexivity.
  - exists 1%nat. eexists. reflexivity.
Qed.

Lemma NextAxis_range (axis : Z) : (0 <= NextAxis axis <= 2)%Z.
Proof.
  unfold NextAxis.
  destruct axis as [|a|a]; try lia.
  destruct a as [[a|a|]|[a|a|]|]; lia.
Qed.

(** One level of the recursion: either the bodies are split into two
    non-empty halves, which the induction covers, or all of them go on to the
    next axis. *)
Lemma axis_step (points : list MassNormalPoint) (axis : Z) :
  (0 <= axis <= 5)%Z ->
  (2 <= length points)%nat ->
  (Z.of_nat (length points) < 2 ^ 64)%Z ->
  pairwise_distinct points ->
  (forall points' axis',
      (length points' < length points)%nat ->
      (0 <= axis' <= 5)%Z ->
      pairwise_distinct points' ->
      halts points' axis') ->
  halts points axis \/
  (degenerate points axis /\
   (halts points (NextAxis axis) -> halts points axis)).
Proof.
  intros Hax Hn Hsize Hd IH.
  destruct (all_coords_valid_axis points Hax) as [coords Hc].
  pose proof (NextAxis_range axis) as Hnext.
  destruct (all_equal coords) eqn:E.
  - right. split; [exists coords; auto|].
    destruct (@split_degenerate points axis coords Hc Hn Hsize E) as [sp [Hsp Hsplit]].
    intro Ht. eapply terminates_node; eauto.
    apply terminates_small. simpl. lia.
  - left.
    destruct (@split_progress points axis coords Hc Hn Hsize E)
      as [sp [lp [gp [Hsp [Hsplit [Hlp [Hgp Hsum]]]]]]].
    destruct (@split_points_distinct points axis sp lp gp Hsplit Hd) as [Hdl Hdg].
    assert (0 < length lp)%nat by (destruct lp; [congruence|simpl; lia]).
    assert (0 < length gp)%nat by (destruct gp; [congruence|simpl; lia]).
    eapply terminates_node; eauto; apply IH; auto; lia.
Qed.

Lemma degenerate_first_two (p q : MassNormalPoint) (rest : list MassNormalPoint) (axis : Z) :
  degenerate (p :: q :: rest) axis ->
  exists cp cq, GetCoordFromBody p axis = Some cp /\
                GetCoordFromBody q axis = Some cq /\ cp == cq.
Proof.
  intros [coords [Hc Heq]]. simpl in Hc.
  destruct (GetCoordFromBody p axis) as [cp|]; [|discriminate].
  destruct (GetCoordFromBody q axis) as [cq|]; [|discriminate].
  destruct (all_coords rest axis) as [cs|]; [|discriminate].
  inversion Hc; subst. simpl in Heq.
  apply andb_true_iff in Heq. destruct Heq as [Heq _].
  exists cp, cq. repeat split. apply Qeq_bool_iff, Heq.
Qed.

Lemma not_degenerate_on_all_positions (points : list MassNormalPoint) :
  (2 <= length points)%nat ->
  pairwise_distinct points ->
  degenerate points 0 -> degenerate points 1 -> degenerate points 2 -> False.
Proof.
  intros Hn Hd H0 H1 H2.
  destruct points as [|p [|q rest]]; simpl in Hn; try lia.
  destruct (degenerate_first_two H0) as [x1 [x2 [Hx1 [Hx2 Hx]]]].
  destruct (degenerate_first_two H1) as [y1 [y2 [Hy1 [Hy2 Hy]]]].
  destruct (degenerate_first_two H2) as [z1 [z2 [Hz1 [Hz2 Hz]]]].
  simpl in *.
  inversion Hx1; inversion Hx2; inversion Hy1; inversion Hy2;
    inversion Hz1; inversion Hz2; subst.
  destruct Hd as [Hq _]. inversion Hq as [|? ? Hpq _]; subst.
  apply Hpq. unfold veq. auto.
Qed.

(** In exact arithmetic, where the midpoint of two different coordinates
    lies strictly between them: for bodies with pairwise distinct
    barycenters (and a split axis among 0..5) the constructor of [BVHNode6D]
    returns: with enough fuel the recursion ends, and every branch of it
    ends in a call with at most one body, the only calls that do not
    recurse. *)
Theorem BVHNode6D_new_terminates (points : list MassNormalPoint) (axis : Z) :
  (0 <= axis <= 5)%Z ->
  (Z.of_nat (length points) < 2 ^ 64)%Z ->
  pairwise_distinct points ->
  exists fuel t,
    BVH_new fuel points axis = Returns t /\
    forall fuel', (fuel <= fuel')%nat -> BVH_new fuel' points axis = Returns t.
Proof.
  intros Hax Hsize Hd.
  assert (Ht : halts points axis).
  { remember (length points) as n eqn:Hn.
    revert points axis Hn Hax Hsize Hd.
    induction n as [n IH] using lt_wf_ind. intros points axis Hn Hax Hsize Hd.
    destruct (le_lt_dec (length points) 1) as [Hsmall|Hbig];
      [apply terminates_small; exact Hsmall|].
    assert (IH' : forall points' axis',
               (length points' < length points)%nat ->
               (0 <= axis' <= 5)%Z ->
               pairwise_distinct points' ->
               halts points' axis').
    { intros points' axis' Hlt Hax' Hd'.
      apply (IH (length points')); auto; lia. }
    assert (Hstep : forall a, (0 <= a <= 5)%Z ->
               halts points a \/
               (degenerate points a /\ (halts points (NextAxis a) -> halts points a))).
    { intros a Ha. apply axis_step; auto. lia. }
    destruct (Hstep axis Hax) as [Hdone|[_ K0]]; [exact Hdone|].
    apply K0.
    pose proof (NextAxis_range axis) as Hr.
    set (a1 := NextAxis axis) in *.
    destruct (Hstep a1 ltac:(lia)) as [Hdone|[D1 K1]]; [exact Hdone|].
    apply K1.
    destruct (Hstep (NextAxis a1) ltac:(pose proof (NextAxis_range a1); lia))
      as [Hdone|[D2 K2]]; [exact Hdone|].
    apply K2.
    destruct (Hstep (NextAxis (NextAxis a1))
                ltac:(pose proof (NextAxis_range (NextAxis a1)); lia))
      as [Hdone|[D3 _]]; [exact Hdone|].
    exfalso.
    assert (Ha1 : (a1 = 0 \/ a1 = 1 \/ a1 = 2)%Z) by lia.
    destruct Ha1 as [E|[E|E]]; rewrite E in *; simpl in D2, D3;
      eapply (@not_degenerate_on_all_positions points); eauto; lia. }
  destruct Ht as [fuel [t Ht]].
  exists fuel, t. split; [exact Ht|].
  intros fuel' Hle. eapply BVHNode6D_new_fuel_mono; eauto.
Qed.

End Termination.

Lemma BVHNode6D_new_terminates_witness :
  exists fuel t,
    BVHNode6D_new (fun v => v) vzero 0 fuel three_bodies 0 = Returns t /\
    forall fuel', (fuel <= fuel')%nat ->
      BVHNode6D_new (fun v => v) vzero 0 fuel' three_bodies 0 = Returns t.
Proof.
  apply (@BVHNode6D_new_terminates (fun v => v) vzero 0 three_bodies 0%Z).
  - lia.
  - simpl. lia.
  - simpl. repeat split; repeat constructor;
      unfold veq; simpl; intros [H _]; discriminate H.
Defined.

(** ** Vectors and matrices written at an index *)

Lemma list_set_Some (A : Type) (l : list A) (i : nat) (a : A) :
  (i < length l)%nat -> exists l', list_set l i a = Some l'.
Proof.
  revert i. induction l as [|h t IH]; intros i Hi; simpl in *; [lia|].
  destruct i as [|i]; [eauto|].
  destruct (IH i ltac:(lia)) as [t' ->]. eauto.
Qed.

Lemma list_set_spec (A : Type) (l l' : list A) (i : nat) (a : A) :
  list_set l i a = Some l' ->
  (i < length l)%nat /\ length l' = length l /\
  nth_error l' i = Some a /\
  forall j, j <> i -> nth_error l' j = nth_error l j.
Proof.
  revert l' i. induction l as [|h t IH]; intros l' i H; simpl in *; [discriminate|].
  destruct i as [|i].
  - inversion H; subst. simpl. repeat split; try lia.
    intros [|j] Hj; [congruence|reflexivity].
  - destruct (list_set t i a) as [t'|] eqn:E; [|discriminate].
    inversion H; subst. destruct (IH t' i E) as [Hi [Hlen [Hget Hother]]].
    simpl. repeat split; try lia; auto.
    intros [|j] Hj; [reflexivity|]. simpl. apply Hother. congruence.
Qed.

(** ** Snapshot and restore *)

Section Flow_properties.

Variable vertices : list GCVertex.
Variable indices : GCVertex -> nat.
Variable Value : VertexPositions -> Q.
Variable Differential : VertexPositions -> Matrix3.
Variable matrix_norm : Matrix3 -> Q.

(** The loop of [SaveCurrentPositions] over some of the vertices. *)
Lemma save_loop (positions : VertexPositions) (vs : list GCVertex) :
  forall A0 A,
    foldM (fun origPositions v => set_row origPositions (indices v) (positions v)) vs A0
      = Returns A ->
    NoDup (map indices vs) ->
    length A = length A0 /\
    (forall v, In v vs -> nth_error A (indices v) = Some (positions v)) /\
    (forall i, ~ In i (map indices vs) -> nth_error A i = nth_error A0 i).
Proof.
  clear matrix_norm Value Differential.
  induction vs as [|v rest IH]; intros A0 A H Hnd; simpl in H.
  - inversion H; subst. repeat split; auto. intros v [].
  - unfold set_row at 1 in H.
    destruct (list_set A0 (indices v) (positions v)) as [A1|] eqn:E; [|discriminate].
    simpl in H. inversion Hnd as [|? ? Hnotin Hnd']; subst.
    destruct (IH A1 A H Hnd') as [Hlen [Hin Hout]].
    destruct (list_set_spec _ _ _ E) as [_ [Hlen1 [Hget Hother]]].
    split; [congruence|]. split.
    + intros u [<-|Hu]; [|apply Hin, Hu].
      rewrite Hout by exact Hnotin. exact Hget.
    + intros i Hi. simpl in Hi.
      rewrite Hout by tauto. apply Hother. intro; subst; tauto.
Qed.

(** The loops of [RestorePositions] and [SetGradientStep] write, for each
    vertex, a value that depends on the vertex alone. *)
Lemma position_loop (f : GCVertex -> outcome Vector3) (vs : list GCVertex) :
  forall p0 p,
    foldM (fun positions v => bind (f v) (fun x => Returns (set_position positions v x)))
      vs p0 = Returns p ->
    (forall v, In v vs -> f v = Returns (p v)) /\
    (forall u, ~ In u vs -> p u = p0 u).
Proof.
  clear matrix_norm indices Value Differential.
  induction vs as [|v rest IH]; intros p0 p H; simpl in H.
  - inversion H; subst. split; [intros v []|auto].
  - destruct (f v) as [x| |] eqn:E; try discriminate. simpl in H.
    destruct (IH _ _ H) as [Hin Hout]. split.
    + intros u [<-|Hu]; [|apply Hin, Hu].
      destruct (in_dec Nat.eq_dec v rest) as [Hv|Hv]; [apply Hin, Hv|].
      rewrite (Hout v Hv). unfold set_position. rewrite Nat.eqb_refl. exact E.
    + intros u Hu. simpl in Hu. rewrite Hout by tauto.
      unfold set_position. replace (u =? v)%nat with false; [reflexivity|].
      symmetry. apply Nat.eqb_neq. intro; subst; tauto.
Qed.

Lemma position_loop_total (f : GCVertex -> outcome Vector3) (vs : list GCVertex) :
  (forall v, In v vs -> exists x, f v = Returns x) ->
  forall p0, exists p,
    foldM (fun positions v => bind (f v) (fun x => Returns (set_position positions v x)))
      vs p0 = Returns p.
Proof.
  induction vs as [|v rest IH]; intros Hf p0; simpl.
  - eauto.
  - destruct (Hf v (or_introl eq_refl)) as [x ->]. simpl.
    apply IH. intros u Hu. apply Hf. right. exact Hu.
Qed.

Lemma SaveCurrentPositions_rows (positions : VertexPositions) (origPositions : Matrix3) :
  SaveCurrentPositions vertices indices positions = Returns origPositions ->
  NoDup (map indices vertices) ->
  forall v, In v vertices -> GetRow origPositions (indices v) = Returns (positions v).
Proof.
  unfold SaveCurrentPositions. intros H Hnd v Hv.
  destruct (save_loop _ _ _ H Hnd) as [_ [Hin _]].
  unfold GetRow. rewrite (Hin v Hv). reflexivity.
Qed.

(** Restore after snapshot gives back the positions of the snapshot,
    whatever the vertices of the mesh were moved to in between. *)
Lemma RestorePositions_after_save (positions moved : VertexPositions)
    (origPositions : Matrix3) :
  SaveCurrentPositions vertices indices positions = Returns origPositions ->
  NoDup (map indices vertices) ->
  (forall u, ~ In u vertices -> moved u = positions u) ->
  exists restored,
    RestorePositions vertices indices origPositions moved = Returns restored /\
    forall u, restored u = positions u.
Proof.
  intros Hsave Hnd Hmoved.
  pose proof (SaveCurrentPositions_rows _ Hsave Hnd) as Hrows.
  unfold RestorePositions.
  destruct (@position_loop_total (fun v => GetRow origPositions (indices v)) vertices)
    with (p0 := moved) as [p Hp].
  { intros v Hv. rewrite (Hrows v Hv). eauto. }
  exists p. split; [exact Hp|].
  destruct (position_loop _ _ _ Hp) as [Hin Hout].
  intro u. destruct (in_dec Nat.eq_dec u vertices) as [Hu|Hu].
  - specialize (Hin u Hu). rewrite (Hrows u Hu) in Hin. inversion Hin. reflexivity.
  - rewrite (Hout u Hu). apply Hmoved, Hu.
Qed.

Lemma foldM_ext (A S : Type) (f g : S -> A -> outcome S) (l : list A) :
  (forall s a, f s a = g s a) -> forall s, foldM f l s = foldM g l s.
Proof.
  intro Hfg. induction l as [|a rest IH]; intro s; simpl; [reflexivity|].
  rewrite Hfg. destruct (g s a); simpl; auto.
Qed.

Lemma SetGradientStep_spec (gradient : Matrix3) (delta : Q) (origPositions : Matrix3)
    (p0 p : VertexPositions) :
  SetGradientStep vertices indices gradient delta origPositions p0 = Returns p ->
  (forall v, In v vertices -> stepped indices gradient delta origPositions v = Returns (p v)) /\
  (forall u, ~ In u vertices -> p u = p0 u).
Proof.
  unfold SetGradientStep. intro H.
  apply (@position_loop (stepped indices gradient delta origPositions) vertices p0 p).
  rewrite <- H. apply foldM_ext. intros q v. unfold stepped.
  destruct (GetRow origPositions (indices v)); simpl; try reflexivity.
  destruct (GetRow gradient (indices v)); reflexivity.
Qed.

(** The loop of [LineSearchStep]: the step it ends with is the first one
    halved some number of times; it ends either at or below the threshold,
    or above it at positions that pass the test of sufficient decrease. *)
Lemma backtrack_spec (gradient : Matrix3) (gradDot : Q) (origPositions : Matrix3)
    (initialEnergy gradNorm : Q) (fuel : nat) :
  forall delta positions numBacktracks delta' positions' numBacktracks',
    backtrack vertices indices Value fuel gradient gradDot origPositions initialEnergy
      gradNorm delta positions numBacktracks
      = Returns (delta', positions', numBacktracks') ->
    (exists k, delta' = Nat.iter k (fun d => d / 2) delta /\
               numBacktracks' = (numBacktracks + k)%nat) /\
    (forall u, ~ In u vertices -> positions' u = positions u) /\
    (delta' <= LS_STEP_THRESHOLD \/
     (LS_STEP_THRESHOLD < delta' /\
      (forall v, In v vertices ->
         stepped indices gradient delta' origPositions v = Returns (positions' v)) /\
      (1 # 100) * delta' * gradNorm * gradDot <= initialEnergy - Value positions')).
Proof.
  induction fuel as [|fuel IH];
    intros delta positions nb delta' positions' nb' H; simpl in H.
  - destruct (Qltb LS_STEP_THRESHOLD delta) eqn:E; [discriminate|].
    inversion H; subst. apply Qltb_false in E.
    split; [exists 0%nat; split; [reflexivity|lia]|]. split; auto.
  - destruct (Qltb LS_STEP_THRESHOLD delta) eqn:E.
    + apply Qltb_true in E.
      destruct (SetGradientStep vertices indices gradient delta origPositions positions)
        as [p1| |] eqn:Estep; try discriminate.
      simpl in H.
      destruct (SetGradientStep_spec _ _ _ _ Estep) as [Hin Hout].
      destruct (Qltb (initialEnergy - Value p1) ((1 # 100) * delta * gradNorm * gradDot))
        eqn:Edec.
      * destruct (IH _ _ _ _ _ _ H) as [[k [Hk Hnb]] [Hout' Hend]].
        split; [exists (S k); split; [rewrite Nat.iter_succ_r; exact Hk|lia]|].
        split; [|exact Hend].
        intros u Hu. rewrite Hout' by exact Hu. apply Hout, Hu.
      * inversion H; subst. apply Qltb_false in Edec.
        split; [exists 0%nat; split; [reflexivity|lia]|].
        split; [exact Hout|]. right. auto.
    + inversion H; subst. apply Qltb_false in E.
      split; [exists 0%nat; split; [reflexivity|lia]|]. split; auto.
Qed.

(** In exact arithmetic, where every energy is a number: when
    [LineSearchStep] returns a step [delta > 0], [delta] is above
    the threshold and is the initial guess halved [k] times; every vertex
    is at its saved position minus [delta] times its row of the gradient;
    the condition of sufficient decrease
    [initialEnergy - energy >= 0.01 * delta * |gradient| * gradDot] holds,
    and with [gradDot > 0] the energy is strictly smaller than before.
    [StepLineSearch] calls it with the initial guess [1 / |gradient|] and
    [gradDot = 1], so each step it accepts strictly decreases the energy. *)
Theorem LineSearchStep_accepted_step :
  NoDup (map indices vertices) ->
  (forall fuel gradient initGuess gradDot positions delta positions',
      LineSearchStep vertices indices Value matrix_norm fuel gradient initGuess gradDot
        positions = Returns (delta, positions') ->
      0 < delta ->
      LS_STEP_THRESHOLD < delta /\
      (exists k, delta = Nat.iter k (fun d => d / 2) initGuess) /\
      (forall v, In v vertices ->
         exists grad_v, GetRow gradient (indices v) = Returns grad_v /\
                        positions' v = vsub (positions v) (vscale delta grad_v)) /\
      (forall u, ~ In u vertices -> positions' u = positions u) /\
      (1 # 100) * delta * matrix_norm gradient * gradDot
        <= Value positions - Value positions' /\
      (0 < gradDot -> Value positions' < Value positions)) /\
  (forall fuel positions delta positions',
      StepLineSearch vertices indices Value Differential matrix_norm fuel positions
        = Returns (delta, positions') ->
      0 < delta ->
      (exists k, delta = Nat.iter k (fun d => d / 2)
                           (1 / matrix_norm (Differential positions))) /\
      Value positions' < Value positions).
Proof.
  intro Hnd.
  assert (Hmain : forall fuel gradient initGuess gradDot positions delta positions',
      LineSearchStep vertices indices Value matrix_norm fuel gradient initGuess gradDot
        positions = Returns (delta, positions') ->
      0 < delta ->
      LS_STEP_THRESHOLD < delta /\
      (exists k, delta = Nat.iter k (fun d => d / 2) initGuess) /\
      (forall v, In v vertices ->
         exists grad_v, GetRow gradient (indices v) = Returns grad_v /\
                        positions' v = vsub (positions v) (vscale delta grad_v)) /\
      (forall u, ~ In u vertices -> positions' u = positions u) /\
      (1 # 100) * delta * matrix_norm gradient * gradDot
        <= Value positions - Value positions' /\
      (0 < gradDot -> Value positions' < Value positions)).
  { intros fuel gradient initGuess gradDot positions delta positions' H Hpos.
    unfold LineSearchStep in H.
    destruct (SaveCurrentPositions vertices indices positions) as [orig| |] eqn:Esave;
      try discriminate.
    simpl in H.
    destruct (Qltb (matrix_norm gradient) (1 # 10000000000)) eqn:Enorm.
    { inversion H; subst. exfalso. apply (Qlt_irrefl 0). exact Hpos. }
    apply Qltb_false in Enorm.
    destruct (backtrack vertices indices Value fuel gradient gradDot orig
                (Value positions) (matrix_norm gradient) initGuess positions 0)
      as [[[d p] nb]| |] eqn:Eback; try discriminate.
    simpl in H.
    destruct (backtrack_spec _ _ _ _ _ _ _ _ _ Eback) as [[k [Hk _]] [Hout Hend]].
    destruct (Qle_bool d LS_STEP_THRESHOLD) eqn:Ele.
    { destruct (RestorePositions vertices indices orig p); try discriminate.
      simpl in H. inversion H; subst. exfalso. apply (Qlt_irrefl 0). exact Hpos. }
    injection H as Hd Hp. subst d p. apply Qle_bool_false in Ele.
    destruct Hend as [Hle|[_ [Hin Hdec]]];
      [exfalso; apply (Qlt_not_le _ _ Ele Hle)|].
    split; [exact Ele|]. split; [exists k; exact Hk|].
    split; [|split; [exact Hout|split; [exact Hdec|]]].
    - intros v Hv. specialize (Hin v Hv). unfold stepped in Hin.
      rewrite (SaveCurrentPositions_rows _ Esave Hnd v Hv) in Hin. simpl in Hin.
      destruct (GetRow gradient (indices v)) as [grad_v| |]; try discriminate.
      simpl in Hin. inversion Hin. exists grad_v. split; reflexivity.
    - intro Hgd. unfold LS_STEP_THRESHOLD in Ele.
      assert (Hn : 0 < matrix_norm gradient) by lra.
      assert (Hd : 0 < delta) by lra.
      assert (Ht : 0 < (1 # 100) * delta * matrix_norm gradient * gradDot).
      { apply Qmult_lt_0_compat; [|exact Hgd].
        apply Qmult_lt_0_compat; [|exact Hn].
        apply Qmult_lt_0_compat; [reflexivity|exact Hd]. }
      lra. }
  split; [exact Hmain|].
  intros fuel positions delta positions' H Hpos.
  unfold StepLineSearch in H.
  destruct (Hmain _ _ _ _ _ _ _ H Hpos) as [_ [Hk [_ [_ [_ Hdec]]]]].
  split; [exact Hk|]. apply Hdec. reflexivity.
Qed.

(** C8.  After a snapshot of the positions, [RestorePositions] gives every
    vertex the position it had at the snapshot, exactly; and when the loop of
    [LineSearchStep] ends with a step at or below [LS_STEP_THRESHOLD],
    [LineSearchStep] returns 0 and leaves every position as it was when the
    search began. *)
Theorem LineSearchStep_failed_step_restores
    (positions : VertexPositions) (origPositions : Matrix3) :
  NoDup (map indices vertices) ->
  SaveCurrentPositions vertices indices positions = Returns origPositions ->
  (exists restored,
      RestorePositions vertices indices origPositions positions = Returns restored /\
      forall u, restored u = positions u) /\
  (forall fuel gradient initGuess gradDot delta moved numBacktracks,
      Qltb (matrix_norm gradient) (1 # 10000000000) = false ->
      backtrack vertices indices Value fuel gradient gradDot origPositions
        (Value positions) (matrix_norm gradient) initGuess positions 0
        = Returns (delta, moved, numBacktracks) ->
      delta <= LS_STEP_THRESHOLD ->
      exists restored,
        LineSearchStep vertices indices Value matrix_norm fuel gradient initGuess gradDot
          positions = Returns (0, restored) /\
        forall u, restored u = positions u).
Proof.
  intros Hnd Hsave. split.
  - apply (@RestorePositions_after_save positions positions origPositions Hsave Hnd). auto.
  - intros fuel gradient initGuess gradDot delta moved nb Hnorm Hback Hle.
    destruct (backtrack_spec _ _ _ _ _ _ _ _ _ Hback) as [_ [Hout _]].
    destruct (@RestorePositions_after_save positions moved origPositions Hsave Hnd Hout)
      as [restored [Hr Hall]].
    exists restored. split; [|exact Hall].
    unfold LineSearchStep. rewrite Hsave. simpl. rewrite Hnorm, Hback. simpl.
    replace (Qle_bool delta LS_STEP_THRESHOLD) with true
      by (symmetry; apply Qle_bool_iff; exact Hle).
    rewrite Hr. reflexivity.
Qed.

(** The loops over the vertices read and write rows; they never run out
    of fuel. *)
Lemma foldM_fuel_free (A S : Type) (f : S -> A -> outcome S) (l : list A) :
  (forall s a, f s a <> OutOfFuel) -> forall s, foldM f l s <> OutOfFuel.
Proof.
  intro Hf. induction l as [|a rest IH]; intro s; simpl; [discriminate|].
  destruct (f s a) eqn:E; simpl; [apply IH|discriminate|].
  exfalso. apply (Hf s a E).
Qed.

Lemma of_option_fuel_free (A : Type) (o : option A) : of_option o <> OutOfFuel.
Proof. destruct o; discriminate. Qed.

Lemma SaveCurrentPositions_fuel_free (positions : VertexPositions) :
  SaveCurrentPositions vertices indices positions <> OutOfFuel.
Proof.
  apply foldM_fuel_free. intros A v. apply of_option_fuel_free.
Qed.

Lemma RestorePositions_fuel_free (origPositions : Matrix3) (positions : VertexPositions) :
  RestorePositions vertices indices origPositions positions <> OutOfFuel.
Proof.
  apply foldM_fuel_free. intros p v. unfold GetRow.
  destruct (nth_error origPositions (indices v)); discriminate.
Qed.

Lemma SetGradientStep_fuel_free (gradient : Matrix3) (delta : Q) (origPositions : Matrix3)
    (positions : VertexPositions) :
  SetGradientStep vertices indices gradient delta origPositions positions <> OutOfFuel.
Proof.
  apply foldM_fuel_free. intros p v. unfold GetRow.
  destruct (nth_error origPositions (indices v)); simpl; try discriminate.
  destruct (nth_error gradient (indices v)); discriminate.
Qed.

(** The loop of [LineSearchStep] ends: a step that is at most
    [LS_STEP_THRESHOLD * 2 ^ k] is halved at most [k] times. *)
Lemma backtrack_enough_fuel (gradient : Matrix3) (gradDot : Q) (origPositions : Matrix3)
    (initialEnergy gradNorm : Q) (k : nat) :
  forall fuel delta positions numBacktracks,
    delta <= LS_STEP_THRESHOLD * inject_Z (Z.of_nat (2 ^ k)) ->
    (k <= fuel)%nat ->
    backtrack vertices indices Value fuel gradient gradDot origPositions initialEnergy
      gradNorm delta positions numBacktracks <> OutOfFuel.
Proof.
  induction k as [|k IH]; intros fuel delta positions nb Hdelta Hfuel.
  - assert (Hle : delta <= LS_STEP_THRESHOLD).
    { change (inject_Z (Z.of_nat (2 ^ 0))) with 1 in Hdelta. lra. }
    apply Qltb_false in Hle.
    destruct fuel; simpl; rewrite Hle; discriminate.
  - destruct fuel as [|fuel]; [lia|]. simpl.
    destruct (Qltb LS_STEP_THRESHOLD delta); [|discriminate].
    pose proof (SetGradientStep_fuel_free gradient delta origPositions positions) as Hs.
    destruct (SetGradientStep vertices indices gradient delta origPositions positions);
      simpl; try discriminate; [|congruence].
    match goal with |- context [if ?c then _ else _] => destruct c end; [|discriminate].
    apply IH; [|lia].
    rewrite Nat.pow_succ_r', Nat2Z.inj_mul, inject_Z_mult in Hdelta.
    change (inject_Z (Z.of_nat 2)) with 2 in Hdelta.
    apply Qle_shift_div_r; [reflexivity|]. lra.
Qed.

Lemma LineSearchStep_terminates (gradient : Matrix3) (initGuess gradDot : Q)
    (positions : VertexPositions) :
  exists fuel, forall fuel', (fuel <= fuel')%nat ->
    LineSearchStep vertices indices Value matrix_norm fuel' gradient initGuess gradDot
      positions <> OutOfFuel.
Proof.
  set (k := Z.to_nat (Qceiling (initGuess / LS_STEP_THRESHOLD))).
  exists k. intros fuel' Hfuel. unfold LineSearchStep.
  pose proof (SaveCurrentPositions_fuel_free positions) as Hsave.
  destruct (SaveCurrentPositions vertices indices positions) as [orig| |];
    simpl; try discriminate; [|congruence].
  destruct (Qltb (matrix_norm gradient) (1 # 10000000000)); [discriminate|].
  assert (Hk : initGuess <= LS_STEP_THRESHOLD * inject_Z (Z.of_nat (2 ^ k))).
  { assert (H1 : initGuess / LS_STEP_THRESHOLD
                 <= inject_Z (Qceiling (initGuess / LS_STEP_THRESHOLD)))
      by apply Qle_ceiling.
    assert (H2 : inject_Z (Qceiling (initGuess / LS_STEP_THRESHOLD))
                 <= inject_Z (Z.of_nat (2 ^ k))).
    { rewrite <- Zle_Qle. unfold k.
      assert (H3 : (Z.to_nat (Qceiling (initGuess / LS_STEP_THRESHOLD))
                    < 2 ^ Z.to_nat (Qceiling (initGuess / LS_STEP_THRESHOLD)))%nat)
        by (apply Nat.pow_gt_lin_r; lia).
      lia. }
    assert (H4 : initGuess / LS_STEP_THRESHOLD <= inject_Z (Z.of_nat (2 ^ k)))
      by (eapply Qle_trans; eassumption).
    assert (Heq : initGuess == initGuess / LS_STEP_THRESHOLD * LS_STEP_THRESHOLD)
      by (field; discriminate).
    rewrite Heq at 1. rewrite (Qmult_comm LS_STEP_THRESHOLD).
    apply Qmult_le_compat_r; [exact H4|discriminate]. }
  pose proof (@backtrack_enough_fuel gradient gradDot orig (Value positions)
                (matrix_norm gradient) k fuel' initGuess positions 0%nat Hk Hfuel) as Hne.
  destruct (backtrack vertices indices Value fuel' gradient gradDot orig
              (Value positions) (matrix_norm gradient) initGuess positions 0)
    as [[[d p] nb]| |]; simpl; try discriminate; [|congruence].
  destruct (Qle_bool d LS_STEP_THRESHOLD); [|discriminate].
  pose proof (RestorePositions_fuel_free orig p) as Hr.
  destruct (RestorePositions vertices indices orig p); simpl; try discriminate.
  congruence.
Qed.

End Flow_properties.

Lemma LineSearchStep_accepted_step_witness :
  NoDup (map same_index two_vertices) /\
  (exists delta positions',
      LineSearchStep two_vertices same_index square_energy first_entry_norm 5
        (square_differential start_positions) (1 # 4) 1 start_positions
        = Returns (delta, positions') /\
      0 < delta /\
      LS_STEP_THRESHOLD < delta /\
      (exists k, delta = Nat.iter k (fun d => d / 2) (1 # 4)) /\
      (forall v, In v two_vertices ->
         exists grad_v,
           GetRow (square_differential start_positions) (same_index v) = Returns grad_v /\
           positions' v = vsub (start_positions v) (vscale delta grad_v)) /\
      (forall u, ~ In u two_vertices -> positions' u = start_positions u) /\
      (1 # 100) * delta * first_entry_norm (square_differential start_positions) * 1
        <= square_energy start_positions - square_energy positions' /\
      (0 < 1 -> square_energy positions' < square_energy start_positions)) /\
  (exists delta positions',
      StepLineSearch two_vertices same_index square_energy square_differential
        first_entry_norm 5 start_positions = Returns (delta, positions') /\
      0 < delta /\
      (exists k, delta = Nat.iter k (fun d => d / 2)
                           (1 / first_entry_norm (square_differential start_positions))) /\
      square_energy positions' < square_energy start_positions).
Proof.
  assert (Hnd : NoDup (map same_index two_vertices))
    by (repeat constructor; simpl; intuition discriminate).
  destruct (@LineSearchStep_accepted_step two_vertices same_index square_energy
              square_differential first_entry_norm Hnd) as [Hstep Hflow].
  split; [exact Hnd|]. split.
  - eexists. eexists.
    split; [vm_compute; reflexivity|]. split; [reflexivity|].
    apply (Hstep 5%nat (square_differential start_positions) (1 # 4) 1 start_positions);
      [vm_compute; reflexivity|reflexivity].
  - eexists. eexists.
    split; [vm_compute; reflexivity|]. split; [reflexivity|].
    apply (Hflow 5%nat start_positions); [vm_compute; reflexivity|reflexivity].
Defined.


Lemma LineSearchStep_failed_step_restores_witness :
  NoDup (map same_index two_vertices) /\
  exists origPositions,
    SaveCurrentPositions two_vertices same_index start_positions = Returns origPositions /\
    (exists restored,
        RestorePositions two_vertices same_index origPositions start_positions
          = Returns restored /\
        forall u, restored u = start_positions u) /\
    exists delta moved numBacktracks,
      Qltb (first_entry_norm ascent_direction) (1 # 10000000000) = false /\
      backtrack two_vertices same_index square_energy 40 ascent_direction 1 origPositions
        (square_energy start_positions) (first_entry_norm ascent_direction) 1
        start_positions 0 = Returns (delta, moved, numBacktracks) /\
      delta <= LS_STEP_THRESHOLD /\
      exists restored,
        LineSearchStep two_vertices same_index square_energy first_entry_norm 40
          ascent_direction 1 1 start_positions = Returns (0, restored) /\
        forall u, restored u = start_positions u.
Proof.
  assert (Hnd : NoDup (map same_index two_vertices))
    by (repeat constructor; simpl; intuition discriminate).
  assert (Hsave : SaveCurrentPositions two_vertices same_index start_positions
                  = Returns [mkVector3 1 0 0; mkVector3 3 0 0])
    by (vm_compute; reflexivity).
  destruct (@LineSearchStep_failed_step_restores two_vertices same_index square_energy
              first_entry_norm start_positions _ Hnd Hsave) as [Hround Hfail].
  split; [exact Hnd|].
  eexists. split; [exact Hsave|]. split; [exact Hround|].
  eexists. eexists. eexists.
  split; [reflexivity|].
  split; [vm_compute; reflexivity|].
  split; [vm_compute; discriminate|].
  eapply (Hfail 40%nat ascent_direction 1 1);
    [reflexivity|vm_compute; reflexivity|vm_compute; discriminate].
Defined.

(** ** More on trees *)

Lemma In_firstn (A : Type) (n : nat) (l : list A) (x : A) :
  In x (firstn n l) -> In x l.
Proof.
  revert l. induction n as [|n IH]; intros [|h t]; simpl; try tauto.
  intros [->|H]; auto.
Qed.

Lemma subnodes_self (n : BVHNode6D) : In n (subnodes n).
Proof. rewrite subnodes_eq. left. reflexivity. Qed.

Lemma subnodes_child (n c N : BVHNode6D) :
  In c (children n) -> In N (subnodes c) -> In N (subnodes n).
Proof.
  intros Hc HN. rewrite subnodes_eq. right.
  apply in_flat_map. exists c. auto.
Qed.

Lemma binary_tree_child (n c : BVHNode6D) :
  binary_tree n -> In c (children n) -> binary_tree c.
Proof.
  intros Hn Hc N HN. apply Hn. eapply subnodes_child; eauto.
Qed.

Lemma height_eq (n : BVHNode6D) :
  height n = S (fold_right Nat.max 0%nat (map height (children n))).
Proof. destruct n; reflexivity. Qed.

Lemma height_child (n c : BVHNode6D) : In c (children n) -> (height c < height n)%nat.
Proof.
  intro Hc. rewrite (height_eq n).
  induction (children n) as [|c' rest IH]; [destruct Hc|].
  simpl. destruct Hc as [->|Hc]; [lia|]. specialize (IH Hc). lia.
Qed.

Lemma height_pos (n : BVHNode6D) : (0 < height n)%nat.
Proof. rewrite height_eq. lia. Qed.

Lemma clusterIndices_eq (n : BVHNode6D) :
  clusterIndices n = match nodeType n with
                     | Empty => []
                     | Leaf => [elementID n]
                     | Interior => flat_map clusterIndices (children n)
                     end.
Proof. destruct n; reflexivity. Qed.

Lemma nElements_interior (n : BVHNode6D) :
  (2 <= nElements n)%nat -> nodeType n = Interior.
Proof.
  unfold nElements. rewrite clusterIndices_eq.
  destruct (nodeType n); simpl; intro H; try lia. reflexivity.
Qed.

(** ** The build loop of the block cluster tree *)

Section BCT_build.

Variable norm : Vector3 -> Q.
Variable boxContainsPoint : BVHNode6D -> Vector3 -> bool.
Variable separationCoeff : Q.

Local Abbreviation admissible := (isPairAdmissible norm boxContainsPoint).
Local Abbreviation split_one := (split_pair norm boxContainsPoint separationCoeff).
Local Abbreviation split_round := (splitInadmissibleNodes norm boxContainsPoint separationCoeff).
Local Abbreviation classify := (spec_classify norm boxContainsPoint separationCoeff).
Local Abbreviation round := (spec_round norm boxContainsPoint separationCoeff).
Local Abbreviation verdict_is := (has_verdict norm boxContainsPoint separationCoeff).

Lemma isPairAdmissible_spec (pair : ClusterPair) (theta : Q) :
  admissible pair theta
  = spec_pairwise_admissible norm boxContainsPoint (cluster1 pair) (cluster2 pair) theta.
Proof.
  unfold isPairAdmissible, spec_pairwise_admissible, same_node, nodeRatio.
  destruct (nodeID (cluster1 pair) =? nodeID (cluster2 pair))%nat; [reflexivity|].
  destruct (boxContainsPoint (cluster1 pair) (centerOfMass (cluster2 pair)));
    [reflexivity|].
  destruct (boxContainsPoint (cluster2 pair) (centerOfMass (cluster1 pair)));
    reflexivity.
Qed.

(** The two nested loops push the four child pairs. *)
Lemma push_child_pairs_spec (pair : ClusterPair) (nextPairs nextPairs' : list ClusterPair) :
  push_child_pairs pair nextPairs = Returns nextPairs' ->
  nextPairs' = nextPairs ++ spec_child_pairs pair.
Proof.
  unfold push_child_pairs, spec_child_pairs, child_at, BVH_N_CHILDREN.
  destruct (children (cluster1 pair)) as [|a0 [|a1 ra]];
    destruct (children (cluster2 pair)) as [|b0 [|b1 rb]];
    simpl; intro H; try discriminate;
    inversion H; rewrite <- !app_assoc; reflexivity.
Qed.

(** The body of the loop follows the rules. *)
Lemma split_pair_spec (adm inadm next : list ClusterPair) (pair : ClusterPair)
    (st' : list ClusterPair * list ClusterPair * list ClusterPair) :
  split_one (adm, inadm, next) pair = Returns st' ->
  st' = (adm ++ filter (verdict_is MadeAdmissible) [pair],
         inadm ++ filter (verdict_is MadeInadmissible) [pair],
         next ++ flat_map spec_child_pairs (filter (verdict_is Expanded) [pair])).
Proof.
  cbn [filter].
  unfold split_pair, has_verdict, spec_classify, isPairSmallEnough.
  rewrite isPairAdmissible_spec. cbv zeta.
  destruct ((nElements (cluster1 pair) =? 0)%nat || (nElements (cluster2 pair) =? 0)%nat).
  { simpl. intro H. inversion H. rewrite !app_nil_r. reflexivity. }
  destruct ((nElements (cluster1 pair) =? 1)%nat && (nElements (cluster2 pair) =? 1)%nat).
  { simpl. intro H. inversion H. rewrite !app_nil_r. reflexivity. }
  destruct (spec_pairwise_admissible norm boxContainsPoint (cluster1 pair)
              (cluster2 pair) separationCoeff).
  { simpl. intro H. inversion H. rewrite !app_nil_r. reflexivity. }
  destruct ((nElements (cluster1 pair) <=? 1)%nat || (nElements (cluster2 pair) <=? 1)%nat
            || (nElements (cluster1 pair) + nElements (cluster2 pair) <=? 8)%nat).
  { simpl. intro H. inversion H. rewrite !app_nil_r. reflexivity. }
  simpl. intro H.
  destruct (push_child_pairs pair next) as [next'| |] eqn:E; try discriminate.
  simpl in H. inversion H. rewrite (push_child_pairs_spec _ _ E).
  rewrite !app_nil_r. reflexivity.
Qed.

Lemma split_fold_spec (unresolved : list ClusterPair) :
  forall adm inadm next st',
    foldM split_one unresolved (adm, inadm, next) = Returns st' ->
    st' = (adm ++ filter (verdict_is MadeAdmissible) unresolved,
           inadm ++ filter (verdict_is MadeInadmissible) unresolved,
           next ++ flat_map spec_child_pairs (filter (verdict_is Expanded) unresolved)).
Proof.
  induction unresolved as [|pair rest IH]; intros adm inadm next st' H.
  - simpl in H. inversion H. simpl. rewrite !app_nil_r. reflexivity.
  - cbn [foldM] in H.
    destruct (split_one (adm, inadm, next) pair) as [st1| |] eqn:E; try discriminate.
    cbn [bind] in H. rewrite (split_pair_spec _ _ _ _ E) in H.
    rewrite (IH _ _ _ _ H).
    change (pair :: rest) with ([pair] ++ rest).
    rewrite !filter_app, !flat_map_app, !app_assoc. reflexivity.
Qed.

Lemma splitInadmissibleNodes_spec (l l' : PairLists) :
  split_round l = Returns l' -> l' = round l.
Proof.
  unfold splitInadmissibleNodes, spec_round. intro H.
  destruct (foldM split_one (unresolvedPairs l) (admissiblePairs l, inadmissiblePairs l, []))
    as [[[adm inadm] next]| |] eqn:E; try discriminate.
  apply split_fold_spec in E. inversion E; subst.
  simpl in H. inversion H. reflexivity.
Qed.

Lemma split_loop_spec (fuel : nat) :
  forall l l',
    split_loop norm boxContainsPoint separationCoeff fuel l = Returns l' ->
    unresolvedPairs l' = [] /\
    exists n, l' = Nat.iter n round l /\
              forall m, (m < n)%nat -> unresolvedPairs (Nat.iter m round l) <> [].
Proof.
  induction fuel as [|fuel IH]; intros l l' H.
  - simpl in H. destruct (unresolvedPairs l) eqn:E; [|discriminate].
    inversion H; subst. split; [exact E|]. exists 0%nat. split; [reflexivity|]. lia.
  - simpl in H. destruct (unresolvedPairs l) eqn:E.
    + inversion H; subst. split; [exact E|]. exists 0%nat. split; [reflexivity|]. lia.
    + destruct (split_round l) as [l1| |] eqn:E1; try discriminate.
      simpl in H. destruct (IH _ _ H) as [Hnil [n [Hn Hm]]].
      split; [exact Hnil|]. exists (S n).
      rewrite (splitInadmissibleNodes_spec _ E1) in Hn, Hm.
      split; [rewrite Nat.iter_succ_r; exact Hn|].
      intros [|m] Hlt; [simpl; rewrite E; discriminate|].
      rewrite Nat.iter_succ_r. apply Hm. lia.
Qed.

(** *** The loop ends on a binary tree *)

Lemma expanded_two_children (pair : ClusterPair) :
  classify pair = Expanded ->
  binary_tree (cluster1 pair) -> binary_tree (cluster2 pair) ->
  exists a0 a1 b0 b1,
    children (cluster1 pair) = [a0; a1] /\ children (cluster2 pair) = [b0; b1].
Proof.
  unfold spec_classify. intros H H1 H2.
  destruct ((nElements (cluster1 pair) =? 0)%nat || (nElements (cluster2 pair) =? 0)%nat);
    [discriminate|].
  destruct ((nElements (cluster1 pair) =? 1)%nat && (nElements (cluster2 pair) =? 1)%nat);
    [discriminate|].
  destruct (spec_pairwise_admissible norm boxContainsPoint (cluster1 pair)
              (cluster2 pair) separationCoeff); [discriminate|].
  destruct ((nElements (cluster1 pair) <=? 1)%nat || (nElements (cluster2 pair) <=? 1)%nat
            || (nElements (cluster1 pair) + nElements (cluster2 pair) <=? 8)%nat) eqn:E;
    [discriminate|].
  apply orb_false_iff in E. destruct E as [E _].
  apply orb_false_iff in E. destruct E as [E1 E2].
  apply Nat.leb_gt in E1, E2.
  assert (L1 : length (children (cluster1 pair)) = 2%nat)
    by (apply H1; [apply subnodes_self|apply nElements_interior; lia]).
  assert (L2 : length (children (cluster2 pair)) = 2%nat)
    by (apply H2; [apply subnodes_self|apply nElements_interior; lia]).
  destruct (children (cluster1 pair)) as [|a0 [|a1 [|]]]; try discriminate.
  destruct (children (cluster2 pair)) as [|b0 [|b1 [|]]]; try discriminate.
  eauto 10.
Qed.

Lemma split_fold_returns (unresolved : list ClusterPair) :
  binary_pairs unresolved ->
  forall st, exists st', foldM split_one unresolved st = Returns st'.
Proof.
  induction unresolved as [|pair rest IH]; intros Hb st; simpl; [eauto|].
  assert (Hstep : exists st1, split_one st pair = Returns st1).
  { destruct st as [[adm inadm] next].
    destruct (Hb pair (or_introl eq_refl)) as [B1 B2].
    pose proof (@expanded_two_children pair) as Hexp.
    unfold split_pair, spec_classify, isPairSmallEnough in *.
    rewrite isPairAdmissible_spec. cbv zeta in *.
    destruct ((nElements (cluster1 pair) =? 0)%nat || (nElements (cluster2 pair) =? 0)%nat);
      [eauto|].
    destruct ((nElements (cluster1 pair) =? 1)%nat && (nElements (cluster2 pair) =? 1)%nat);
      [eauto|].
    destruct (spec_pairwise_admissible norm boxContainsPoint (cluster1 pair)
                (cluster2 pair) separationCoeff); [eauto|].
    destruct ((nElements (cluster1 pair) <=? 1)%nat || (nElements (cluster2 pair) <=? 1)%nat
              || (nElements (cluster1 pair) + nElements (cluster2 pair) <=? 8)%nat);
      [eauto|].
    destruct (Hexp eq_refl B1 B2) as [a0 [a1 [b0 [b1 [Ha Hbb]]]]].
    unfold push_child_pairs, child_at, BVH_N_CHILDREN. rewrite Ha, Hbb. simpl. eauto. }
  destruct Hstep as [st1 ->]. simpl. apply IH.
  intros p Hp. apply Hb. right. exact Hp.
Qed.

Lemma splitInadmissibleNodes_returns (l : PairLists) :
  binary_pairs (unresolvedPairs l) -> split_round l = Returns (round l).
Proof.
  intro Hb. unfold splitInadmissibleNodes.
  destruct (split_fold_returns Hb (admissiblePairs l, inadmissiblePairs l, []))
    as [[[adm inadm] next] E].
  rewrite E. simpl.
  apply split_fold_spec in E. inversion E; subst. reflexivity.
Qed.

(** The pairs a round leaves unresolved are child pairs of expanded ones:
    lower, and binary again. *)
Lemma spec_round_unresolved (l : PairLists) (h : nat) :
  binary_pairs (unresolvedPairs l) ->
  heights_le (S h) (unresolvedPairs l) ->
  binary_pairs (unresolvedPairs (round l)) /\ heights_le h (unresolvedPairs (round l)).
Proof.
  intros Hb Hh.
  assert (Hch : forall q, In q (unresolvedPairs (round l)) ->
            exists p, In p (unresolvedPairs l) /\
                      In (cluster1 q) (children (cluster1 p)) /\
                      In (cluster2 q) (children (cluster2 p))).
  { intros q Hq. unfold spec_round in Hq. simpl in Hq.
    apply in_flat_map in Hq. destruct Hq as [p [Hp Hq]].
    apply filter_In in Hp. destruct Hp as [Hp _].
    exists p. split; [exact Hp|].
    unfold spec_child_pairs in Hq. apply in_map_iff in Hq.
    destruct Hq as [[a b] [<- Hab]]. apply in_prod_iff in Hab.
    destruct Hab as [Ha Hbb]. simpl.
    split; eapply In_firstn; eassumption. }
  split.
  - intros q Hq. destruct (Hch q Hq) as [p [Hp [H1 H2]]].
    destruct (Hb p Hp) as [B1 B2].
    split; [exact (@binary_tree_child _ _ B1 H1)|exact (@binary_tree_child _ _ B2 H2)].
  - intros q Hq. destruct (Hch q Hq) as [p [Hp [H1 H2]]].
    destruct (Hh p Hp) as [L1 L2].
    apply height_child in H1, H2. lia.
Qed.

Lemma split_loop_returns (h : nat) :
  forall l,
    binary_pairs (unresolvedPairs l) ->
    heights_le h (unresolvedPairs l) ->
    forall fuel, (h <= fuel)%nat ->
      exists l', split_loop norm boxContainsPoint separationCoeff fuel l = Returns l'.
Proof.
  induction h as [|h IH]; intros l Hb Hh fuel Hfuel.
  - destruct (unresolvedPairs l) as [|p rest] eqn:E.
    + exists l. destruct fuel; simpl; rewrite E; reflexivity.
    + exfalso. destruct (Hh p (or_introl eq_refl)) as [H1 _].
      pose proof (height_pos (cluster1 p)). lia.
  - destruct fuel as [|fuel]; [lia|].
    simpl. destruct (unresolvedPairs l) as [|p rest] eqn:E; [eauto|].
    rewrite <- E in Hb, Hh.
    rewrite (splitInadmissibleNodes_returns _ Hb). simpl.
    destruct (spec_round_unresolved _ Hb Hh) as [Hb' Hh'].
    apply IH; auto. lia.
Qed.

Lemma build_pairs_returns (root : BVHNode6D) :
  binary_tree root ->
  forall fuel, (height root <= fuel)%nat ->
    exists l, build_pairs norm boxContainsPoint separationCoeff fuel root = Returns l.
Proof.
  intros Hb fuel Hfuel. unfold build_pairs.
  apply (@split_loop_returns (height root)); [| |exact Hfuel].
  - intros p [<-|[]]. simpl. auto.
  - intros p [<-|[]]. simpl. auto.
Qed.

(** C4.  The build loop follows the rules of the specification in their
    order.  The admissibility test is the one of 4.2; one call of
    [splitInadmissibleNodes] drops the pairs with an empty side, moves the
    singleton pairs, then the admissible ones, then the small ones to their
    lists and replaces every other pair by its 2 x 2 child pairs
    ([spec_round]); the loop of the constructor repeats this as long as an
    unresolved pair is left and ends, on a tree whose interior nodes have
    two children, after at most as many rounds as the tree is high. *)
Theorem BlockClusterTree_build_follows_rules :
  (forall pair theta,
      admissible pair theta = true <->
      nodeID (cluster1 pair) <> nodeID (cluster2 pair) /\
      boxContainsPoint (cluster1 pair) (centerOfMass (cluster2 pair)) = false /\
      boxContainsPoint (cluster2 pair) (centerOfMass (cluster1 pair)) = false /\
      let d := norm (vsub (centerOfMass (cluster1 pair)) (centerOfMass (cluster2 pair))) in
      Qmax (norm (vsub (maxCoords (cluster1 pair)) (minCoords (cluster1 pair))) / d)
           (norm (vsub (maxCoords (cluster2 pair)) (minCoords (cluster2 pair))) / d)
        < theta) /\
  (forall l l', split_round l = Returns l' -> l' = round l) /\
  (forall fuel l l',
      split_loop norm boxContainsPoint separationCoeff fuel l = Returns l' ->
      unresolvedPairs l' = [] /\
      exists n, l' = Nat.iter n round l /\
                forall m, (m < n)%nat -> unresolvedPairs (Nat.iter m round l) <> []) /\
  (forall root fuel,
      binary_tree root -> (height root <= fuel)%nat ->
      exists l, build_pairs norm boxContainsPoint separationCoeff fuel root = Returns l).
Proof.
  split; [|split; [|split]].
  - intros pair theta. rewrite isPairAdmissible_spec.
    unfold spec_pairwise_admissible. cbv zeta.
    rewrite !andb_true_iff, !negb_true_iff, Nat.eqb_neq, Qltb_true. tauto.
  - apply splitInadmissibleNodes_spec.
  - intros fuel l l'. apply split_loop_spec.
  - intros root fuel Hb Hf. apply build_pairs_returns; assumption.
Qed.

End BCT_build.

(** ** The pairs of the block cluster tree cover every pair of faces once *)

Lemma total_weight_app (f1 f2 : Z) (l1 l2 : list ClusterPair) :
  total_weight f1 f2 (l1 ++ l2) = (total_weight f1 f2 l1 + total_weight f1 f2 l2)%nat.
Proof. unfold total_weight. rewrite map_app, list_sum_app. reflexivity. Qed.

Lemma total_weight_cons (f1 f2 : Z) (p : ClusterPair) (l : list ClusterPair) :
  total_weight f1 f2 (p :: l) = (cover_weight f1 f2 p + total_weight f1 f2 l)%nat.
Proof. reflexivity. Qed.

Lemma count_occ_two_children (n a b : BVHNode6D) (f : Z) :
  nodeType n = Interior -> children n = [a; b] ->
  count_occ Z.eq_dec (clusterIndices n) f
  = (count_occ Z.eq_dec (clusterIndices a) f + count_occ Z.eq_dec (clusterIndices b) f)%nat.
Proof.
  intros Hty Hch. rewrite (clusterIndices_eq n), Hty, Hch. simpl.
  rewrite app_nil_r, count_occ_app. reflexivity.
Qed.

Section BCT_cover.

Variable norm : Vector3 -> Q.
Variable boxContainsPoint : BVHNode6D -> Vector3 -> bool.
Variable separationCoeff : Q.

Local Abbreviation classify := (spec_classify norm boxContainsPoint separationCoeff).
Local Abbreviation round := (spec_round norm boxContainsPoint separationCoeff).
Local Abbreviation verdict_is := (has_verdict norm boxContainsPoint separationCoeff).

Lemma dropped_weight (f1 f2 : Z) (pair : ClusterPair) :
  classify pair = Dropped -> cover_weight f1 f2 pair = 0%nat.
Proof.
  unfold spec_classify, cover_weight, nElements.
  destruct (clusterIndices (cluster1 pair)) as [|x xs]; [reflexivity|].
  destruct (clusterIndices (cluster2 pair)) as [|y ys]; [simpl; lia|].
  simpl orb. cbv iota.
  repeat match goal with
         | |- (if ?c then _ else _) = _ -> _ => destruct c; try discriminate
         end.
Qed.

Lemma expanded_sizes (pair : ClusterPair) :
  classify pair = Expanded ->
  (2 <= nElements (cluster1 pair))%nat /\ (2 <= nElements (cluster2 pair))%nat.
Proof.
  unfold spec_classify. cbv zeta.
  repeat match goal with
         | |- (if ?c then _ else _) = _ -> _ => destruct c eqn:?; try discriminate
         end.
  intros _.
  repeat match goal with
         | H : (_ || _)%bool = false |- _ => apply orb_false_iff in H; destruct H
         | H : (_ <=? _)%nat = false |- _ => apply Nat.leb_gt in H
         end.
  lia.
Qed.

Lemma expanded_weight (f1 f2 : Z) (pair : ClusterPair) :
  classify pair = Expanded ->
  binary_tree (cluster1 pair) -> binary_tree (cluster2 pair) ->
  total_weight f1 f2 (spec_child_pairs pair) = cover_weight f1 f2 pair.
Proof.
  intros Hexp B1 B2.
  destruct (expanded_two_children _ _ _ _ Hexp B1 B2) as [a0 [a1 [b0 [b1 [Ha Hb]]]]].
  destruct (expanded_sizes _ Hexp) as [S1 S2].
  pose proof (nElements_interior _ S1) as T1.
  pose proof (nElements_interior _ S2) as T2.
  unfold spec_child_pairs, total_weight, cover_weight. rewrite Ha, Hb. simpl.
  rewrite (@count_occ_two_children _ a0 a1 f1 T1 Ha).
  rewrite (@count_occ_two_children _ b0 b1 f2 T2 Hb). lia.
Qed.

(** One round keeps the total weight of all pairs. *)
Lemma spec_round_weight (f1 f2 : Z) (unresolved : list ClusterPair) :
  binary_pairs unresolved ->
  (total_weight f1 f2 (filter (verdict_is MadeAdmissible) unresolved)
   + total_weight f1 f2 (filter (verdict_is MadeInadmissible) unresolved)
   + total_weight f1 f2 (flat_map spec_child_pairs (filter (verdict_is Expanded) unresolved))
   = total_weight f1 f2 unresolved)%nat.
Proof.
  induction unresolved as [|p rest IH]; intro Hb; [reflexivity|].
  assert (Hrest : binary_pairs rest) by (intros q Hq; apply Hb; right; exact Hq).
  specialize (IH Hrest).
  destruct (Hb p (or_introl eq_refl)) as [B1 B2].
  cbn [filter]. unfold has_verdict in *.
  pose proof (dropped_weight f1 f2 p) as Hdrop.
  pose proof (@expanded_weight f1 f2 p) as Hexp.
  destruct (classify p) eqn:E; cbn [verdict_eqb flat_map];
    rewrite ?total_weight_app, ?total_weight_cons.
  - rewrite (Hdrop eq_refl). lia.
  - lia.
  - lia.
  - rewrite (Hexp eq_refl B1 B2). lia.
Qed.

Lemma spec_round_total (f1 f2 : Z) (l : PairLists) :
  binary_pairs (unresolvedPairs l) ->
  total_weight f1 f2 (all_pairs (round l)) = total_weight f1 f2 (all_pairs l).
Proof.
  intro Hb. pose proof (spec_round_weight f1 f2 Hb) as H.
  unfold all_pairs, spec_round. simpl.
  rewrite !total_weight_app. lia.
Qed.

Lemma spec_round_binary (l : PairLists) :
  binary_pairs (unresolvedPairs l) -> binary_pairs (unresolvedPairs (round l)).
Proof.
  intro Hb.
  assert (Hh : heights_le (S (list_max (map (fun p => Nat.max (height (cluster1 p))
                                                      (height (cluster2 p)))
                                       (unresolvedPairs l))))
                 (unresolvedPairs l)).
  { intros p Hp.
    pose proof (list_max_le (map (fun p => Nat.max (height (cluster1 p)) (height (cluster2 p)))
                              (unresolvedPairs l))
                  (list_max (map (fun p => Nat.max (height (cluster1 p))
                                             (height (cluster2 p)))
                              (unresolvedPairs l)))) as [Hmax _].
    specialize (Hmax (Nat.le_refl _)). rewrite Forall_forall in Hmax.
    specialize (Hmax _ (in_map _ _ _ Hp)). simpl in Hmax. lia. }
  exact (proj1 (spec_round_unresolved _ _ _ _ Hb Hh)).
Qed.

Lemma spec_rounds_total (f1 f2 : Z) (n : nat) (l : PairLists) :
  binary_pairs (unresolvedPairs l) ->
  binary_pairs (unresolvedPairs (Nat.iter n round l)) /\
  total_weight f1 f2 (all_pairs (Nat.iter n round l)) = total_weight f1 f2 (all_pairs l).
Proof.
  intro Hb. induction n as [|n [IHb IHt]]; [auto|].
  simpl. split; [apply spec_round_binary, IHb|].
  rewrite spec_round_total by exact IHb. exact IHt.
Qed.

(** A sum of naturals that is 1 has exactly one term that is not 0. *)
Lemma list_sum_one (A : Type) (w : A -> nat) (l : list A) :
  list_sum (map w l) = 1%nat ->
  length (filter (fun a => (0 <? w a)%nat) l) = 1%nat.
Proof.
  induction l as [|a rest IH]; simpl; intro H; [discriminate|].
  destruct (w a) as [|[|k]] eqn:E; simpl.
  - apply IH. exact H.
  - simpl in H. f_equal.
    assert (Hz : list_sum (map w rest) = 0%nat) by lia.
    clear -Hz. induction rest as [|b r IHr]; [reflexivity|].
    simpl in *. assert (w b = 0)%nat by lia.
    replace (0 <? w b)%nat with false by (symmetry; apply Nat.ltb_ge; lia).
    apply IHr. lia.
  - simpl in H. lia.
Qed.

Lemma covers_weight (f1 f2 : Z) (pair : ClusterPair) :
  covers f1 f2 pair = (0 <? cover_weight f1 f2 pair)%nat.
Proof.
  unfold covers, cover_weight.
  assert (Hc : forall f l, existsb (Z.eqb f) l = (0 <? count_occ Z.eq_dec l f)%nat).
  { intros f l. induction l as [|x xs IH]; [reflexivity|].
    simpl. destruct (Z.eq_dec x f) as [->|Hne].
    - rewrite Z.eqb_refl. reflexivity.
    - replace (f =? x)%Z with false by (symmetry; apply Z.eqb_neq; congruence).
      exact IH. }
  rewrite !Hc.
  destruct (count_occ Z.eq_dec (clusterIndices (cluster1 pair)) f1);
    destruct (count_occ Z.eq_dec (clusterIndices (cluster2 pair)) f2);
    simpl; try reflexivity. rewrite Nat.mul_0_r. reflexivity.
Qed.

Lemma build_pairs_cover (fuel : nat) (root : BVHNode6D) (l : PairLists) :
  binary_tree root ->
  NoDup (clusterIndices root) ->
  build_pairs norm boxContainsPoint separationCoeff fuel root = Returns l ->
  unresolvedPairs l = [] /\
  forall f1 f2,
    In f1 (clusterIndices root) -> In f2 (clusterIndices root) ->
    length (filter (covers f1 f2) (admissiblePairs l ++ inadmissiblePairs l)) = 1%nat.
Proof.
  intros Hb Hnd H. unfold build_pairs in H.
  destruct (split_loop_spec _ _ _ _ _ H) as [Hnil [n [Hn _]]].
  split; [exact Hnil|]. intros f1 f2 H1 H2.
  set (l0 := mkPairLists [] [] [mkClusterPair root root]) in *.
  assert (Hb0 : binary_pairs (unresolvedPairs l0))
    by (intros p [<-|[]]; simpl; auto).
  destruct (@spec_rounds_total f1 f2 n l0 Hb0) as [_ Ht].
  rewrite <- Hn in Ht. unfold all_pairs in Ht. rewrite Hnil, app_nil_r in Ht.
  simpl in Ht. unfold total_weight at 2 in Ht. simpl in Ht.
  unfold cover_weight in Ht. simpl in Ht.
  rewrite !(proj1 (NoDup_count_occ' Z.eq_dec _) Hnd) in Ht by assumption.
  rewrite (filter_ext _ _ (covers_weight f1 f2)).
  apply list_sum_one. exact Ht.
Qed.

Variable MetricDistanceTermFrac : Q -> Vector3 -> Vector3 -> Q.
Variable exp_s : Q.

(** C5.  After the construction of the block cluster tree over a tree whose
    interior nodes have two children and whose faces are pairwise different
    (as [Create6DBVHFromMesh] returns it), no pair is left unresolved, and
    for every ordered pair of faces [(f1, f2)] of the tree, the diagonal
    included, exactly one pair of the admissible and inadmissible lists
    has [f1] in its first and [f2] in its second cluster. *)
Theorem BlockClusterTree_pairs_cover_once
    (fuel : nat) (root : BVHNode6D) (bct : BlockClusterTree) :
  binary_tree root ->
  NoDup (clusterIndices root) ->
  BlockClusterTree_new norm boxContainsPoint MetricDistanceTermFrac exp_s separationCoeff
    fuel root = Returns bct ->
  unresolvedPairs (pairs bct) = [] /\
  forall f1 f2,
    In f1 (clusterIndices root) -> In f2 (clusterIndices root) ->
    length (filter (covers f1 f2)
              (admissiblePairs (pairs bct) ++ inadmissiblePairs (pairs bct))) = 1%nat.
Proof.
  intros Hb Hnd H. unfold BlockClusterTree_new in H.
  destruct (build_pairs norm boxContainsPoint separationCoeff fuel root) as [l| |] eqn:E;
    try discriminate.
  cbn [bind] in H.
  destruct (OrganizePairsByFirst root (admissiblePairs l)) as [buckets| |];
    try discriminate.
  cbn [bind] in H.
  destruct (PremultiplyAf1 MetricDistanceTermFrac exp_s root buckets) as [af1| |];
    try discriminate.
  cbn [bind] in H. inversion H; subst bct. simpl.
  exact (@build_pairs_cover fuel root l Hb Hnd E).
Qed.

End BCT_cover.

(** ** The shape of the trees [Create6DBVHFromMesh] returns *)

Lemma split_points_perm (points : list MassNormalPoint) (axis : Z) (sp : Q)
    (lp gp : list MassNormalPoint) :
  split_points points axis sp = Some (lp, gp) -> Permutation points (lp ++ gp).
Proof.
  revert lp gp. induction points as [|q rest IH]; simpl; intros lp gp H.
  - inversion H. constructor.
  - destruct (GetCoordFromBody q axis) as [c|]; [|discriminate].
    destruct (split_points rest axis sp) as [[l g]|]; [|discriminate].
    specialize (IH l g eq_refl).
    destruct (Qle_bool c sp); inversion H; subst.
    + simpl. constructor. exact IH.
    + apply Permutation_cons_app. exact IH.
Qed.

Section Shape.

Variable normalize : Vector3 -> Vector3.
Variable indeterminate_vec : Vector3.
Variable indeterminate : Q.

Local Abbreviation BVH_new := (BVHNode6D_new normalize indeterminate_vec indeterminate).

Lemma numbered_shape (fuel : nat) :
  forall points axis t s,
    BVH_new fuel points axis = Returns t ->
    well_numbered s (fst (assignIDsRecursively t s)) /\
    snd (assignIDsRecursively t s)
      = (s + length (subnodes (fst (assignIDsRecursively t s))))%nat /\
    Permutation (clusterIndices (fst (assignIDsRecursively t s)))
                (map Body.elementID points).
Proof.
  induction fuel as [|fuel IH]; intros points axis t s H; [discriminate|].
  pose proof (@BVHNode6D_new_inv _ _ _ _ _ _ _ H) as Hinv.
  destruct Hinv as [[-> ->] | [[mp [-> ->]] | [f [sp [lp [gp [l [g Hi]]]]]]]].
  - rewrite assignIDs_childless by reflexivity. simpl.
    split; [|split; [lia|constructor]].
    unfold well_numbered. simpl. repeat split; auto.
    + intros N [<-|[]]. discriminate.
    + intros N [<-|[]] _. reflexivity.
  - rewrite assignIDs_childless by reflexivity. simpl.
    split; [|split; [lia|apply Permutation_refl]].
    unfold well_numbered. simpl. repeat split; auto.
    + intros N [<-|[]]. discriminate.
    + intros N [<-|[]] _. reflexivity.
  - destruct Hi as [Hf [_ [_ [Hsplit [Hl [Hg ->]]]]]]. inversion Hf; subst f.
    rewrite (@assignIDs_two _ l g) by reflexivity.
    destruct (IH _ _ _ (s + 1)%nat Hl) as [[Lb [Lp [Lid Ln]]] [Ls Lperm]].
    destruct (IH _ _ _ (snd (assignIDsRecursively l (s + 1))) Hg)
      as [[Gb [Gp [Gid Gn]]] [Gs Gperm]].
    destruct (assignIDs_fields l (s + 1)) as [csl Hl'].
    destruct (assignIDs_fields g (snd (assignIDsRecursively l (s + 1)))) as [csg Hg'].
    set (l' := fst (assignIDsRecursively l (s + 1))) in *.
    set (g' := fst (assignIDsRecursively g (snd (assignIDsRecursively l (s + 1))))) in *.
    assert (Hnl : numNodesInBranch l' = numNodesInBranch l) by (rewrite Hl'; reflexivity).
    assert (Hng : numNodesInBranch g' = numNodesInBranch g) by (rewrite Hg'; reflexivity).
    clearbody l' g'. clear Hl' Hg'.
    cbn [fst snd].
    set (t' := with_id_children (averaged normalize axis sp l g) s [l'; g']).
    assert (Hsub : subnodes t' = t' :: subnodes l' ++ subnodes g').
    { rewrite subnodes_eq. simpl. rewrite app_nil_r. reflexivity. }
    split; [|split].
    + unfold well_numbered. split; [|split; [|split]].
      * intros N HN HT. rewrite Hsub in HN.
        destruct HN as [<-|HN]; [reflexivity|].
        apply in_app_or in HN. destruct HN as [HN|HN]; [apply Lb|apply Gb]; assumption.
      * intros N HN HT. rewrite Hsub in HN.
        destruct HN as [<-|HN]; [exfalso; apply HT; reflexivity|].
        apply in_app_or in HN. destruct HN as [HN|HN]; [apply Lp|apply Gp]; assumption.
      * rewrite Hsub. simpl. rewrite map_app, Lid, Gid, Ls.
        f_equal. rewrite length_app.
        replace (s + 1)%nat with (S s) by lia.
        rewrite (seq_app (length (subnodes l')) (length (subnodes g')) (S s)).
        reflexivity.
      * rewrite Hsub. simpl. rewrite length_app. lia.
    + rewrite Gs, Ls, Hsub. simpl. rewrite length_app. lia.
    + rewrite (clusterIndices_eq t'). simpl. rewrite app_nil_r.
      eapply perm_trans; [apply Permutation_app; eassumption|].
      rewrite <- map_app. apply Permutation_map, Permutation_sym.
      eapply split_points_perm; eauto.
Qed.

Lemma Create6DBVH_shape (fuel : nat) (verts : list MassNormalPoint) (t : BVHNode6D) :
  Create6DBVH normalize indeterminate_vec indeterminate fuel verts = Returns t ->
  well_numbered 0 t /\ Permutation (clusterIndices t) (map Body.elementID verts).
Proof.
  unfold Create6DBVH. intro H.
  destruct (BVH_new fuel verts 0) as [t0| |] eqn:E; try discriminate.
  simpl in H. inversion H; subst t.
  destruct (@numbered_shape fuel verts 0%Z t0 0%nat E) as [Hw [_ Hp]]. auto.
Qed.

End Shape.

(** ** [AfFullProduct] *)

Lemma vec_get_in (v : list Q) (i : Z) :
  in_vector v i -> vec_get v i = Returns (vec_at v i).
Proof.
  unfold in_vector, vec_get, coord_at, vec_at. intro H.
  replace ((0 <=? i)%Z && (i <? Z.of_nat (length v))%Z) with true
    by (symmetry; apply andb_true_iff; split; [apply Z.leb_le|apply Z.ltb_lt]; lia).
  rewrite (nth_error_nth' v 0) by lia. reflexivity.
Qed.

Lemma vec_get_Returns (v : list Q) (i : Z) (a : Q) :
  vec_get v i = Returns a -> in_vector v i /\ a = vec_at v i.
Proof.
  unfold vec_get, coord_at, in_vector. intro H.
  destruct ((0 <=? i)%Z && (i <? Z.of_nat (length v))%Z) eqn:E; [|discriminate].
  apply andb_true_iff in E. destruct E as [E1 E2].
  apply Z.leb_le in E1. apply Z.ltb_lt in E2.
  split; [lia|].
  unfold vec_at. destruct (nth_error v (Z.to_nat i)) as [x|] eqn:En; [|discriminate].
  inversion H; subst. symmetry. apply nth_error_nth. exact En.
Qed.

Lemma vec_set_in (v : list Q) (i : Z) (a : Q) :
  in_vector v i -> exists v', vec_set v i a = Returns v'.
Proof.
  unfold in_vector, vec_set. intro H.
  replace (i <? 0)%Z with false by (symmetry; apply Z.ltb_ge; lia).
  assert (Hi : (Z.to_nat i < length v)%nat) by lia.
  destruct (@list_set_Some Q v (Z.to_nat i) a Hi) as [v' ->].
  simpl. eauto.
Qed.

Lemma vec_set_Returns (v v' : list Q) (i : Z) (a : Q) :
  vec_set v i a = Returns v' ->
  in_vector v i /\ length v' = length v /\ vec_at v' i = a /\
  forall j, (0 <= j)%Z -> j <> i -> vec_at v' j = vec_at v j.
Proof.
  unfold vec_set, in_vector. intro H.
  destruct (i <? 0)%Z eqn:E; [discriminate|]. apply Z.ltb_ge in E.
  destruct (list_set v (Z.to_nat i) a) as [w|] eqn:Es; [|discriminate].
  inversion H; subst.
  destruct (list_set_spec _ _ _ Es) as [Hi [Hlen [Hget Hother]]].
  split; [lia|]. split; [exact Hlen|]. split.
  - unfold vec_at. apply nth_error_nth. exact Hget.
  - intros j Hj Hne. unfold vec_at.
    assert (Hidx : Z.to_nat j <> Z.to_nat i) by lia.
    specialize (Hother _ Hidx).
    destruct (nth_error v (Z.to_nat j)) as [x|] eqn:En.
    + rewrite (nth_error_nth _ _ _ En). apply nth_error_nth. exact Hother.
    + apply nth_error_None in En. apply nth_error_None in Hother.
      rewrite !nth_overflow by lia. reflexivity.
Qed.

Lemma sum_over_ext (A : Type) (l : list A) (g h : A -> Q) :
  (forall j, In j l -> g j == h j) -> sum_over l g == sum_over l h.
Proof.
  induction l as [|j rest IH]; simpl; intro H; [reflexivity|].
  rewrite (H j (or_introl eq_refl)), IH; [reflexivity|].
  intros k Hk. apply H. right. exact Hk.
Qed.

Lemma sum_over_scale (A : Type) (l : list A) (g : A -> Q) (c : Q) :
  sum_over l (fun j => c * g j) == c * sum_over l g.
Proof.
  induction l as [|j rest IH]; simpl; [ring|]. rewrite IH. ring.
Qed.

Section Full_product.

Variable MetricDistanceTermFrac : Q -> Vector3 -> Vector3 -> Q.
Variable faceAreas : Z -> Q.
Variable faceBarycenters : Z -> Vector3.
Variable exp_s : Q.

Local Abbreviation inner := (full_inner MetricDistanceTermFrac faceAreas faceBarycenters exp_s).
Local Abbreviation outer := (full_outer MetricDistanceTermFrac faceAreas faceBarycenters exp_s).
Local Abbreviation term := (spec_pair_term MetricDistanceTermFrac faceAreas faceBarycenters exp_s).
Local Abbreviation af_term := (af MetricDistanceTermFrac faceAreas faceBarycenters exp_s).
Local Abbreviation row := (spec_row MetricDistanceTermFrac faceAreas faceBarycenters exp_s).

Lemma full_inner_loop (v_mid : list Q) (f1 : Z) (J : list Z) :
  forall a1 av,
    (forall j, In j J -> in_vector v_mid j) ->
    exists a1' av',
      foldM (inner v_mid f1) J (a1, av) = Returns (a1', av') /\
      a1' == a1 + sum_over J (af_term f1) /\
      av' == av + sum_over J (fun j => af_term f1 j * vec_at v_mid j).
Proof.
  induction J as [|j rest IH]; intros a1 av Hin; simpl.
  - exists a1, av. repeat split; ring.
  - unfold full_inner at 1.
    rewrite (vec_get_in (Hin j (or_introl eq_refl))). cbn [bind].
    fold (af_term f1 j).
    destruct (IH (a1 + af_term f1 j) (av + af_term f1 j * vec_at v_mid j)) as [a1' [av' [Hrun [H1 H2]]]].
    { intros k Hk. apply Hin. right. exact Hk. }
    exists a1', av'. split; [exact Hrun|]. split.
    + rewrite H1. ring.
    + rewrite H2. ring.
Qed.

Lemma full_inner_in_range (v_mid : list Q) (f1 : Z) (J : list Z) :
  forall acc acc',
    foldM (inner v_mid f1) J acc = Returns acc' ->
    forall j, In j J -> in_vector v_mid j.
Proof.
  induction J as [|j rest IH]; intros acc acc' H k Hk; [destruct Hk|].
  simpl in H. destruct acc as [a1 av]. unfold full_inner at 1 in H.
  destruct (vec_get v_mid j) as [x| |] eqn:E; try discriminate.
  cbn [bind] in H. destruct Hk as [<-|Hk].
  - apply (vec_get_Returns _ _ E).
  - eapply IH; eauto.
Qed.

(** What the row of face [i] adds: twice its area times the sum of the
    pair terms. *)
Lemma toAdd_is_row (v_mid : list Q) (J : list Z) (i : Z) (a1 av : Q) :
  a1 == 0 + sum_over J (af_term i) ->
  av == 0 + sum_over J (fun j => af_term i j * vec_at v_mid j) ->
  2 * (a1 * faceAreas i * vec_at v_mid i - av * faceAreas i) == row v_mid J i.
Proof.
  intros H1 H2. unfold spec_row. rewrite H1, H2. clear H1 H2.
  assert (Hsum : sum_over J (term v_mid i)
                 == sum_over J (af_term i) * vec_at v_mid i
                    - sum_over J (fun j => af_term i j * vec_at v_mid j)).
  { induction J as [|j rest IH]; simpl; [ring|].
    rewrite IH. unfold spec_pair_term, af.
    destruct (i =? j)%Z; ring. }
  rewrite Hsum. ring.
Qed.

Lemma full_outer_spec (pair : ClusterPair) (v_mid result : list Q) (i : Z) :
  (forall j, In j (clusterIndices (cluster2 pair)) -> in_vector v_mid j) ->
  in_vector v_mid i -> in_vector result i ->
  exists result',
    outer pair v_mid result i = Returns result' /\
    length result' = length result /\
    vec_at result' i == vec_at result i + row v_mid (clusterIndices (cluster2 pair)) i /\
    forall f, (0 <= f)%Z -> f <> i -> vec_at result' f = vec_at result f.
Proof.
  intros HJ Hv Hr. unfold full_outer.
  destruct (@full_inner_loop v_mid i (clusterIndices (cluster2 pair)) 0 0 HJ)
    as [a1 [av [Hrun [H1 H2]]]].
  rewrite Hrun. cbn [bind].
  rewrite (vec_get_in Hv). cbn [bind].
  rewrite (vec_get_in Hr). cbn [bind].
  destruct (@vec_set_in result i
              (vec_at result i
               + 2 * (a1 * faceAreas i * vec_at v_mid i - av * faceAreas i)) Hr)
    as [result' Hset].
  exists result'. split; [exact Hset|].
  destruct (vec_set_Returns _ _ _ Hset) as [_ [Hlen [Hat Hother]]].
  split; [exact Hlen|]. split; [|exact Hother].
  rewrite Hat. rewrite (toAdd_is_row v_mid _ _ H1 H2). reflexivity.
Qed.

Lemma sum_over_indicator (l : list Z) (g : Z -> Q) (i : Z) :
  NoDup l -> In i l ->
  sum_over l (fun i' => if (i' =? i)%Z then g i' else 0) == g i.
Proof.
  induction 1 as [|x rest Hnotin Hnd IH]; intro Hin; [destruct Hin|].
  simpl. destruct Hin as [->|Hin].
  - rewrite Z.eqb_refl.
    assert (Hz : sum_over rest (fun i' => if (i' =? i)%Z then g i' else 0) == 0).
    { clear IH Hnd. induction rest as [|y r IHr]; simpl; [reflexivity|].
      replace (y =? i)%Z with false
        by (symmetry; apply Z.eqb_neq; intro; subst; apply Hnotin; left; reflexivity).
      rewrite IHr; [ring|]. intro Hc. apply Hnotin. right. exact Hc. }
    rewrite Hz. ring.
  - replace (x =? i)%Z with false
      by (symmetry; apply Z.eqb_neq; intro; subst; contradiction).
    rewrite (IH Hin). ring.
Qed.

Lemma sum_over_zero (A : Type) (l : list A) (g : A -> Q) :
  (forall j, In j l -> g j == 0) -> sum_over l g == 0.
Proof.
  induction l as [|j rest IH]; simpl; intro H; [reflexivity|].
  rewrite (H j (or_introl eq_refl)), IH; [ring|].
  intros k Hk. apply H. right. exact Hk.
Qed.

(** The loop over the faces of the first cluster. *)
Lemma full_outer_loop (pair : ClusterPair) (v_mid : list Q) (I : list Z) :
  forall result,
    (forall i, In i I -> in_vector v_mid i /\ in_vector result i) ->
    (forall j, In j (clusterIndices (cluster2 pair)) -> in_vector v_mid j) ->
    exists result',
      foldM (outer pair v_mid) I result = Returns result' /\
      length result' = length result /\
      forall f, (0 <= f)%Z ->
        vec_at result' f
        == vec_at result f
           + sum_over I (fun i => if (i =? f)%Z
                                  then row v_mid (clusterIndices (cluster2 pair)) i
                                  else 0).
Proof.
  induction I as [|i rest IH]; intros result HI HJ.
  - exists result. simpl. repeat split. intros f _. ring.
  - destruct (HI i (or_introl eq_refl)) as [Hv Hr].
    destruct (full_outer_spec pair HJ Hv Hr) as [r1 [Hrun [Hlen [Hat Hother]]]].
    destruct (IH r1) as [result' [Hrun' [Hlen' Hsum]]].
    { intros k Hk. destruct (HI k (or_intror Hk)) as [Hkv Hkr].
      split; [exact Hkv|]. unfold in_vector in *. rewrite Hlen. exact Hkr. }
    { exact HJ. }
    exists result'. cbn [foldM]. rewrite Hrun. cbn [bind].
    split; [exact Hrun'|]. split; [congruence|].
    intros f Hf. rewrite (Hsum f Hf). cbn [sum_over].
    destruct (Z.eq_dec i f) as [->|Hne].
    + rewrite Z.eqb_refl, Hat. ring.
    + replace (i =? f)%Z with false by (symmetry; apply Z.eqb_neq; exact Hne).
      rewrite (Hother f Hf) by congruence. ring.
Qed.

(** C2.  With all faces of the two clusters inside the vectors,
    [AfFullProduct] returns, and what it adds to the entry of the result for
    a face [f] is, for each time [f] stands in the list of faces of the first
    cluster, [2 area_f sum_j area_j k_s(x_f, x_j) (v_f - v_j)] over the faces
    [j] of the second cluster, a face [j = f] adding 0.  So an entry of a
    face outside the first cluster is left as it was, and with pairwise
    different faces in the first cluster the entry of each of them grows by
    exactly that sum. *)
Theorem AfFullProduct_adds_rows (pair : ClusterPair) (v_mid result : list Q) :
  (forall i, In i (clusterIndices (cluster1 pair)) ->
     in_vector v_mid i /\ in_vector result i) ->
  (forall j, In j (clusterIndices (cluster2 pair)) -> in_vector v_mid j) ->
  exists result',
    AfFullProduct MetricDistanceTermFrac faceAreas faceBarycenters exp_s pair v_mid result
      = Returns result' /\
    length result' = length result /\
    (forall f, (0 <= f)%Z ->
       vec_at result' f
       == vec_at result f
          + sum_over (clusterIndices (cluster1 pair))
              (fun i => if (i =? f)%Z
                        then 2 * faceAreas i
                             * sum_over (clusterIndices (cluster2 pair)) (term v_mid i)
                        else 0)) /\
    (forall f, (0 <= f)%Z -> ~ In f (clusterIndices (cluster1 pair)) ->
       vec_at result' f == vec_at result f) /\
    (NoDup (clusterIndices (cluster1 pair)) ->
     forall i, In i (clusterIndices (cluster1 pair)) ->
       vec_at result' i
       == vec_at result i
          + 2 * faceAreas i * sum_over (clusterIndices (cluster2 pair)) (term v_mid i)).
Proof.
  intros HI HJ. unfold AfFullProduct.
  destruct (@full_outer_loop pair v_mid (clusterIndices (cluster1 pair)) result HI HJ)
    as [result' [Hrun [Hlen Hsum]]].
  exists result'. split; [exact Hrun|]. split; [exact Hlen|].
  split; [exact Hsum|]. split.
  - intros f Hf Hnotin. rewrite (Hsum f Hf).
    rewrite sum_over_zero; [ring|].
    intros j Hj. replace (j =? f)%Z with false; [reflexivity|].
    symmetry. apply Z.eqb_neq. intro; subst. contradiction.
  - intros Hnd i Hi.
    assert (Hi0 : (0 <= i)%Z) by (destruct (HI i Hi) as [[H0 _] _]; exact H0).
    rewrite (Hsum i Hi0).
    rewrite (@sum_over_indicator (clusterIndices (cluster1 pair))
               (row v_mid (clusterIndices (cluster2 pair))) i Hnd Hi).
    reflexivity.
Qed.

End Full_product.

(** ** The percolated product and [Af_1] *)

(** *** Sums *)

Lemma sum_over_app (A : Type) (l1 l2 : list A) (g : A -> Q) :
  sum_over (l1 ++ l2) g == sum_over l1 g + sum_over l2 g.
Proof.
  induction l1 as [|x r IH]; simpl; [ring|]. rewrite IH. ring.
Qed.

Lemma sum_over_perm (A : Type) (l1 l2 : list A) (g : A -> Q) :
  Permutation l1 l2 -> sum_over l1 g == sum_over l2 g.
Proof.
  induction 1 as [|x l l' _ IH|x y l|l l' l'' _ IH1 _ IH2]; simpl.
  - reflexivity.
  - rewrite IH. reflexivity.
  - ring.
  - rewrite IH1. exact IH2.
Qed.

Lemma sum_over_plus (A : Type) (l : list A) (g h : A -> Q) :
  sum_over l (fun x => g x + h x) == sum_over l g + sum_over l h.
Proof.
  induction l as [|x r IH]; simpl; [ring|]. rewrite IH. ring.
Qed.

Lemma sum_over_swap (A B : Type) (l1 : list A) (l2 : list B) (g : A -> B -> Q) :
  sum_over l1 (fun x => sum_over l2 (g x))
  == sum_over l2 (fun y => sum_over l1 (fun x => g x y)).
Proof.
  induction l1 as [|x r IH]; simpl.
  - symmetry. apply sum_over_zero. intros. reflexivity.
  - rewrite IH. symmetry. apply sum_over_plus.
Qed.

Lemma sum_over_Qsum (A : Type) (l : list A) (g : A -> Q) :
  sum_over l g == Qsum (map g l).
Proof.
  induction l as [|x r IH]; simpl; [reflexivity|].
  unfold Qsum. simpl. rewrite Qsum_from. rewrite IH. ring.
Qed.

(** The one element of a list without repeated keys that has the key of
    [x]. *)
Lemma sum_over_key (A : Type) (key : A -> nat) (l : list A) (h : A -> Q) (x : A) :
  NoDup (map key l) -> In x l ->
  sum_over l (fun M => if (key x =? key M)%nat then h M else 0) == h x.
Proof.
  induction l as [|y r IH]; simpl; intros Hnd Hin; [destruct Hin|].
  inversion Hnd as [|k ks Hnotin Hnd']; subst.
  destruct Hin as [->|Hin].
  - rewrite Nat.eqb_refl.
    rewrite sum_over_zero; [ring|].
    intros M HM. destruct (key x =? key M)%nat eqn:E; [|reflexivity].
    apply Nat.eqb_eq in E. exfalso. apply Hnotin. rewrite E. apply in_map. exact HM.
  - destruct (key x =? key y)%nat eqn:E.
    + apply Nat.eqb_eq in E. exfalso. apply Hnotin. rewrite <- E. apply in_map. exact Hin.
    + rewrite (IH Hnd' Hin). ring.
Qed.

(** ** Nodes below nodes *)

Lemma subnodes_trans (R : BVHNode6D) :
  forall N M, In N (subnodes R) -> In M (subnodes N) -> In M (subnodes R).
Proof.
  induction R as [R IH] using BVHNode6D_tree_ind. intros N M HN HM.
  rewrite subnodes_eq in HN. destruct HN as [<-|HN]; [exact HM|].
  apply in_flat_map in HN. destruct HN as [c [Hc HN]].
  rewrite Forall_forall in IH.
  eapply subnodes_child; [exact Hc|]. eapply IH; eauto.
Qed.

Lemma childless_leaves_child (n c : BVHNode6D) :
  childless_leaves n -> In c (children n) -> childless_leaves c.
Proof.
  intros Hn Hc N HN. apply Hn. eapply subnodes_child; eauto.
Qed.

Lemma clusterIndices_leaves (n : BVHNode6D) :
  childless_leaves n -> clusterIndices n = map elementID (leaves n).
Proof.
  induction n as [n IH] using BVHNode6D_tree_ind. intro Hp.
  rewrite clusterIndices_eq, leaves_eq.
  destruct (nodeType n) eqn:E.
  - rewrite (Hp n (subnodes_self n)) by (rewrite E; discriminate). reflexivity.
  - reflexivity.
  - rewrite Forall_forall in IH.
    assert (Hc : forall c, In c (children n) -> clusterIndices c = map elementID (leaves c)).
    { intros c Hc. apply IH; [exact Hc|]. eapply childless_leaves_child; eauto. }
    clear IH Hp E. induction (children n) as [|c r IHr]; simpl; [reflexivity|].
    rewrite map_app, (Hc c) by (left; reflexivity).
    f_equal. apply IHr. intros; apply Hc; right; assumption.
Qed.

Lemma leaves_subnode (R : BVHNode6D) :
  childless_leaves R ->
  forall M L, In M (subnodes R) -> In L (leaves M) -> In L (leaves R).
Proof.
  induction R as [R IH] using BVHNode6D_tree_ind. intros Hp M L HM HL.
  rewrite subnodes_eq in HM. destruct HM as [<-|HM]; [exact HL|].
  apply in_flat_map in HM. destruct HM as [c [Hc HM]].
  rewrite Forall_forall in IH.
  assert (HLc : In L (leaves c))
    by (eapply IH; eauto; eapply childless_leaves_child; eauto).
  rewrite leaves_eq. destruct (nodeType R) eqn:E.
  - apply in_flat_map. exists c. auto.
  - rewrite (Hp R (subnodes_self R)) in Hc by (rewrite E; discriminate). destruct Hc.
  - apply in_flat_map. exists c. auto.
Qed.

Lemma clusterIndices_subnode (R : BVHNode6D) :
  childless_leaves R ->
  forall M f, In M (subnodes R) -> In f (clusterIndices M) -> In f (clusterIndices R).
Proof.
  intros Hp M f HM Hf.
  assert (HpM : childless_leaves M)
    by (intros N HN; apply Hp; eapply subnodes_trans; eauto).
  rewrite (clusterIndices_leaves HpM) in Hf. rewrite (clusterIndices_leaves Hp).
  apply in_map_iff in Hf. destruct Hf as [L [<- HL]].
  apply in_map. eapply leaves_subnode; eauto.
Qed.

(** ** [percolateWtDot] *)

Lemma percolateWtDot_eq (n : BVHNode6D) (v : list Q) (wtDot : table) :
  percolateWtDot n v wtDot
  = bind (match nodeType n with
          | Leaf =>
              bind (vec_get v (elementID n)) (fun v_i =>
              Returns (wtDot, totalMass n * v_i))
          | _ => percolateWtDot_children v (children n) wtDot 0
          end)
         (fun '(wtDot', rootSum) => Returns (table_set wtDot' (nodeID n) rootSum, rootSum)).
Proof. destruct n; reflexivity. Qed.

Lemma percolateWtDot_children_cons (v : list Q) (c : BVHNode6D) (rest : list BVHNode6D)
    (wtDot : table) (rootSum : Q) :
  percolateWtDot_children v (c :: rest) wtDot rootSum
  = bind (percolateWtDot c v wtDot) (fun '(wtDot', childWtDot) =>
      percolateWtDot_children v rest wtDot' (rootSum + childWtDot)).
Proof. reflexivity. Qed.

Lemma NoDup_app_parts (A : Type) (l1 l2 : list A) :
  NoDup (l1 ++ l2) ->
  NoDup l1 /\ NoDup l2 /\ (forall x, In x l1 -> ~ In x l2).
Proof.
  intro H. split; [eapply NoDup_app_remove_r; eauto|].
  split; [eapply NoDup_app_remove_l; eauto|].
  induction l1 as [|a r IH]; simpl in *; [tauto|].
  inversion H as [|a' l' Hnotin Hnd]; subst.
  intros x [->|Hx].
  - intro Hc. apply Hnotin. apply in_or_app. right. exact Hc.
  - apply IH; assumption.
Qed.

(** What [percolateWtDot] leaves: the [wtDot] of every node below is the
    sum of [mass * v] over its leaves, the other entries of the table are
    as before, and every leaf below has its face inside [v]. *)
Lemma percolateWtDot_spec (v : list Q) (n : BVHNode6D) :
  childless_leaves n ->
  NoDup (map nodeID (subnodes n)) ->
  forall W0 W r,
    percolateWtDot n v W0 = Returns (W, r) ->
    r == leaf_dot v n /\
    (forall M, In M (subnodes n) -> W (nodeID M) == leaf_dot v M) /\
    (forall k, ~ In k (map nodeID (subnodes n)) -> W k = W0 k) /\
    (forall L, In L (leaves n) -> in_vector v (elementID L)).
Proof.
  induction n as [n IH] using BVHNode6D_tree_ind. intros Hp Hnd W0 W r H.
  rewrite percolateWtDot_eq in H.
  assert (Hloop : forall cs,
    Forall (fun c => childless_leaves c ->
              NoDup (map nodeID (subnodes c)) ->
              forall W0 W r, percolateWtDot c v W0 = Returns (W, r) ->
                r == leaf_dot v c /\
                (forall M, In M (subnodes c) -> W (nodeID M) == leaf_dot v M) /\
                (forall k, ~ In k (map nodeID (subnodes c)) -> W k = W0 k) /\
                (forall L, In L (leaves c) -> in_vector v (elementID L))) cs ->
    (forall c, In c cs -> childless_leaves c) ->
    NoDup (map nodeID (flat_map subnodes cs)) ->
    forall W0 a W r,
      percolateWtDot_children v cs W0 a = Returns (W, r) ->
      r == a + sum_over (flat_map leaves cs)
                 (fun L => totalMass L * vec_at v (elementID L)) /\
      (forall M, In M (flat_map subnodes cs) -> W (nodeID M) == leaf_dot v M) /\
      (forall k, ~ In k (map nodeID (flat_map subnodes cs)) -> W k = W0 k) /\
      (forall L, In L (flat_map leaves cs) -> in_vector v (elementID L))).
  { clear. induction cs as [|c rest IHrest]; intros Hall Hp Hnd W0 a W r H.
    - simpl in H. inversion H; subst. simpl.
      split; [ring|]. split; [tauto|]. split; [reflexivity|tauto].
    - rewrite percolateWtDot_children_cons in H.
      destruct (percolateWtDot c v W0) as [[W1 cw]| |] eqn:Ec; try discriminate.
      cbn [bind] in H.
      inversion Hall as [|c' r' Hc Hrest]; subst.
      simpl in Hnd. rewrite map_app in Hnd.
      destruct (NoDup_app_parts _ _ Hnd) as [Hnd1 [Hnd2 Hdisj]].
      destruct (Hc (Hp c (or_introl eq_refl)) Hnd1 _ _ _ Ec) as [Hr1 [HW1 [Hout1 Hin1]]].
      destruct (IHrest Hrest (fun c' Hc' => Hp c' (or_intror Hc')) Hnd2 _ _ _ _ H)
        as [Hr [HW [Hout Hin]]].
      split; [|split; [|split]].
      + rewrite Hr, Hr1. simpl. rewrite sum_over_app. unfold leaf_dot. ring.
      + intros M HM. simpl in HM. apply in_app_or in HM. destruct HM as [HM|HM].
        * rewrite Hout; [apply HW1; exact HM|].
          apply Hdisj. apply in_map. exact HM.
        * apply HW. exact HM.
      + intros k Hk. simpl in Hk. rewrite map_app in Hk.
        rewrite Hout by (intro Hc'; apply Hk; apply in_or_app; right; exact Hc').
        apply Hout1. intro Hc'. apply Hk. apply in_or_app. left. exact Hc'.
      + intros L HL. simpl in HL. apply in_app_or in HL. destruct HL as [HL|HL]; auto. }
  assert (Hpc : forall c, In c (children n) -> childless_leaves c)
    by (intros c Hc; eapply childless_leaves_child; eauto).
  rewrite subnodes_eq in Hnd. simpl in Hnd.
  inversion Hnd as [|k ks Hnotin Hndc]; subst.
  assert (Hinterior :
    forall W1 r1, percolateWtDot_children v (children n) W0 0 = Returns (W1, r1) ->
      nodeType n <> Leaf ->
      Returns (table_set W1 (nodeID n) r1, r1) = Returns (W, r) ->
      r == leaf_dot v n /\
      (forall M, In M (subnodes n) -> W (nodeID M) == leaf_dot v M) /\
      (forall k, ~ In k (map nodeID (subnodes n)) -> W k = W0 k) /\
      (forall L, In L (leaves n) -> in_vector v (elementID L))).
  { intros W1 r1 E Hnl Hret. inversion Hret; subst W r. clear Hret.
    destruct (Hloop _ IH Hpc Hndc _ _ _ _ E) as [Hr [HW [Hout Hin]]].
    assert (Hleaves : leaves n = flat_map leaves (children n))
      by (rewrite leaves_eq; destruct (nodeType n); congruence).
    assert (Hr' : r1 == leaf_dot v n)
      by (rewrite Hr; unfold leaf_dot; rewrite Hleaves; ring).
    split; [exact Hr'|]. split; [|split].
    - intros M HM. rewrite subnodes_eq in HM. unfold table_set.
      destruct HM as [<-|HM]; [rewrite Nat.eqb_refl; exact Hr'|].
      destruct (nodeID M =? nodeID n)%nat eqn:Eid.
      + apply Nat.eqb_eq in Eid. exfalso. apply Hnotin. rewrite <- Eid.
        apply in_map. exact HM.
      + apply HW. exact HM.
    - intros k Hk. rewrite subnodes_eq in Hk. simpl in Hk. unfold table_set.
      destruct (k =? nodeID n)%nat eqn:Eid.
      + apply Nat.eqb_eq in Eid. exfalso. apply Hk. left. congruence.
      + apply Hout. intro Hc. apply Hk. right. exact Hc.
    - rewrite Hleaves. exact Hin. }
  destruct (nodeType n) eqn:Et.
  - destruct (percolateWtDot_children v (children n) W0 0) as [[W1 r1]| |] eqn:E;
      try discriminate.
    cbn [bind] in H. apply (Hinterior W1 r1 eq_refl); [discriminate|exact H].
  - destruct (vec_get v (elementID n)) as [v_i| |] eqn:Ev; try discriminate.
    cbn [bind] in H. inversion H; subst W r. clear H.
    destruct (vec_get_Returns _ _ Ev) as [Hin ->].
    assert (Hch : children n = [])
      by (apply (Hp n (subnodes_self n)); rewrite Et; discriminate).
    assert (Hl : leaves n = [n]) by (rewrite leaves_eq, Et; reflexivity).
    assert (Hr : totalMass n * vec_at v (elementID n) == leaf_dot v n)
      by (unfold leaf_dot; rewrite Hl; simpl; ring).
    split; [exact Hr|]. split; [|split].
    + intros M HM. rewrite subnodes_eq, Hch in HM. simpl in HM.
      destruct HM as [<-|[]]. unfold table_set. rewrite Nat.eqb_refl. exact Hr.
    + intros k Hk. rewrite subnodes_eq in Hk. simpl in Hk. unfold table_set.
      destruct (k =? nodeID n)%nat eqn:Eid; [|reflexivity].
      apply Nat.eqb_eq in Eid. exfalso. apply Hk. left. congruence.
    + rewrite Hl. intros L [<-|[]]. exact Hin.
  - destruct (percolateWtDot_children v (children n) W0 0) as [[W1 r1]| |] eqn:E;
      try discriminate.
    cbn [bind] in H. apply (Hinterior W1 r1 eq_refl); [discriminate|exact H].
Qed.

(** ** The buckets and the loop over them *)

Lemma push_bucket_perm (buckets buckets' : list (list ClusterPair)) (i : nat)
    (pair : ClusterPair) :
  push_bucket buckets i pair = Some buckets' ->
  Permutation (concat buckets') (pair :: concat buckets).
Proof.
  revert i buckets'. induction buckets as [|b rest IH]; intros i buckets' H.
  - destruct i; discriminate.
  - destruct i as [|i]; simpl in H.
    + inversion H; subst. simpl. rewrite <- app_assoc. simpl.
      symmetry. apply Permutation_middle.
    + destruct (push_bucket rest i pair) as [rest'|] eqn:E; [|discriminate].
      inversion H; subst. simpl.
      rewrite (IH _ _ E). symmetry. apply Permutation_middle.
Qed.

Lemma OrganizePairsByFirst_perm (root : BVHNode6D) (adm : list ClusterPair)
    (buckets : list (list ClusterPair)) :
  OrganizePairsByFirst root adm = Returns buckets ->
  Permutation (concat buckets) adm.
Proof.
  unfold OrganizePairsByFirst.
  assert (Hgen : forall adm b0 buckets,
    foldM (fun buckets pair =>
             of_option (push_bucket buckets (nodeID (cluster1 pair)) pair)) adm b0
      = Returns buckets ->
    Permutation (concat buckets) (concat b0 ++ adm)).
  { clear. induction adm as [|p rest IH]; intros b0 buckets H.
    - simpl in H. inversion H; subst. rewrite app_nil_r. reflexivity.
    - simpl in H.
      destruct (push_bucket b0 (nodeID (cluster1 p)) p) as [b1|] eqn:E; [|discriminate].
      simpl in H. rewrite (IH _ _ H). rewrite (push_bucket_perm _ _ _ E).
      simpl. apply Permutation_middle. }
  intro H. rewrite (Hgen _ _ _ H).
  assert (Hnil : forall n, concat (repeat (@nil ClusterPair) n) = [])
    by (induction n; simpl; auto).
  rewrite Hnil. reflexivity.
Qed.

Section Percolated.

Variable MetricDistanceTermFrac : Q -> Vector3 -> Vector3 -> Q.
Variable exp_s : Q.

Local Abbreviation add_term := (add_pair_term MetricDistanceTermFrac exp_s).
Local Abbreviation term_of := (pair_term MetricDistanceTermFrac exp_s).

Lemma add_pair_terms (W : table) (l : list ClusterPair) :
  forall B k,
    fold_left (add_term W) l B k == B k + sum_over l (term_of W k).
Proof.
  induction l as [|p rest IH]; intros B k; simpl; [ring|].
  rewrite IH. set (rest_sum := sum_over rest _).
  unfold add_pair_term, table_set, pair_term.
  rewrite (Nat.eqb_sym (nodeID (cluster1 p)) k).
  destruct (k =? nodeID (cluster1 p))%nat eqn:E.
  - apply Nat.eqb_eq in E. subst k. ring.
  - ring.
Qed.

Lemma cluster_terms_spec (buckets : list (list ClusterPair)) (W : table) (k : nat) :
  cluster_terms MetricDistanceTermFrac exp_s buckets W k
  == sum_over (concat buckets) (term_of W k).
Proof.
  unfold cluster_terms.
  assert (Hgen : forall bs B,
    fold_left (fun B bucket => fold_left (add_term W) bucket B) bs B k
    == B k + sum_over (concat bs) (term_of W k)).
  { induction bs as [|b rest IH]; intro B; simpl; [ring|].
    rewrite IH, add_pair_terms, sum_over_app. ring. }
  rewrite Hgen. unfold table_zero. ring.
Qed.

End Percolated.

(** ** [percolateJ] *)

Lemma percolateJ_eq (n : BVHNode6D) (parentB : Q) (b : list Q) (B : table) :
  percolateJ n parentB b B
  = let nodeB := B (nodeID n) + parentB in
    let B1 := table_set B (nodeID n) nodeB in
    bind (match nodeType n with
          | Leaf => vec_set b (elementID n) (totalMass n * nodeB)
          | _ => Returns b
          end)
         (fun b1 => percolateJ_children (children n) nodeB b1 B1).
Proof. destruct n; reflexivity. Qed.

Lemma percolateJ_children_cons (c : BVHNode6D) (rest : list BVHNode6D) (nodeB : Q)
    (b : list Q) (B : table) :
  percolateJ_children (c :: rest) nodeB b B
  = bind (percolateJ c nodeB b B) (fun '(B', b') =>
      percolateJ_children rest nodeB b' B').
Proof. reflexivity. Qed.

Lemma existsb_eqb_In (f : Z) (l : list Z) : existsb (Z.eqb f) l = true <-> In f l.
Proof.
  rewrite existsb_exists. split.
  - intros [x [Hx E]]. apply Z.eqb_eq in E. subst. exact Hx.
  - intro H. exists f. split; [exact H|apply Z.eqb_refl].
Qed.

(** The [B] of the nodes below [n] does not count for a face outside
    [n]. *)
Lemma B_for_outside (B : table) (f : Z) (n : BVHNode6D) :
  childless_leaves n -> ~ In f (clusterIndices n) ->
  forall M, In M (subnodes n) -> B_for B f M == 0.
Proof.
  intros Hp Hf M HM. unfold B_for.
  destruct (existsb (Z.eqb f) (clusterIndices M)) eqn:E; [|reflexivity].
  apply existsb_eqb_In in E. exfalso. apply Hf.
  eapply clusterIndices_subnode; eauto.
Qed.

Lemma B_for_same (B B' : table) (f : Z) (l : list BVHNode6D) :
  (forall M, In M l -> B' (nodeID M) = B (nodeID M)) ->
  sum_over l (B_for B' f) == sum_over l (B_for B f).
Proof.
  intro H. apply sum_over_ext. intros M HM. unfold B_for.
  rewrite (H M HM). reflexivity.
Qed.

(** What [percolateJ] leaves: the entry of the face of every leaf below is
    the mass of the leaf times the sum of [parentB] and the [B] of all the
    nodes from [n] down to the leaf; the other entries of [b] and the [B] of
    the other nodes are as before. *)
Lemma percolateJ_spec (n : BVHNode6D) :
  childless_leaves n ->
  NoDup (map nodeID (subnodes n)) ->
  NoDup (clusterIndices n) ->
  forall parentB b B0 B' b',
    percolateJ n parentB b B0 = Returns (B', b') ->
    length b' = length b /\
    (forall L, In L (leaves n) ->
       vec_at b' (elementID L)
       == totalMass L * (parentB + sum_over (subnodes n) (B_for B0 (elementID L)))) /\
    (forall f, (0 <= f)%Z -> ~ In f (clusterIndices n) -> vec_at b' f = vec_at b f) /\
    (forall k, ~ In k (map nodeID (subnodes n)) -> B' k = B0 k) /\
    (forall L, In L (leaves n) -> (0 <= elementID L)%Z).
Proof.
  induction n as [n IH] using BVHNode6D_tree_ind.
  intros Hp Hnd Hfaces parentB b B0 B' b' H.
  rewrite percolateJ_eq in H. cbv zeta in H.
  assert (Hloop : forall cs,
    Forall (fun c => childless_leaves c ->
              NoDup (map nodeID (subnodes c)) ->
              NoDup (clusterIndices c) ->
              forall parentB b B0 B' b',
                percolateJ c parentB b B0 = Returns (B', b') ->
                length b' = length b /\
                (forall L, In L (leaves c) ->
                   vec_at b' (elementID L)
                   == totalMass L
                      * (parentB + sum_over (subnodes c) (B_for B0 (elementID L)))) /\
                (forall f, (0 <= f)%Z -> ~ In f (clusterIndices c) ->
                   vec_at b' f = vec_at b f) /\
                (forall k, ~ In k (map nodeID (subnodes c)) -> B' k = B0 k) /\
                (forall L, In L (leaves c) -> (0 <= elementID L)%Z)) cs ->
    (forall c, In c cs -> childless_leaves c) ->
    NoDup (map nodeID (flat_map subnodes cs)) ->
    NoDup (flat_map clusterIndices cs) ->
    forall nodeB b B0 B' b',
      percolateJ_children cs nodeB b B0 = Returns (B', b') ->
      length b' = length b /\
      (forall L, In L (flat_map leaves cs) ->
         vec_at b' (elementID L)
         == totalMass L
            * (nodeB + sum_over (flat_map subnodes cs) (B_for B0 (elementID L)))) /\
      (forall f, (0 <= f)%Z -> ~ In f (flat_map clusterIndices cs) ->
         vec_at b' f = vec_at b f) /\
      (forall k, ~ In k (map nodeID (flat_map subnodes cs)) -> B' k = B0 k) /\
      (forall L, In L (flat_map leaves cs) -> (0 <= elementID L)%Z)).
  { clear. induction cs as [|c rest IHrest]; intros Hall Hp Hnd Hfaces nodeB b B0 B' b' H.
    - simpl in H. inversion H; subst. simpl.
      split; [reflexivity|]. split; [tauto|]. split; [reflexivity|].
      split; [reflexivity|tauto].
    - rewrite percolateJ_children_cons in H.
      destruct (percolateJ c nodeB b B0) as [[B1 b1]| |] eqn:Ec; try discriminate.
      cbn [bind] in H.
      inversion Hall as [|c' r' Hc Hrest]; subst.
      simpl in Hnd. rewrite map_app in Hnd.
      destruct (NoDup_app_parts _ _ Hnd) as [Hnd1 [Hnd2 Hdisj]].
      simpl in Hfaces.
      destruct (NoDup_app_parts _ _ Hfaces) as [Hf1 [Hf2 Hfdisj]].
      assert (Hpc : childless_leaves c) by (apply Hp; left; reflexivity).
      assert (Hprest : forall c', In c' rest -> childless_leaves c')
        by (intros; apply Hp; right; assumption).
      destruct (Hc Hpc Hnd1 Hf1 _ _ _ _ _ Ec) as [Hlen1 [Hb1 [Hkeep1 [Hout1 Hpos1]]]].
      destruct (IHrest Hrest Hprest Hnd2 Hf2 _ _ _ _ _ H)
        as [Hlen [Hb [Hkeep [Hout Hpos]]]].
      assert (Hrest0 : forall f, ~ In f (flat_map clusterIndices rest) ->
                forall B, sum_over (flat_map subnodes rest) (B_for B f) == 0).
      { intros f Hf B. apply sum_over_zero. intros M HM.
        apply in_flat_map in HM. destruct HM as [c' [Hc' HM]].
        apply (@B_for_outside B f c'); [apply Hprest; exact Hc'| |exact HM].
        intro Hin. apply Hf. apply in_flat_map. exists c'. auto. }
      split; [congruence|]. split; [|split; [|split]].
      + intros L HL. simpl in HL. apply in_app_or in HL. simpl.
        rewrite sum_over_app. destruct HL as [HL|HL].
        * assert (HfL : In (elementID L) (clusterIndices c))
            by (rewrite (clusterIndices_leaves Hpc); apply in_map; exact HL).
          rewrite Hkeep; [|apply Hpos1; exact HL|apply Hfdisj; exact HfL].
          rewrite (Hb1 L HL).
          rewrite (Hrest0 _ (Hfdisj _ HfL)). ring.
        * assert (HfL : In (elementID L) (flat_map clusterIndices rest)).
          { apply in_flat_map in HL. destruct HL as [c' [Hc' HL]].
            apply in_flat_map. exists c'. split; [exact Hc'|].
            rewrite (clusterIndices_leaves (Hprest c' Hc')). apply in_map. exact HL. }
          rewrite (Hb L HL).
          assert (Hc0 : sum_over (subnodes c) (B_for B0 (elementID L)) == 0).
          { apply sum_over_zero. intros M HM.
            apply (@B_for_outside B0 (elementID L) c Hpc); [|exact HM].
            intro Hin. exact (Hfdisj _ Hin HfL). }
          rewrite Hc0.
          rewrite (@B_for_same B0 B1 (elementID L) (flat_map subnodes rest)); [ring|].
          intros M HM. apply Hout1. intro Hin.
          apply (Hdisj _ Hin). apply in_map. exact HM.
      + intros f Hf0 Hf. simpl in Hf.
        rewrite Hkeep; [|exact Hf0|intro Hc'; apply Hf; apply in_or_app; right; exact Hc'].
        apply Hkeep1; [exact Hf0|]. intro Hc'. apply Hf. apply in_or_app. left. exact Hc'.
      + intros k Hk. simpl in Hk. rewrite map_app in Hk.
        rewrite Hout by (intro Hc'; apply Hk; apply in_or_app; right; exact Hc').
        apply Hout1. intro Hc'. apply Hk. apply in_or_app. left. exact Hc'.
      + intros L HL. simpl in HL. apply in_app_or in HL. destruct HL as [HL|HL]; auto. }
  assert (Hpc : forall c, In c (children n) -> childless_leaves c)
    by (intros c Hc; eapply childless_leaves_child; eauto).
  rewrite subnodes_eq in Hnd. simpl in Hnd.
  inversion Hnd as [|k ks Hnotin Hndc]; subst.
  set (nodeB := B0 (nodeID n) + parentB) in *.
  set (B1 := table_set B0 (nodeID n) nodeB) in *.
  assert (HB1 : forall M, In M (flat_map subnodes (children n)) ->
                  B1 (nodeID M) = B0 (nodeID M)).
  { intros M HM. unfold B1, table_set.
    destruct (nodeID M =? nodeID n)%nat eqn:Eid; [|reflexivity].
    apply Nat.eqb_eq in Eid. exfalso. apply Hnotin. rewrite <- Eid.
    apply in_map. exact HM. }
  assert (HB1out : forall k, ~ In k (map nodeID (subnodes n)) -> B1 k = B0 k).
  { intros k Hk. rewrite subnodes_eq in Hk. simpl in Hk. unfold B1, table_set.
    destruct (k =? nodeID n)%nat eqn:Eid; [|reflexivity].
    apply Nat.eqb_eq in Eid. exfalso. apply Hk. left. congruence. }
  destruct (nodeType n) eqn:Et.
  - (* Empty *)
    cbn [bind] in H.
    assert (Hch : children n = [])
      by (apply (Hp n (subnodes_self n)); rewrite Et; discriminate).
    rewrite Hch in H. simpl in H. inversion H; subst B' b'.
    assert (Hl : leaves n = []) by (rewrite leaves_eq, Et, Hch; reflexivity).
    rewrite Hl. split; [reflexivity|]. split; [intros L []|].
    split; [reflexivity|]. split; [exact HB1out|intros L []].
  - (* Leaf *)
    destruct (vec_set b (elementID n) (totalMass n * nodeB)) as [b1| |] eqn:Es;
      try discriminate.
    cbn [bind] in H.
    assert (Hch : children n = [])
      by (apply (Hp n (subnodes_self n)); rewrite Et; discriminate).
    rewrite Hch in H. simpl in H. inversion H; subst B' b'.
    destruct (vec_set_Returns _ _ _ Es) as [Hin [Hlen [Hget Hother]]].
    assert (Hl : leaves n = [n]) by (rewrite leaves_eq, Et; reflexivity).
    assert (Hci : clusterIndices n = [elementID n])
      by (rewrite clusterIndices_eq, Et; reflexivity).
    split; [exact Hlen|]. split; [|split; [|split]].
    + rewrite Hl. intros L [<-|[]]. rewrite Hget.
      rewrite subnodes_eq, Hch. simpl. unfold B_for. rewrite Hci. simpl.
      rewrite Z.eqb_refl. simpl. unfold nodeB. ring.
    + intros f Hf0 Hf. apply Hother; [exact Hf0|].
      intro Heq. apply Hf. rewrite Hci. left. congruence.
    + exact HB1out.
    + rewrite Hl. intros L [<-|[]]. destruct Hin as [H0 _]. exact H0.
  - (* Interior *)
    cbn [bind] in H.
    assert (Hci : clusterIndices n = flat_map clusterIndices (children n))
      by (rewrite clusterIndices_eq, Et; reflexivity).
    assert (Hl : leaves n = flat_map leaves (children n))
      by (rewrite leaves_eq, Et; reflexivity).
    rewrite Hci in Hfaces.
    destruct (Hloop _ IH Hpc Hndc Hfaces _ _ _ _ _ H) as [Hlen [Hb [Hkeep [Hout Hpos]]]].
    split; [exact Hlen|]. split; [|split; [|split]].
    + intros L HL. rewrite Hl in HL. rewrite (Hb L HL).
      assert (HfL : In (elementID L) (clusterIndices n)).
      { rewrite (clusterIndices_leaves Hp), Hl. apply in_map. exact HL. }
      rewrite subnodes_eq. simpl. unfold B_for at 2.
      rewrite (proj2 (existsb_eqb_In _ _) HfL).
      rewrite (@B_for_same B0 B1 (elementID L) _ HB1). unfold nodeB. ring.
    + intros f Hf0 Hf. apply Hkeep; [exact Hf0|]. rewrite <- Hci. exact Hf.
    + intros k' Hk. rewrite Hout.
      * apply HB1out. exact Hk.
      * intro Hc. apply Hk. rewrite subnodes_eq. simpl. right. exact Hc.
    + rewrite Hl. exact Hpos.
Qed.

(** ** The vector [Af_1] *)

Lemma nth_repeat_inside (A : Type) (a d : A) (n k : nat) :
  (k < n)%nat -> nth k (repeat a n) d = a.
Proof.
  revert k. induction n as [|n IH]; intros k Hk; [lia|].
  destruct k as [|k]; simpl; [reflexivity|]. apply IH. lia.
Qed.

Section Af1.

Variable norm : Vector3 -> Q.
Variable boxContainsPoint : BVHNode6D -> Vector3 -> bool.
Variable MetricDistanceTermFrac : Q -> Vector3 -> Vector3 -> Q.
Variable exp_s separationCoeff : Q.

Local Abbreviation round := (spec_round norm boxContainsPoint separationCoeff).
Local Abbreviation term_of := (pair_term MetricDistanceTermFrac exp_s).

(** Both clusters of every pair are nodes of the tree. *)
Lemma spec_round_below (root : BVHNode6D) (l : PairLists) :
  pairs_below root (all_pairs l) -> pairs_below root (all_pairs (round l)).
Proof.
  unfold pairs_below, all_pairs. intros H p Hp.
  unfold spec_round in Hp. simpl in Hp.
  assert (Hfilter : forall g q, In q (filter g (unresolvedPairs l)) ->
            In (cluster1 q) (subnodes root) /\ In (cluster2 q) (subnodes root)).
  { intros g q Hq. apply filter_In in Hq. destruct Hq as [Hq _].
    apply H. apply in_or_app. right. apply in_or_app. right. exact Hq. }
  apply in_app_or in Hp. destruct Hp as [Hp|Hp].
  - apply in_app_or in Hp. destruct Hp as [Hp|Hp]; [|eapply Hfilter; eauto].
    apply H. apply in_or_app. left. exact Hp.
  - apply in_app_or in Hp. destruct Hp as [Hp|Hp].
    + apply in_app_or in Hp. destruct Hp as [Hp|Hp]; [|eapply Hfilter; eauto].
      apply H. apply in_or_app. right. apply in_or_app. left. exact Hp.
    + apply in_flat_map in Hp. destruct Hp as [q [Hq Hp]].
      destruct (Hfilter _ _ Hq) as [H1 H2].
      unfold spec_child_pairs in Hp. apply in_map_iff in Hp.
      destruct Hp as [[a c] [<- Hac]]. apply in_prod_iff in Hac.
      destruct Hac as [Ha Hc]. apply In_firstn in Ha. apply In_firstn in Hc. simpl.
      split.
      * eapply subnodes_trans; [exact H1|].
        eapply subnodes_child; [exact Ha|apply subnodes_self].
      * eapply subnodes_trans; [exact H2|].
        eapply subnodes_child; [exact Hc|apply subnodes_self].
Qed.

Lemma build_pairs_below (fuel : nat) (root : BVHNode6D) (l : PairLists) :
  build_pairs norm boxContainsPoint separationCoeff fuel root = Returns l ->
  pairs_below root (admissiblePairs l).
Proof.
  intro H. unfold build_pairs in H.
  destruct (@split_loop_spec norm boxContainsPoint separationCoeff fuel _ _ H)
    as [_ [n [Hn _]]].
  assert (Hall : pairs_below root (all_pairs l)).
  { rewrite Hn. clear. induction n as [|n IH].
    - simpl. intros p [<-|[]]. simpl. split; apply subnodes_self.
    - rewrite Nat.iter_succ. apply spec_round_below. exact IH. }
  intros p Hp. apply Hall. unfold all_pairs. apply in_or_app. left. exact Hp.
Qed.

(** The percolated product of the all-ones vector. *)
Lemma PremultiplyAf1_spec (root : BVHNode6D) (adm : list ClusterPair)
    (buckets : list (list ClusterPair)) (af1 : list Q) :
  childless_leaves root ->
  NoDup (map nodeID (subnodes root)) ->
  NoDup (clusterIndices root) ->
  pairs_below root adm ->
  Permutation (concat buckets) adm ->
  PremultiplyAf1 MetricDistanceTermFrac exp_s root buckets = Returns af1 ->
  length af1 = nElements root /\
  forall L, In L (leaves root) ->
    vec_at af1 (elementID L)
    == totalMass L
       * sum_over adm
           (fun pair =>
              if existsb (Z.eqb (elementID L)) (clusterIndices (cluster1 pair))
              then MetricDistanceTermFrac exp_s (centerOfMass (cluster1 pair))
                     (centerOfMass (cluster2 pair))
                   * leaf_mass (cluster2 pair)
              else 0).
Proof.
  intros Hp Hids Hfaces Hbelow Hperm H.
  unfold PremultiplyAf1, MultiplyAfPercolated in H.
  set (ones := repeat 1 (nElements root)) in *.
  destruct (percolateWtDot root ones table_zero) as [[W r]| |] eqn:Ew; try discriminate.
  cbn [bind] in H.
  set (B := cluster_terms MetricDistanceTermFrac exp_s buckets W) in *.
  destruct (percolateJ root 0 ones B) as [[B' b']| |] eqn:Ej; try discriminate.
  cbn [bind] in H. inversion H; subst af1. clear H.
  destruct (@percolateWtDot_spec ones root Hp Hids _ _ _ Ew) as [_ [HW [_ Hin]]].
  destruct (@percolateJ_spec root Hp Hids Hfaces _ _ _ _ _ Ej) as [Hlen [Hb _]].
  split; [rewrite Hlen; unfold ones; apply repeat_length|].
  intros L HL. rewrite (Hb L HL).
  assert (Hmass : forall J, In J (subnodes root) -> W (nodeID J) == leaf_mass J).
  { intros J HJ. rewrite (HW J HJ). unfold leaf_dot, leaf_mass.
    rewrite <- sum_over_Qsum. apply sum_over_ext. intros L' HL'.
    assert (Hone : vec_at ones (elementID L') = 1).
    { unfold vec_at. apply nth_repeat_inside.
      destruct (Hin L' (@leaves_subnode root Hp J L' HJ HL')) as [H0 H1].
      unfold ones in H1. rewrite repeat_length in H1. lia. }
    rewrite Hone. ring. }
  assert (Hsum : sum_over (subnodes root) (B_for B (elementID L))
                 == sum_over adm
                      (fun pair =>
                         if existsb (Z.eqb (elementID L)) (clusterIndices (cluster1 pair))
                         then MetricDistanceTermFrac exp_s (centerOfMass (cluster1 pair))
                                (centerOfMass (cluster2 pair))
                              * leaf_mass (cluster2 pair)
                         else 0)).
  { rewrite (@sum_over_ext _ (subnodes root) (B_for B (elementID L))
               (fun M => sum_over adm
                  (fun pair =>
                     if (nodeID (cluster1 pair) =? nodeID M)%nat
                     then B_for (fun _ => MetricDistanceTermFrac exp_s
                                   (centerOfMass (cluster1 pair))
                                   (centerOfMass (cluster2 pair))
                                 * W (nodeID (cluster2 pair)))
                            (elementID L) M
                     else 0))).
    - rewrite sum_over_swap. apply sum_over_ext. intros pair Hpair.
      destruct (Hbelow pair Hpair) as [H1 H2].
      rewrite (@sum_over_key _ nodeID (subnodes root)
                 (B_for (fun _ => MetricDistanceTermFrac exp_s
                           (centerOfMass (cluster1 pair)) (centerOfMass (cluster2 pair))
                         * W (nodeID (cluster2 pair))) (elementID L))
                 (cluster1 pair) Hids H1).
      unfold B_for.
      destruct (existsb (Z.eqb (elementID L)) (clusterIndices (cluster1 pair)));
        [|reflexivity].
      rewrite (Hmass _ H2). reflexivity.
    - intros M HM. unfold B_for.
      destruct (existsb (Z.eqb (elementID L)) (clusterIndices M)).
      + unfold B. rewrite cluster_terms_spec.
        rewrite (sum_over_perm _ Hperm). apply sum_over_ext. intros pair _.
        unfold pair_term. reflexivity.
      + symmetry. apply sum_over_zero. intros pair _.
        destruct (nodeID (cluster1 pair) =? nodeID M)%nat; reflexivity. }
  rewrite Hsum. ring.
Qed.

(** C3.  Amended.  After the construction of the block cluster tree over a
    tree as [Create6DBVHFromMesh] returns it (numbered, faces pairwise
    different), [Af_1] has one entry for each face, and the entry of the
    face [i] of a leaf is the admissible part of the percolated product of
    the all-ones vector: [area_i] times the sum, over the admissible pairs
    [(I, J)] with [i] in [I], of [k_s] at the two centers of mass times the
    mass of the leaves of [J].  The pairs of the inadmissible list add
    nothing, and the operator [A] of 4.5 is not what is applied. *)
Theorem BlockClusterTree_Af_1_admissible_sums
    (fuel s : nat) (root : BVHNode6D) (bct : BlockClusterTree) :
  well_numbered s root ->
  NoDup (clusterIndices root) ->
  BlockClusterTree_new norm boxContainsPoint MetricDistanceTermFrac exp_s separationCoeff
    fuel root = Returns bct ->
  length (Af_1 bct) = nElements root /\
  forall L, In L (leaves root) ->
    vec_at (Af_1 bct) (elementID L)
    == totalMass L
       * sum_over (admissiblePairs (pairs bct))
           (fun pair =>
              if existsb (Z.eqb (elementID L)) (clusterIndices (cluster1 pair))
              then MetricDistanceTermFrac exp_s (centerOfMass (cluster1 pair))
                     (centerOfMass (cluster2 pair))
                   * leaf_mass (cluster2 pair)
              else 0).
Proof.
  intros [_ [Hp [Hids _]]] Hfaces H. unfold BlockClusterTree_new in H.
  destruct (build_pairs norm boxContainsPoint separationCoeff fuel root) as [l| |] eqn:E;
    try discriminate.
  cbn [bind] in H.
  destruct (OrganizePairsByFirst root (admissiblePairs l)) as [buckets| |] eqn:Eo;
    try discriminate.
  cbn [bind] in H.
  destruct (PremultiplyAf1 MetricDistanceTermFrac exp_s root buckets) as [af1| |] eqn:Ea;
    try discriminate.
  cbn [bind] in H. inversion H; subst bct. simpl.
  assert (Hnd : NoDup (map nodeID (subnodes root)))
    by (rewrite Hids; apply seq_NoDup).
  exact (@PremultiplyAf1_spec root (admissiblePairs l) buckets af1 Hp Hnd Hfaces
           (@build_pairs_below fuel root l E) (@OrganizePairsByFirst_perm root _ _ Eo) Ea).
Qed.

End Af1.

(** The operator [A] of 4.5 takes a constant vector to 0. *)
Lemma spec_A_constant_vector (MetricDistanceTermFrac : Q -> Vector3 -> Vector3 -> Q)
    (faceAreas : Z -> Q) (faceBarycenters : Z -> Vector3) (exp_s : Q)
    (F : list Z) (v : list Q) (i : Z) :
  (forall j, In j F -> vec_at v j == vec_at v i) ->
  spec_A MetricDistanceTermFrac faceAreas faceBarycenters exp_s F v i == 0.
Proof.
  intro H. unfold spec_A, spec_row.
  rewrite sum_over_zero; [ring|].
  intros j Hj. unfold spec_pair_term.
  destruct (i =? j)%Z; [reflexivity|]. rewrite (H j Hj). ring.
Qed.

(** ** The products over the pair lists *)

Lemma vec_at_map_combine (A : Type) (f : A -> Q) (l : list A) (d : A) (i : Z) :
  (0 <= i < Z.of_nat (length l))%Z ->
  vec_at (map f l) i = f (nth (Z.to_nat i) l d).
Proof.
  intro H. unfold vec_at.
  rewrite (nth_indep (map f l) 0 (f d)) by (rewrite length_map; lia).
  apply map_nth.
Qed.

Lemma vec_add_spec (a b : list Q) :
  length a = length b ->
  exists c, vec_add a b = Returns c /\ length c = length a /\
            forall i, (0 <= i)%Z -> vec_at c i == vec_at a i + vec_at b i.
Proof.
  intro Hlen. unfold vec_add. rewrite Hlen, Nat.eqb_refl.
  eexists. split; [reflexivity|]. split.
  - rewrite length_map, length_combine. lia.
  - intros i Hi. unfold vec_at.
    revert b Hlen. generalize (Z.to_nat i). clear i Hi.
    induction a as [|x a IH]; intros n [|y b] Hlen; simpl in *; try discriminate.
    + destruct n; simpl; ring.
    + destruct n as [|n]; [reflexivity|]. apply IH. lia.
Qed.

Section Approx_product.

Variable MetricDistanceTermFrac : Q -> Vector3 -> Vector3 -> Q.
Variable faceAreas : Z -> Q.
Variable faceBarycenters : Z -> Vector3.
Variable exp_s : Q.

Local Abbreviation approx := (AfApproxProduct MetricDistanceTermFrac faceAreas exp_s).
Local Abbreviation kernel_at_centers pair :=
  (MetricDistanceTermFrac exp_s (centerOfMass (cluster1 pair)) (centerOfMass (cluster2 pair))).

Lemma approx_dot_loop (v_mid : list Q) (J : list Z) :
  forall acc,
    (forall j, In j J -> in_vector v_mid j) ->
    exists acc',
      foldM (approx_dot v_mid) (combine (map faceAreas J) J) acc = Returns acc' /\
      acc' == acc + sum_over J (fun j => faceAreas j * vec_at v_mid j).
Proof.
  induction J as [|j rest IH]; intros acc Hin; simpl.
  - exists acc. split; [reflexivity|ring].
  - unfold approx_dot at 1. simpl.
    rewrite (vec_get_in (Hin j (or_introl eq_refl))). cbn [bind].
    destruct (IH (acc + faceAreas j * vec_at v_mid j)) as [acc' [Hrun Hacc]].
    { intros k Hk. apply Hin. right. exact Hk. }
    exists acc'. split; [exact Hrun|]. rewrite Hacc. ring.
Qed.

Lemma approx_add_loop (v_mid : list Q) (a1 aJ : Q) (I : list Z) :
  forall result,
    (forall i, In i I -> in_vector v_mid i /\ in_vector result i) ->
    exists result',
      foldM (approx_add v_mid a1 aJ) (combine (map faceAreas I) I) result
        = Returns result' /\
      length result' = length result /\
      forall f, (0 <= f)%Z ->
        vec_at result' f
        == vec_at result f
           + sum_over I (fun i => if (i =? f)%Z
                                  then faceAreas i * 2 * (a1 * vec_at v_mid i - aJ)
                                  else 0).
Proof.
  induction I as [|i rest IH]; intros result HI.
  - exists result. simpl. repeat split. intros f _. ring.
  - destruct (HI i (or_introl eq_refl)) as [Hv Hr].
    cbn [map combine foldM]. unfold approx_add at 1. cbn [fst snd].
    rewrite (vec_get_in Hv). cbn [bind].
    rewrite (vec_get_in Hr). cbn [bind].
    destruct (@vec_set_in result i
                (vec_at result i + faceAreas i * 2 * (a1 * vec_at v_mid i - aJ)) Hr)
      as [r1 Hset].
    rewrite Hset. cbn [bind].
    destruct (vec_set_Returns _ _ _ Hset) as [_ [Hlen [Hat Hother]]].
    destruct (IH r1) as [result' [Hrun' [Hlen' Hsum]]].
    { intros k Hk. destruct (HI k (or_intror Hk)) as [Hkv Hkr].
      split; [exact Hkv|]. unfold in_vector in *. rewrite Hlen. exact Hkr. }
    exists result'. split; [exact Hrun'|]. split; [congruence|].
    intros f Hf. rewrite (Hsum f Hf). cbn [sum_over].
    destruct (Z.eq_dec i f) as [->|Hne].
    + rewrite Z.eqb_refl, Hat. ring.
    + replace (i =? f)%Z with false by (symmetry; apply Z.eqb_neq; exact Hne).
      rewrite (Hother f Hf) by congruence. ring.
Qed.

Lemma Qsum_map_sum_over (A : Type) (g : A -> Q) (l : list A) :
  Qsum (map g l) == sum_over l g.
Proof. symmetry. apply sum_over_Qsum. Qed.

(** One approximate product: the sums it adds. *)
Lemma AfApproxProduct_spec (pair : ClusterPair) (v_mid result : list Q) :
  (forall i, In i (clusterIndices (cluster1 pair)) ->
     in_vector v_mid i /\ in_vector result i) ->
  (forall j, In j (clusterIndices (cluster2 pair)) -> in_vector v_mid j) ->
  exists result',
    approx pair v_mid result = Returns result' /\
    length result' = length result /\
    forall f, (0 <= f)%Z ->
      vec_at result' f
      == vec_at result f
         + sum_over (clusterIndices (cluster1 pair))
             (fun i => if (i =? f)%Z
                       then 2 * faceAreas i
                            * sum_over (clusterIndices (cluster2 pair))
                                (approx_pair_term faceAreas (kernel_at_centers pair) v_mid i)
                       else 0).
Proof.
  intros HI HJ. unfold AfApproxProduct, fillClusterMasses. cbv zeta.
  destruct (@approx_dot_loop v_mid (clusterIndices (cluster2 pair)) 0 HJ)
    as [aJ [Hrun HaJ]].
  rewrite Hrun. cbn [bind].
  destruct (@approx_add_loop v_mid
              (kernel_at_centers pair * Qsum (map faceAreas (clusterIndices (cluster2 pair))))
              (aJ * kernel_at_centers pair)
              (clusterIndices (cluster1 pair)) result HI)
    as [result' [Hrun' [Hlen Hsum]]].
  exists result'. split; [exact Hrun'|]. split; [exact Hlen|].
  intros f Hf. rewrite (Hsum f Hf).
  apply Qplus_comp; [reflexivity|].
  apply sum_over_ext. intros i _.
  destruct (i =? f)%Z; [|reflexivity].
  rewrite Qsum_map_sum_over, HaJ.
  set (J := clusterIndices (cluster2 pair)).
  set (a := kernel_at_centers pair).
  assert (Hterm : sum_over J (approx_pair_term faceAreas a v_mid i)
                  == a * sum_over J faceAreas * vec_at v_mid i
                     - a * sum_over J (fun j => faceAreas j * vec_at v_mid j)).
  { clear. induction J as [|j rest IH]; simpl; [ring|].
    rewrite IH. unfold approx_pair_term. ring. }
  rewrite Hterm. ring.
Qed.

End Approx_product.

(** *** Faces of the clusters of a tree *)

Lemma clusterIndices_subnode_NoDup (R : BVHNode6D) :
  childless_leaves R -> NoDup (clusterIndices R) ->
  forall M, In M (subnodes R) -> NoDup (clusterIndices M).
Proof.
  induction R as [R IH] using BVHNode6D_tree_ind. intros Hp Hnd M HM.
  rewrite subnodes_eq in HM. destruct HM as [<-|HM]; [exact Hnd|].
  apply in_flat_map in HM. destruct HM as [c [Hc HM]].
  rewrite Forall_forall in IH.
  apply (IH c Hc); [eapply childless_leaves_child; eauto| |exact HM].
  rewrite clusterIndices_eq in Hnd. destruct (nodeType R) eqn:E.
  - rewrite (Hp R (subnodes_self R)) in Hc by (rewrite E; discriminate). destruct Hc.
  - rewrite (Hp R (subnodes_self R)) in Hc by (rewrite E; discriminate). destruct Hc.
  - clear - Hnd Hc. induction (children R) as [|c' rest IHr]; [destruct Hc|].
    simpl in Hnd. destruct (NoDup_app_parts _ _ Hnd) as [H1 [H2 _]].
    destruct Hc as [->|Hc]; [exact H1|]. apply IHr; assumption.
Qed.

Lemma sum_over_map (A B : Type) (h : A -> B) (l : list A) (g : B -> Q) :
  sum_over (map h l) g = sum_over l (fun x => g (h x)).
Proof. induction l as [|x r IH]; simpl; [reflexivity|]. rewrite IH. reflexivity. Qed.

(** The sum of picked terms: one for a face of the list, none otherwise. *)
Lemma sum_over_pick (l : list Z) (g : Z -> Q) (f : Z) :
  NoDup l ->
  sum_over l (fun i => if (i =? f)%Z then g i else 0)
  == if existsb (Z.eqb f) l then g f else 0.
Proof.
  intro Hnd. destruct (existsb (Z.eqb f) l) eqn:E.
  - apply existsb_eqb_In in E. apply sum_over_indicator; assumption.
  - apply sum_over_zero. intros j Hj.
    destruct (j =? f)%Z eqn:Ej; [|reflexivity].
    apply Z.eqb_eq in Ej. subst j.
    apply existsb_eqb_In in Hj. congruence.
Qed.

(** A sum over some of the faces of [F], as a sum over [F]. *)
Lemma sum_over_sub (l F : list Z) (t : Z -> Q) :
  NoDup l -> NoDup F -> incl l F ->
  sum_over l t == sum_over F (fun j => if existsb (Z.eqb j) l then t j else 0).
Proof.
  intros Hl HF. induction Hl as [|x l' Hnotin Hl' IH]; intro Hincl.
  - simpl. symmetry. apply sum_over_zero. intros; reflexivity.
  - cbn [sum_over]. rewrite IH by (intros y Hy; apply Hincl; right; exact Hy).
    rewrite <- (@sum_over_indicator F t x HF (Hincl x (or_introl eq_refl))).
    rewrite <- sum_over_plus. apply sum_over_ext. intros j Hj.
    cbn [existsb]. rewrite (Z.eqb_sym j x).
    destruct (x =? j)%Z eqn:E.
    + apply Z.eqb_eq in E. subst j.
      replace (existsb (Z.eqb x) l') with false; [simpl; ring|].
      symmetry. destruct (existsb (Z.eqb x) l') eqn:Ex; [|reflexivity].
      apply existsb_eqb_In in Ex. contradiction.
    + simpl. ring.
Qed.

Lemma sum_over_count (A : Type) (c : A -> bool) (l : list A) (x : Q) :
  sum_over l (fun p => if c p then x else 0)
  == inject_Z (Z.of_nat (length (filter c l))) * x.
Proof.
  induction l as [|p r IH]; simpl; [ring|].
  rewrite IH. destruct (c p); simpl length.
  - rewrite Nat2Z.inj_succ. unfold Z.succ. rewrite inject_Z_plus. ring.
  - ring.
Qed.

(** *** A product for each pair of a list *)

Section Pair_loops.

Variable v : list Q.
Variable product : ClusterPair -> list Q -> outcome (list Q).
Variable row_of : ClusterPair -> Z -> Q.

Hypothesis product_spec :
  forall pair result,
    (forall i, In i (clusterIndices (cluster1 pair)) -> in_vector v i /\ in_vector result i) ->
    (forall j, In j (clusterIndices (cluster2 pair)) -> in_vector v j) ->
    exists result',
      product pair result = Returns result' /\
      length result' = length result /\
      forall f, (0 <= f)%Z ->
        vec_at result' f
        == vec_at result f
           + sum_over (clusterIndices (cluster1 pair))
               (fun i => if (i =? f)%Z then row_of pair i else 0).

Lemma pairs_loop (root : BVHNode6D) (l : list ClusterPair) :
  childless_leaves root ->
  NoDup (clusterIndices root) ->
  pairs_below root l ->
  faces_inside root v ->
  forall result,
    faces_inside root result ->
    exists result',
      foldM (fun b pair => product pair b) l result = Returns result' /\
      length result' = length result /\
      forall f, (0 <= f)%Z ->
        vec_at result' f
        == vec_at result f
           + sum_over l (fun pair =>
               if existsb (Z.eqb f) (clusterIndices (cluster1 pair))
               then row_of pair f else 0).
Proof using product_spec.
  intros Hp Hnd Hbelow Hv.
  induction l as [|pair rest IH]; intros result Hr.
  - exists result. simpl. repeat split. intros f _. ring.
  - destruct (Hbelow pair (or_introl eq_refl)) as [H1 H2].
    assert (HI : forall i, In i (clusterIndices (cluster1 pair)) ->
                   in_vector v i /\ in_vector result i).
    { intros i Hi. split; [apply Hv|apply Hr];
        exact (@clusterIndices_subnode root Hp (cluster1 pair) i H1 Hi). }
    assert (HJ : forall j, In j (clusterIndices (cluster2 pair)) -> in_vector v j).
    { intros j Hj. apply Hv.
      exact (@clusterIndices_subnode root Hp (cluster2 pair) j H2 Hj). }
    destruct (@product_spec pair result HI HJ) as [r1 [Hrun [Hlen Hsum]]].
    assert (Hr1 : faces_inside root r1).
    { intros f Hf. unfold in_vector. rewrite Hlen. apply Hr. exact Hf. }
    destruct (IH (fun p Hp' => Hbelow p (or_intror Hp')) r1 Hr1)
      as [result' [Hrun' [Hlen' Hsum']]].
    exists result'. cbn [foldM]. rewrite Hrun. cbn [bind].
    split; [exact Hrun'|]. split; [congruence|].
    intros f Hf. rewrite (Hsum' f Hf), (Hsum f Hf). cbn [sum_over].
    rewrite (@sum_over_pick (clusterIndices (cluster1 pair)) (row_of pair) f
               (@clusterIndices_subnode_NoDup root Hp Hnd _ H1)).
    ring.
Qed.

End Pair_loops.

(** *** The block cluster tree of a tree *)

Section Tree_products.

Variable norm : Vector3 -> Q.
Variable boxContainsPoint : BVHNode6D -> Vector3 -> bool.
Variable MetricDistanceTermFrac : Q -> Vector3 -> Vector3 -> Q.
Variable faceAreas : Z -> Q.
Variable faceBarycenters : Z -> Vector3.
Variable exp_s separationCoeff : Q.

Local Abbreviation BCT_new :=
  (BlockClusterTree_new norm boxContainsPoint MetricDistanceTermFrac exp_s separationCoeff).
Local Abbreviation round := (spec_round norm boxContainsPoint separationCoeff).
Local Abbreviation exact_product :=
  (AfFullProduct MetricDistanceTermFrac faceAreas faceBarycenters exp_s).
Local Abbreviation exact_row := (spec_row MetricDistanceTermFrac faceAreas faceBarycenters exp_s).
Local Abbreviation operator_A := (spec_A MetricDistanceTermFrac faceAreas faceBarycenters exp_s).

(** What the constructor has put together. *)
Lemma BlockClusterTree_new_parts (fuel : nat) (root : BVHNode6D) (bct : BlockClusterTree) :
  BCT_new fuel root = Returns bct ->
  tree_root bct = root /\
  build_pairs norm boxContainsPoint separationCoeff fuel root = Returns (pairs bct) /\
  OrganizePairsByFirst root (admissiblePairs (pairs bct))
    = Returns (admissibleByCluster bct) /\
  PremultiplyAf1 MetricDistanceTermFrac exp_s root (admissibleByCluster bct)
    = Returns (Af_1 bct).
Proof.
  intro H. unfold BlockClusterTree_new in H.
  destruct (build_pairs norm boxContainsPoint separationCoeff fuel root) as [l| |] eqn:E;
    try discriminate.
  cbn [bind] in H.
  destruct (OrganizePairsByFirst root (admissiblePairs l)) as [buckets| |] eqn:Eo;
    try discriminate.
  cbn [bind] in H.
  destruct (PremultiplyAf1 MetricDistanceTermFrac exp_s root buckets) as [af1| |] eqn:Ea;
    try discriminate.
  cbn [bind] in H. inversion H; subst bct. simpl. auto.
Qed.

Lemma build_pairs_below_all (fuel : nat) (root : BVHNode6D) (l : PairLists) :
  build_pairs norm boxContainsPoint separationCoeff fuel root = Returns l ->
  pairs_below root (all_pairs l).
Proof.
  intro H. unfold build_pairs in H.
  destruct (@split_loop_spec norm boxContainsPoint separationCoeff fuel _ _ H)
    as [_ [n [Hn _]]].
  rewrite Hn. clear. induction n as [|n IH].
  - simpl. intros p [<-|[]]. simpl. split; apply subnodes_self.
  - rewrite Nat.iter_succ. apply spec_round_below. exact IH.
Qed.

Lemma exact_product_spec (v : list Q) (pair : ClusterPair) (result : list Q) :
  (forall i, In i (clusterIndices (cluster1 pair)) -> in_vector v i /\ in_vector result i) ->
  (forall j, In j (clusterIndices (cluster2 pair)) -> in_vector v j) ->
  exists result',
    exact_product pair v result = Returns result' /\
    length result' = length result /\
    forall f, (0 <= f)%Z ->
      vec_at result' f
      == vec_at result f
         + sum_over (clusterIndices (cluster1 pair))
             (fun i => if (i =? f)%Z
                       then exact_row v (clusterIndices (cluster2 pair)) i else 0).
Proof.
  intros HI HJ. unfold AfFullProduct.
  exact (@full_outer_loop MetricDistanceTermFrac faceAreas faceBarycenters exp_s
           pair v (clusterIndices (cluster1 pair)) result HI HJ).
Qed.

(** The rows of all pairs that have the face [i] in their first cluster
    add up to the row of the operator. *)
Lemma rows_of_cover (root : BVHNode6D) (l : list ClusterPair) (v : list Q) (i : Z) :
  childless_leaves root ->
  NoDup (clusterIndices root) ->
  pairs_below root l ->
  (forall j, In j (clusterIndices root) -> length (filter (covers i j) l) = 1%nat) ->
  sum_over l (fun pair =>
    if existsb (Z.eqb i) (clusterIndices (cluster1 pair))
    then exact_row v (clusterIndices (cluster2 pair)) i else 0)
  == operator_A (clusterIndices root) v i.
Proof.
  intros Hp Hnd Hbelow Hcover. unfold spec_A, spec_row.
  set (t := spec_pair_term MetricDistanceTermFrac faceAreas faceBarycenters exp_s v i).
  rewrite (@sum_over_ext _ l _
             (fun pair => 2 * faceAreas i
                * sum_over (clusterIndices root)
                    (fun j => if covers i j pair then t j else 0))).
  - rewrite sum_over_scale. apply Qmult_comp; [reflexivity|].
    rewrite sum_over_swap. apply sum_over_ext. intros j Hj.
    rewrite sum_over_count, (Hcover j Hj). simpl. ring.
  - intros pair Hpair. destruct (Hbelow pair Hpair) as [_ H2].
    unfold covers.
    destruct (existsb (Z.eqb i) (clusterIndices (cluster1 pair))).
    + apply Qmult_comp; [reflexivity|].
      rewrite (@sum_over_sub (clusterIndices (cluster2 pair)) (clusterIndices root) t
                 (@clusterIndices_subnode_NoDup root Hp Hnd _ H2) Hnd
                 (fun j Hj => @clusterIndices_subnode root Hp _ j H2 Hj)).
      apply sum_over_ext. intros j _. simpl. reflexivity.
    + simpl. rewrite sum_over_zero; [ring|]. intros; reflexivity.
Qed.

(** On the tree of a mesh, the exact products over the admissible pairs
    followed by those over the inadmissible pairs add to the entry of every
    face [i] the entry [(A v)_i] of the operator of the specification,
    [2 area_i sum_(j <> i) area_j k_s(x_i, x_j) (v_i - v_j)] over all faces
    [j] of the tree: the pairs of the two lists split the full double
    sum. *)
Theorem exact_products_give_operator_A
    (fuel s : nat) (root : BVHNode6D) (bct : BlockClusterTree) (v b : list Q) :
  well_numbered s root ->
  NoDup (clusterIndices root) ->
  BCT_new fuel root = Returns bct ->
  faces_inside root v ->
  faces_inside root b ->
  exists b1 b2,
    MultiplyAdmissibleExact MetricDistanceTermFrac faceAreas faceBarycenters exp_s bct v b
      = Returns b1 /\
    MultiplyInadmissible MetricDistanceTermFrac faceAreas faceBarycenters exp_s bct v b1
      = Returns b2 /\
    length b2 = length b /\
    forall i, In i (clusterIndices root) ->
      vec_at b2 i == vec_at b i + operator_A (clusterIndices root) v i.
Proof.
  intros [Hbin [Hp _]] Hnd Hnew Hv Hb.
  destruct (BlockClusterTree_new_parts _ _ Hnew) as [_ [Hbuild _]].
  pose proof (build_pairs_below_all _ _ Hbuild) as Hbelow.
  destruct (@build_pairs_cover norm boxContainsPoint separationCoeff fuel root (pairs bct)
              Hbin Hnd Hbuild) as [_ Hcover].
  assert (Hadm : pairs_below root (admissiblePairs (pairs bct))).
  { intros p Hpin. apply Hbelow. unfold all_pairs. apply in_or_app. left. exact Hpin. }
  assert (Hinadm : pairs_below root (inadmissiblePairs (pairs bct))).
  { intros p Hpin. apply Hbelow. unfold all_pairs. apply in_or_app. right.
    apply in_or_app. left. exact Hpin. }
  destruct (@pairs_loop v (fun pair result => exact_product pair v result)
              (fun pair i => exact_row v (clusterIndices (cluster2 pair)) i)
              (@exact_product_spec v) root _ Hp Hnd Hadm Hv b Hb)
    as [b1 [Hrun1 [Hlen1 Hsum1]]].
  assert (Hz : faces_inside root (repeat 0 (length b1))).
  { intros f Hf. unfold in_vector. rewrite repeat_length, Hlen1. apply Hb. exact Hf. }
  destruct (@pairs_loop v (fun pair result => exact_product pair v result)
              (fun pair i => exact_row v (clusterIndices (cluster2 pair)) i)
              (@exact_product_spec v) root _ Hp Hnd Hinadm Hv _ Hz)
    as [r [Hrun2 [Hlen2 Hsum2]]].
  destruct (@vec_add_spec b1 r) as [b2 [Hadd [Hlen3 Hsum3]]].
  { rewrite Hlen2, repeat_length. reflexivity. }
  exists b1, b2. split; [exact Hrun1|]. split.
  { unfold MultiplyInadmissible. rewrite Hrun2. cbn [bind]. exact Hadd. }
  split; [congruence|].
  intros i Hi.
  assert (Hi0 : (0 <= i)%Z) by (destruct (Hv i Hi) as [H0 _]; exact H0).
  rewrite (Hsum3 i Hi0), (Hsum1 i Hi0), (Hsum2 i Hi0).
  assert (Hzero : vec_at (repeat 0 (length b1)) i == 0).
  { unfold vec_at. destruct (nth_in_or_default (Z.to_nat i) (repeat 0 (length b1)) 0)
      as [Hin|Hd]; [|rewrite Hd; reflexivity].
    apply repeat_spec in Hin. rewrite Hin. reflexivity. }
  rewrite Hzero.
  rewrite <- (@rows_of_cover root (admissiblePairs (pairs bct) ++ inadmissiblePairs (pairs bct))
                v i Hp Hnd).
  - rewrite sum_over_app. ring.
  - intros p Hpin. apply in_app_or in Hpin. destruct Hpin; auto.
  - intros j Hj. apply Hcover; assumption.
Qed.

End Tree_products.

(** *** The percolated product returns *)

Lemma percolateWtDot_returns (v : list Q) (n : BVHNode6D) :
  childless_leaves n ->
  (forall L, In L (leaves n) -> in_vector v (elementID L)) ->
  forall W0, exists W r, percolateWtDot n v W0 = Returns (W, r).
Proof.
  induction n as [n IH] using BVHNode6D_tree_ind. intros Hp Hin W0.
  rewrite percolateWtDot_eq.
  assert (Hloop : forall cs,
    Forall (fun c => childless_leaves c ->
              (forall L, In L (leaves c) -> in_vector v (elementID L)) ->
              forall W0, exists W r, percolateWtDot c v W0 = Returns (W, r)) cs ->
    (forall c, In c cs -> childless_leaves c) ->
    (forall L, In L (flat_map leaves cs) -> in_vector v (elementID L)) ->
    forall W0 a, exists W r, percolateWtDot_children v cs W0 a = Returns (W, r)).
  { clear. induction cs as [|c rest IHrest]; intros Hall Hp Hin W0 a.
    - simpl. eauto.
    - rewrite percolateWtDot_children_cons.
      inversion Hall as [|c' r' Hc Hrest]; subst.
      destruct (Hc (Hp c (or_introl eq_refl))
                  (fun L HL => Hin L (in_or_app _ _ _ (or_introl HL))) W0) as [W1 [r1 E1]].
      rewrite E1. cbn [bind].
      apply IHrest; [exact Hrest|intros; apply Hp; right; assumption|].
      intros L HL. apply Hin. simpl. apply in_or_app. right. exact HL. }
  assert (Hpc : forall c, In c (children n) -> childless_leaves c)
    by (intros c Hc; eapply childless_leaves_child; eauto).
  rewrite leaves_eq in Hin.
  destruct (nodeType n) eqn:Et.
  - destruct (Hloop _ IH Hpc Hin W0 0) as [W [r E]]. rewrite E. cbn [bind]. eauto.
  - rewrite (vec_get_in (Hin n (or_introl eq_refl))). cbn [bind]. eauto.
  - destruct (Hloop _ IH Hpc Hin W0 0) as [W [r E]]. rewrite E. cbn [bind]. eauto.
Qed.

Lemma percolateJ_returns (n : BVHNode6D) :
  childless_leaves n ->
  forall b,
    (forall L, In L (leaves n) -> in_vector b (elementID L)) ->
    forall parentB B0, exists B' b',
      percolateJ n parentB b B0 = Returns (B', b') /\ length b' = length b.
Proof.
  induction n as [n IH] using BVHNode6D_tree_ind. intros Hp b Hin parentB B0.
  rewrite percolateJ_eq. cbv zeta.
  assert (Hloop : forall cs,
    Forall (fun c => childless_leaves c ->
              forall b, (forall L, In L (leaves c) -> in_vector b (elementID L)) ->
              forall parentB B0, exists B' b',
                percolateJ c parentB b B0 = Returns (B', b') /\ length b' = length b) cs ->
    (forall c, In c cs -> childless_leaves c) ->
    forall b, (forall L, In L (flat_map leaves cs) -> in_vector b (elementID L)) ->
    forall nodeB B0, exists B' b',
      percolateJ_children cs nodeB b B0 = Returns (B', b') /\ length b' = length b).
  { clear. induction cs as [|c rest IHrest]; intros Hall Hp b Hin nodeB B0.
    - simpl. eauto.
    - rewrite percolateJ_children_cons.
      inversion Hall as [|c' r' Hc Hrest]; subst.
      destruct (Hc (Hp c (or_introl eq_refl)) b
                  (fun L HL => Hin L (in_or_app _ _ _ (or_introl HL))) nodeB B0)
        as [B1 [b1 [E1 Hlen1]]].
      rewrite E1. cbn [bind].
      destruct (IHrest Hrest (fun c' Hc' => Hp c' (or_intror Hc')) b1) with (nodeB := nodeB)
        (B0 := B1) as [B' [b' [E Hlen]]].
      { intros L HL. unfold in_vector. rewrite Hlen1. apply Hin. simpl.
        apply in_or_app. right. exact HL. }
      exists B', b'. split; [exact E|congruence]. }
  assert (Hpc : forall c, In c (children n) -> childless_leaves c)
    by (intros c Hc; eapply childless_leaves_child; eauto).
  rewrite leaves_eq in Hin.
  destruct (nodeType n) eqn:Et; cbn [bind].
  - apply Hloop; assumption.
  - destruct (@vec_set_in b (elementID n) (totalMass n * (B0 (nodeID n) + parentB))
               (Hin n (or_introl eq_refl))) as [b1 Hset].
    rewrite Hset. cbn [bind].
    rewrite (Hp n (subnodes_self n)) by (rewrite Et; discriminate).
    simpl. exists (table_set B0 (nodeID n) (B0 (nodeID n) + parentB)), b1.
    split; [reflexivity|]. apply (vec_set_Returns _ _ _ Hset).
  - apply Hloop; assumption.
Qed.

Section Percolated_product.

Variable MetricDistanceTermFrac : Q -> Vector3 -> Vector3 -> Q.
Variable exp_s : Q.

Local Abbreviation percolated := (MultiplyAfPercolated MetricDistanceTermFrac exp_s).
Local Abbreviation kernel_at_centers pair :=
  (MetricDistanceTermFrac exp_s (centerOfMass (cluster1 pair)) (centerOfMass (cluster2 pair))).

Lemma MultiplyAfPercolated_returns (root : BVHNode6D) (buckets : list (list ClusterPair))
    (v b : list Q) :
  childless_leaves root ->
  faces_inside root v -> faces_inside root b ->
  exists b', percolated root buckets v b = Returns b'.
Proof.
  intros Hp Hv Hb. unfold MultiplyAfPercolated.
  assert (Hleaf : forall u, faces_inside root u ->
            forall L, In L (leaves root) -> in_vector u (elementID L)).
  { intros u Hu L HL. apply Hu. rewrite (clusterIndices_leaves Hp).
    apply in_map. exact HL. }
  destruct (@percolateWtDot_returns v root Hp (Hleaf v Hv) table_zero) as [W [r E]].
  rewrite E. cbn [bind].
  destruct (@percolateJ_returns root Hp b (Hleaf b Hb) 0
              (cluster_terms MetricDistanceTermFrac exp_s buckets W)) as [B' [b' [E' _]]].
  rewrite E'. cbn [bind]. eauto.
Qed.

(** The entries the percolated product writes. *)
Lemma MultiplyAfPercolated_spec (root : BVHNode6D) (adm : list ClusterPair)
    (buckets : list (list ClusterPair)) (v b b' : list Q) :
  childless_leaves root ->
  NoDup (map nodeID (subnodes root)) ->
  NoDup (clusterIndices root) ->
  pairs_below root adm ->
  Permutation (concat buckets) adm ->
  percolated root buckets v b = Returns b' ->
  length b' = length b /\
  (forall L, In L (leaves root) ->
     vec_at b' (elementID L)
     == totalMass L
        * sum_over adm
            (fun pair =>
               if existsb (Z.eqb (elementID L)) (clusterIndices (cluster1 pair))
               then kernel_at_centers pair * leaf_dot v (cluster2 pair)
               else 0)) /\
  (forall f, (0 <= f)%Z -> ~ In f (clusterIndices root) -> vec_at b' f = vec_at b f).
Proof.
  intros Hp Hids Hfaces Hbelow Hperm H.
  unfold MultiplyAfPercolated in H.
  destruct (percolateWtDot root v table_zero) as [[W r]| |] eqn:Ew; try discriminate.
  cbn [bind] in H.
  set (B := cluster_terms MetricDistanceTermFrac exp_s buckets W) in *.
  destruct (percolateJ root 0 b B) as [[B' b'']| |] eqn:Ej; try discriminate.
  cbn [bind] in H. inversion H; subst b''. clear H.
  destruct (@percolateWtDot_spec v root Hp Hids _ _ _ Ew) as [_ [HW _]].
  destruct (@percolateJ_spec root Hp Hids Hfaces _ _ _ _ _ Ej) as [Hlen [Hb [Hkeep _]]].
  split; [exact Hlen|]. split; [|exact Hkeep].
  intros L HL. rewrite (Hb L HL).
  assert (Hsum : sum_over (subnodes root) (B_for B (elementID L))
                 == sum_over adm
                      (fun pair =>
                         if existsb (Z.eqb (elementID L)) (clusterIndices (cluster1 pair))
                         then kernel_at_centers pair * leaf_dot v (cluster2 pair)
                         else 0)).
  { rewrite (@sum_over_ext _ (subnodes root) (B_for B (elementID L))
               (fun M => sum_over adm
                  (fun pair =>
                     if (nodeID (cluster1 pair) =? nodeID M)%nat
                     then B_for (fun _ => kernel_at_centers pair * W (nodeID (cluster2 pair)))
                            (elementID L) M
                     else 0))).
    - rewrite sum_over_swap. apply sum_over_ext. intros pair Hpair.
      destruct (Hbelow pair Hpair) as [H1 H2].
      rewrite (@sum_over_key _ nodeID (subnodes root)
                 (B_for (fun _ => kernel_at_centers pair * W (nodeID (cluster2 pair)))
                    (elementID L))
                 (cluster1 pair) Hids H1).
      unfold B_for.
      destruct (existsb (Z.eqb (elementID L)) (clusterIndices (cluster1 pair)));
        [|reflexivity].
      rewrite (HW _ H2). reflexivity.
    - intros M HM. unfold B_for.
      destruct (existsb (Z.eqb (elementID L)) (clusterIndices M)).
      + unfold B. rewrite cluster_terms_spec.
        rewrite (sum_over_perm _ Hperm). apply sum_over_ext. intros pair _.
        unfold pair_term. reflexivity.
      + symmetry. apply sum_over_zero. intros pair _.
        destruct (nodeID (cluster1 pair) =? nodeID M)%nat; reflexivity. }
  rewrite Hsum. ring.
Qed.

End Percolated_product.

(** *** The approximate products and the percolated product agree *)

Lemma sum_over_combination (A : Type) (l : list A) (g h : A -> Q) (x y : Q) :
  sum_over l (fun p => x * g p - y * h p) == x * sum_over l g - y * sum_over l h.
Proof. induction l as [|p r IH]; simpl; [ring|]. rewrite IH. ring. Qed.

Lemma nth_combine (A B : Type) (a : list A) (c : list B) (da : A) (dc : B) (n : nat) :
  length a = length c ->
  nth n (combine a c) (da, dc) = (nth n a da, nth n c dc).
Proof. intro H. apply combine_nth. exact H. Qed.

Section Leaf_sums.

Variable faceAreas : Z -> Q.

(** With the areas of the faces as masses of the leaves, the sums over the
    leaves of a cluster are sums over its faces. *)
Lemma leaf_sums_over_faces (root J : BVHNode6D) (v : list Q) :
  childless_leaves root ->
  masses_are_areas faceAreas root ->
  In J (subnodes root) ->
  leaf_mass J == sum_over (clusterIndices J) faceAreas /\
  leaf_dot v J == sum_over (clusterIndices J) (fun j => faceAreas j * vec_at v j).
Proof.
  intros Hp Hm HJ.
  assert (HpJ : childless_leaves J)
    by (intros N HN; apply Hp; eapply subnodes_trans; eauto).
  rewrite (clusterIndices_leaves HpJ), !sum_over_map.
  unfold leaf_mass, leaf_dot. rewrite <- sum_over_Qsum.
  split; apply sum_over_ext; intros L HL;
    rewrite (Hm L (@leaves_subnode root Hp J L HJ HL)); reflexivity.
Qed.

End Leaf_sums.

Section Approx_and_percolated.

Variable norm : Vector3 -> Q.
Variable boxContainsPoint : BVHNode6D -> Vector3 -> bool.
Variable MetricDistanceTermFrac : Q -> Vector3 -> Vector3 -> Q.
Variable faceAreas : Z -> Q.
Variable exp_s separationCoeff : Q.

Local Abbreviation BCT_new :=
  (BlockClusterTree_new norm boxContainsPoint MetricDistanceTermFrac exp_s separationCoeff).
Local Abbreviation kernel_at_centers pair :=
  (MetricDistanceTermFrac exp_s (centerOfMass (cluster1 pair)) (centerOfMass (cluster2 pair))).
Local Abbreviation approx_row v pair i :=
  (2 * faceAreas i
   * sum_over (clusterIndices (cluster2 pair))
       (approx_pair_term faceAreas (kernel_at_centers pair) v i)).

(** The percolated product in terms of the faces. *)
Lemma percolated_on_faces (root : BVHNode6D) (adm : list ClusterPair)
    (buckets : list (list ClusterPair)) (v b : list Q) :
  childless_leaves root ->
  NoDup (map nodeID (subnodes root)) ->
  NoDup (clusterIndices root) ->
  masses_are_areas faceAreas root ->
  pairs_below root adm ->
  Permutation (concat buckets) adm ->
  faces_inside root v ->
  faces_inside root b ->
  exists b',
    MultiplyAfPercolated MetricDistanceTermFrac exp_s root buckets v b = Returns b' /\
    length b' = length b /\
    (forall i, In i (clusterIndices root) ->
       vec_at b' i
       == faceAreas i
          * sum_over adm
              (fun pair =>
                 if existsb (Z.eqb i) (clusterIndices (cluster1 pair))
                 then kernel_at_centers pair
                      * sum_over (clusterIndices (cluster2 pair))
                          (fun j => faceAreas j * vec_at v j)
                 else 0)) /\
    (forall f, (0 <= f)%Z -> ~ In f (clusterIndices root) -> vec_at b' f = vec_at b f).
Proof.
  intros Hp Hnodes Hnd Hm Hbelow Hperm Hv Hb.
  destruct (@MultiplyAfPercolated_returns MetricDistanceTermFrac exp_s root
              buckets v b Hp Hv Hb) as [b' Hrun].
  destruct (@MultiplyAfPercolated_spec MetricDistanceTermFrac exp_s root _ _ v b b'
              Hp Hnodes Hnd Hbelow Hperm Hrun) as [Hlen [Hentry Hkeep]].
  exists b'. split; [exact Hrun|]. split; [exact Hlen|]. split; [|exact Hkeep].
  intros i Hi. rewrite (clusterIndices_leaves Hp) in Hi.
  apply in_map_iff in Hi. destruct Hi as [L [<- HL]].
  rewrite (Hentry L HL), (Hm L HL).
  apply Qmult_comp; [reflexivity|].
  apply sum_over_ext. intros pair Hpair.
  destruct (existsb (Z.eqb (elementID L)) (clusterIndices (cluster1 pair))); [|reflexivity].
  destruct (Hbelow pair Hpair) as [_ H2].
  destruct (@leaf_sums_over_faces faceAreas root (cluster2 pair) v Hp Hm H2) as [_ Hdot].
  rewrite Hdot. reflexivity.
Qed.

(** The percolated product of the block cluster tree of a mesh returns, and
    it writes to the entry of every face [i] the area of [i] times the sum,
    over the admissible pairs [(I, J)] with [i] in [I], of the kernel at the
    two centers of mass times [sum_(j in J) area_j v_j]; the entries that
    are not faces of the tree are left as they were. *)
Theorem MultiplyAfPercolated_cluster_sums
    (fuel s : nat) (root : BVHNode6D) (bct : BlockClusterTree) (v b : list Q) :
  well_numbered s root ->
  NoDup (clusterIndices root) ->
  masses_are_areas faceAreas root ->
  BCT_new fuel root = Returns bct ->
  faces_inside root v ->
  faces_inside root b ->
  exists b',
    MultiplyAfPercolated MetricDistanceTermFrac exp_s (tree_root bct)
      (admissibleByCluster bct) v b = Returns b' /\
    length b' = length b /\
    (forall i, In i (clusterIndices root) ->
       vec_at b' i
       == faceAreas i
          * sum_over (admissiblePairs (pairs bct))
              (fun pair =>
                 if existsb (Z.eqb i) (clusterIndices (cluster1 pair))
                 then kernel_at_centers pair
                      * sum_over (clusterIndices (cluster2 pair))
                          (fun j => faceAreas j * vec_at v j)
                 else 0)) /\
    (forall f, (0 <= f)%Z -> ~ In f (clusterIndices root) -> vec_at b' f = vec_at b f).
Proof.
  intros [_ [Hp [Hids _]]] Hnd Hm Hnew Hv Hb.
  destruct (BlockClusterTree_new_parts _ _ _ _ _ _ _ Hnew) as [Hroot [Hbuild [Horg _]]].
  rewrite Hroot.
  assert (Hnodes : NoDup (map nodeID (subnodes root)))
    by (rewrite Hids; apply seq_NoDup).
  apply percolated_on_faces; try assumption.
  - exact (@build_pairs_below norm boxContainsPoint separationCoeff fuel root _ Hbuild).
  - exact (OrganizePairsByFirst_perm _ _ Horg).
Qed.

(** [MultiplyAdmissiblePercolated] computes what [MultiplyAdmissible] adds
    to a zero vector: on the block cluster tree of a mesh and for vectors
    with one entry for each face, both return, and the entry of every face
    [i] is, in both, the sum over the admissible pairs [(I, J)] with [i] in
    [I] of [2 area_i sum_(j in J) area_j k_s(I^c, J^c) (v_i - v_j)]. *)
Theorem MultiplyAdmissiblePercolated_is_MultiplyAdmissible
    (fuel s : nat) (root : BVHNode6D) (bct : BlockClusterTree) (v b : list Q) :
  well_numbered s root ->
  NoDup (clusterIndices root) ->
  masses_are_areas faceAreas root ->
  BCT_new fuel root = Returns bct ->
  faces_inside root v ->
  length v = nElements root ->
  length b = nElements root ->
  exists bp ba,
    MultiplyAdmissiblePercolated MetricDistanceTermFrac exp_s bct v b = Returns bp /\
    MultiplyAdmissible MetricDistanceTermFrac faceAreas exp_s bct v
      (repeat 0 (nElements root)) = Returns ba /\
    forall i, In i (clusterIndices root) ->
      vec_at bp i == vec_at ba i /\
      vec_at ba i
      == sum_over (admissiblePairs (pairs bct))
           (fun pair =>
              if existsb (Z.eqb i) (clusterIndices (cluster1 pair))
              then approx_row v pair i else 0).
Proof.
  intros Hwn Hnd Hm Hnew Hv Hlenv Hlenb.
  pose proof Hwn as [_ [Hp [Hids _]]].
  assert (Hinside : forall u, length u = nElements root -> faces_inside root u).
  { intros u Hu f Hf. unfold in_vector. rewrite Hu, <- Hlenv. apply Hv. exact Hf. }
  destruct (BlockClusterTree_new_parts _ _ _ _ _ _ _ Hnew) as [Hroot [Hbuild [Horg Haf1]]].
  assert (Hnodes : NoDup (map nodeID (subnodes root)))
    by (rewrite Hids; apply seq_NoDup).
  pose proof (@build_pairs_below norm boxContainsPoint separationCoeff fuel root _ Hbuild)
    as Hbelow.
  pose proof (OrganizePairsByFirst_perm _ _ Horg) as Hperm.
  destruct (@PremultiplyAf1_spec MetricDistanceTermFrac exp_s root _ _ _
              Hp Hnodes Hnd Hbelow Hperm Haf1) as [Hlen1 Hones].
  destruct (@percolated_on_faces root _ _ v b Hp Hnodes Hnd Hm Hbelow Hperm Hv
              (Hinside b Hlenb)) as [b1 [Hrun [Hlenb1 [Hb1 _]]]].
  (* the approximate products *)
  destruct (@pairs_loop v
              (fun pair result =>
                 AfApproxProduct MetricDistanceTermFrac faceAreas exp_s pair v result)
              (fun pair i => approx_row v pair i)
              (fun pair result =>
                 @AfApproxProduct_spec MetricDistanceTermFrac faceAreas exp_s pair v result)
              root _ Hp Hnd Hbelow Hv (repeat 0 (nElements root))
              (Hinside _ (repeat_length _ _)))
    as [ba [Hruna [Hlena Hsuma]]].
  eexists. exists ba. split; [|split; [exact Hruna|]].
  - unfold MultiplyAdmissiblePercolated. rewrite Hroot, Hrun. cbn [bind].
    replace ((length (Af_1 bct) =? length v)%nat && (length v =? length b1)%nat)
      with true; [reflexivity|].
    symmetry. apply andb_true_iff. split; apply Nat.eqb_eq; congruence.
  - intros i Hi.
    assert (Hi0 : (0 <= i < Z.of_nat (nElements root))%Z).
    { destruct (Hv i Hi) as [H0 H1]. rewrite Hlenv in H1. lia. }
    assert (Hba : vec_at ba i
                  == sum_over (admissiblePairs (pairs bct))
                       (fun pair =>
                          if existsb (Z.eqb i) (clusterIndices (cluster1 pair))
                          then approx_row v pair i else 0)).
    { rewrite (Hsuma i (proj1 Hi0)).
      assert (Hz : vec_at (repeat 0 (nElements root)) i == 0).
      { unfold vec_at.
        destruct (nth_in_or_default (Z.to_nat i) (repeat 0 (nElements root)) 0)
          as [Hin|Hd]; [|rewrite Hd; reflexivity].
        apply repeat_spec in Hin. rewrite Hin. reflexivity. }
      rewrite Hz. ring. }
    split; [|exact Hba]. rewrite Hba.
    rewrite (@vec_at_map_combine _ _ _ (0, (0, 0)) i)
      by (rewrite !length_combine; lia).
    rewrite !nth_combine by (rewrite ?length_combine; lia).
    cbn [fst snd]. fold (vec_at (Af_1 bct) i) (vec_at v i) (vec_at b1 i).
    pose proof Hi as HiL. rewrite (clusterIndices_leaves Hp) in HiL.
    apply in_map_iff in HiL. destruct HiL as [L [HeL HL]].
    rewrite <- HeL at 1 2. rewrite (Hones L HL), HeL, (Hb1 i Hi), (Hm L HL), HeL.
    set (adm := admissiblePairs (pairs bct)).
    rewrite (@sum_over_ext _ adm
               (fun pair =>
                  if existsb (Z.eqb i) (clusterIndices (cluster1 pair))
                  then approx_row v pair i else 0)
               (fun pair =>
                  (2 * faceAreas i * vec_at v i)
                  * (if existsb (Z.eqb i) (clusterIndices (cluster1 pair))
                     then kernel_at_centers pair * leaf_mass (cluster2 pair) else 0)
                  - (2 * faceAreas i)
                    * (if existsb (Z.eqb i) (clusterIndices (cluster1 pair))
                       then kernel_at_centers pair
                            * sum_over (clusterIndices (cluster2 pair))
                                (fun j => faceAreas j * vec_at v j)
                       else 0))).
    + rewrite sum_over_combination. ring.
    + intros pair Hpair.
      destruct (existsb (Z.eqb i) (clusterIndices (cluster1 pair))); [|ring].
      destruct (Hbelow pair Hpair) as [_ H2].
      destruct (@leaf_sums_over_faces faceAreas root (cluster2 pair) v Hp Hm H2)
        as [Hmass _].
      rewrite Hmass.
      set (J := clusterIndices (cluster2 pair)).
      set (a := kernel_at_centers pair).
      assert (Hterm : sum_over J (approx_pair_term faceAreas a v i)
                      == a * sum_over J faceAreas * vec_at v i
                         - a * sum_over J (fun j => faceAreas j * vec_at v j)).
      { clear. induction J as [|j rest IH]; simpl; [ring|].
        rewrite IH. unfold approx_pair_term. ring. }
      rewrite Hterm. ring.
Qed.

End Approx_and_percolated.

(** *** One approximate product *)

(** With all faces of the two clusters inside the vectors,
    [AfApproxProduct] returns; it leaves the entry of every face outside the
    first cluster as it was, and with pairwise different faces in the first
    cluster it adds to the entry of each face [i] of it
    [2 area_i sum_(j in J) area_j k_s(I^c, J^c) (v_i - v_j)], the kernel
    taken once, at the centers of mass of the two clusters. *)
Theorem AfApproxProduct_adds_center_rows
    (MetricDistanceTermFrac : Q -> Vector3 -> Vector3 -> Q) (faceAreas : Z -> Q) (exp_s : Q)
    (pair : ClusterPair) (v_mid result : list Q) :
  (forall i, In i (clusterIndices (cluster1 pair)) ->
     in_vector v_mid i /\ in_vector result i) ->
  (forall j, In j (clusterIndices (cluster2 pair)) -> in_vector v_mid j) ->
  exists result',
    AfApproxProduct MetricDistanceTermFrac faceAreas exp_s pair v_mid result
      = Returns result' /\
    length result' = length result /\
    (forall f, (0 <= f)%Z -> ~ In f (clusterIndices (cluster1 pair)) ->
       vec_at result' f == vec_at result f) /\
    (NoDup (clusterIndices (cluster1 pair)) ->
     forall i, In i (clusterIndices (cluster1 pair)) ->
       vec_at result' i
       == vec_at result i
          + 2 * faceAreas i
            * sum_over (clusterIndices (cluster2 pair))
                (fun j => faceAreas j
                          * MetricDistanceTermFrac exp_s (centerOfMass (cluster1 pair))
                              (centerOfMass (cluster2 pair))
                          * (vec_at v_mid i - vec_at v_mid j))).
Proof.
  intros HI HJ.
  destruct (@AfApproxProduct_spec MetricDistanceTermFrac faceAreas exp_s pair v_mid result
              HI HJ) as [result' [Hrun [Hlen Hsum]]].
  exists result'. split; [exact Hrun|]. split; [exact Hlen|]. split.
  - intros f Hf Hnotin. rewrite (Hsum f Hf).
    rewrite sum_over_zero; [ring|].
    intros j Hj. replace (j =? f)%Z with false; [reflexivity|].
    symmetry. apply Z.eqb_neq. intro; subst. contradiction.
  - intros Hnd i Hi.
    assert (Hi0 : (0 <= i)%Z) by (destruct (HI i Hi) as [[H0 _] _]; exact H0).
    rewrite (Hsum i Hi0), (sum_over_pick _ _ Hnd).
    rewrite (proj2 (existsb_eqb_In _ _) Hi). reflexivity.
Qed.

(** *** The buckets of [OrganizePairsByFirst] *)

Lemma push_bucket_spec (buckets : list (list ClusterPair)) (i : nat) (pair : ClusterPair) :
  (i < length buckets)%nat ->
  exists buckets',
    push_bucket buckets i pair = Some buckets' /\
    length buckets' = length buckets /\
    forall k, nth k buckets' [] = if (i =? k)%nat then nth k buckets [] ++ [pair]
                                  else nth k buckets [].
Proof.
  revert i. induction buckets as [|b rest IH]; intros i Hi; simpl in Hi; [lia|].
  destruct i as [|i]; simpl.
  - eexists. split; [reflexivity|]. split; [reflexivity|].
    intros [|k]; reflexivity.
  - destruct (IH i) as [rest' [E [Hlen Hnth]]]; [lia|].
    rewrite E. eexists. split; [reflexivity|]. split; [simpl; congruence|].
    intros [|k]; [reflexivity|]. simpl. apply Hnth.
Qed.

Lemma push_bucket_outside (buckets : list (list ClusterPair)) (i : nat) (pair : ClusterPair) :
  (length buckets <= i)%nat -> push_bucket buckets i pair = None.
Proof.
  revert i. induction buckets as [|b rest IH]; intros i Hi; [destruct i; reflexivity|].
  simpl in Hi. destruct i as [|i]; [lia|]. simpl. rewrite IH by lia. reflexivity.
Qed.

Lemma bucket_loop (adm : list ClusterPair) :
  forall b0,
    (forall p, In p adm -> (nodeID (cluster1 p) < length b0)%nat) ->
    exists buckets,
      foldM (fun buckets pair =>
               of_option (push_bucket buckets (nodeID (cluster1 pair)) pair)) adm b0
        = Returns buckets /\
      length buckets = length b0 /\
      forall k, nth k buckets []
                = nth k b0 [] ++ filter (fun p => (nodeID (cluster1 p) =? k)%nat) adm.
Proof.
  induction adm as [|p rest IH]; intros b0 Hin.
  - exists b0. simpl. split; [reflexivity|]. split; [reflexivity|].
    intro k. rewrite app_nil_r. reflexivity.
  - destruct (@push_bucket_spec b0 (nodeID (cluster1 p)) p (Hin p (or_introl eq_refl)))
      as [b1 [E [Hlen Hnth]]].
    destruct (IH b1) as [buckets [Hrun [Hlen' Hnth']]].
    { intros q Hq. rewrite Hlen. apply Hin. right. exact Hq. }
    exists buckets. cbn [foldM]. rewrite E. cbn [of_option bind].
    split; [exact Hrun|]. split; [congruence|].
    intro k. rewrite Hnth', Hnth. cbn [filter].
    destruct (nodeID (cluster1 p) =? k)%nat; [rewrite <- app_assoc|]; reflexivity.
Qed.

Lemma bucket_loop_aborts (adm : list ClusterPair) :
  forall b0 p,
    In p adm -> (length b0 <= nodeID (cluster1 p))%nat ->
    foldM (fun buckets pair =>
             of_option (push_bucket buckets (nodeID (cluster1 pair)) pair)) adm b0
      = Aborts.
Proof.
  induction adm as [|q rest IH]; intros b0 p Hin Hout; [destruct Hin|].
  cbn [foldM].
  destruct (push_bucket b0 (nodeID (cluster1 q)) q) as [b1|] eqn:E; [|reflexivity].
  cbn [of_option bind].
  destruct Hin as [->|Hin].
  - rewrite push_bucket_outside in E by exact Hout. discriminate.
  - apply (IH b1 p Hin).
    destruct (Nat.lt_ge_cases (nodeID (cluster1 q)) (length b0)) as [Hlt|Hge].
    + destruct (@push_bucket_spec b0 _ q Hlt) as [b1' [E' [Hlen _]]].
      rewrite E in E'. inversion E'; subst. lia.
    + rewrite push_bucket_outside in E by exact Hge. discriminate.
Qed.

(** [OrganizePairsByFirst] makes one bucket for each of the
    [numNodesInBranch] node ids of the root.  When the id of the first
    cluster of every pair is below that number, bucket [k] holds the pairs
    whose first cluster has the id [k], in their order in the admissible
    list; when one id is not, the write is outside the vector. *)
Theorem OrganizePairsByFirst_buckets (root : BVHNode6D) (adm : list ClusterPair) :
  ((forall p, In p adm -> (nodeID (cluster1 p) < numNodesInBranch root)%nat) ->
   exists buckets,
     OrganizePairsByFirst root adm = Returns buckets /\
     length buckets = numNodesInBranch root /\
     forall k, nth k buckets [] = filter (fun p => (nodeID (cluster1 p) =? k)%nat) adm) /\
  ((exists p, In p adm /\ (numNodesInBranch root <= nodeID (cluster1 p))%nat) ->
   OrganizePairsByFirst root adm = Aborts).
Proof.
  unfold OrganizePairsByFirst. split.
  - intro Hin.
    destruct (@bucket_loop adm (repeat [] (numNodesInBranch root))) as [buckets [Hrun [Hlen Hnth]]].
    { intros p Hp. rewrite repeat_length. apply Hin. exact Hp. }
    exists buckets. split; [exact Hrun|]. split; [rewrite Hlen; apply repeat_length|].
    intro k. rewrite Hnth.
    replace (nth k (repeat [] (numNodesInBranch root)) []) with (@nil ClusterPair);
      [reflexivity|].
    symmetry. destruct (nth_in_or_default k (repeat (@nil ClusterPair) (numNodesInBranch root)) [])
      as [H|H]; [apply repeat_spec in H|]; exact H.
  - intros [p [Hp Hout]]. apply (@bucket_loop_aborts adm _ p Hp).
    rewrite repeat_length. exact Hout.
Qed.

(** *** What the two pair lists hold *)

Section Pair_lists.

Variable norm : Vector3 -> Q.
Variable boxContainsPoint : BVHNode6D -> Vector3 -> bool.
Variable MetricDistanceTermFrac : Q -> Vector3 -> Vector3 -> Q.
Variable exp_s separationCoeff : Q.

Local Abbreviation BCT_new :=
  (BlockClusterTree_new norm boxContainsPoint MetricDistanceTermFrac exp_s separationCoeff).
Local Abbreviation round := (spec_round norm boxContainsPoint separationCoeff).
Local Abbreviation verdict_is := (has_verdict norm boxContainsPoint separationCoeff).
Local Abbreviation admissible := (isPairAdmissible norm boxContainsPoint).

Lemma rounds_keep_verdicts (n : nat) (root : BVHNode6D) :
  let l := Nat.iter n round (mkPairLists [] [] [mkClusterPair root root]) in
  (forall p, In p (admissiblePairs l) -> verdict_is MadeAdmissible p = true) /\
  (forall p, In p (inadmissiblePairs l) -> verdict_is MadeInadmissible p = true).
Proof.
  clear MetricDistanceTermFrac exp_s.
  induction n as [|n IH].
  - simpl. split; intros p [].
  - cbv zeta in *. rewrite Nat.iter_succ. destruct IH as [IHa IHi].
    unfold spec_round at 1 3. simpl. split; intros p Hp; apply in_app_or in Hp;
      destruct Hp as [Hp|Hp]; auto; apply filter_In in Hp; tauto.
Qed.

(** When the build loop has ended, every pair of the admissible list
    passes [isPairAdmissible], so its two clusters are different nodes, and
    neither side is empty nor are both single faces; every pair of the
    inadmissible list is small enough ([|I| <= 1], [|J| <= 1] or
    [|I| + |J| <= 8]), has no empty side, and is a pair of two single faces
    or fails [isPairAdmissible]. *)
Theorem build_pairs_lists_classified (fuel : nat) (root : BVHNode6D) (l : PairLists) :
  build_pairs norm boxContainsPoint separationCoeff fuel root = Returns l ->
  (forall p, In p (admissiblePairs l) ->
     admissible p separationCoeff = true /\
     nodeID (cluster1 p) <> nodeID (cluster2 p) /\
     (0 < nElements (cluster1 p))%nat /\ (0 < nElements (cluster2 p))%nat /\
     ((1 < nElements (cluster1 p))%nat \/ (1 < nElements (cluster2 p))%nat)) /\
  (forall p, In p (inadmissiblePairs l) ->
     isPairSmallEnough p = true /\
     (0 < nElements (cluster1 p))%nat /\ (0 < nElements (cluster2 p))%nat /\
     ((nElements (cluster1 p) = 1%nat /\ nElements (cluster2 p) = 1%nat) \/
      admissible p separationCoeff = false)).
Proof.
  intro H. unfold build_pairs in H.
  destruct (@split_loop_spec norm boxContainsPoint separationCoeff fuel _ _ H)
    as [_ [n [Hn _]]].
  destruct (rounds_keep_verdicts n root) as [Ha Hi]. rewrite <- Hn in Ha, Hi.
  split; intros p Hp; [specialize (Ha p Hp)|specialize (Hi p Hp)].
  - unfold has_verdict, spec_classify in Ha.
    rewrite <- (isPairAdmissible_spec norm boxContainsPoint p separationCoeff) in Ha.
    destruct ((nElements (cluster1 p) =? 0)%nat || (nElements (cluster2 p) =? 0)%nat)
      eqn:E0; [discriminate|].
    destruct ((nElements (cluster1 p) =? 1)%nat && (nElements (cluster2 p) =? 1)%nat)
      eqn:E1; [discriminate|].
    destruct (admissible p separationCoeff) eqn:Ea;
      [|destruct (_ || _ || _); discriminate].
    apply orb_false_iff in E0. destruct E0 as [E01 E02].
    apply Nat.eqb_neq in E01. apply Nat.eqb_neq in E02.
    apply andb_false_iff in E1.
    split; [reflexivity|]. split.
    + unfold isPairAdmissible, same_node in Ea.
      destruct (nodeID (cluster1 p) =? nodeID (cluster2 p))%nat eqn:En;
        [discriminate|apply Nat.eqb_neq; exact En].
    + split; [lia|]. split; [lia|].
      destruct E1 as [E1|E1]; apply Nat.eqb_neq in E1; [left|right]; lia.
  - unfold has_verdict, spec_classify in Hi.
    rewrite <- (isPairAdmissible_spec norm boxContainsPoint p separationCoeff) in Hi.
    unfold isPairSmallEnough. cbv zeta.
    destruct ((nElements (cluster1 p) =? 0)%nat || (nElements (cluster2 p) =? 0)%nat)
      eqn:E0; [discriminate|].
    apply orb_false_iff in E0. destruct E0 as [E01 E02].
    apply Nat.eqb_neq in E01. apply Nat.eqb_neq in E02.
    destruct ((nElements (cluster1 p) =? 1)%nat && (nElements (cluster2 p) =? 1)%nat)
      eqn:E1.
    + apply andb_true_iff in E1. destruct E1 as [E11 E12].
      apply Nat.eqb_eq in E11. apply Nat.eqb_eq in E12.
      rewrite E11, E12. split; [reflexivity|]. split; [lia|]. split; [lia|]. left. auto.
    + destruct (admissible p separationCoeff) eqn:Ea; [discriminate|].
      destruct ((nElements (cluster1 p) <=? 1)%nat || (nElements (cluster2 p) <=? 1)%nat
                || (nElements (cluster1 p) + nElements (cluster2 p) <=? 8)%nat) eqn:Es;
        [|discriminate].
      split; [reflexivity|]. split; [lia|]. split; [lia|]. right. reflexivity.
Qed.

(** *** The constructor returns *)

Lemma OrganizePairsByFirst_buckets_aux (root : BVHNode6D) (adm : list ClusterPair) :
  (forall p, In p adm -> (nodeID (cluster1 p) < numNodesInBranch root)%nat) ->
  exists buckets,
    OrganizePairsByFirst root adm = Returns buckets /\
    length buckets = numNodesInBranch root.
Proof.
  intro Hin. unfold OrganizePairsByFirst.
  destruct (@bucket_loop adm (repeat [] (numNodesInBranch root))) as [buckets [Hrun [Hlen _]]].
  { intros p Hp. rewrite repeat_length. apply Hin. exact Hp. }
  exists buckets. split; [exact Hrun|]. rewrite Hlen. apply repeat_length.
Qed.

(** The constructor returns on a tree numbered from 0 whose faces are
    below the number of its faces. *)
Lemma constructor_returns (fuel : nat) (root : BVHNode6D) :
  well_numbered 0 root ->
  (forall f, In f (clusterIndices root) -> (0 <= f < Z.of_nat (nElements root))%Z) ->
  (height root <= fuel)%nat ->
  exists bct,
    BCT_new fuel root = Returns bct /\
    tree_root bct = root /\
    unresolvedPairs (pairs bct) = [] /\
    length (admissibleByCluster bct) = numNodesInBranch root /\
    length (Af_1 bct) = nElements root.
Proof.
  intros Hwn Hfaces Hfuel. pose proof Hwn as [Hbin [Hp [Hids Hcount]]].
  destruct (@build_pairs_returns norm boxContainsPoint separationCoeff root Hbin fuel Hfuel)
    as [l Hbuild].
  pose proof (@build_pairs_below norm boxContainsPoint separationCoeff fuel root l Hbuild)
    as Hbelow.
  destruct (OrganizePairsByFirst_buckets_aux root (admissiblePairs l)) as [buckets [Horg Hlen]].
  { intros p Hpin. destruct (Hbelow p Hpin) as [H1 _].
    rewrite Hcount.
    assert (Hin : In (nodeID (cluster1 p)) (map nodeID (subnodes root)))
      by (apply in_map; exact H1).
    rewrite Hids in Hin. apply in_seq in Hin. lia. }
  assert (Hones : faces_inside root (repeat 1 (nElements root))).
  { intros f Hf. unfold in_vector. rewrite repeat_length. apply Hfaces. exact Hf. }
  destruct (@MultiplyAfPercolated_returns MetricDistanceTermFrac exp_s root buckets
              (repeat 1 (nElements root)) (repeat 1 (nElements root)) Hp Hones Hones)
    as [af1 Haf1].
  exists (mkBlockClusterTree root l buckets af1).
  split.
  { unfold BlockClusterTree_new. rewrite Hbuild. cbn [bind]. rewrite Horg. cbn [bind].
    unfold PremultiplyAf1. rewrite Haf1. reflexivity. }
  simpl. split; [reflexivity|]. split.
  { unfold build_pairs in Hbuild.
    exact (proj1 (@split_loop_spec norm boxContainsPoint separationCoeff fuel _ _ Hbuild)). }
  split; [exact Hlen|].
  assert (Hnodes : NoDup (map nodeID (subnodes root)))
    by (rewrite Hids; apply seq_NoDup).
  unfold MultiplyAfPercolated in Haf1.
  destruct (percolateWtDot root (repeat 1 (nElements root)) table_zero) as [[W r]| |];
    try discriminate.
  cbn [bind] in Haf1.
  destruct (@percolateJ_returns root Hp (repeat 1 (nElements root))
              (fun L HL => Hones _ (eq_ind_r (fun l => In (elementID L) l)
                                      (in_map elementID _ _ HL) (clusterIndices_leaves Hp)))
              0 (cluster_terms MetricDistanceTermFrac exp_s buckets W))
    as [B' [b' [Ej Hlenb]]].
  rewrite Ej in Haf1. cbn [bind] in Haf1. inversion Haf1; subst af1.
  rewrite Hlenb. apply repeat_length.
Qed.

(** On a tree numbered from 0 whose faces are indices below the number of
    its faces, as [Create6DBVHFromMesh] builds it, the constructor of the
    block cluster tree returns as soon as the fuel is the height of the
    tree: the build loop ends, every bucket index is inside
    [admissibleByCluster] and every face inside [Af_1]. *)
Theorem BlockClusterTree_new_returns (fuel : nat) (root : BVHNode6D) :
  well_numbered 0 root ->
  (forall f, In f (clusterIndices root) -> (0 <= f < Z.of_nat (nElements root))%Z) ->
  (height root <= fuel)%nat ->
  exists bct,
    BCT_new fuel root = Returns bct /\
    tree_root bct = root /\
    unresolvedPairs (pairs bct) = [] /\
    length (admissibleByCluster bct) = numNodesInBranch root /\
    length (Af_1 bct) = nElements root.
Proof.
  intros Hwn Hfaces Hfuel.
  destruct (constructor_returns Hwn Hfaces Hfuel) as [bct [Hrun Hrest]].
  exists bct. split; [exact Hrun|exact Hrest].
Qed.

End Pair_lists.

(** ** The trees [Create6DBVHFromMesh] builds *)

Section Built_trees.

Variable normalize : Vector3 -> Vector3.
Variable indeterminate_vec : Vector3.
Variable indeterminate : Q.

Local Abbreviation BVH_new := (BVHNode6D_new normalize indeterminate_vec indeterminate).

Lemma averaged_numbered (axis : Z) (sp : Q) (l g l' g' : BVHNode6D) (s : nat)
    (csl csg : list BVHNode6D) (sl sg : nat) :
  l' = with_id_children l sl csl ->
  g' = with_id_children g sg csg ->
  with_id_children (averaged normalize axis sp l g) s [l'; g']
  = with_id_children (averaged normalize axis sp l' g') s [l'; g'].
Proof. intros -> ->. reflexivity. Qed.

(** Induction over the trees the constructor builds and
    [assignIDsRecursively] numbers: [P points axis s t s'] for the bodies,
    the axis, the first id, the numbered tree and the next free id. *)
Lemma numbered_tree_ind
    (P : list MassNormalPoint -> Z -> nat -> BVHNode6D -> nat -> Prop) :
  (forall axis s,
     P [] axis s (with_id_children (empty_node indeterminate_vec indeterminate axis) s [])
       (s + 1)%nat) ->
  (forall axis s mp,
     P [mp] axis s (with_id_children (leaf_node indeterminate axis mp) s []) (s + 1)%nat) ->
  (forall axis s s1 s2 sp points lp gp l' g',
     (2 <= length points)%nat ->
     AxisSplittingPlane points axis = Some sp ->
     split_points points axis sp = Some (lp, gp) ->
     P lp (NextAxis axis) (s + 1)%nat l' s1 ->
     P gp (NextAxis axis) s1 g' s2 ->
     P points axis s (with_id_children (averaged normalize axis sp l' g') s [l'; g']) s2) ->
  forall fuel points axis t s,
    BVH_new fuel points axis = Returns t ->
    P points axis s (fst (assignIDsRecursively t s)) (snd (assignIDsRecursively t s)).
Proof.
  intros Hempty Hleaf Hnode.
  induction fuel as [|fuel IH]; intros points axis t s H; [discriminate|].
  pose proof (@BVHNode6D_new_inv _ _ _ _ _ _ _ H) as Hinv.
  destruct Hinv as [[-> ->] | [[mp [-> ->]] | [f [sp [lp [gp [l [g Hi]]]]]]]].
  - rewrite assignIDs_childless by reflexivity. apply Hempty.
  - rewrite assignIDs_childless by reflexivity. apply Hleaf.
  - destruct Hi as [Hf [Hlen [Hsp [Hsplit [Hl [Hg ->]]]]]]. inversion Hf; subst f.
    rewrite (@assignIDs_two _ l g) by reflexivity. cbn [fst snd].
    destruct (assignIDs_fields l (s + 1)) as [csl Hl'].
    destruct (assignIDs_fields g (snd (assignIDsRecursively l (s + 1)))) as [csg Hg'].
    rewrite (@averaged_numbered axis sp l g _ _ s csl csg _ _ Hl' Hg').
    eapply Hnode; eauto.
Qed.

(** *** Bounding boxes *)

Lemma inside_box_leaf (axis : Z) (mp : MassNormalPoint) (s : nat) :
  inside_box (with_id_children (leaf_node indeterminate axis mp) s []) (Body.point mp).
Proof. unfold inside_box. simpl. repeat split; apply Qle_refl. Qed.

Lemma inside_box_averaged (axis : Z) (sp : Q) (l g : BVHNode6D) (s : nat)
    (cs : list BVHNode6D) (p : Vector3) :
  inside_box l p \/ inside_box g p ->
  inside_box (with_id_children (averaged normalize axis sp l g) s cs) p.
Proof.
  unfold inside_box. simpl.
  intros [[[H1 H2] [[H3 H4] [H5 H6]]]|[[H1 H2] [[H3 H4] [H5 H6]]]];
    repeat split;
    try (eapply Qle_trans; [|eassumption]);
    try (eapply Qle_trans; [eassumption|]);
    eauto using Q.le_min_l, Q.le_min_r, Q.le_max_l, Q.le_max_r, Qle_trans.
Qed.

Lemma numbered_boxes (fuel : nat) (points : list MassNormalPoint) (axis : Z)
    (t : BVHNode6D) (s : nat) :
  BVH_new fuel points axis = Returns t ->
  forall N, In N (subnodes (fst (assignIDsRecursively t s))) ->
    forall L, In L (leaves N) -> inside_box N (centerOfMass L).
Proof.
  revert fuel points axis t s.
  apply (@numbered_tree_ind
           (fun _ _ _ t _ => forall N, In N (subnodes t) ->
              forall L, In L (leaves N) -> inside_box N (centerOfMass L))).
  - intros axis s N [<-|[]] L [].
  - intros axis s mp N [<-|[]] L [<-|[]]. apply inside_box_leaf.
  - intros axis s s1 s2 sp points lp gp l' g' _ _ _ Hl Hg N HN L HL.
    rewrite subnodes_eq in HN. simpl in HN. rewrite app_nil_r in HN.
    destruct HN as [<-|HN].
    + rewrite leaves_eq in HL. simpl in HL. rewrite app_nil_r in HL.
      apply inside_box_averaged. apply in_app_or in HL.
      destruct HL as [HL|HL]; [left; apply Hl|right; apply Hg];
        auto using subnodes_self.
    + apply in_app_or in HN. destruct HN as [HN|HN]; [apply Hl|apply Hg]; assumption.
Qed.

(** In the tree [Create6DBVHFromMesh] builds, the box of every node, from
    its [minCoords] to its [maxCoords], contains the barycenter of every
    face below the node, whatever an empty node has in these two fields. *)
Theorem Create6DBVH_boxes_contain_faces
    (fuel : nat) (verts : list MassNormalPoint) (t : BVHNode6D) :
  Create6DBVH normalize indeterminate_vec indeterminate fuel verts = Returns t ->
  forall N, In N (subnodes t) ->
    forall L, In L (leaves N) ->
      inside_box N (centerOfMass L) /\
      exists p, In p verts /\ centerOfMass L = Body.point p /\
                elementID L = Body.elementID p.
Proof.
  unfold Create6DBVH. intros H N HN L HL.
  destruct (BVH_new fuel verts 0) as [t0| |] eqn:E; try discriminate.
  simpl in H. inversion H; subst t. clear H.
  split; [eapply numbered_boxes; eauto|].
  destruct (@leaves_are_bodies_numbered normalize indeterminate_vec indeterminate
              fuel verts 0%Z t0 0%nat E N HN L HL) as [_ [p [Hp [_ [Hc He]]]]].
  exists p. auto.
Qed.

End Built_trees.

(** *** [addAllFaces] *)

Lemma addAllFaces_eq (n : BVHNode6D) (faces : list Z) :
  addAllFaces n faces
  = match nodeType n with
    | Empty => Returns faces
    | Leaf => bind (getSingleFace n) (fun f => Returns (faces ++ [f]))
    | Interior => foldM (fun faces child => addAllFaces child faces) (children n) faces
    end.
Proof.
  destruct n as [ty m c a mn mx e id nn sa sp th cs]. destruct ty; try reflexivity.
  simpl. revert faces. induction cs as [|c' r IH]; intro faces; [reflexivity|].
  simpl. destruct (addAllFaces c' faces); simpl; auto.
Qed.

(** [addAllFaces] pushes the faces of the leaves below the node, from left
    to right: the list [clusterIndices] of the node.  It never calls
    [getSingleFace] on a node that is not a leaf, so it always returns. *)
Theorem addAllFaces_pushes_clusterIndices (n : BVHNode6D) :
  forall faces, addAllFaces n faces = Returns (faces ++ clusterIndices n).
Proof.
  induction n as [n IH] using BVHNode6D_tree_ind. intro faces.
  rewrite addAllFaces_eq, clusterIndices_eq.
  destruct (nodeType n) eqn:E.
  - rewrite app_nil_r. reflexivity.
  - unfold getSingleFace. rewrite E. reflexivity.
  - revert faces. induction IH as [|c cs Hc _ IHcs]; intro faces; simpl.
    + rewrite app_nil_r. reflexivity.
    + rewrite Hc. cbn [bind]. rewrite IHcs, app_assoc. reflexivity.
Qed.

(** *** The leaves are the bodies; the ids of a branch *)

Section Built_trees_more.

Variable normalize : Vector3 -> Vector3.
Variable indeterminate_vec : Vector3.
Variable indeterminate : Q.

Local Abbreviation BVH_new := (BVHNode6D_new normalize indeterminate_vec indeterminate).
Local Abbreviation Create :=
  (Create6DBVH normalize indeterminate_vec indeterminate).

Lemma numbered_leaves_perm (fuel : nat) (points : list MassNormalPoint) (axis : Z)
    (t : BVHNode6D) (s : nat) :
  BVH_new fuel points axis = Returns t ->
  Permutation (map GetMassNormalPoint (leaves (fst (assignIDsRecursively t s)))) points.
Proof.
  revert fuel points axis t s.
  apply (@numbered_tree_ind normalize indeterminate_vec indeterminate
           (fun points _ _ t _ => Permutation (map GetMassNormalPoint (leaves t)) points)).
  - intros. simpl. constructor.
  - intros axis s [m nm pt e]. simpl. apply Permutation_refl.
  - intros axis s s1 s2 sp points lp gp l' g' _ _ Hsplit Hl Hg.
    rewrite leaves_eq. simpl. rewrite app_nil_r, map_app.
    eapply perm_trans; [apply Permutation_app; eassumption|].
    apply Permutation_sym. eapply split_points_perm; eauto.
Qed.

(** The leaves of the tree [Create6DBVHFromMesh] builds are the bodies it
    was given: [GetMassNormalPoint] of the leaves, from left to right, is a
    permutation of the bodies, each with its mass, normal, barycenter and
    face id. *)
Theorem Create6DBVH_leaves_are_the_bodies
    (fuel : nat) (verts : list MassNormalPoint) (t : BVHNode6D) :
  Create fuel verts = Returns t ->
  Permutation (map GetMassNormalPoint (leaves t)) verts /\
  length (leaves t) = length verts /\
  forall L, In L (leaves t) -> nodeType L = Leaf /\ children L = [].
Proof.
  unfold Create6DBVH. intro H.
  destruct (BVH_new fuel verts 0) as [t0| |] eqn:E; try discriminate.
  simpl in H. inversion H; subst t. clear H.
  pose proof (@numbered_leaves_perm fuel verts 0%Z t0 0%nat E) as Hperm.
  split; [exact Hperm|]. split.
  - rewrite <- (Permutation_length Hperm). rewrite length_map. reflexivity.
  - intros L HL.
    destruct (@numbered_shape normalize indeterminate_vec indeterminate
                fuel verts 0%Z t0 0%nat E) as [[_ [Hp _]] _].
    destruct (@leaves_are_bodies_numbered normalize indeterminate_vec indeterminate
                fuel verts 0%Z t0 0%nat E _ (subnodes_self _) L HL) as [Hty _].
    split; [exact Hty|]. apply Hp; [|rewrite Hty; discriminate].
    clear - HL. revert HL.
    generalize (fst (assignIDsRecursively t0 0)). intro R.
    induction R as [R IH] using BVHNode6D_tree_ind. intro HL.
    rewrite leaves_eq in HL.
    assert (Hch : In L (flat_map leaves (children R)) -> In L (subnodes R)).
    { intro Hin. apply in_flat_map in Hin. destruct Hin as [c [Hc HLc]].
      rewrite Forall_forall in IH. eapply subnodes_child; [exact Hc|]. apply IH; assumption. }
    destruct (nodeType R); auto.
    destruct HL as [<-|[]]. apply subnodes_self.
Qed.

Lemma numbered_branches (fuel : nat) (points : list MassNormalPoint) (axis : Z)
    (t : BVHNode6D) (s : nat) :
  BVH_new fuel points axis = Returns t ->
  let t' := fst (assignIDsRecursively t s) in
  nodeID t' = s /\
  (forall N, In N (subnodes t') ->
    numNodesInBranch N = length (subnodes N) /\
    map nodeID (subnodes N) = seq (nodeID N) (numNodesInBranch N) /\
    (s <= nodeID N)%nat /\
    (nodeID N + numNodesInBranch N <= s + numNodesInBranch t')%nat) /\
  snd (assignIDsRecursively t s) = (s + numNodesInBranch t')%nat.
Proof.
  revert fuel points axis t s. cbv zeta.
  apply (@numbered_tree_ind normalize indeterminate_vec indeterminate
           (fun _ _ s t s' =>
              nodeID t = s /\
              (forall N, In N (subnodes t) ->
                 numNodesInBranch N = length (subnodes N) /\
                 map nodeID (subnodes N) = seq (nodeID N) (numNodesInBranch N) /\
                 (s <= nodeID N)%nat /\
                 (nodeID N + numNodesInBranch N <= s + numNodesInBranch t)%nat) /\
              s' = (s + numNodesInBranch t)%nat)).
  - intros axis s. split; [reflexivity|]. split; [|reflexivity].
    intros N [<-|[]]. simpl. repeat split; lia.
  - intros axis s mp. split; [reflexivity|]. split; [|reflexivity].
    intros N [<-|[]]. simpl. repeat split; lia.
  - intros axis s s1 s2 sp points lp gp l' g' _ _ _ [Hlid [Hl Hs1]] [Hgid [Hg Hs2]].
    set (t' := with_id_children (averaged normalize axis sp l' g') s [l'; g']).
    assert (Hsub : subnodes t' = t' :: subnodes l' ++ subnodes g').
    { rewrite subnodes_eq. simpl. rewrite app_nil_r. reflexivity. }
    assert (Hnn : numNodesInBranch t'
                  = (numNodesInBranch l' + numNodesInBranch g' + 1)%nat) by reflexivity.
    destruct (Hl l' (subnodes_self l')) as [Hl1 [Hl2 _]].
    destruct (Hg g' (subnodes_self g')) as [Hg1 [Hg2 _]].
    split; [reflexivity|]. split; [|lia].
    intros N HN. rewrite Hsub in HN. destruct HN as [<-|HN].
    + split; [rewrite Hsub; simpl; rewrite length_app; lia|].
      split; [|simpl; lia].
      rewrite Hsub, Hnn. simpl. rewrite map_app, Hl2, Hg2, Hlid, Hgid, Hs1.
      replace (numNodesInBranch l' + numNodesInBranch g' + 1)%nat
        with (S (numNodesInBranch l' + numNodesInBranch g')) by lia.
      simpl. f_equal.
      replace (s + 1)%nat with (S s) by lia.
      rewrite seq_app. reflexivity.
    + apply in_app_or in HN. destruct HN as [HN|HN].
      * destruct (Hl N HN) as [H1 [H2 [H3 H4]]]. repeat split; auto; lia.
      * destruct (Hg N HN) as [H1 [H2 [H3 H4]]]. repeat split; auto; lia.
Qed.

(** [assignIDsRecursively] numbers the tree [Create6DBVHFromMesh] builds in
    the order of the walk, the root 0: below every node [N] are the
    [numNodesInBranch] of [N] nodes with the consecutive ids from the id of
    [N], all of them below [numNodesInBranch] of the root, so the node ids
    are the indices of a vector of that size. *)
Theorem Create6DBVH_branch_ids
    (fuel : nat) (verts : list MassNormalPoint) (t : BVHNode6D) :
  Create fuel verts = Returns t ->
  nodeID t = 0%nat /\
  forall N, In N (subnodes t) ->
    numNodesInBranch N = length (subnodes N) /\
    map nodeID (subnodes N) = seq (nodeID N) (numNodesInBranch N) /\
    (nodeID N + numNodesInBranch N <= numNodesInBranch t)%nat.
Proof.
  unfold Create6DBVH. intro H.
  destruct (BVH_new fuel verts 0) as [t0| |] eqn:E; try discriminate.
  simpl in H. inversion H; subst t. clear H.
  destruct (@numbered_branches fuel verts 0%Z t0 0%nat E) as [Hid [Hall _]].
  split; [exact Hid|]. intros N HN.
  destruct (Hall N HN) as [H1 [H2 [_ H4]]]. auto.
Qed.

End Built_trees_more.

(** ** [recomputeCentersOfMass] *)

Section Recompute_properties.

Variable normalize : Vector3 -> Vector3.
Variable faceArea : Z -> Q.
Variable faceBarycenter : Z -> Vector3.

Local Abbreviation recompute := (recomputeCentersOfMass normalize faceArea faceBarycenter).
Local Abbreviation recompute_all := (recompute_children normalize faceArea faceBarycenter).

Lemma recomputeCentersOfMass_eq (n : BVHNode6D) :
  recompute n
  = match nodeType n with
    | Empty => Returns (recomputed_empty n)
    | Leaf => Returns (recomputed_leaf faceArea faceBarycenter n)
    | Interior =>
        bind (recompute_all (children n)) (fun children' =>
          of_option (averageDataFromChildren normalize
                       (with_id_children n (nodeID n) children')))
    end.
Proof. destruct n; reflexivity. Qed.

Lemma recompute_children_cons (c : BVHNode6D) (rest : list BVHNode6D) :
  recompute_all (c :: rest)
  = bind (recompute c) (fun c' =>
    bind (recompute_all rest) (fun rest' => Returns (c' :: rest'))).
Proof. reflexivity. Qed.

Section Same_geometry.

Variable indeterminate_vec : Vector3.
Variable indeterminate : Q.

Local Abbreviation BVH_new := (BVHNode6D_new normalize indeterminate_vec indeterminate).

Lemma numbered_recompute (fuel : nat) (points : list MassNormalPoint) (axis : Z)
    (t : BVHNode6D) (s : nat) :
  BVH_new fuel points axis = Returns t ->
  (forall p, In p points ->
     faceArea (Body.elementID p) = Body.mass p /\
     faceBarycenter (Body.elementID p) = Body.point p) ->
  recompute (fst (assignIDsRecursively t s)) = Returns (fst (assignIDsRecursively t s)).
Proof.
  revert fuel points axis t s.
  apply (@numbered_tree_ind normalize indeterminate_vec indeterminate
           (fun points _ _ t _ =>
              (forall p, In p points ->
                 faceArea (Body.elementID p) = Body.mass p /\
                 faceBarycenter (Body.elementID p) = Body.point p) ->
              recompute t = Returns t)).
  - intros axis s _. reflexivity.
  - intros axis s mp Hgeo. destruct (Hgeo mp (or_introl eq_refl)) as [Ha Hb].
    rewrite recomputeCentersOfMass_eq. simpl. unfold recomputed_leaf. simpl.
    rewrite Ha, Hb. reflexivity.
  - intros axis s s1 s2 sp points lp gp l' g' _ _ Hsplit Hl Hg Hgeo.
    assert (Hgl : forall p, In p lp ->
              faceArea (Body.elementID p) = Body.mass p /\
              faceBarycenter (Body.elementID p) = Body.point p)
      by (intros p Hp; apply Hgeo; eapply split_points_In; eauto).
    assert (Hgg : forall p, In p gp ->
              faceArea (Body.elementID p) = Body.mass p /\
              faceBarycenter (Body.elementID p) = Body.point p)
      by (intros p Hp; apply Hgeo; eapply split_points_In; eauto).
    rewrite recomputeCentersOfMass_eq. simpl nodeType. cbv iota.
    simpl children. rewrite !recompute_children_cons.
    rewrite (Hl Hgl), (Hg Hgg). reflexivity.
Qed.

(** While the geometry is the one the tree was built from (every body has
    the area and the barycenter of its face), [recomputeCentersOfMass]
    returns and leaves the tree of [Create6DBVHFromMesh] exactly as it
    is. *)
Theorem recomputeCentersOfMass_same_geometry
    (fuel : nat) (verts : list MassNormalPoint) (t : BVHNode6D) :
  Create6DBVH normalize indeterminate_vec indeterminate fuel verts = Returns t ->
  (forall p, In p verts ->
     faceArea (Body.elementID p) = Body.mass p /\
     faceBarycenter (Body.elementID p) = Body.point p) ->
  recompute t = Returns t.
Proof.
  unfold Create6DBVH. intros H Hgeo.
  destruct (BVH_new fuel verts 0) as [t0| |] eqn:E; try discriminate.
  simpl in H. inversion H; subst t. clear H.
  eapply numbered_recompute; eauto.
Qed.

End Same_geometry.

End Recompute_properties.

(** *** After the geometry has moved *)

Lemma inside_box_union (N l g : BVHNode6D) (p : Vector3) :
  minCoords N = vectorMin (vectorMin (minCoords l) (minCoords l)) (minCoords g) ->
  maxCoords N = vectorMax (vectorMax (maxCoords l) (maxCoords l)) (maxCoords g) ->
  inside_box l p \/ inside_box g p ->
  inside_box N p.
Proof.
  unfold inside_box. intros -> ->. simpl.
  intros [[[H1 H2] [[H3 H4] [H5 H6]]]|[[H1 H2] [[H3 H4] [H5 H6]]]];
    repeat split;
    try (eapply Qle_trans; [|eassumption]);
    try (eapply Qle_trans; [eassumption|]);
    eauto using Q.le_min_l, Q.le_min_r, Q.le_max_l, Q.le_max_r, Qle_trans.
Qed.

Section New_geometry.

Variable normalize : Vector3 -> Vector3.
Variable faceArea : Z -> Q.
Variable faceBarycenter : Z -> Vector3.

Local Abbreviation recompute := (recomputeCentersOfMass normalize faceArea faceBarycenter).
Local Abbreviation recompute_all := (recompute_children normalize faceArea faceBarycenter).

Local Abbreviation recomputed_node := (recomputed faceArea faceBarycenter).

Lemma recompute_spec (n : BVHNode6D) :
  binary_tree n -> childless_leaves n ->
  exists n',
    recompute n = Returns n' /\
    node_kind n' = node_kind n /\
    map node_kind (subnodes n') = map node_kind (subnodes n) /\
    clusterIndices n' = clusterIndices n /\
    forall N, In N (subnodes n') -> recomputed_node N.
Proof.
  induction n as [n IH] using BVHNode6D_tree_ind. intros Hb Hp.
  rewrite recomputeCentersOfMass_eq.
  destruct (nodeType n) eqn:Et.
  - assert (Hch : children n = [])
      by (apply (Hp n (subnodes_self n)); rewrite Et; discriminate).
    exists (recomputed_empty n). split; [reflexivity|].
    assert (Hk : node_kind (recomputed_empty n) = node_kind n) by reflexivity.
    split; [exact Hk|].
    assert (Hs : subnodes (recomputed_empty n) = [recomputed_empty n])
      by (rewrite subnodes_eq; simpl; rewrite Hch; reflexivity).
    split; [rewrite Hs, (subnodes_eq n), Hch; simpl; rewrite Hk; reflexivity|].
    split; [rewrite !clusterIndices_eq; simpl; rewrite Et; reflexivity|].
    rewrite Hs. intros N [<-|[]]. unfold recomputed.
    rewrite clusterIndices_eq, leaves_eq. simpl. rewrite Et, Hch. simpl.
    split; [reflexivity|]. intros L [].
  - assert (Hch : children n = [])
      by (apply (Hp n (subnodes_self n)); rewrite Et; discriminate).
    set (n' := recomputed_leaf faceArea faceBarycenter n).
    exists n'. split; [reflexivity|].
    assert (Hk : node_kind n' = node_kind n) by reflexivity.
    split; [exact Hk|].
    assert (Hs : subnodes n' = [n'])
      by (rewrite subnodes_eq; simpl; rewrite Hch; reflexivity).
    split; [rewrite Hs, (subnodes_eq n), Hch; simpl; rewrite Hk; reflexivity|].
    split; [rewrite !clusterIndices_eq; simpl; rewrite Et; reflexivity|].
    rewrite Hs. intros N [<-|[]]. unfold recomputed.
    rewrite clusterIndices_eq, leaves_eq. simpl. rewrite Et. simpl.
    split; [ring|]. intros L [<-|[]]. simpl.
    split; [reflexivity|]. split; [reflexivity|].
    unfold inside_box. simpl. repeat split; apply Qle_refl.
  - pose proof (Hb n (subnodes_self n) Et) as Hlen.
    destruct (children n) as [|l [|g [|x rest]]] eqn:Ech; simpl in Hlen; try lia.
    assert (Hcl : In l (children n)) by (rewrite Ech; left; reflexivity).
    assert (Hcg : In g (children n)) by (rewrite Ech; right; left; reflexivity).
    inversion IH as [|? ? IHl IH']; subst. inversion IH' as [|? ? IHg _]; subst.
    destruct (IHl (@binary_tree_child n l Hb Hcl) (@childless_leaves_child n l Hp Hcl))
      as [l' [El [Hkl [Hsl [Hcil Hrl]]]]].
    destruct (IHg (@binary_tree_child n g Hb Hcg) (@childless_leaves_child n g Hp Hcg))
      as [g' [Eg [Hkg [Hsg [Hcig Hrg]]]]].
    rewrite !recompute_children_cons, El, Eg. cbn [bind recompute_children].
    unfold averageDataFromChildren. simpl children. simpl fold_left.
    cbn [of_option].
    eexists. split; [reflexivity|].
    match goal with |- node_kind ?t = _ /\ _ => set (n' := t) end.
    assert (Hk : node_kind n' = node_kind n)
      by (unfold node_kind; simpl; rewrite Ech; reflexivity).
    assert (Hs : subnodes n' = n' :: subnodes l' ++ subnodes g')
      by (rewrite subnodes_eq; simpl; rewrite app_nil_r; reflexivity).
    split; [exact Hk|]. split.
    { rewrite Hs, (subnodes_eq n), Ech. simpl. rewrite app_nil_r, !map_app.
      rewrite Hk, Hsl, Hsg. reflexivity. }
    assert (Hci : clusterIndices n' = clusterIndices l' ++ clusterIndices g')
      by (rewrite clusterIndices_eq; simpl; rewrite Et; simpl;
          rewrite app_nil_r; reflexivity).
    split.
    { rewrite Hci, (clusterIndices_eq n), Et, Ech. simpl.
      rewrite app_nil_r, Hcil, Hcig. reflexivity. }
    intros N HN. rewrite Hs in HN. destruct HN as [<-|HN];
      [|apply in_app_or in HN; destruct HN as [HN|HN]; [apply Hrl|apply Hrg]; assumption].
    destruct (Hrl l' (subnodes_self l')) as [Hml Hll].
    destruct (Hrg g' (subnodes_self g')) as [Hmg Hlg].
    unfold recomputed. split.
    + rewrite Hci, sum_over_app, <- Hml, <- Hmg. simpl. ring.
    + assert (Hlv : leaves n' = leaves l' ++ leaves g')
        by (rewrite leaves_eq; simpl; rewrite Et; simpl; rewrite app_nil_r; reflexivity).
      rewrite Hlv. intros L HL. apply in_app_or in HL.
      destruct HL as [HL|HL];
        [destruct (Hll L HL) as [H1 [H2 H3]]|destruct (Hlg L HL) as [H1 [H2 H3]]];
        (split; [exact H1|]; split; [exact H2|]);
        apply (@inside_box_union n' l' g'); auto.
Qed.

(** On a tree whose interior nodes have two children and whose other nodes
    have none, as the constructor builds it, [recomputeCentersOfMass]
    returns for any geometry.  It keeps the type, the ids, the split axis
    and the number of children of every node and the list of faces; after
    it the mass of every node is the sum of the areas of the faces below it,
    every leaf has the area and the barycenter of its face, and the box of
    every node contains the barycenters of the faces below it. *)
Theorem recomputeCentersOfMass_new_geometry (n : BVHNode6D) :
  binary_tree n -> childless_leaves n ->
  exists n',
    recompute n = Returns n' /\
    map node_kind (subnodes n') = map node_kind (subnodes n) /\
    clusterIndices n' = clusterIndices n /\
    forall N, In N (subnodes n') ->
      totalMass N == sum_over (clusterIndices N) faceArea /\
      forall L, In L (leaves N) ->
        totalMass L = faceArea (elementID L) /\
        centerOfMass L = faceBarycenter (elementID L) /\
        inside_box N (centerOfMass L).
Proof.
  intros Hb Hp. destruct (recompute_spec Hb Hp) as [n' [E [_ [Hs [Hci Hall]]]]].
  exists n'. split; [exact E|]. split; [exact Hs|]. split; [exact Hci|].
  intros N HN. exact (Hall N HN).
Qed.

End New_geometry.

(** ** A split on equal coordinates *)

(** When all bodies have the same coordinate on the axis, the split point
    is that coordinate: every body goes to [lesserPoints] and
    [greaterPoints] stays empty, so the second child is an empty node and
    the first is built from all the bodies on the next axis. *)
Theorem split_on_equal_coordinates
    (points : list MassNormalPoint) (axis : Z) (coords : list Q) :
  all_coords points axis = Some coords ->
  (2 <= length points)%nat ->
  (Z.of_nat (length points) < 2 ^ 64)%Z ->
  all_equal coords = true ->
  exists sp,
    AxisSplittingPlane points axis = Some sp /\
    (forall c, In c coords -> c == sp) /\
    split_points points axis sp = Some (points, []).
Proof.
  intros Hc Hn Hsize Heq.
  destruct (split_degenerate points axis Hc Hn Hsize Heq) as [sp [Hsp Hsplit]].
  exists sp. split; [exact Hsp|]. split; [|exact Hsplit].
  destruct (AxisSplittingPlane_spec points axis Hc Hn Hsize) as [k [Hk [Hsp' _]]].
  rewrite Hsp in Hsp'. inversion Hsp'; subst sp. clear Hsp'.
  pose proof (all_equal_true coords Heq) as Hall.
  rewrite <- (all_coords_length _ _ Hc) in Hk.
  intros c Hcin.
  rewrite (Hall _ c (@at_index_sort_In coords k ltac:(lia)) Hcin).
  rewrite (Hall _ c (@at_index_sort_In coords (k + 1)%nat ltac:(lia)) Hcin).
  field.
Qed.

(** ** An axis that is none of the six *)

Lemma GetCoordFromBody_invalid (mp : MassNormalPoint) (axis : Z) :
  ~ (0 <= axis <= 5)%Z -> GetCoordFromBody mp axis = None.
Proof.
  intro H. unfold GetCoordFromBody.
  destruct axis as [|a|a]; [lia| |reflexivity].
  destruct a as [[[a|a|]|[a|a|]|]|[[a|a|]|[a|a|]|]|]; try reflexivity; lia.
Qed.

(** With an axis outside 0..5 the constructor leaves the program
    ([GetCoordFromBody] calls [exit(1)]) as soon as there are two bodies to
    split; an empty node and a leaf are built on any axis, and the children
    of a node are always built on an axis among 0, 1, 2. *)
Theorem BVHNode6D_new_invalid_axis
    (normalize : Vector3 -> Vector3) (indeterminate_vec : Vector3) (indeterminate : Q)
    (fuel : nat) (points : list MassNormalPoint) (axis : Z) :
  ~ (0 <= axis <= 5)%Z ->
  ((2 <= length points)%nat ->
   BVHNode6D_new normalize indeterminate_vec indeterminate (S fuel) points axis = Aborts) /\
  ((length points <= 1)%nat ->
   exists t, BVHNode6D_new normalize indeterminate_vec indeterminate (S fuel) points axis
             = Returns t /\ children t = []) /\
  (0 <= NextAxis axis <= 2)%Z.
Proof.
  intro Haxis. split; [|split].
  - intro Hlen. destruct points as [|p [|q rest]]; simpl in Hlen; try lia.
    cbn [BVHNode6D_new]. unfold AxisSplittingPlane.
    assert (Hnone : all_coords (p :: q :: rest) axis = None).
    { cbn [all_coords]. rewrite (GetCoordFromBody_invalid p Haxis). reflexivity. }
    rewrite Hnone. reflexivity.
  - intro Hlen. destruct points as [|p [|q rest]]; simpl in Hlen; try lia.
    + eexists. split; reflexivity.
    + eexists. split; reflexivity.
  - apply NextAxis_range.
Qed.

(** ** The steps of the flow *)

Section Flow_steps.

Variable vertices : list GCVertex.
Variable indices : GCVertex -> nat.
Variable Value : VertexPositions -> Q.
Variable Differential : VertexPositions -> Matrix3.
Variable matrix_norm : Matrix3 -> Q.

Local Abbreviation line_search := (LineSearchStep vertices indices Value matrix_norm).

Lemma GetRow_inside (A : Matrix3) (i : nat) :
  (i < length A)%nat -> exists x, GetRow A i = Returns x.
Proof.
  intro H. unfold GetRow. destruct (nth_error A i) as [x|] eqn:E; [exists x; reflexivity|].
  apply nth_error_None in E. lia.
Qed.

Lemma save_loop_total (positions : VertexPositions) (vs : list GCVertex) :
  forall A0,
    (forall v, In v vs -> (indices v < length A0)%nat) ->
    exists A,
      foldM (fun origPositions v => set_row origPositions (indices v) (positions v)) vs A0
        = Returns A /\ length A = length A0.
Proof.
  clear Value Differential matrix_norm.
  induction vs as [|v rest IH]; intros A0 Hin; simpl; [eauto|].
  destruct (@list_set_Some _ A0 (indices v) (positions v) (Hin v (or_introl eq_refl)))
    as [A1 E].
  unfold set_row at 1. rewrite E. cbn [of_option bind].
  destruct (list_set_spec _ _ _ E) as [_ [Hlen _]].
  destruct (IH A1) as [A [Hrun HlenA]].
  { intros u Hu. rewrite Hlen. apply Hin. right. exact Hu. }
  exists A. split; [exact Hrun|congruence].
Qed.

Lemma SaveCurrentPositions_total (positions : VertexPositions) :
  (forall v, In v vertices -> (indices v < length vertices)%nat) ->
  exists orig,
    SaveCurrentPositions vertices indices positions = Returns orig /\
    length orig = length vertices.
Proof.
  intro Hin. unfold SaveCurrentPositions.
  destruct (@save_loop_total positions vertices (repeat vzero (length vertices)))
    as [A [Hrun Hlen]].
  { intros v Hv. rewrite repeat_length. apply Hin. exact Hv. }
  exists A. split; [exact Hrun|]. rewrite Hlen. apply repeat_length.
Qed.

Lemma SetGradientStep_total (gradient : Matrix3) (delta : Q) (orig : Matrix3)
    (positions : VertexPositions) :
  (forall v, In v vertices -> (indices v < length orig)%nat) ->
  (forall v, In v vertices -> (indices v < length gradient)%nat) ->
  exists p, SetGradientStep vertices indices gradient delta orig positions = Returns p.
Proof.
  intros Ho Hg. unfold SetGradientStep.
  destruct (@position_loop_total
              (fun v => bind (GetRow orig (indices v)) (fun pos_v =>
                        bind (GetRow gradient (indices v)) (fun grad_v =>
                        Returns (vsub pos_v (vscale delta grad_v))))) vertices)
    with (p0 := positions) as [p Hp].
  - intros v Hv.
    destruct (GetRow_inside orig (Ho v Hv)) as [x Ex].
    destruct (GetRow_inside gradient (Hg v Hv)) as [y Ey].
    rewrite Ex, Ey. simpl. eauto.
  - exists p. rewrite <- Hp.
    apply foldM_ext. intros s v.
    destruct (GetRow orig (indices v)); simpl; try reflexivity.
    destruct (GetRow gradient (indices v)); reflexivity.
Qed.

Lemma RestorePositions_total (orig : Matrix3) (positions : VertexPositions) :
  (forall v, In v vertices -> (indices v < length orig)%nat) ->
  exists p, RestorePositions vertices indices orig positions = Returns p.
Proof.
  intro Ho. unfold RestorePositions.
  apply (@position_loop_total (fun v => GetRow orig (indices v))).
  intros v Hv. apply GetRow_inside. apply Ho. exact Hv.
Qed.

Lemma backtrack_returns (gradient : Matrix3) (gradDot : Q) (orig : Matrix3)
    (initialEnergy gradNorm : Q) (k : nat) :
  (forall v, In v vertices -> (indices v < length orig)%nat) ->
  (forall v, In v vertices -> (indices v < length gradient)%nat) ->
  forall fuel delta positions numBacktracks,
    delta <= LS_STEP_THRESHOLD * inject_Z (Z.of_nat (2 ^ k)) ->
    (k <= fuel)%nat ->
    exists delta' positions' numBacktracks',
      backtrack vertices indices Value fuel gradient gradDot orig initialEnergy
        gradNorm delta positions numBacktracks
      = Returns (delta', positions', numBacktracks') /\
      (numBacktracks' <= numBacktracks + k)%nat.
Proof.
  intros Ho Hg.
  induction k as [|k IH]; intros fuel delta positions nb Hdelta Hfuel.
  - assert (Hle : delta <= LS_STEP_THRESHOLD).
    { change (inject_Z (Z.of_nat (2 ^ 0))) with 1 in Hdelta. lra. }
    apply Qltb_false in Hle.
    exists delta, positions, nb. split; [|lia].
    destruct fuel; simpl; rewrite Hle; reflexivity.
  - destruct fuel as [|fuel]; [lia|]. simpl.
    destruct (Qltb LS_STEP_THRESHOLD delta);
      [|exists delta, positions, nb; split; [reflexivity|lia]].
    destruct (SetGradientStep_total gradient delta orig positions Ho Hg) as [p ->].
    cbn [bind].
    match goal with |- context [if ?c then _ else _] => destruct c end;
      [|exists delta, p, nb; split; [reflexivity|lia]].
    destruct (IH fuel (delta / 2) p (S nb)) as [d' [p' [nb' [Hrun Hnb]]]]; [|lia|].
    + rewrite Nat.pow_succ_r', Nat2Z.inj_mul, inject_Z_mult in Hdelta.
      change (inject_Z (Z.of_nat 2)) with 2 in Hdelta.
      apply Qle_shift_div_r; [reflexivity|]. lra.
    + exists d', p', nb'. split; [exact Hrun|lia].
Qed.

(** [LineSearchStep] returns: with every vertex index a row of the saved
    positions and of the gradient, and an initial guess of at most
    [1e-10 * 2 ^ k], the loop runs its body at most [k] times, and the call
    returns 0 or a step above the threshold. *)
Theorem LineSearchStep_returns (gradient : Matrix3) (initGuess gradDot : Q)
    (positions : VertexPositions) (k fuel : nat) :
  (forall v, In v vertices -> (indices v < length vertices)%nat) ->
  (forall v, In v vertices -> (indices v < length gradient)%nat) ->
  initGuess <= LS_STEP_THRESHOLD * inject_Z (Z.of_nat (2 ^ k)) ->
  (k <= fuel)%nat ->
  exists delta positions',
    line_search fuel gradient initGuess gradDot positions = Returns (delta, positions') /\
    (delta = 0 \/ LS_STEP_THRESHOLD < delta).
Proof.
  intros Hin Hg Hk Hfuel. unfold LineSearchStep.
  destruct (SaveCurrentPositions_total positions Hin) as [orig [-> Hlen]]. cbn [bind].
  destruct (Qltb (matrix_norm gradient) (1 # 10000000000));
    [exists 0, positions; split; [reflexivity|left; reflexivity]|].
  assert (Ho : forall v, In v vertices -> (indices v < length orig)%nat)
    by (intros v Hv; rewrite Hlen; apply Hin; exact Hv).
  destruct (@backtrack_returns gradient gradDot orig (Value positions)
              (matrix_norm gradient) k Ho Hg fuel initGuess positions 0%nat Hk Hfuel)
    as [d [p [nb [-> _]]]].
  cbn [bind].
  destruct (Qle_bool d LS_STEP_THRESHOLD) eqn:E.
  - destruct (RestorePositions_total orig p Ho) as [r ->]. cbn [bind].
    exists 0, r. split; [reflexivity|left; reflexivity].
  - exists d, p. split; [reflexivity|right].
    apply Qle_bool_false. exact E.
Qed.

(** A gradient of norm below 1e-10 ends [LineSearchStep] before the loop:
    it returns 0, no vertex has moved, and this needs no fuel. *)
Theorem LineSearchStep_small_gradient (gradient : Matrix3) (initGuess gradDot : Q)
    (positions : VertexPositions) (fuel : nat) :
  (forall v, In v vertices -> (indices v < length vertices)%nat) ->
  matrix_norm gradient < 1 # 10000000000 ->
  line_search fuel gradient initGuess gradDot positions = Returns (0, positions).
Proof.
  intros Hin Hsmall. unfold LineSearchStep.
  destruct (SaveCurrentPositions_total positions Hin) as [orig [-> _]]. cbn [bind].
  rewrite (proj2 (Qltb_true _ _) Hsmall). reflexivity.
Qed.

(** [StepNaive (t)] moves every vertex of the mesh by [- grad_v * t], where
    [grad_v] is the row of the vertex in the gradient at the positions
    before the call, and no other vertex; it needs a row of the gradient
    for every vertex. *)
Theorem StepNaive_moves_against_gradient (t : Q) (positions : VertexPositions) :
  NoDup vertices ->
  (forall v, In v vertices -> (indices v < length (Differential positions))%nat) ->
  exists positions',
    StepNaive vertices indices Differential t positions = Returns positions' /\
    (forall v, In v vertices ->
       exists grad_v,
         GetRow (Differential positions) (indices v) = Returns grad_v /\
         positions' v = vsub (positions v) (vtimes grad_v t)) /\
    (forall u, ~ In u vertices -> positions' u = positions u).
Proof.
  clear Value matrix_norm.
  intros Hnd Hg. unfold StepNaive. cbv zeta.
  set (gradient := Differential positions) in *. clearbody gradient.
  assert (Hgen : forall vs p0,
    NoDup vs ->
    (forall v, In v vs -> (indices v < length gradient)%nat) ->
    exists p,
      foldM (fun positions v =>
        bind (GetRow gradient (indices v)) (fun grad_v =>
        Returns (set_position positions v (vsub (positions v) (vtimes grad_v t)))))
        vs p0 = Returns p /\
      (forall v, In v vs ->
         exists grad_v, GetRow gradient (indices v) = Returns grad_v /\
                        p v = vsub (p0 v) (vtimes grad_v t)) /\
      (forall u, ~ In u vs -> p u = p0 u)).
  { clear. induction vs as [|v rest IH]; intros p0 Hnd Hg.
    - exists p0. simpl. split; [reflexivity|]. split; [intros v []|reflexivity].
    - inversion Hnd as [|? ? Hnotin Hnd']; subst.
      destruct (GetRow_inside gradient (Hg v (or_introl eq_refl))) as [g Eg].
      destruct (IH (set_position p0 v (vsub (p0 v) (vtimes g t))) Hnd')
        as [p [Hrun [Hmoved Hkept]]].
      { intros u Hu. apply Hg. right. exact Hu. }
      exists p. cbn [foldM]. rewrite Eg. cbn [bind].
      split; [exact Hrun|]. split.
      + intros u [<-|Hu].
        * exists g. split; [exact Eg|].
          rewrite (Hkept v Hnotin). unfold set_position. rewrite Nat.eqb_refl. reflexivity.
        * destruct (Hmoved u Hu) as [gu [Egu Hpu]].
          exists gu. split; [exact Egu|]. rewrite Hpu. unfold set_position.
          destruct (Nat.eqb u v) eqn:E; [|reflexivity].
          apply Nat.eqb_eq in E. subst u. contradiction.
      + intros u Hu. rewrite Hkept by (intro Hc; apply Hu; right; exact Hc).
        unfold set_position. destruct (Nat.eqb u v) eqn:E; [|reflexivity].
        apply Nat.eqb_eq in E. subst u. exfalso. apply Hu. left. reflexivity. }
  exact (Hgen vertices positions Hnd Hg).
Qed.

End Flow_steps.

(** ** From the faces of a mesh to the leaves of the tree *)

Lemma NoDup_in_range_all (l : list nat) (n : nat) :
  NoDup l -> (forall x, In x l -> (x < n)%nat) -> length l = n ->
  forall k, (k < n)%nat -> In k l.
Proof.
  intros Hnd Hlt Hlen k Hk.
  assert (Hincl : incl l (seq 0 n))
    by (intros x Hx; apply in_seq; specialize (Hlt x Hx); lia).
  assert (Hincl' : incl (seq 0 n) l).
  { apply NoDup_length_incl; [exact Hnd|rewrite length_seq; lia|exact Hincl]. }
  apply Hincl'. apply in_seq. lia.
Qed.

Section From_mesh_properties.

Variable normalize : Vector3 -> Vector3.
Variable indeterminate_vec : Vector3.
Variable indeterminate : Q.
Variable faces : list GCFace.
Variable faceIndices : GCFace -> Z.
Variable faceArea : GCFace -> Q.
Variable faceNormal : GCFace -> Vector3.
Variable faceBarycenter : GCFace -> Vector3.

Local Abbreviation body_of := (meshFaceToBody faceIndices faceArea faceNormal faceBarycenter).
Local Abbreviation gather := (gather_bodies faces faceIndices faceArea faceNormal faceBarycenter).
Local Abbreviation from_mesh :=
  (Create6DBVHFromMesh normalize indeterminate_vec indeterminate faces faceIndices
     faceArea faceNormal faceBarycenter).

Lemma gather_loop (fs : list GCFace) :
  forall verts0,
    NoDup (map faceIndices fs) ->
    (forall f, In f fs -> (0 <= faceIndices f < Z.of_nat (length verts0))%Z) ->
    exists verts,
      foldM (fun verts f => body_set verts (Body.elementID (body_of f)) (body_of f))
        fs verts0 = Returns verts /\
      length verts = length verts0 /\
      (forall f, In f fs -> nth_error verts (Z.to_nat (faceIndices f)) = Some (body_of f)) /\
      (forall i, ~ In (Z.of_nat i) (map faceIndices fs) ->
         nth_error verts i = nth_error verts0 i).
Proof.
  induction fs as [|f rest IH]; intros verts0 Hnd Hin.
  - exists verts0. simpl. split; [reflexivity|]. split; [reflexivity|].
    split; [intros f []|reflexivity].
  - inversion Hnd as [|? ? Hnotin Hnd']; subst.
    pose proof (Hin f (or_introl eq_refl)) as Hf.
    cbn [foldM]. unfold body_set at 1. simpl Body.elementID.
    replace (faceIndices f <? 0)%Z with false by (symmetry; apply Z.ltb_ge; lia).
    destruct (@list_set_Some _ verts0 (Z.to_nat (faceIndices f)) (body_of f)) as [v1 E];
      [lia|].
    rewrite E. cbn [of_option bind].
    destruct (list_set_spec _ _ _ E) as [_ [Hlen [Hget Hother]]].
    destruct (IH v1 Hnd') as [verts [Hrun [Hlen' [Hset Hkeep]]]].
    { intros g Hg. rewrite Hlen. apply Hin. right. exact Hg. }
    exists verts. split; [exact Hrun|]. split; [congruence|]. split.
    + intros g [<-|Hg]; [|apply Hset; exact Hg].
      rewrite Hkeep; [exact Hget|].
      rewrite Z2Nat.id by lia. exact Hnotin.
    + intros i Hi. rewrite Hkeep by (intro Hc; apply Hi; right; exact Hc).
      apply Hother. intro Heq. apply Hi. left. subst i. rewrite Z2Nat.id by lia.
      reflexivity.
Qed.

(** The bodies gathered from a mesh whose faces have pairwise different
    indices below the number of faces. *)
Lemma gather_bodies_spec :
  NoDup (map faceIndices faces) ->
  (forall f, In f faces -> (0 <= faceIndices f < Z.of_nat (length faces))%Z) ->
  exists verts,
    gather = Returns verts /\
    length verts = length faces /\
    map Body.elementID verts = map Z.of_nat (seq 0 (length faces)) /\
    Permutation verts (map body_of faces).
Proof.
  intros Hnd Hin. unfold gather_bodies.
  destruct (@gather_loop faces (repeat (Body.mk 0 vzero vzero 0) (length faces)) Hnd)
    as [verts [Hrun [Hlen [Hset _]]]].
  { intros f Hf. rewrite repeat_length. apply Hin. exact Hf. }
  rewrite repeat_length in Hlen.
  exists verts. split; [exact Hrun|]. split; [exact Hlen|].
  assert (Hnat : NoDup (map (fun f => Z.to_nat (faceIndices f)) faces)).
  { rewrite <- (map_map faceIndices Z.to_nat).
    apply NoDup_map_NoDup_ForallPairs; [|exact Hnd].
    intros x y Hx Hy Heq. apply in_map_iff in Hx. apply in_map_iff in Hy.
    destruct Hx as [f [<- Hf]]. destruct Hy as [g [<- Hg]].
    pose proof (Hin f Hf). pose proof (Hin g Hg). lia. }
  assert (Hall : forall k, (k < length faces)%nat ->
            exists f, In f faces /\ Z.to_nat (faceIndices f) = k).
  { intros k Hk.
    assert (Hk' : In k (map (fun f => Z.to_nat (faceIndices f)) faces)).
    { apply (@NoDup_in_range_all _ (length faces)); [exact Hnat| |apply length_map|exact Hk].
      intros x Hx. apply in_map_iff in Hx. destruct Hx as [f [<- Hf]].
      pose proof (Hin f Hf). lia. }
    apply in_map_iff in Hk'. destruct Hk' as [f [Hf1 Hf2]]. exists f. auto. }
  assert (Hid : forall k, (k < length faces)%nat ->
            exists b, nth_error verts k = Some b /\ Body.elementID b = Z.of_nat k).
  { intros k Hk. destruct (Hall k Hk) as [f [Hf Hfk]].
    exists (body_of f). split; [rewrite <- Hfk; apply Hset; exact Hf|].
    simpl. pose proof (Hin f Hf). lia. }
  split.
  - apply nth_error_ext. intro k.
    destruct (Nat.lt_ge_cases k (length faces)) as [Hk|Hk].
    + destruct (Hid k Hk) as [b [Hb He]].
      rewrite nth_error_map, Hb. simpl. rewrite He.
      rewrite nth_error_map, nth_error_seq.
      replace (k <? length faces)%nat with true by (symmetry; apply Nat.ltb_lt; exact Hk).
      reflexivity.
    + rewrite (proj2 (nth_error_None _ _)) by (rewrite length_map; lia).
      rewrite (proj2 (nth_error_None _ _)) by (rewrite length_map, length_seq; lia).
      reflexivity.
  - apply Permutation_sym. apply NoDup_Permutation_bis.
    + apply (@NoDup_map_inv _ _ Body.elementID). rewrite map_map. simpl. exact Hnd.
    + rewrite length_map. lia.
    + intros b Hb. apply in_map_iff in Hb. destruct Hb as [f [<- Hf]].
      eapply nth_error_In. apply Hset. exact Hf.
Qed.

(** For a mesh whose faces have the indices 0 .. F - 1, each once, the
    leaves of every tree [Create6DBVHFromMesh] returns are the faces of the
    mesh: [GetMassNormalPoint] of the leaves, from left to right, is a
    permutation of [meshFaceToBody] of the faces, each leaf with the area,
    the normal, the barycenter and the index of its face; and the nodes are
    numbered from 0 in the order of the walk. *)
Theorem Create6DBVHFromMesh_leaves_are_the_faces (fuel : nat) (t : BVHNode6D) :
  NoDup (map faceIndices faces) ->
  (forall f, In f faces -> (0 <= faceIndices f < Z.of_nat (length faces))%Z) ->
  from_mesh fuel = Returns t ->
  Permutation (map GetMassNormalPoint (leaves t)) (map body_of faces) /\
  length (leaves t) = length faces /\
  map nodeID (subnodes t) = seq 0 (length (subnodes t)).
Proof.
  intros Hnd Hin H. unfold Create6DBVHFromMesh in H.
  destruct (gather_bodies_spec Hnd Hin) as [verts [Hg [Hlen [_ Hverts]]]].
  rewrite Hg in H. cbn [bind] in H.
  destruct (@Create6DBVH_shape normalize indeterminate_vec indeterminate fuel verts t H)
    as [[_ [_ [Hids _]]] _].
  unfold Create6DBVH in H.
  destruct (BVHNode6D_new normalize indeterminate_vec indeterminate fuel verts 0)
    as [t0| |] eqn:E; try discriminate.
  cbn [bind] in H. inversion H; subst t. clear H.
  pose proof (@numbered_leaves_perm normalize indeterminate_vec indeterminate
                fuel verts 0%Z t0 0%nat E) as Hperm.
  assert (Hall : Permutation
            (map GetMassNormalPoint (leaves (fst (assignIDsRecursively t0 0))))
            (map body_of faces))
    by (eapply perm_trans; [exact Hperm|exact Hverts]).
  split; [exact Hall|]. split; [|exact Hids].
  rewrite <- (length_map GetMassNormalPoint), (Permutation_length Hall), length_map.
  reflexivity.
Qed.

End From_mesh_properties.

(** ** The all-pairs energy: which vertices a pair of faces reaches *)

Lemma set_count_zero (s : list GCVertex) (v : GCVertex) :
  (set_count s v =? 0)%nat = true <-> ~ In v s.
Proof.
  unfold set_count. destruct (existsb (Nat.eqb v) s) eqn:E; simpl.
  - split; [discriminate|]. intro H. exfalso. apply H.
    apply existsb_exists in E. destruct E as [x [Hx Hv]].
    apply Nat.eqb_eq in Hv. subst. exact Hx.
  - split; [|reflexivity]. intros _ H.
    assert (existsb (Nat.eqb v) s = true)
      by (apply existsb_exists; exists v; split; [exact H|apply Nat.eqb_refl]).
    congruence.
Qed.

(** A loop of [GetVerticesWithoutDuplicates]: it appends, once each, the
    vertices of the list that the set does not hold, and the set holds them
    afterwards. *)
Lemma push_unseen_loop (l : list GCVertex) :
  forall verts vertInds,
    exists new,
      fst (fold_left push_unseen l (verts, vertInds)) = verts ++ new /\
      NoDup new /\
      (forall v, In v new <-> In v l /\ ~ In v vertInds) /\
      (forall v, In v (snd (fold_left push_unseen l (verts, vertInds)))
                 <-> In v vertInds \/ In v l).
Proof.
  induction l as [|x rest IH]; intros verts vertInds; simpl.
  - exists []. rewrite app_nil_r. split; [reflexivity|]. split; [constructor|].
    split; intro v; simpl; tauto.
  - destruct (set_count vertInds x =? 0)%nat eqn:E.
    + apply set_count_zero in E.
      destruct (IH (verts ++ [x]) (x :: vertInds)) as [new [Hv [Hnd [Hin Hset]]]].
      exists (x :: new). rewrite Hv, <- app_assoc. split; [reflexivity|].
      split.
      { constructor; [|exact Hnd]. intro Hx. apply Hin in Hx. simpl in Hx. tauto. }
      split.
      * intro v. simpl. rewrite Hin. simpl.
        destruct (Nat.eq_dec x v) as [->|Hne]; [tauto|]. tauto.
      * intro v. rewrite Hset. simpl. tauto.
    + assert (Hx : In x vertInds).
      { destruct (in_dec Nat.eq_dec x vertInds) as [H|H]; [exact H|].
        apply set_count_zero in H. congruence. }
      destruct (IH verts vertInds) as [new [Hv [Hnd [Hin Hset]]]].
      exists new. split; [exact Hv|]. split; [exact Hnd|]. split.
      * intro v. rewrite Hin. split; [tauto|].
        intros [[->|Hr] Hn]; tauto.
      * intro v. rewrite Hset. split; [tauto|].
        intros [H|[->|H]]; tauto.
Qed.

Section All_pairs_properties.

Variable faces : list GCFace.
Variable adjacentVertices : GCFace -> list GCVertex.
Variable indices : GCVertex -> nat.
Variable tpe_gradient_pair : GCFace -> GCFace -> GCVertex -> Vector3.

Local Abbreviation vertices_of := (GetVerticesWithoutDuplicates adjacentVertices).

Lemma GetVerticesWithoutDuplicates_spec (f1 f2 : GCFace) (verts : list GCVertex) :
  exists added,
    vertices_of f1 f2 verts = verts ++ added /\
    NoDup added /\
    forall v, In v added <-> In v (adjacentVertices f1) \/ In v (adjacentVertices f2).
Proof.
  clear indices tpe_gradient_pair faces.
  unfold GetVerticesWithoutDuplicates.
  destruct (push_unseen_loop (adjacentVertices f1) verts []) as [new1 [H1 [Hnd1 [Hin1 Hset1]]]].
  destruct (fold_left push_unseen (adjacentVertices f1) (verts, [])) as [verts1 seen1] eqn:E1.
  simpl in H1, Hset1. subst verts1.
  destruct (push_unseen_loop (adjacentVertices f2) (verts ++ new1) seen1)
    as [new2 [H2 [Hnd2 [Hin2 _]]]].
  exists (new1 ++ new2). rewrite H2, <- app_assoc. split; [reflexivity|].
  split.
  - apply NoDup_app; [exact Hnd1|exact Hnd2|].
    intros v Hv1 Hv2. apply Hin2 in Hv2. destruct Hv2 as [_ Hn]. apply Hn.
    apply Hset1. right. apply Hin1 in Hv1. tauto.
  - intro v. rewrite in_app_iff, Hin1, Hin2, Hset1. simpl.
    destruct (in_dec Nat.eq_dec v (adjacentVertices f1)); tauto.
Qed.

(** [GetVerticesWithoutDuplicates] keeps what [verts] held and appends the
    vertices of the two faces, each once, whichever of the two faces it is met
    on and however often; called on an empty vector, as [Differential] calls
    it, it leaves a vector without duplicates. *)
Theorem GetVerticesWithoutDuplicates_appends_each_vertex_once
    (f1 f2 : GCFace) (verts : list GCVertex) :
  (exists added,
      vertices_of f1 f2 verts = verts ++ added /\
      NoDup added /\
      (forall v, In v added <-> In v (adjacentVertices f1) \/ In v (adjacentVertices f2)) /\
      (length added <= length (adjacentVertices f1) + length (adjacentVertices f2))%nat) /\
  NoDup (vertices_of f1 f2 []) /\
  (forall v, In v (vertices_of f1 f2 [])
             <-> In v (adjacentVertices f1) \/ In v (adjacentVertices f2)).
Proof.
  clear indices tpe_gradient_pair faces.
  split.
  - destruct (GetVerticesWithoutDuplicates_spec f1 f2 verts) as [added [Hv [Hnd Hin]]].
    exists added. split; [exact Hv|]. split; [exact Hnd|]. split; [exact Hin|].
    rewrite <- length_app. apply NoDup_incl_length; [exact Hnd|].
    intros v Hv'. apply in_app_iff, Hin, Hv'.
  - destruct (GetVerticesWithoutDuplicates_spec f1 f2 []) as [added [Hv [Hnd Hin]]].
    rewrite Hv. simpl. split; [exact Hnd|exact Hin].
Qed.

(** A loop whose every turn adds [w a] to a quantity [m] of the state adds
    their sum. *)
Lemma foldM_adds (A S : Type) (body : S -> A -> outcome S) (inv : S -> Prop)
    (m : S -> Q) (w : A -> Q) (l : list A) :
  (forall s a, In a l -> inv s ->
     exists s', body s a = Returns s' /\ inv s' /\ m s' == m s + w a) ->
  forall s, inv s ->
    exists s', foldM body l s = Returns s' /\ inv s' /\ m s' == m s + sum_over l w.
Proof.
  clear.
  induction l as [|a rest IH]; intros Hbody s Hs; simpl.
  - exists s. split; [reflexivity|]. split; [exact Hs|]. ring.
  - destruct (Hbody s a (or_introl eq_refl) Hs) as [s1 [E [Hs1 Hm1]]].
    rewrite E. cbn [bind].
    destruct (IH (fun s a Ha => Hbody s a (or_intror Ha)) s1 Hs1) as [s' [E' [Hs' Hm']]].
    exists s'. split; [exact E'|]. split; [exact Hs'|]. rewrite Hm', Hm1. ring.
Qed.

Lemma add_to_row_spec (output : Matrix3) (r : nat) (sum : Vector3) :
  (r < length output)%nat ->
  exists output',
    add_to_row output r sum = Returns output' /\
    length output' = length output /\
    nth r output' vzero = vadd (nth r output vzero) sum /\
    forall i, i <> r -> nth i output' vzero = nth i output vzero.
Proof.
  clear. intro Hr. unfold add_to_row, GetRow.
  destruct (nth_error output r) as [row|] eqn:E;
    [|apply nth_error_None in E; lia].
  cbn [of_option bind]. unfold set_row.
  destruct (@list_set_Some _ output r (vadd row sum) Hr) as [output' E'].
  rewrite E'. cbn [of_option].
  destruct (list_set_spec _ _ _ E') as [_ [Hlen [Hget Hother]]].
  exists output'. split; [reflexivity|]. split; [exact Hlen|]. split.
  - rewrite (nth_error_nth _ _ _ Hget), (nth_error_nth _ _ _ E). reflexivity.
  - intros i Hi. unfold nth_default. 
    assert (H := Hother i Hi).
    destruct (nth_error output i) as [x|] eqn:Ei.
    + rewrite (nth_error_nth _ _ _ H), (nth_error_nth _ _ _ Ei). reflexivity.
    + apply nth_error_None in Ei. apply nth_error_None in H.
      rewrite !nth_overflow by lia. reflexivity.
Qed.

Section One_coordinate.

(** One of the coordinates [vx], [vy], [vz]. *)
Variable c : Vector3 -> Q.
Hypothesis c_vadd : forall a b, c (vadd a b) = c a + c b.

(** The row [r]. *)
Variable r : nat.

Lemma vertex_loop (g : GCVertex -> Vector3) (l : list GCVertex) (n : nat) :
  (forall v, In v l -> (indices v < n)%nat) ->
  forall output, length output = n ->
    exists output',
      foldM (fun output v => add_to_row output (indices v) (g v)) l output
        = Returns output' /\
      length output' = n /\
      c (nth r output' vzero)
      == c (nth r output vzero)
         + sum_over l (fun v => if (r =? indices v)%nat then c (g v) else 0).
Proof using c_vadd.
  clear faces tpe_gradient_pair adjacentVertices.
  intro Hin.
  apply (@foldM_adds GCVertex Matrix3
           (fun output v => add_to_row output (indices v) (g v))
           (fun output => length output = n)
           (fun output => c (nth r output vzero))
           (fun v => if (r =? indices v)%nat then c (g v) else 0) l).
  intros s v Hv Hs.
  destruct (@add_to_row_spec s (indices v) (g v)) as [s' [E [Hlen [Hget Hother]]]].
  { rewrite Hs. apply Hin, Hv. }
  exists s'. split; [exact E|]. split; [congruence|].
  destruct (r =? indices v)%nat eqn:Er.
  - apply Nat.eqb_eq in Er. subst r. rewrite Hget, c_vadd. reflexivity.
  - apply Nat.eqb_neq in Er. rewrite (Hother r Er). ring.
Qed.

Local Abbreviation pair_adds := (pair_adds adjacentVertices indices tpe_gradient_pair c r).

Lemma Differential_rows (n : nat) :
  (forall f v, In f faces -> In v (adjacentVertices f) -> (indices v < n)%nat) ->
  forall output, length output = n ->
    exists output',
      AllPairs_Differential faces adjacentVertices indices tpe_gradient_pair output
        = Returns output' /\
      length output' = n /\
      c (nth r output' vzero)
      == c (nth r output vzero)
         + sum_over faces (fun f1 => sum_over faces (fun f2 => pair_adds f1 f2)).
Proof using c_vadd.
  intro Hin. unfold AllPairs_Differential.
  apply (@foldM_adds GCFace Matrix3 _ (fun output => length output = n)
           (fun output => c (nth r output vzero))
           (fun f1 => sum_over faces (fun f2 => pair_adds f1 f2)) faces).
  intros s f1 Hf1 Hs.
  apply (@foldM_adds GCFace Matrix3 _ (fun output => length output = n)
           (fun output => c (nth r output vzero))
           (fun f2 => pair_adds f1 f2) faces); [|exact Hs].
  clear s Hs. intros s f2 Hf2 Hs. unfold pair_adds.
  destruct (f1 =? f2)%nat.
  - exists s. split; [reflexivity|]. split; [exact Hs|]. ring.
  - apply vertex_loop; [|exact Hs].
    intros v Hv.
    destruct (GetVerticesWithoutDuplicates_spec f1 f2 []) as [added [Ev [_ Hmem]]].
    rewrite Ev in Hv. simpl in Hv. apply Hmem in Hv.
    destruct Hv as [Hv|Hv]; [exact (Hin f1 v Hf1 Hv)|exact (Hin f2 v Hf2 Hv)].
Qed.

End One_coordinate.

(** With one index for each vertex, what a pair of faces adds to the row of
    a vertex is the derivative for that vertex, once, when the vertex is on
    either face. *)
Lemma pair_adds_vertex (c : Vector3 -> Q) (u : GCVertex) (f1 f2 : GCFace) :
  (forall a b, indices a = indices b -> a = b) ->
  pair_adds adjacentVertices indices tpe_gradient_pair c (indices u) f1 f2
  == if (f1 =? f2)%nat then 0
     else if existsb (Nat.eqb u) (adjacentVertices f1 ++ adjacentVertices f2)
          then c (tpe_gradient_pair f1 f2 u) else 0.
Proof.
  clear faces.
  intro Hinj. unfold pair_adds. destruct (f1 =? f2)%nat; [reflexivity|].
  destruct (GetVerticesWithoutDuplicates_spec f1 f2 []) as [added [Ev [Hnd Hmem]]].
  rewrite Ev. simpl.
  destruct (existsb (Nat.eqb u) (adjacentVertices f1 ++ adjacentVertices f2)) eqn:E.
  - apply existsb_exists in E. destruct E as [x [Hx Hux]].
    apply Nat.eqb_eq in Hux. subst x.
    assert (Hu : In u added) by (apply Hmem, in_app_iff, Hx).
    apply (@sum_over_key GCVertex indices added
             (fun v => c (tpe_gradient_pair f1 f2 v)) u); [|exact Hu].
    apply Finite.Injective_map_NoDup; [exact Hinj|exact Hnd].
  - apply sum_over_zero. intros v Hv.
    destruct (indices u =? indices v)%nat eqn:Ei; [|reflexivity].
    apply Nat.eqb_eq, Hinj in Ei. subst v. exfalso.
    assert (existsb (Nat.eqb u) (adjacentVertices f1 ++ adjacentVertices f2) = true).
    { apply existsb_exists. exists u. split; [|apply Nat.eqb_refl].
      apply in_app_iff, Hmem, Hv. }
    congruence.
Qed.

(** [AllPairsTPEnergy::Differential] on a matrix with a row for the index of
    every vertex of every face, the indices of distinct vertices being
    distinct: it returns, the matrix keeps its size, and the row of a vertex
    has grown by the derivatives, for that vertex, of all ordered pairs of
    distinct faces of which one or the other holds the vertex, each pair
    once, also when both faces hold it. *)
Theorem AllPairs_Differential_adds_each_pair_once (output : Matrix3) :
  (forall a b, indices a = indices b -> a = b) ->
  (forall f v, In f faces -> In v (adjacentVertices f) ->
     (indices v < length output)%nat) ->
  exists output',
    AllPairs_Differential faces adjacentVertices indices tpe_gradient_pair output
      = Returns output' /\
    length output' = length output /\
    (forall u,
       veq (nth (indices u) output' vzero)
           (vadd (nth (indices u) output vzero)
                 (gradient_sum faces adjacentVertices tpe_gradient_pair u))) /\
    (forall r,
       (forall f v, In f faces -> In v (adjacentVertices f) -> indices v <> r) ->
       veq (nth r output' vzero) (nth r output vzero)).
Proof.
  intros Hinj Hin.
  destruct (@Differential_rows vx (fun _ _ => eq_refl) 0%nat (length output) Hin output
              eq_refl) as [output' [Hrun [Hlen _]]].
  exists output'. split; [exact Hrun|]. split; [exact Hlen|].
  assert (Hrow : forall c r, (forall a b, c (vadd a b) = c a + c b) ->
             c (nth r output' vzero)
             == c (nth r output vzero)
                + sum_over faces (fun f1 => sum_over faces (fun f2 =>
                    pair_adds adjacentVertices indices tpe_gradient_pair c r f1 f2))).
  { intros c r Hadd.
    destruct (@Differential_rows c Hadd r (length output) Hin output eq_refl)
      as [output'' [Hrun' [_ Hsum]]].
    assert (output'' = output') by congruence. subst output''. exact Hsum. }
  split.
  - intro u.
    assert (Hc : forall c, (forall a b, c (vadd a b) = c a + c b) ->
               c (nth (indices u) output' vzero)
               == c (nth (indices u) output vzero)
                  + coordinate_sum faces adjacentVertices tpe_gradient_pair c u).
    { intros c Hadd. rewrite (Hrow c (indices u) Hadd).
      apply Qplus_comp; [reflexivity|]. unfold coordinate_sum.
      apply sum_over_ext. intros f1 _. apply sum_over_ext. intros f2 _.
      apply pair_adds_vertex. exact Hinj. }
    unfold veq, gradient_sum. simpl.
    split; [|split].
    + exact (Hc vx (fun _ _ => eq_refl)).
    + exact (Hc vy (fun _ _ => eq_refl)).
    + exact (Hc vz (fun _ _ => eq_refl)).
  - intros r Hr.
    assert (Hc : forall c, (forall a b, c (vadd a b) = c a + c b) ->
               c (nth r output' vzero) == c (nth r output vzero)).
    { intros c Hadd. rewrite (Hrow c r Hadd).
      rewrite sum_over_zero; [ring|].
      intros f1 Hf1. apply sum_over_zero. intros f2 Hf2.
      unfold pair_adds. destruct (f1 =? f2)%nat; [reflexivity|].
      apply sum_over_zero. intros v Hv.
      destruct (GetVerticesWithoutDuplicates_spec f1 f2 []) as [added [Ev [_ Hmem]]].
      rewrite Ev in Hv. simpl in Hv. apply Hmem in Hv.
      destruct (r =? indices v)%nat eqn:Er; [|reflexivity].
      apply Nat.eqb_eq in Er. exfalso.
      destruct Hv as [Hv|Hv]; [apply (Hr f1 v Hf1 Hv)|apply (Hr f2 v Hf2 Hv)];
        symmetry; exact Er. }
    unfold veq. split; [|split].
    + exact (Hc vx (fun _ _ => eq_refl)).
    + exact (Hc vy (fun _ _ => eq_refl)).
    + exact (Hc vz (fun _ _ => eq_refl)).
Qed.

End All_pairs_properties.

(** ** [fixDelaunay]: the queue of edges *)

Lemma push_unqueued_loop (l : list Edge) :
  forall toCheck inQueue,
    let state := fold_left push_unqueued l (toCheck, inQueue) in
    (length (fst state) <= length toCheck + length l)%nat /\
    (forall e, In e toCheck -> In e (fst state)) /\
    (forall e, In e l -> snd state e = true) /\
    (forall e, inQueue e = true -> snd state e = true) /\
    (forall e, snd state e = true -> inQueue e = true \/ In e l) /\
    (forall e, snd state e = true -> inQueue e = false -> In e (fst state)).
Proof.
  induction l as [|x rest IH]; intros toCheck inQueue; cbn zeta.
  - simpl. repeat split; try tauto; try lia. intros e H1 H2. congruence.
  - cbn [fold_left].
    change (push_unqueued (toCheck, inQueue) x)
      with (if negb (inQueue x) then (toCheck ++ [x], set_flag inQueue x true)
            else (toCheck, inQueue)).
    destruct (inQueue x) eqn:Ex; cbn [negb].
    + destruct (IH toCheck inQueue) as [Hlen [Hkeep [Hin [Hold [Hnew Hq]]]]].
      cbn zeta in *.
      split; [cbn [length]; lia|]. split; [exact Hkeep|]. split.
      { intros e [<-|He]; [apply Hold, Ex|apply Hin, He]. }
      split; [exact Hold|]. split; [|exact Hq].
      intros e He. destruct (Hnew e He); [tauto|right; right; assumption].
    + destruct (IH (toCheck ++ [x]) (set_flag inQueue x true))
        as [Hlen [Hkeep [Hin [Hold [Hnew Hq]]]]].
      cbn zeta in *. rewrite length_app in Hlen. cbn [length] in *.
      split; [lia|]. split.
      { intros e He. apply Hkeep, in_app_iff. left. exact He. }
      split.
      { intros e [<-|He]; [|apply Hin, He].
        apply Hold. unfold set_flag. rewrite Nat.eqb_refl. reflexivity. }
      split.
      { intros e He. apply Hold. unfold set_flag.
        destruct (e =? x)%nat; [reflexivity|exact He]. }
      split.
      { intros e He. destruct (Hnew e He) as [H|H]; [|right; right; exact H].
        unfold set_flag in H. destruct (e =? x)%nat eqn:E; [|left; exact H].
        apply Nat.eqb_eq in E. right. left. symmetry. exact E. }
      intros e He Hf.
      destruct (Nat.eq_dec e x) as [->|Hne].
      * apply Hkeep, in_app_iff. right. left. reflexivity.
      * apply Hq; [exact He|]. unfold set_flag.
        apply Nat.eqb_neq in Hne. rewrite Hne. exact Hf.
Qed.

Section Delaunay_properties.

Variable Mesh : Type.
Variable edges : Mesh -> list Edge.
Variable nVertices : Mesh -> Z.
Variable isBoundary : Mesh -> Edge -> bool.
Variable isDelaunay : Mesh -> Edge -> bool.
Variable diamond : Mesh -> Edge -> Edge * Edge * Edge * Edge.
Variable flip : Mesh -> Edge -> Mesh.

Local Abbreviation loop := (fixDelaunay_loop isBoundary isDelaunay diamond flip).
Local Abbreviation queue_invariant := (queue_invariant edges isBoundary isDelaunay).

(** Each turn of the loop takes an edge off the queue and either flips, and
    then puts at most four edges on it, or does not: the loop ends. *)
Lemma fixDelaunay_loop_returns (flipMax : Z) (fuel : nat) :
  forall mesh toCheck inQueue flipCnt,
    (length toCheck + 4 * Z.to_nat (flipMax - flipCnt) <= fuel)%nat ->
    exists mesh' toCheck' flipCnt',
      loop fuel flipMax mesh toCheck inQueue flipCnt = Returns (mesh', toCheck', flipCnt') /\
      (flipCnt <= flipCnt')%Z /\
      (flipCnt' <= Z.max flipCnt flipMax)%Z /\
      (toCheck' = [] \/ flipMax <= flipCnt')%Z.
Proof.
  clear edges nVertices.
  induction fuel as [|fuel IH]; intros mesh toCheck inQueue flipCnt Hfuel.
  - destruct toCheck as [|e rest]; simpl.
    + exists mesh, [], flipCnt. split; [reflexivity|]. split; [lia|]. split; [lia|]. left. reflexivity.
    + destruct (flipCnt <? flipMax)%Z eqn:E.
      * apply Z.ltb_lt in E. simpl in Hfuel. lia.
      * apply Z.ltb_ge in E. exists mesh, (e :: rest), flipCnt.
        split; [reflexivity|]. split; [lia|]. split; [lia|]. right. exact E.
  - destruct toCheck as [|e rest]; cbn [fixDelaunay_loop].
    + exists mesh, [], flipCnt. split; [reflexivity|]. split; [lia|]. split; [lia|]. left. reflexivity.
    + destruct (flipCnt <? flipMax)%Z eqn:E.
      2:{ apply Z.ltb_ge in E. exists mesh, (e :: rest), flipCnt.
          split; [reflexivity|]. split; [lia|]. split; [lia|]. right. exact E. }
      apply Z.ltb_lt in E. cbn [length] in Hfuel.
      destruct (negb (isBoundary mesh e) && negb (isDelaunay mesh e)).
      * destruct (diamond mesh e) as [[[e1 e2] e3] e4].
        destruct (push_unqueued_loop [e1; e2; e3; e4] rest (set_flag inQueue e false))
          as [Hlen _].
        cbn zeta in Hlen.
        destruct (fold_left push_unqueued [e1; e2; e3; e4]
                    (rest, set_flag inQueue e false)) as [toCheck' inQueue'].
        cbn [fst length] in Hlen.
        destruct (IH (flip mesh e) toCheck' inQueue' (flipCnt + 1)%Z)
          as [m [q [c [Hrun [H1 [H2 H3]]]]]].
        { replace (flipMax - flipCnt)%Z with (Z.succ (flipMax - (flipCnt + 1)))%Z in Hfuel
            by lia.
          rewrite Z2Nat.inj_succ in Hfuel by lia. lia. }
        exists m, q, c. split; [exact Hrun|]. split; [lia|]. split; [lia|exact H3].
      * destruct (IH mesh rest (set_flag inQueue e false) flipCnt)
          as [m [q [c [Hrun [H1 [H2 H3]]]]]]; [lia|].
        exists m, q, c. split; [exact Hrun|]. split; [lia|]. split; [lia|exact H3].
Qed.

Lemma first_loop (l : list Edge) :
  forall toCheck inQueue,
    fold_left (fun '(toCheck, inQueue) e => (toCheck ++ [e], set_flag inQueue e true))
      l (toCheck, inQueue)
    = (toCheck ++ l,
       snd (fold_left (fun '(toCheck, inQueue) e => (toCheck ++ [e], set_flag inQueue e true))
              l (toCheck, inQueue))) /\
    forall e,
      snd (fold_left (fun '(toCheck, inQueue) e => (toCheck ++ [e], set_flag inQueue e true))
             l (toCheck, inQueue)) e = true <->
      inQueue e = true \/ In e l.
Proof.
  clear.
  induction l as [|x rest IH]; intros toCheck inQueue.
  - simpl. rewrite app_nil_r. split; [reflexivity|]. tauto.
  - cbn [fold_left].
    destruct (IH (toCheck ++ [x]) (set_flag inQueue x true)) as [E Hin].
    split.
    + rewrite E at 1. rewrite <- app_assoc. reflexivity.
    + intro e. rewrite Hin. unfold set_flag. simpl.
      destruct (e =? x)%nat eqn:Ex.
      * apply Nat.eqb_eq in Ex. subst. tauto.
      * apply Nat.eqb_neq in Ex. split; [tauto|]. intros [H|[H|H]]; try tauto.
        exfalso. apply Ex. symmetry. exact H.
Qed.

(** [fixDelaunay] ends on every mesh, whatever [flip] and [isDelaunay] do:
    after at most as many turns of the loop as the mesh has edges plus four
    for each allowed flip it has returned, having flipped at most [flipMax]
    times, with the queue empty unless the flips are used up. *)
Theorem fixDelaunay_terminates (mesh : Mesh) :
  let flipMax := flipMax_of nVertices mesh in
  exists mesh' toCheck flipCnt,
    fixDelaunay edges nVertices isBoundary isDelaunay diamond flip
      (length (edges mesh) + 4 * Z.to_nat flipMax) mesh
    = Returns (mesh', toCheck, flipCnt) /\
    (0 <= flipCnt <= Z.max 0 flipMax)%Z /\
    (toCheck = [] \/ flipMax <= flipCnt)%Z.
Proof.
  cbn zeta. unfold fixDelaunay.
  destruct (first_loop (edges mesh) [] (fun _ => false)) as [E _].
  rewrite E. cbn [app].
  destruct (@fixDelaunay_loop_returns (flipMax_of nVertices mesh)
              (length (edges mesh) + 4 * Z.to_nat (flipMax_of nVertices mesh))
              mesh (edges mesh)
              (snd (fold_left
                      (fun '(toCheck, inQueue) e => (toCheck ++ [e], set_flag inQueue e true))
                      (edges mesh) ([], fun _ => false))) 0%Z)
    as [m [q [c [Hrun [H1 [H2 H3]]]]]].
  { rewrite Z.sub_0_r. lia. }
  exists m, q, c. split; [exact Hrun|]. split; [lia|exact H3].
Qed.

Section Local_flips.

(** What the loop relies on: a flip keeps the edges and the boundary, it
    changes whether an edge is Delaunay for no edge other than the flipped
    one and the four around it, and the flipped edge is Delaunay
    afterwards. *)
Hypothesis flip_edges : forall m e, edges (flip m e) = edges m.
Hypothesis flip_boundary : forall m e e', isBoundary (flip m e) e' = isBoundary m e'.
Hypothesis flip_local : forall m e e',
  e' <> e -> ~ In e' (diamond_edges diamond m e) ->
  isDelaunay (flip m e) e' = isDelaunay m e'.
Hypothesis flip_fixes : forall m e,
  isBoundary m e = false -> isDelaunay m e = false -> isDelaunay (flip m e) e = true.

Lemma fixDelaunay_loop_invariant (flipMax : Z) (fuel : nat) :
  forall mesh toCheck inQueue flipCnt mesh' toCheck' flipCnt',
    loop fuel flipMax mesh toCheck inQueue flipCnt = Returns (mesh', toCheck', flipCnt') ->
    queue_invariant mesh toCheck inQueue ->
    (exists inQueue', queue_invariant mesh' toCheck' inQueue') /\
    (toCheck' = [] \/ flipMax <= flipCnt')%Z.
Proof using flip_edges flip_boundary flip_local flip_fixes.
  clear nVertices.
  induction fuel as [|fuel IH];
    intros mesh toCheck inQueue flipCnt mesh' toCheck' flipCnt' H Hinv.
  - destruct toCheck as [|e rest]; simpl in H.
    + inversion H; subst. split; [exists inQueue; exact Hinv|left; reflexivity].
    + destruct (flipCnt <? flipMax)%Z eqn:E; [discriminate|].
      apply Z.ltb_ge in E. inversion H; subst.
      split; [exists inQueue; exact Hinv|right; exact E].
  - destruct toCheck as [|e rest]; cbn [fixDelaunay_loop] in H.
    + inversion H; subst. split; [exists inQueue; exact Hinv|left; reflexivity].
    + destruct (flipCnt <? flipMax)%Z eqn:E.
      2:{ apply Z.ltb_ge in E. inversion H; subst.
          split; [exists inQueue; exact Hinv|right; exact E]. }
      destruct Hinv as [Ha Hb].
      assert (Ha1 : forall e', set_flag inQueue e false e' = true -> In e' rest).
      { intros e' He'. unfold set_flag in He'.
        destruct (e' =? e)%nat eqn:Ee; [discriminate|].
        apply Nat.eqb_neq in Ee. destruct (Ha e' He') as [Hh|Hr]; [|exact Hr].
        exfalso. apply Ee. symmetry. exact Hh. }
      assert (Hb1 : forall e', e' <> e -> set_flag inQueue e false e' = inQueue e').
      { intros e' Hne. unfold set_flag. apply Nat.eqb_neq in Hne. rewrite Hne. reflexivity. }
      destruct (negb (isBoundary mesh e) && negb (isDelaunay mesh e)) eqn:Econd.
      * apply andb_true_iff in Econd. destruct Econd as [Eb Ed].
        apply negb_true_iff in Eb. apply negb_true_iff in Ed.
        pose proof (@flip_local mesh e) as Hlocal. unfold diamond_edges in Hlocal.
        destruct (diamond mesh e) as [[[e1 e2] e3] e4].
        destruct (push_unqueued_loop [e1; e2; e3; e4] rest (set_flag inQueue e false))
          as [_ [Hkeep [Hin [Hold [_ Hq]]]]].
        cbn zeta in Hkeep, Hin, Hold, Hq.
        destruct (fold_left push_unqueued [e1; e2; e3; e4]
                    (rest, set_flag inQueue e false)) as [toCheck2 inQueue2].
        cbn [fst snd] in Hkeep, Hin, Hold, Hq.
        apply (IH _ _ _ _ _ _ _ H). split.
        -- intros e' He'.
           destruct (set_flag inQueue e false e') eqn:E1.
           ++ apply Hkeep, Ha1, E1.
           ++ apply Hq; [exact He'|exact E1].
        -- intros e' He' Hdown. rewrite flip_edges in He'.
           assert (Hnot : ~ In e' [e1; e2; e3; e4]).
           { intro Hd. rewrite (Hin e' Hd) in Hdown. discriminate. }
           assert (Hdown1 : set_flag inQueue e false e' = false).
           { destruct (set_flag inQueue e false e') eqn:E1; [|reflexivity].
             rewrite (Hold e' E1) in Hdown. discriminate. }
           destruct (Nat.eq_dec e' e) as [->|Hne].
           ++ right. apply flip_fixes; assumption.
           ++ rewrite flip_boundary, (Hlocal e' Hne Hnot).
              apply Hb; [exact He'|]. rewrite <- (Hb1 e' Hne). exact Hdown1.
      * apply (IH _ _ _ _ _ _ _ H). split; [exact Ha1|].
        intros e' He' Hdown.
        destruct (Nat.eq_dec e' e) as [->|Hne].
        -- apply andb_false_iff in Econd.
           destruct Econd as [Ec|Ec]; apply negb_false_iff in Ec; tauto.
        -- apply Hb; [exact He'|]. rewrite <- (Hb1 e' Hne). exact Hdown.
Qed.

(** With such flips, when [fixDelaunay] returns with flips to spare, the
    queue is empty and every edge of the mesh it leaves is on the boundary
    or Delaunay. *)
Theorem fixDelaunay_leaves_Delaunay_edges
    (fuel : nat) (mesh mesh' : Mesh) (toCheck : list Edge) (flipCnt : Z) :
  fixDelaunay edges nVertices isBoundary isDelaunay diamond flip fuel mesh
    = Returns (mesh', toCheck, flipCnt) ->
  (flipCnt < flipMax_of nVertices mesh)%Z ->
  toCheck = [] /\
  forall e, In e (edges mesh') -> isBoundary mesh' e = true \/ isDelaunay mesh' e = true.
Proof using flip_edges flip_boundary flip_local flip_fixes.
  unfold fixDelaunay. intros H Hcnt.
  destruct (first_loop (edges mesh) [] (fun _ => false)) as [E Hflags].
  rewrite E in H. cbn [app] in H.
  destruct (@fixDelaunay_loop_invariant _ _ _ _ _ _ _ _ _ H) as [[inQueue' [Ha Hb]] Hend].
  - split.
    + intros e He. apply Hflags in He. destruct He as [He|He]; [discriminate|exact He].
    + intros e He Hdown. exfalso.
      assert (Hup : snd (fold_left
                (fun '(toCheck, inQueue) e => (toCheck ++ [e], set_flag inQueue e true))
                (edges mesh) ([], fun _ => false)) e = true)
        by (apply Hflags; right; exact He).
      congruence.
  - destruct Hend as [Hq|Hmax]; [|lia]. split; [exact Hq|].
    intros e He. apply Hb; [exact He|].
    destruct (inQueue' e) eqn:Eq; [|reflexivity].
    apply Ha in Eq. rewrite Hq in Eq. destruct Eq.
Qed.

End Local_flips.

End Delaunay_properties.

(** ** [shouldFlip]: the rule on the degrees *)

Lemma int_wrap_small (z : Z) : (- 2 ^ 31 <= z < 2 ^ 31)%Z -> int_wrap z = z.
Proof.
  intro H. unfold int_wrap. rewrite Z.mod_small; lia.
Qed.

(** One term of [degreeDifference], for a degree that is not huge. *)
Lemma degree_term (d : Z) :
  (-1 <= d <= 10001)%Z ->
  int_mul (int_abs (int_sub d 6)) (int_abs (int_sub d 6)) = ((d - 6) * (d - 6))%Z /\
  (0 <= (d - 6) * (d - 6) <= 100000000)%Z.
Proof.
  intro H. unfold int_mul, int_abs, int_sub.
  rewrite (@int_wrap_small (d - 6)%Z) by lia.
  rewrite (@int_wrap_small (Z.abs (d - 6))%Z) by lia.
  assert (Hsq : (Z.abs (d - 6) * Z.abs (d - 6) = (d - 6) * (d - 6))%Z) by lia.
  rewrite Hsq. assert (0 <= (d - 6) * (d - 6) <= 100000000)%Z by nia.
  split; [apply int_wrap_small; lia|assumption].
Qed.

Lemma degreeDifference_small (d1 d2 d3 d4 : Z) :
  (-1 <= d1 <= 10001)%Z -> (-1 <= d2 <= 10001)%Z ->
  (-1 <= d3 <= 10001)%Z -> (-1 <= d4 <= 10001)%Z ->
  degreeDifference d1 d2 d3 d4
  = ((d1 - 6) * (d1 - 6) + (d2 - 6) * (d2 - 6) + (d3 - 6) * (d3 - 6)
     + (d4 - 6) * (d4 - 6))%Z.
Proof.
  intros H1 H2 H3 H4. unfold degreeDifference.
  destruct (degree_term H1) as [-> B1]. destruct (degree_term H2) as [-> B2].
  destruct (degree_term H3) as [-> B3]. destruct (degree_term H4) as [-> B4].
  unfold int_add.
  rewrite (@int_wrap_small ((d1 - 6) * (d1 - 6) + (d2 - 6) * (d2 - 6))%Z) by lia.
  rewrite (@int_wrap_small ((d1 - 6) * (d1 - 6) + (d2 - 6) * (d2 - 6)
                            + (d3 - 6) * (d3 - 6))%Z) by lia.
  apply int_wrap_small. lia.
Qed.

(** For degrees up to 10000, [shouldFlip] allows the flip exactly when the
    diamond angle is not below [PI / 2] and the degrees of the two ends of
    the edge are together more than 2 above those of the two vertices
    across; and then the flip, which takes one from the former and gives one
    to the latter, brings [degreeDifference] down. *)
Theorem shouldFlip_degree_rule (below : bool) (d1 d2 d3 d4 : Z) :
  (0 <= d1 <= 10000)%Z -> (0 <= d2 <= 10000)%Z ->
  (0 <= d3 <= 10000)%Z -> (0 <= d4 <= 10000)%Z ->
  shouldFlip below d1 d2 d3 d4 = negb below && (d1 + d2 - d3 - d4 >? 2)%Z /\
  (shouldFlip below d1 d2 d3 d4 = true ->
   (degreeDifference (d1 - 1) (d2 - 1) (d3 + 1) (d4 + 1)
    < degreeDifference d1 d2 d3 d4)%Z).
Proof.
  intros H1 H2 H3 H4.
  assert (E0 : degreeDifference d1 d2 d3 d4
               = ((d1 - 6) * (d1 - 6) + (d2 - 6) * (d2 - 6) + (d3 - 6) * (d3 - 6)
                  + (d4 - 6) * (d4 - 6))%Z)
    by (apply degreeDifference_small; lia).
  assert (E1 : degreeDifference (d1 - 1) (d2 - 1) (d3 + 1) (d4 + 1)
               = ((d1 - 7) * (d1 - 7) + (d2 - 7) * (d2 - 7) + (d3 - 5) * (d3 - 5)
                  + (d4 - 5) * (d4 - 5))%Z).
  { rewrite degreeDifference_small by lia. ring. }
  assert (Ecmp : (degreeDifference d1 d2 d3 d4
                  >? degreeDifference (d1 - 1) (d2 - 1) (d3 + 1) (d4 + 1))%Z
                 = (d1 + d2 - d3 - d4 >? 2)%Z).
  { rewrite E0, E1. rewrite !Z.gtb_ltb.
    destruct (2 <? d1 + d2 - d3 - d4)%Z eqn:E.
    - apply Z.ltb_lt in E. apply Z.ltb_lt. lia.
    - apply Z.ltb_ge in E. apply Z.ltb_ge. lia. }
  assert (Eflip : shouldFlip below d1 d2 d3 d4
                  = negb below && (d1 + d2 - d3 - d4 >? 2)%Z).
  { unfold shouldFlip, int_sub, int_add. rewrite !int_wrap_small by lia.
    destruct below; [reflexivity|]. exact Ecmp. }
  split; [exact Eflip|].
  intro Hflip. rewrite Eflip in Hflip. apply andb_true_iff in Hflip.
  destruct Hflip as [_ Hgt]. rewrite <- Ecmp in Hgt.
  rewrite Z.gtb_ltb in Hgt. apply Z.ltb_lt in Hgt. exact Hgt.
Qed.

(** ** [smoothByLaplacian] *)

Lemma set_position_loop (f : GCVertex -> Vector3) (vs : list GCVertex) :
  forall p0 u,
    fold_left (fun p v => set_position p v (f v)) vs p0 u
    = if existsb (Nat.eqb u) vs then f u else p0 u.
Proof.
  induction vs as [|v rest IH]; intros p0 u; simpl; [reflexivity|].
  rewrite IH. unfold set_position.
  destruct (u =? v)%nat eqn:E; simpl.
  - apply Nat.eqb_eq in E. subst. destruct (existsb (Nat.eqb v) rest); reflexivity.
  - reflexivity.
Qed.

Lemma projectToPlane_tangent (v n : Vector3) :
  dot n n == 1 -> dot n (projectToPlane v n) == 0.
Proof.
  unfold projectToPlane, vsub, vtimes, dot. cbn [vx vy vz]. intro H.
  set (a := vx n) in *. set (b := vy n) in *. set (c := vz n) in *.
  set (s := a * vx v + b * vy v + c * vz v).
  transitivity (s - (a * a + b * b + c * c) * s); [unfold s; ring|].
  rewrite H. ring.
Qed.

Section Smoothing_properties.

Variable vertices : list GCVertex.
Variable isBoundary : GCVertex -> bool.
Variable adjacentVertices : GCVertex -> list GCVertex.
Variable degree : GCVertex -> Z.
Variable vertexNormals : GCVertex -> Vector3.

Local Abbreviation smooth :=
  (smoothByLaplacian vertices isBoundary adjacentVertices degree vertexNormals).

Lemma smoothByLaplacian_at (positions : VertexPositions) (u : GCVertex) :
  smooth positions u
  = if existsb (Nat.eqb u) vertices
    then smoothed isBoundary adjacentVertices degree vertexNormals positions u
    else positions u.
Proof.
  unfold smoothByLaplacian.
  rewrite (set_position_loop
             (fold_left (fun newVertexPosition v =>
                set_position newVertexPosition v
                  (smoothed isBoundary adjacentVertices degree vertexNormals positions v))
                vertices (fun _ => vzero)) vertices positions u).
  destruct (existsb (Nat.eqb u) vertices) eqn:E; [|reflexivity].
  rewrite (set_position_loop
             (smoothed isBoundary adjacentVertices degree vertexNormals positions)
             vertices (fun _ => vzero) u).
  rewrite E. reflexivity.
Qed.

(** [smoothByLaplacian] leaves the vertices of the boundary, and whatever is
    no vertex of the mesh, where they are, and moves a vertex inside, of
    which the normal has length 1, within its tangent plane: the step is at
    a right angle to the normal.  Every step is taken from the positions
    before the call, also for a vertex whose neighbours were met first.  A
    vertex inside has a positive degree, by which the sum over its
    neighbours is divided. *)
Theorem smoothByLaplacian_moves_in_tangent_plane (positions : VertexPositions) (v : GCVertex) :
  (isBoundary v = false -> (0 < degree v)%Z) ->
  (isBoundary v = true \/ ~ In v vertices -> smooth positions v = positions v) /\
  (isBoundary v = false -> In v vertices ->
   smooth positions v
   = smoothed isBoundary adjacentVertices degree vertexNormals positions v /\
   (dot (vertexNormals v) (vertexNormals v) == 1 ->
    dot (vertexNormals v) (vsub (smooth positions v) (positions v)) == 0)).
Proof.
  intros _. rewrite smoothByLaplacian_at. split.
  - intros [Hb|Hv].
    + unfold smoothed. rewrite Hb. destruct (existsb (Nat.eqb v) vertices); reflexivity.
    + destruct (existsb (Nat.eqb v) vertices) eqn:E; [|reflexivity].
      exfalso. apply Hv. apply existsb_exists in E. destruct E as [x [Hx Hvx]].
      apply Nat.eqb_eq in Hvx. subst. exact Hx.
  - intros Hb Hv.
    assert (E : existsb (Nat.eqb v) vertices = true)
      by (apply existsb_exists; exists v; split; [exact Hv|apply Nat.eqb_refl]).
    rewrite E. split; [reflexivity|].
    intro Hn. unfold smoothed. rewrite Hb.
    set (u := projectToPlane _ (vertexNormals v)).
    assert (Hu : dot (vertexNormals v) u == 0) by (apply projectToPlane_tangent; exact Hn).
    unfold dot in *. unfold vsub, vadd, vscale. cbn [vx vy vz].
    set (a := vx (vertexNormals v)) in *. set (b := vy (vertexNormals v)) in *.
    set (c := vz (vertexNormals v)) in *.
    transitivity (a * vx u + b * vy u + c * vz u); [ring|exact Hu].
Qed.

End Smoothing_properties.

(** ** On binary64 doubles: where the code leaves the exact arithmetic *)

Section Binary64_constructor.

Variable normalize : Binary64.Vector3 -> Binary64.Vector3.
Variable indeterminate_vec : Binary64.Vector3.
Variable indeterminate : float.

Local Abbreviation new64 := (Binary64.BVHNode6D_new normalize indeterminate_vec indeterminate).

(** A split that sends every body to [lesserPoints] hands the same bodies to
    the first child. *)
Lemma split_without_progress (points : list Binary64.MassNormalPoint) (axis : Z)
    (sp : float) (fuel : nat) :
  (2 <= length points)%nat ->
  Binary64.AxisSplittingPlane points axis = Some sp ->
  Binary64.split_points points axis sp = Some (points, []) ->
  new64 fuel points (NextAxis axis) = OutOfFuel ->
  new64 (S fuel) points axis = OutOfFuel.
Proof.
  intros Hlen Hplane Hsplit Hchild.
  destruct points as [|a [|b r]]; [simpl in Hlen; lia|simpl in Hlen; lia|].
  cbn [Binary64.BVHNode6D_new]. rewrite Hplane, Hsplit. cbn zeta.
  rewrite Hchild. reflexivity.
Qed.

Lemma adjacent_bodies_loop (fuel : nat) :
  forall axis, axis = 0%Z \/ axis = 1%Z \/ axis = 2%Z ->
    new64 fuel adjacent_bodies axis = OutOfFuel.
Proof.
  induction fuel as [|fuel IH]; intros axis Haxis; [reflexivity|].
  destruct Haxis as [H|[H|H]]; subst axis.
  - apply (@split_without_progress adjacent_bodies 0%Z 0x1.0000000000002p+0%float fuel);
      [simpl; lia|vm_compute; reflexivity|vm_compute; reflexivity|].
    apply IH. right. left. reflexivity.
  - apply (@split_without_progress adjacent_bodies 1%Z 0%float fuel);
      [simpl; lia|vm_compute; reflexivity|vm_compute; reflexivity|].
    apply IH. right. right. reflexivity.
  - apply (@split_without_progress adjacent_bodies 2%Z 0%float fuel);
      [simpl; lia|vm_compute; reflexivity|vm_compute; reflexivity|].
    apply IH. left. reflexivity.
Qed.

(** C9, on binary64 doubles.  The two bodies of [adjacent_bodies] have
    different barycenters: they differ in [x], by one unit in the last
    place.  On the x axis the code's [(coords[0] + coords[1]) / 2] rounds to
    the greater of the two coordinates, so both bodies pass
    [coord <= splitPoint] and [greaterPoints] is empty; on the y and the z
    axis the coordinates are equal and the same happens.  The first child is
    built from the same two bodies on the next axis, and so on: with no
    amount of fuel does the constructor return. *)
Theorem BVHNode6D_new_binary64_never_returns :
  (Binary64.vx (Binary64.Body.point (nth 0 adjacent_bodies (body64 0 0 0 0 0)))
   <? Binary64.vx (Binary64.Body.point (nth 1 adjacent_bodies (body64 0 0 0 0 0))))%float
  = true /\
  Binary64.AxisSplittingPlane adjacent_bodies 0
  = Some (Binary64.vx (Binary64.Body.point (nth 1 adjacent_bodies (body64 0 0 0 0 0)))) /\
  Binary64.split_points adjacent_bodies 0 0x1.0000000000002p+0%float
  = Some (adjacent_bodies, []) /\
  forall fuel, new64 fuel adjacent_bodies 0 = OutOfFuel.
Proof.
  split; [vm_compute; reflexivity|].
  split; [vm_compute; reflexivity|].
  split; [vm_compute; reflexivity|].
  intro fuel. apply adjacent_bodies_loop. left. reflexivity.
Qed.

(** C10, on binary64 doubles.  The coordinates [1e200], [2e200] and [4e200]
    are finite.  Every [sumSquares] of the selection loop is a square of a
    difference of at least [1e200], which is [+infinity]; no
    [sumSquares < minWidths] holds against [minWidths = INFINITY], and
    [splitIndex] is still [(size_t) -1] when [coords[splitIndex]] is read.
    The read is outside the vector, in [AxisSplittingPlane] and so in the
    constructor. *)
Theorem AxisSplittingPlane_binary64_splitIndex_unset :
  Binary64.all_coords far_bodies 0 = Some [1e200; 2e200; 4e200]%float /\
  forallb (fun c => negb (PrimFloat.is_nan c) && negb (PrimFloat.is_infinity c))
    [1e200; 2e200; 4e200]%float = true /\
  map (Binary64.sumSquares_at [1e200; 2e200; 4e200]%float 3) [0; 1; 2]%nat
  = [infinity; infinity; infinity] /\
  Binary64.select_splitIndex (Binary64.sort [1e200; 2e200; 4e200]%float) = size_t_minus_one /\
  Binary64.coord_at (Binary64.sort [1e200; 2e200; 4e200]%float) size_t_minus_one = None /\
  Binary64.AxisSplittingPlane far_bodies 0 = None /\
  forall fuel, new64 (S fuel) far_bodies 0 = Aborts.
Proof.
  repeat (split; [vm_compute; reflexivity|]).
  intro fuel. unfold far_bodies. cbn [Binary64.BVHNode6D_new].
  replace (Binary64.AxisSplittingPlane
             [body64 1 1e200 0 0 0; body64 1 2e200 0 0 1; body64 1 4e200 0 0 2] 0)
    with (@None float) by (vm_compute; reflexivity).
  reflexivity.
Qed.

End Binary64_constructor.

(** C7, on binary64 doubles.  The energy is 1 at the start; its gradient
    has norm 1, so [StepLineSearch] starts from the guess 1.  The first
    trial moves vertex 0 to [x = 0], where the energy is [0 / 0], a NaN.
    [decrease] is then a NaN, [decrease < targetDecrease] is false, and the
    [else] branch accepts: the step 1 is returned and the positions are
    kept, although [decrease >= targetDecrease] is false as well and the
    energy is not below the energy at the start. *)
Theorem LineSearchStep_binary64_accepts_NaN_energy :
  exists positions',
    Binary64.LineSearchStep two_vertices same_index ratio_energy first_row_norm 5
      ratio_gradient 1 1 ratio_start = Returns (1%float, positions') /\
    Binary64.StepLineSearch two_vertices same_index ratio_energy (fun _ => ratio_gradient)
      first_row_norm 5 ratio_start = Returns (1%float, positions') /\
    (0 <? 1)%float = true /\
    positions' 0%nat = Binary64.mkVector3 0 0 0 /\
    ratio_energy ratio_start = 1%float /\
    PrimFloat.is_nan (ratio_energy positions') = true /\
    (0.01 * 1 * first_row_norm ratio_gradient * 1
     <=? ratio_energy ratio_start - ratio_energy positions')%float = false /\
    (ratio_energy positions' <? ratio_energy ratio_start)%float = false.
Proof.
  eexists. split; [vm_compute; reflexivity|].
  repeat (split; [vm_compute; reflexivity|]).
  vm_compute. reflexivity.
Qed.

(** ** The example tree *)

Unset Implicit Arguments.

Lemma six_tree_built : Create6DBVH (fun v => v) vzero 0 4 six_bodies = Returns six_tree.
Proof. vm_compute. reflexivity. Qed.

Lemma six_tree_shape :
  well_numbered 0 six_tree /\
  Permutation (clusterIndices six_tree) (map Body.elementID six_bodies).
Proof.
  exact (@Create6DBVH_shape (fun v => v) vzero 0 4%nat six_bodies six_tree six_tree_built).
Qed.

Lemma six_tree_binary : binary_tree six_tree.
Proof. exact (proj1 (proj1 six_tree_shape)). Qed.

Lemma six_tree_faces : clusterIndices six_tree = [0; 1; 2; 3; 4; 5]%Z.
Proof. vm_compute. reflexivity. Qed.

Lemma AfFullProduct_adds_rows_witness :
  exists result',
    AfFullProduct metric_term_s1 unit_areas six_barycenters 1
      (mkClusterPair six_left six_left) [1; 2; 3; 4; 5; 6] (repeat 0 6) = Returns result' /\
    length result' = 6%nat /\
    vec_at result' 0
    == 0 + 2 * unit_areas 0
           * sum_over (clusterIndices six_left)
               (spec_pair_term metric_term_s1 unit_areas six_barycenters 1
                  [1; 2; 3; 4; 5; 6] 0) /\
    vec_at result' 0 == - (4838 # 21609) /\
    vec_at result' 3 == 0.
Proof.
  assert (HI : forall i, In i (clusterIndices (cluster1 (mkClusterPair six_left six_left))) ->
             in_vector [1; 2; 3; 4; 5; 6] i /\ in_vector (repeat 0 6) i).
  { intros i Hi. vm_compute in Hi.
    destruct Hi as [Hi|[Hi|[Hi|[]]]]; subst i; split; unfold in_vector; simpl; lia. }
  assert (HJ : forall j, In j (clusterIndices (cluster2 (mkClusterPair six_left six_left))) ->
             in_vector [1; 2; 3; 4; 5; 6] j).
  { intros j Hj. vm_compute in Hj.
    destruct Hj as [Hj|[Hj|[Hj|[]]]]; subst j; unfold in_vector; simpl; lia. }
  destruct (@AfFullProduct_adds_rows metric_term_s1 unit_areas six_barycenters 1
              (mkClusterPair six_left six_left) [1; 2; 3; 4; 5; 6] (repeat 0 6) HI HJ)
    as [result' [Hrun [Hlen [_ [Hout Hin]]]]].
  exists result'. split; [exact Hrun|]. split; [exact Hlen|].
  assert (H0 : vec_at result' 0
               == 0 + 2 * unit_areas 0
                      * sum_over (clusterIndices six_left)
                          (spec_pair_term metric_term_s1 unit_areas six_barycenters 1
                             [1; 2; 3; 4; 5; 6] 0)).
  { apply Hin.
    - vm_compute. repeat constructor; simpl; intuition discriminate.
    - vm_compute. left. reflexivity. }
  split; [exact H0|]. split.
  - rewrite H0. vm_compute. reflexivity.
  - rewrite (Hout 3%Z); [reflexivity|lia|].
    vm_compute. intros [H|[H|[H|[]]]]; discriminate.
Defined.

Lemma six_bct_built :
  BlockClusterTree_new rational_norm closed_box_contains metric_term_s1 1 (1 # 4)
    4 six_tree = Returns six_bct.
Proof. vm_compute. reflexivity. Qed.

Lemma six_tree_distinct_faces : NoDup (clusterIndices six_tree).
Proof. rewrite six_tree_faces. repeat constructor; simpl; intuition discriminate. Qed.

Lemma BlockClusterTree_Af_1_admissible_sums_witness :
  length (Af_1 six_bct) = 6%nat /\
  In six_first_leaf (leaves six_tree) /\
  elementID six_first_leaf = 0%Z /\
  vec_at (Af_1 six_bct) 0 == 3 # 100000000.
Proof.
  destruct (@BlockClusterTree_Af_1_admissible_sums rational_norm closed_box_contains
              metric_term_s1 1 (1 # 4) 4 0 six_tree six_bct
              (proj1 six_tree_shape) six_tree_distinct_faces six_bct_built)
    as [Hlen Hentry].
  assert (Hin : In six_first_leaf (leaves six_tree)) by (vm_compute; left; reflexivity).
  assert (Hid : elementID six_first_leaf = 0%Z) by (vm_compute; reflexivity).
  split; [exact Hlen|]. split; [exact Hin|]. split; [exact Hid|].
  specialize (Hentry six_first_leaf Hin). rewrite Hid in Hentry.
  apply (Qeq_trans _ _ _ Hentry). vm_compute. reflexivity.
Defined.

(** C3, as the claim has it, fails: for the six faces, whose leaves carry
    the areas and barycenters of the mesh, the entry of face 0 of [Af_1] is
    neither the entry of [A] applied to the all-ones vector, which is 0, nor
    the row sum [area_0 sum_(j <> 0) area_j k_s(x_0, x_j)] of the kernel. *)
Lemma Af_1_is_not_A_of_ones :
  BlockClusterTree_new rational_norm closed_box_contains metric_term_s1 1 (1 # 4)
    4 six_tree = Returns six_bct /\
  map (fun L => (elementID L, totalMass L, centerOfMass L)) (leaves six_tree)
  = map (fun f => (f, unit_areas f, six_barycenters f)) [0; 1; 2; 3; 4; 5]%Z /\
  ~ vec_at (Af_1 six_bct) 0
    == spec_A metric_term_s1 unit_areas six_barycenters 1 [0; 1; 2; 3; 4; 5]%Z
         (repeat 1 6) 0 /\
  ~ vec_at (Af_1 six_bct) 0
    == unit_areas 0
       * sum_over [0; 1; 2; 3; 4; 5]%Z (af metric_term_s1 unit_areas six_barycenters 1 0).
Proof.
  split; [vm_compute; reflexivity|]. split; [vm_compute; reflexivity|].
  split; vm_compute; discriminate.
Qed.

Lemma BlockClusterTree_build_follows_rules_witness :
  let l0 := mkPairLists [] [] [mkClusterPair six_tree six_tree] in
  let round := spec_round rational_norm closed_box_contains (1 # 4) in
  (exists l1,
      splitInadmissibleNodes rational_norm closed_box_contains (1 # 4) l0 = Returns l1 /\
      l1 = round l0) /\
  (exists l',
      split_loop rational_norm closed_box_contains (1 # 4) 4 l0 = Returns l' /\
      unresolvedPairs l' = [] /\
      exists n, l' = Nat.iter n round l0 /\
                forall m, (m < n)%nat -> unresolvedPairs (Nat.iter m round l0) <> []) /\
  (binary_tree six_tree /\ (height six_tree <= 4)%nat /\
   exists l, build_pairs rational_norm closed_box_contains (1 # 4) 4 six_tree = Returns l).
Proof.
  cbv zeta.
  destruct (@BlockClusterTree_build_follows_rules rational_norm closed_box_contains (1 # 4))
    as [_ [Hround [Hloop Hends]]].
  split; [|split].
  - destruct (splitInadmissibleNodes rational_norm closed_box_contains (1 # 4)
                (mkPairLists [] [] [mkClusterPair six_tree six_tree])) as [l1| |] eqn:E;
      [|vm_compute in E; discriminate|vm_compute in E; discriminate].
    exists l1. split; [reflexivity|]. apply Hround. exact E.
  - destruct (split_loop rational_norm closed_box_contains (1 # 4) 4
                (mkPairLists [] [] [mkClusterPair six_tree six_tree])) as [l'| |] eqn:E;
      [|vm_compute in E; discriminate|vm_compute in E; discriminate].
    exists l'. split; [reflexivity|]. apply (Hloop _ _ _ E).
  - split; [exact six_tree_binary|].
    split; [vm_compute; lia|].
    apply Hends; [exact six_tree_binary|vm_compute; lia].
Defined.

Lemma BlockClusterTree_pairs_cover_once_witness :
  binary_tree six_tree /\
  NoDup (clusterIndices six_tree) /\
  exists bct,
    BlockClusterTree_new rational_norm closed_box_contains metric_term_s1 1 (1 # 4)
      4 six_tree = Returns bct /\
    unresolvedPairs (pairs bct) = [] /\
    forall f1 f2,
      In f1 (clusterIndices six_tree) -> In f2 (clusterIndices six_tree) ->
      length (filter (covers f1 f2)
                (admissiblePairs (pairs bct) ++ inadmissiblePairs (pairs bct))) = 1%nat.
Proof.
  assert (Hnd : NoDup (clusterIndices six_tree)).
  { rewrite six_tree_faces. repeat constructor; simpl; intuition discriminate. }
  split; [exact six_tree_binary|]. split; [exact Hnd|].
  destruct (BlockClusterTree_new rational_norm closed_box_contains metric_term_s1 1 (1 # 4)
              4 six_tree) as [bct| |] eqn:E;
    [|vm_compute in E; discriminate|vm_compute in E; discriminate].
  exists bct. split; [reflexivity|].
  exact (@BlockClusterTree_pairs_cover_once rational_norm closed_box_contains (1 # 4)
           metric_term_s1 1 4 six_tree bct six_tree_binary Hnd E).
Defined.

(** ** More on the example tree *)

Lemma six_faces_inside (v : list Q) : length v = 6%nat -> faces_inside six_tree v.
Proof.
  intros Hlen f Hf. rewrite six_tree_faces in Hf. unfold in_vector. rewrite Hlen.
  simpl in Hf. lia.
Qed.

Lemma six_masses_are_areas : masses_are_areas unit_areas six_tree.
Proof.
  intros L HL. vm_compute in HL.
  destruct HL as [<-|[<-|[<-|[<-|[<-|[<-|[]]]]]]]; reflexivity.
Qed.

Lemma six_bodies_positive : forall p, In p six_bodies -> 0 < Body.mass p.
Proof.
  intros p Hp. simpl in Hp.
  destruct Hp as [<-|[<-|[<-|[<-|[<-|[<-|[]]]]]]]; reflexivity.
Qed.

Lemma six_pairs_built :
  build_pairs rational_norm closed_box_contains (1 # 4) 4 six_tree = Returns (pairs six_bct).
Proof.
  exact (proj1 (proj2 (@BlockClusterTree_new_parts rational_norm closed_box_contains metric_term_s1 1 (1 # 4) 4 six_tree six_bct six_bct_built))).
Qed.

Lemma exact_products_give_operator_A_witness :
  exists b1 b2,
    MultiplyAdmissibleExact metric_term_s1 unit_areas six_barycenters 1 six_bct
      six_values (repeat 0 6) = Returns b1 /\
    MultiplyInadmissible metric_term_s1 unit_areas six_barycenters 1 six_bct six_values b1
      = Returns b2 /\
    length b2 = 6%nat /\
    vec_at b2 0
    == vec_at (repeat 0 6) 0
       + spec_A metric_term_s1 unit_areas six_barycenters 1 (clusterIndices six_tree)
           six_values 0.
Proof.
  destruct (@exact_products_give_operator_A rational_norm closed_box_contains
              metric_term_s1 unit_areas six_barycenters 1 (1 # 4) 4 0 six_tree six_bct
              six_values (repeat 0 6)
              (proj1 six_tree_shape) six_tree_distinct_faces six_bct_built
              (six_faces_inside six_values eq_refl) (six_faces_inside (repeat 0 6) eq_refl))
    as [b1 [b2 [H1 [H2 [H3 H4]]]]].
  exists b1, b2. split; [exact H1|]. split; [exact H2|]. split; [exact H3|].
  apply H4. rewrite six_tree_faces. left. reflexivity.
Defined.

Lemma MultiplyAfPercolated_cluster_sums_witness :
  exists b',
    MultiplyAfPercolated metric_term_s1 1 (tree_root six_bct) (admissibleByCluster six_bct)
      six_values (repeat 0 6) = Returns b' /\
    length b' = 6%nat /\
    vec_at b' 0 == 15 # 100000000.
Proof.
  destruct (@MultiplyAfPercolated_cluster_sums rational_norm closed_box_contains
              metric_term_s1 unit_areas 1 (1 # 4) 4 0 six_tree six_bct
              six_values (repeat 0 6)
              (proj1 six_tree_shape) six_tree_distinct_faces six_masses_are_areas
              six_bct_built
              (six_faces_inside six_values eq_refl) (six_faces_inside (repeat 0 6) eq_refl))
    as [b' [H1 [H2 [H3 _]]]].
  exists b'. split; [exact H1|]. split; [exact H2|].
  assert (Hin : In 0%Z (clusterIndices six_tree))
    by (rewrite six_tree_faces; left; reflexivity).
  apply (Qeq_trans _ _ _ (H3 0%Z Hin)). vm_compute. reflexivity.
Defined.

Lemma MultiplyAdmissiblePercolated_is_MultiplyAdmissible_witness :
  exists bp ba,
    MultiplyAdmissiblePercolated metric_term_s1 1 six_bct six_values six_values = Returns bp /\
    MultiplyAdmissible metric_term_s1 unit_areas 1 six_bct six_values
      (repeat 0 (nElements six_tree)) = Returns ba /\
    vec_at bp 0 == vec_at ba 0.
Proof.
  destruct (@MultiplyAdmissiblePercolated_is_MultiplyAdmissible rational_norm
              closed_box_contains metric_term_s1 unit_areas 1 (1 # 4) 4 0 six_tree six_bct
              six_values six_values
              (proj1 six_tree_shape) six_tree_distinct_faces six_masses_are_areas
              six_bct_built (six_faces_inside six_values eq_refl))
    as [bp [ba [H1 [H2 H3]]]].
  - vm_compute. reflexivity.
  - vm_compute. reflexivity.
  - exists bp, ba. split; [exact H1|]. split; [exact H2|].
    apply H3. rewrite six_tree_faces. left. reflexivity.
Defined.

Lemma AfApproxProduct_adds_center_rows_witness :
  exists result',
    AfApproxProduct metric_term_s1 unit_areas 1 (mkClusterPair six_left six_right)
      six_values (repeat 0 6) = Returns result' /\
    length result' = 6%nat /\
    vec_at result' 3 == vec_at (repeat 0 6) 3 /\
    vec_at result' 0 == - (24 # 100000000).
Proof.
  assert (HI : forall i, In i (clusterIndices (cluster1 (mkClusterPair six_left six_right))) ->
             in_vector six_values i /\ in_vector (repeat 0 6) i).
  { intros i Hi. vm_compute in Hi.
    destruct Hi as [Hi|[Hi|[Hi|[]]]]; subst i; split; unfold in_vector; simpl; lia. }
  assert (HJ : forall j, In j (clusterIndices (cluster2 (mkClusterPair six_left six_right))) ->
             in_vector six_values j).
  { intros j Hj. vm_compute in Hj.
    destruct Hj as [Hj|[Hj|[Hj|[]]]]; subst j; unfold in_vector; simpl; lia. }
  destruct (@AfApproxProduct_adds_center_rows metric_term_s1 unit_areas 1
              (mkClusterPair six_left six_right) six_values (repeat 0 6) HI HJ)
    as [result' [Hrun [Hlen [Hout Hin]]]].
  exists result'. split; [exact Hrun|]. split; [exact Hlen|]. split.
  - apply Hout; [lia|]. vm_compute. intros [H|[H|[H|[]]]]; discriminate.
  - assert (Hnd : NoDup (clusterIndices (cluster1 (mkClusterPair six_left six_right))))
      by (vm_compute; repeat constructor; simpl; intuition discriminate).
    assert (H0 : In 0%Z (clusterIndices (cluster1 (mkClusterPair six_left six_right))))
      by (vm_compute; left; reflexivity).
    apply (Qeq_trans _ _ _ (Hin Hnd 0%Z H0)). vm_compute. reflexivity.
Defined.

Lemma build_pairs_lists_classified_witness :
  (forall p, In p (admissiblePairs (pairs six_bct)) ->
     isPairAdmissible rational_norm closed_box_contains p (1 # 4) = true /\
     nodeID (cluster1 p) <> nodeID (cluster2 p) /\
     (0 < nElements (cluster1 p))%nat /\ (0 < nElements (cluster2 p))%nat /\
     ((1 < nElements (cluster1 p))%nat \/ (1 < nElements (cluster2 p))%nat)) /\
  length (admissiblePairs (pairs six_bct)) = 2%nat /\
  length (inadmissiblePairs (pairs six_bct)) = 2%nat.
Proof.
  split; [|split; vm_compute; reflexivity].
  exact (proj1 (@build_pairs_lists_classified rational_norm closed_box_contains (1 # 4)
                  4 six_tree (pairs six_bct) six_pairs_built)).
Defined.

Lemma BlockClusterTree_new_returns_witness :
  exists bct,
    BlockClusterTree_new rational_norm closed_box_contains metric_term_s1 1 (1 # 4)
      4 six_tree = Returns bct /\
    tree_root bct = six_tree /\
    unresolvedPairs (pairs bct) = [] /\
    length (admissibleByCluster bct) = numNodesInBranch six_tree /\
    length (Af_1 bct) = nElements six_tree.
Proof.
  apply (@BlockClusterTree_new_returns rational_norm closed_box_contains metric_term_s1
           1 (1 # 4) 4 six_tree (proj1 six_tree_shape)).
  - intros f Hf. rewrite six_tree_faces in Hf.
    replace (nElements six_tree) with 6%nat by (vm_compute; reflexivity).
    simpl in Hf. lia.
  - vm_compute. lia.
Defined.

Lemma Create6DBVH_boxes_contain_faces_witness :
  inside_box six_tree (centerOfMass six_first_leaf) /\
  inside_box six_left (centerOfMass six_first_leaf).
Proof.
  assert (HL : In six_first_leaf (leaves six_tree)) by (vm_compute; left; reflexivity).
  split.
  - exact (proj1 (@Create6DBVH_boxes_contain_faces (fun v => v) vzero 0 4 six_bodies
                    six_tree six_tree_built six_tree (subnodes_self six_tree)
                    six_first_leaf HL)).
  - assert (HN : In six_left (subnodes six_tree))
      by (vm_compute; right; left; reflexivity).
    assert (HL' : In six_first_leaf (leaves six_left)) by (vm_compute; left; reflexivity).
    exact (proj1 (@Create6DBVH_boxes_contain_faces (fun v => v) vzero 0 4 six_bodies
                    six_tree six_tree_built six_left HN six_first_leaf HL')).
Defined.

Lemma Create6DBVH_leaves_are_the_bodies_witness :
  Permutation (map GetMassNormalPoint (leaves six_tree)) six_bodies /\
  length (leaves six_tree) = length six_bodies /\
  forall L, In L (leaves six_tree) -> nodeType L = Leaf /\ children L = [].
Proof.
  exact (@Create6DBVH_leaves_are_the_bodies (fun v => v) vzero 0 4 six_bodies six_tree
           six_tree_built).
Defined.

Lemma Create6DBVH_branch_ids_witness :
  nodeID six_tree = 0%nat /\
  map nodeID (subnodes six_left) = seq (nodeID six_left) (numNodesInBranch six_left) /\
  (nodeID six_left + numNodesInBranch six_left <= numNodesInBranch six_tree)%nat.
Proof.
  destruct (@Create6DBVH_branch_ids (fun v => v) vzero 0 4 six_bodies six_tree
              six_tree_built) as [H0 Hall].
  split; [exact H0|].
  assert (HN : In six_left (subnodes six_tree))
    by (vm_compute; right; left; reflexivity).
  exact (proj2 (Hall six_left HN)).
Defined.

Lemma recomputeCentersOfMass_same_geometry_witness :
  recomputeCentersOfMass (fun v => v) unit_areas six_barycenters six_tree
  = Returns six_tree.
Proof.
  apply (@recomputeCentersOfMass_same_geometry (fun v => v) unit_areas six_barycenters
           vzero 0 4 six_bodies six_tree six_tree_built).
  intros p Hp. simpl in Hp.
  destruct Hp as [<-|[<-|[<-|[<-|[<-|[<-|[]]]]]]]; split; reflexivity.
Defined.

Lemma recomputeCentersOfMass_new_geometry_witness :
  exists n',
    recomputeCentersOfMass (fun v => v) moved_areas moved_barycenters six_tree
      = Returns n' /\
    clusterIndices n' = clusterIndices six_tree /\
    totalMass n' == 12.
Proof.
  destruct (@recomputeCentersOfMass_new_geometry (fun v => v) moved_areas moved_barycenters
              six_tree six_tree_binary (proj1 (proj2 (proj1 six_tree_shape))))
    as [n' [Hrun [_ [Hci Hall]]]].
  exists n'. split; [exact Hrun|]. split; [exact Hci|].
  destruct (Hall n' (subnodes_self n')) as [Hm _].
  rewrite Hm, Hci, six_tree_faces. vm_compute. reflexivity.
Defined.

Lemma split_on_equal_coordinates_witness :
  exists sp,
    AxisSplittingPlane three_bodies 1 = Some sp /\
    (forall c, In c [0; 0; 0] -> c == sp) /\
    split_points three_bodies 1 sp = Some (three_bodies, []).
Proof.
  apply (@split_on_equal_coordinates three_bodies 1 [0; 0; 0]).
  - reflexivity.
  - simpl. lia.
  - vm_compute. reflexivity.
  - reflexivity.
Defined.

Lemma BVHNode6D_new_invalid_axis_witness :
  BVHNode6D_new (fun v => v) vzero 0 1 three_bodies 7 = Aborts /\
  (0 <= NextAxis 7 <= 2)%Z.
Proof.
  assert (Haxis : ~ (0 <= 7 <= 5)%Z) by lia.
  destruct (@BVHNode6D_new_invalid_axis (fun v => v) vzero 0 0 three_bodies 7 Haxis)
    as [Habort [_ Hnext]].
  split; [apply Habort; simpl; lia|exact Hnext].
Defined.

Lemma LineSearchStep_returns_witness :
  exists delta positions',
    LineSearchStep two_vertices same_index square_energy first_entry_norm 2
      (square_differential start_positions) (4 # 10000000000) 1 start_positions
      = Returns (delta, positions') /\
    (delta = 0 \/ LS_STEP_THRESHOLD < delta).
Proof.
  apply (@LineSearchStep_returns two_vertices same_index square_energy first_entry_norm
           (square_differential start_positions) (4 # 10000000000) 1 start_positions
           2 2).
  - intros v Hv. simpl in Hv. unfold same_index. simpl. lia.
  - intros v Hv. simpl in Hv. unfold same_index. simpl. lia.
  - vm_compute. discriminate.
  - lia.
Defined.

Lemma LineSearchStep_small_gradient_witness :
  LineSearchStep two_vertices same_index square_energy first_entry_norm 0
    zero_gradient 1 1 start_positions = Returns (0, start_positions).
Proof.
  apply (@LineSearchStep_small_gradient two_vertices same_index square_energy
           first_entry_norm zero_gradient 1 1 start_positions 0).
  - intros v Hv. simpl in Hv. unfold same_index. simpl. lia.
  - reflexivity.
Defined.

Lemma StepNaive_moves_against_gradient_witness :
  exists positions',
    StepNaive two_vertices same_index square_differential (1 # 4) start_positions
      = Returns positions' /\
    positions' 0%nat = vsub (start_positions 0%nat) (vtimes (mkVector3 (2 * 1) 0 0) (1 # 4)) /\
    positions' 2%nat = start_positions 2%nat.
Proof.
  destruct (@StepNaive_moves_against_gradient two_vertices same_index square_differential
              (1 # 4) start_positions) as [p [Hrun [Hmoved Hkept]]].
  - repeat constructor; simpl; intuition discriminate.
  - intros v Hv. simpl in Hv. unfold same_index. simpl. lia.
  - exists p. split; [exact Hrun|]. split.
    + destruct (Hmoved 0%nat (or_introl eq_refl)) as [g [Hg Hp]].
      vm_compute in Hg. inversion Hg; subst g. exact Hp.
    + apply Hkept. simpl. lia.
Defined.

Lemma Create6DBVHFromMesh_leaves_are_the_faces_witness :
  Permutation (map GetMassNormalPoint (leaves six_tree))
    (map (meshFaceToBody six_mesh_index (fun _ => 1) (fun _ => mkVector3 0 0 1)
            six_mesh_barycenter) six_mesh_faces) /\
  length (leaves six_tree) = length six_mesh_faces /\
  map nodeID (subnodes six_tree) = seq 0 (length (subnodes six_tree)).
Proof.
  apply (@Create6DBVHFromMesh_leaves_are_the_faces (fun v => v) vzero 0
           six_mesh_faces six_mesh_index (fun _ => 1) (fun _ => mkVector3 0 0 1)
           six_mesh_barycenter 4 six_tree).
  - vm_compute. repeat constructor; simpl; intuition discriminate.
  - intros f Hf. unfold six_mesh_faces in Hf. apply in_seq in Hf.
    unfold six_mesh_index. simpl length. lia.
  - vm_compute. reflexivity.
Defined.

Lemma AllPairs_Differential_adds_each_pair_once_witness :
  exists output',
    AllPairs_Differential two_triangles triangle_vertices same_index labelled_gradient
      (repeat vzero 4) = Returns output' /\
    length output' = length (repeat vzero 4) /\
    (forall u,
       veq (nth (same_index u) output' vzero)
           (vadd (nth (same_index u) (repeat vzero 4) vzero)
                 (gradient_sum two_triangles triangle_vertices labelled_gradient u))) /\
    (forall r,
       (forall f v, In f two_triangles -> In v (triangle_vertices f) -> same_index v <> r) ->
       veq (nth r output' vzero) (nth r (repeat vzero 4) vzero)).
Proof.
  apply (@AllPairs_Differential_adds_each_pair_once two_triangles triangle_vertices
           same_index labelled_gradient (repeat vzero 4)).
  - intros a b H. exact H.
  - intros f v Hf Hv. unfold same_index. simpl.
    destruct Hf as [<-|[<-|[]]]; simpl in Hv; lia.
Defined.

Lemma fixDelaunay_leaves_Delaunay_edges_witness :
  fixDelaunay quad_edges (fun _ => 4%Z) quad_boundary quad_delaunay quad_diamond quad_flip
    10 [] = Returns ([0%nat], [], 1%Z) /\
  ([] : list Edge) = [] /\
  forall e, In e (quad_edges [0%nat]) ->
    quad_boundary [0%nat] e = true \/ quad_delaunay [0%nat] e = true.
Proof.
  split; [vm_compute; reflexivity|].
  apply (@fixDelaunay_leaves_Delaunay_edges (list Edge) quad_edges (fun _ => 4%Z)
           quad_boundary quad_delaunay quad_diamond quad_flip)
    with (fuel := 10%nat) (mesh := @nil Edge) (flipCnt := 1%Z).
  - intros m e. reflexivity.
  - intros m e e'. reflexivity.
  - intros m e e' Hne _. unfold quad_delaunay, quad_flip. simpl.
    apply Nat.eqb_neq in Hne. rewrite Hne. reflexivity.
  - intros m e _ _. unfold quad_delaunay, quad_flip. simpl.
    rewrite Nat.eqb_refl. reflexivity.
  - vm_compute. reflexivity.
  - vm_compute. reflexivity.
Defined.

Lemma shouldFlip_degree_rule_witness :
  shouldFlip false 8 7 5 5 = negb false && (8 + 7 - 5 - 5 >? 2)%Z /\
  (shouldFlip false 8 7 5 5 = true ->
   (degreeDifference (8 - 1) (7 - 1) (5 + 1) (5 + 1) < degreeDifference 8 7 5 5)%Z).
Proof.
  apply (@shouldFlip_degree_rule false 8 7 5 5); lia.
Defined.

Lemma smoothByLaplacian_moves_in_tangent_plane_witness :
  (fan_boundary 0%nat = true \/ ~ In 0%nat fan_vertices ->
   smoothByLaplacian fan_vertices fan_boundary fan_neighbours (fun _ => 4%Z)
     (fun _ => mkVector3 0 0 1) fan_positions 0%nat = fan_positions 0%nat) /\
  (fan_boundary 0%nat = false -> In 0%nat fan_vertices ->
   smoothByLaplacian fan_vertices fan_boundary fan_neighbours (fun _ => 4%Z)
     (fun _ => mkVector3 0 0 1) fan_positions 0%nat
   = smoothed fan_boundary fan_neighbours (fun _ => 4%Z) (fun _ => mkVector3 0 0 1)
       fan_positions 0%nat /\
   (dot (mkVector3 0 0 1) (mkVector3 0 0 1) == 1 ->
    dot (mkVector3 0 0 1)
      (vsub (smoothByLaplacian fan_vertices fan_boundary fan_neighbours (fun _ => 4%Z)
               (fun _ => mkVector3 0 0 1) fan_positions 0%nat)
            (fan_positions 0%nat)) == 0)).
Proof.
  apply (@smoothByLaplacian_moves_in_tangent_plane fan_vertices fan_boundary fan_neighbours
           (fun _ => 4%Z) (fun _ => mkVector3 0 0 1) fan_positions 0%nat).
  intros _. reflexivity.
Defined.

(** C6, as the claim has it, fails on binary64 doubles.  For three faces of
    area [10000000.1] the [totalMass] of the root, [30000000.299999997], is
    more than [1e-10] away from the sum of the masses of its leaves; for two faces of area 0 the
    [totalMass] of the root is 0 and its [centerOfMass] is [0 / 0], a NaN;
    and below a root of mass 1 a node over two faces of area 0 has a NaN as
    center, which the root takes over as [0 * NaN]. *)
Lemma Create6DBVH_binary64_mass_and_center_off :
  (Binary64.BVHNode6D_new (fun v => v) Binary64.vzero 0%float 3 large_bodies 0
   = Returns (tree64 3 large_bodies) /\
   length (Binary64.leaves (tree64 3 large_bodies)) = 3%nat /\
   Binary64.totalMass (tree64 3 large_bodies) = 30000000.299999997%float /\
   exists total leaf_sum,
     Binary64.exact (Binary64.totalMass (tree64 3 large_bodies)) = Some total /\
     exact_leaf_mass (tree64 3 large_bodies) = Some leaf_sum /\
     1 # 10000000000 <= Qabs (total - leaf_sum)) /\
  (Binary64.BVHNode6D_new (fun v => v) Binary64.vzero 0%float 2 flat_bodies 0
   = Returns (tree64 2 flat_bodies) /\
   length (Binary64.leaves (tree64 2 flat_bodies)) = 2%nat /\
   Binary64.totalMass (tree64 2 flat_bodies) = 0%float /\
   PrimFloat.is_nan (Binary64.vx (Binary64.centerOfMass (tree64 2 flat_bodies))) = true) /\
  (Binary64.BVHNode6D_new (fun v => v) Binary64.vzero 0%float 3 mixed_bodies 0
   = Returns (tree64 3 mixed_bodies) /\
   length (Binary64.leaves (tree64 3 mixed_bodies)) = 3%nat /\
   Binary64.totalMass (tree64 3 mixed_bodies) = 1%float /\
   PrimFloat.is_nan (Binary64.vx (Binary64.centerOfMass (tree64 3 mixed_bodies))) = true).
Proof.
  split.
  - split; [vm_compute; reflexivity|]. split; [vm_compute; reflexivity|].
    split; [vm_compute; reflexivity|].
    eexists. eexists. split; [vm_compute; reflexivity|].
    split; [vm_compute; reflexivity|].
    vm_compute. intro H. discriminate H.
  - split.
    + repeat (split; [vm_compute; reflexivity|]). vm_compute. reflexivity.
    + repeat (split; [vm_compute; reflexivity|]). vm_compute. reflexivity.
Qed.
